(** * OpenActa instruction language: lexer, parser and temporal resolver

    A shallow embedding of [lexer.go], [lexer_symbols.go] and [parser.go]
    (the two-token look-ahead revision of the parser), followed by the
    properties of the parser that the specification states.

    Conventions of the embedding:
    - Go [int], [int64] and [time.Duration] values are integers of [Z];
      arithmetic that Go performs at 64 bits is wrapped with [wrap64].
    - A Go [string] is a [string] of bytes; the input is taken to be ASCII.
    - A method of [*Parser] that returns [error] becomes a function
      [Parser -> result Parser]: [Ok] for a nil error, [Err] for a returned
      error, [Panic] for a run-time panic (index out of range, nil
      dereference), [OutOfFuel] when a loop is cut off by the fuel.
    - [time.Now()] reads a clock: the n-th call returns the n-th reading. *)

From Stdlib Require Import ZArith List String Ascii Bool Lia Sorted.
Import ListNotations.
Open Scope Z_scope.

(** ** Outcomes of Go calls *)

Inductive result (A : Type) : Type :=
| Ok (a : A)
| Err (e : string)
| Panic (why : string)
| OutOfFuel.

Arguments Ok {A} a.
Arguments Err {A} e.
Arguments Panic {A} why.
Arguments OutOfFuel {A}.

Definition bind {A B : Type} (m : result A) (k : A -> result B) : result B :=
  match m with
  | Ok a => k a
  | Err e => Err e
  | Panic w => Panic w
  | OutOfFuel => OutOfFuel
  end.

Notation "x <- m ;; k" := (bind m (fun x => k))
  (at level 61, m at next level, right associativity).
Notation "' pat <- m ;; k" := (bind m (fun x => match x with pat => k end))
  (at level 61, pat pattern, m at next level, right associativity).

Definition is_ok {A : Type} (r : result A) : bool :=
  match r with Ok _ => true | _ => false end.

(** ** Machine integers *)

Definition wrap64 (z : Z) : Z := (z + 2 ^ 63) mod 2 ^ 64 - 2 ^ 63.

Definition int64_min : Z := - 2 ^ 63.
Definition int64_max : Z := 2 ^ 63 - 1.

Definition in_int64 (z : Z) : Prop := int64_min <= z <= int64_max.

(** ** Strings as Go uses them *)

Definition len (s : string) : Z := Z.of_nat (String.length s).

Fixpoint drop (n : nat) (s : string) : string :=
  match n, s with
  | O, _ => s
  | S n', String _ s' => drop n' s'
  | S _, EmptyString => EmptyString
  end.

Fixpoint take (n : nat) (s : string) : string :=
  match n, s with
  | S n', String c s' => String c (take n' s')
  | _, _ => EmptyString
  end.

(** [s[pos:]] *)
Definition slice_from (s : string) (pos : Z) : result string :=
  if (0 <=? pos) && (pos <=? len s)
  then Ok (drop (Z.to_nat pos) s)
  else Panic "slice bounds out of range".

(** [l[i]] *)
Definition index {A : Type} (l : list A) (i : Z) : result A :=
  if i <? 0 then Panic "index out of range"
  else match nth_error l (Z.to_nat i) with
       | Some a => Ok a
       | None => Panic "index out of range"
       end.

Definition is_digit (c : ascii) : bool :=
  (48 <=? nat_of_ascii c)%nat && (nat_of_ascii c <=? 57)%nat.

Definition digit_val (c : ascii) : Z := Z.of_nat (nat_of_ascii c) - 48.

Fixpoint all_digits (s : string) : bool :=
  match s with
  | EmptyString => true
  | String c s' => is_digit c && all_digits s'
  end.

Fixpoint digits_val (acc : Z) (s : string) : Z :=
  match s with
  | EmptyString => acc
  | String c s' => digits_val (10 * acc + digit_val c) s'
  end.

(** [strconv.Atoi]: an optional sign, then decimal digits only; a value
    outside the range of [int] is an error. *)
Definition Atoi (s : string) : option Z :=
  let '(neg, body) :=
    match s with
    | String "-" t => (true, t)
    | String "+" t => (false, t)
    | _ => (false, s)
    end in
  match body with
  | EmptyString => None
  | _ =>
      if all_digits body then
        let n := if neg then - digits_val 0 body else digits_val 0 body in
        if (int64_min <=? n) && (n <=? int64_max) then Some n else None
      else None
  end.

(** ** The part of Go's [time] package that the parser calls

    A [Time] is an instant, in nanoseconds since the Unix epoch, with the
    location its calendar fields are read in.  [time.Local] is modelled as
    a zone at a fixed offset [zone] (in seconds, east of UTC).  Calendar
    arithmetic is carried out on the proleptic Gregorian calendar in [Z]. *)

Module GoTime.

Inductive Location : Type := UTC | Local.

Record Time : Type := { unix_ns : Z; location : Location }.

Definition Second : Z := 1000000000.
Definition Minute : Z := 60 * Second.
Definition Hour : Z := 60 * Minute.
Definition day_ns : Z := 24 * Hour.

(** Nanoseconds from 1 January of year 1 (Go's zero time) to the epoch. *)
Definition unix_to_internal : Z := 62135596800 * Second.

Definition Add (t : Time) (d : Z) : Time :=
  {| unix_ns := unix_ns t + d; location := location t |}.

(** [t.Truncate(d)]: round down to a multiple of [d] since the zero time. *)
Definition Truncate (t : Time) (d : Z) : Time :=
  if d <=? 0 then t
  else Add t (- ((unix_ns t + unix_to_internal) mod d)).

Definition In_UTC (t : Time) : Time :=
  {| unix_ns := unix_ns t; location := UTC |}.

Definition UnixNano (t : Time) : Z := wrap64 (unix_ns t).

(** Days since 1970-01-01 of a civil date, and back. *)
Definition days_from_civil (y m d : Z) : Z :=
  let y' := if m <=? 2 then y - 1 else y in
  let era := y' / 400 in
  let yoe := y' - era * 400 in
  let mp := if 2 <? m then m - 3 else m + 9 in
  let doy := (153 * mp + 2) / 5 + d - 1 in
  let doe := yoe * 365 + yoe / 4 - yoe / 100 + doy in
  era * 146097 + doe - 719468.

Definition civil_from_days (z : Z) : Z * Z * Z :=
  let z' := z + 719468 in
  let era := z' / 146097 in
  let doe := z' - era * 146097 in
  let yoe := (doe - doe / 1460 + doe / 36524 - doe / 146096) / 365 in
  let doy := doe - (365 * yoe + yoe / 4 - yoe / 100) in
  let mp := (5 * doy + 2) / 153 in
  let d := doy - (153 * mp + 2) / 5 + 1 in
  let m := if mp <? 10 then mp + 3 else mp - 9 in
  ((if m <=? 2 then yoe + era * 400 + 1 else yoe + era * 400), m, d).

Definition is_leap (y : Z) : bool :=
  ((y mod 4 =? 0) && negb (y mod 100 =? 0)) || (y mod 400 =? 0).

Definition daysIn (m y : Z) : Z :=
  if m =? 2 then (if is_leap y then 29 else 28)
  else if (m =? 4) || (m =? 6) || (m =? 9) || (m =? 11) then 30 else 31.

Section Zone.

Variable zone : Z.

Definition offset (l : Location) : Z :=
  match l with UTC => 0 | Local => zone end.

(** Wall-clock nanoseconds since the epoch in the time's own location. *)
Definition wall (t : Time) : Z := unix_ns t + offset (location t) * Second.

Definition civil (t : Time) : Z * Z * Z := civil_from_days (wall t / day_ns).

Definition Year (t : Time) : Z := let '(y, _, _) := civil t in y.
Definition Month (t : Time) : Z := let '(_, m, _) := civil t in m.
Definition Day (t : Time) : Z := let '(_, _, d) := civil t in d.

(** Sunday is 0; 1 January 1970 was a Thursday. *)
Definition Weekday (t : Time) : Z := (wall t / day_ns + 4) mod 7.

(** [time.Date]: the month is normalised into the year, every other field
    overflows into the next larger one. *)
Definition Date (year month day hour min sec nsec : Z) (l : Location) : Time :=
  let m0 := month - 1 in
  let y := year + m0 / 12 in
  let m := m0 mod 12 + 1 in
  let days := days_from_civil y m 1 + (day - 1) in
  {| unix_ns := days * day_ns + hour * Hour + min * Minute + sec * Second
                + nsec - offset l * Second;
     location := l |}.

Definition AddDate (t : Time) (years months days : Z) : Time :=
  let '(y, m, d) := civil t in
  Date (y + years) (m + months) (d + days) 0 0 0 (wall t mod day_ns)
       (location t).

End Zone.

(** *** [time.Parse] for the three layouts the parser tries *)

Inductive Layout : Type := DateTime | DateOnly | TimeOnly.

Definition take_digit (s : string) : option (Z * string) :=
  match s with
  | String c s' => if is_digit c then Some (digit_val c, s') else None
  | EmptyString => None
  end.

(** [getnum]: one or two digits; exactly two when [fixed]. *)
Definition getnum (s : string) (fixed : bool) : option (Z * string) :=
  match take_digit s with
  | None => None
  | Some (a, s1) =>
      match take_digit s1 with
      | Some (b, s2) => Some (10 * a + b, s2)
      | None => if fixed then None else Some (a, s1)
      end
  end.

Definition long_year (s : string) : option (Z * string) :=
  match getnum s true with
  | Some (hi, s1) =>
      match getnum s1 true with
      | Some (lo, s2) => Some (100 * hi + lo, s2)
      | None => None
      end
  | None => None
  end.

Definition expect (c : ascii) (s : string) : option string :=
  match s with
  | String c' s' => if Ascii.eqb c c' then Some s' else None
  | EmptyString => None
  end.

Fixpoint cutspace (s : string) : string :=
  match s with
  | String " " s' => cutspace s'
  | _ => s
  end.

(** A space of the layout matches a run of spaces, or the end of the value. *)
Definition skip_space (s : string) : option string :=
  match s with
  | EmptyString => Some s
  | String " " _ => Some (cutspace s)
  | _ => None
  end.

Fixpoint span_digits (s : string) : string * string :=
  match s with
  | String c s' =>
      if is_digit c
      then let '(d, r) := span_digits s' in (String c d, r)
      else (EmptyString, s)
  | EmptyString => (EmptyString, s)
  end.

(** A fractional second after the seconds field is accepted although the
    layouts do not name one; at most nine of its digits count. *)
Definition frac_second (s : string) : Z * string :=
  match s with
  | String c s1 =>
      if (Ascii.eqb c "." || Ascii.eqb c ",") &&
         match s1 with String d _ => is_digit d | EmptyString => false end
      then
        let '(ds, r) := span_digits s1 in
        let used := take 9 ds in
        (digits_val 0 used * 10 ^ (9 - Z.of_nat (String.length used)), r)
      else (0, s)
  | EmptyString => (0, s)
  end.

Definition parse_date (s : string) : option (Z * Z * Z * string) :=
  match long_year s with
  | Some (y, s1) =>
    match expect "-" s1 with
    | Some s2 =>
      match getnum s2 true with
      | Some (m, s3) =>
        if (m <=? 0) || (12 <? m) then None else
        match expect "-" s3 with
        | Some s4 =>
          match getnum s4 true with
          | Some (d, s5) => Some (y, m, d, s5)
          | None => None
          end
        | None => None
        end
      | None => None
      end
    | None => None
    end
  | None => None
  end.

Definition parse_clock (s : string) : option (Z * Z * Z * Z * string) :=
  match getnum s false with
  | Some (h, s1) =>
    if 24 <=? h then None else
    match expect ":" s1 with
    | Some s2 =>
      match getnum s2 true with
      | Some (mi, s3) =>
        if 60 <=? mi then None else
        match expect ":" s3 with
        | Some s4 =>
          match getnum s4 true with
          | Some (se, s5) =>
            if 60 <=? se then None else
            let '(ns, s6) := frac_second s5 in Some (h, mi, se, ns, s6)
          | None => None
          end
        | None => None
        end
      | None => None
      end
    | None => None
    end
  | None => None
  end.

Definition valid_day (y m d : Z) : bool := (1 <=? d) && (d <=? daysIn m y).

Definition Parse (layout : Layout) (value : string) : option Time :=
  match layout with
  | DateOnly =>
      match parse_date value with
      | Some (y, m, d, EmptyString) =>
          if valid_day y m d then Some (Date 0 y m d 0 0 0 0 UTC) else None
      | _ => None
      end
  | TimeOnly =>
      match parse_clock value with
      | Some (h, mi, se, ns, EmptyString) => Some (Date 0 0 1 1 h mi se ns UTC)
      | _ => None
      end
  | DateTime =>
      match parse_date value with
      | Some (y, m, d, s1) =>
          match skip_space s1 with
          | Some s2 =>
              match parse_clock s2 with
              | Some (h, mi, se, ns, EmptyString) =>
                  if valid_day y m d
                  then Some (Date 0 y m d h mi se ns UTC) else None
              | _ => None
              end
          | None => None
          end
      | None => None
      end
  end.

End GoTime.

(** ** Symbols and tokens ([lexer_symbols.go]) *)

Definition sym_none : Z := 0.
Definition sym_find : Z := 1.
Definition sym_sort : Z := 2.
Definition sym_group : Z := 3.
Definition sym_distinct : Z := 4.
Definition sym_all : Z := 5.
Definition sym_pipe : Z := 6.
Definition sym_matching : Z := 7.
Definition sym_since : Z := 8.
Definition sym_between : Z := 9.
Definition sym_yesterday : Z := 10.
Definition sym_before : Z := 11.
Definition sym_last : Z := 12.
Definition sym_previous : Z := 13.
Definition sym_ago : Z := 14.
Definition sym_forever : Z := 15.
Definition sym_second : Z := 16.
Definition sym_minute : Z := 17.
Definition sym_hour : Z := 18.
Definition sym_day : Z := 19.
Definition sym_week : Z := 20.
Definition sym_fortnight : Z := 21.
Definition sym_month : Z := 22.
Definition sym_quarter : Z := 23.
Definition sym_year : Z := 24.
Definition sym_century : Z := 25.
Definition sym_monday : Z := 26.
Definition sym_tuesday : Z := 27.
Definition sym_wednesday : Z := 28.
Definition sym_thursday : Z := 29.
Definition sym_friday : Z := 30.
Definition sym_saturday : Z := 31.
Definition sym_sunday : Z := 32.
Definition sym_january : Z := 33.
Definition sym_february : Z := 34.
Definition sym_march : Z := 35.
Definition sym_april : Z := 36.
Definition sym_may : Z := 37.
Definition sym_june : Z := 38.
Definition sym_july : Z := 39.
Definition sym_august : Z := 40.
Definition sym_september : Z := 41.
Definition sym_october : Z := 42.
Definition sym_november : Z := 43.
Definition sym_december : Z := 44.
Definition sym_comma : Z := 45.
Definition sym_lparen : Z := 46.
Definition sym_rparen : Z := 47.
Definition sym_minus : Z := 48.
Definition sym_plus : Z := 49.
Definition sym_equal : Z := 50.
Definition sym_not_equal : Z := 51.
Definition sym_mul : Z := 52.
Definition sym_div : Z := 53.
Definition sym_mod : Z := 54.
Definition sym_less_equal : Z := 55.
Definition sym_greater_equal : Z := 56.
Definition sym_less : Z := 57.
Definition sym_greater : Z := 58.
Definition sym_and : Z := 59.
Definition sym_or : Z := 60.
Definition sym_not : Z := 61.
Definition sym_like : Z := 62.

(** Lexer token structure, a list of these is passed to the parser. *)
Record lexer_token : Type := {
  tag : string;      (* regex tag from the regex pattern table *)
  token : Z;         (* token, or 0 for literals and identifiers *)
  val : string;      (* value for literals and identifiers *)
  stmt_pos : Z       (* position of this token in the query string *)
}.

(** ** Parser state ([parser.go]) *)

(** Item leaves.  The two pointers are [None] while nil. *)
Record item : Type := {
  lexer_sym : Z;
  lexer_tag : option string;
  lexer_val : option string
}.

Definition item_zero : item :=
  {| lexer_sym := 0; lexer_tag := None; lexer_val := None |}.

(** AND items (within OR): fields [this], [left], [right]. *)
Record and_item : Type := {
  and_this : item;
  and_left : item;
  and_right : item
}.

Definition and_item_zero : and_item :=
  {| and_this := item_zero; and_left := item_zero; and_right := item_zero |}.

(** OR items: fields [this], [left], [right], [and_list].  The slices hold
    pointers; [None] is a nil pointer. *)
Record or_item : Type := {
  or_this : item;
  or_left : item;
  or_right : item;
  and_list : list (option and_item)
}.

Definition or_item_zero : or_item :=
  {| or_this := item_zero; or_left := item_zero; or_right := item_zero;
     and_list := [] |}.

Record Parser : Type := {
  query : string;                  (* original query string *)
  tokens : list lexer_token;       (* token slice from the lexer *)
  num_tokens : Z;                  (* number of tokens in the statement *)
  token_index : Z;                 (* token index during processing *)
  fields : list string;            (* fields to return from query *)
  field_aliases : list string;     (* field aliases to return from query *)
  find_flags : Z;                  (* ALL fields *)
  time_from : Z;                   (* earliest time we want *)
  time_to : Z;                     (* latest time we want *)
  or_list : list (option or_item); (* base of item slice *)
  ticks : nat                      (* calls of time.Now() made so far *)
}.

Definition find_flags_all : Z := 1.

Definition temp_second : Z := 1000 * 1000 * 1000.
Definition temp_minute : Z := temp_second * 60.
Definition temp_hour : Z := temp_minute * 60.
Definition temp_day : Z := temp_hour * 24.
Definition temp_week : Z := temp_day * 7.
Definition temp_fortnight : Z := temp_day * 14.
Definition temp_month : Z := temp_day * 30.
Definition temp_quarter : Z := temp_day * 90.
Definition temp_year : Z := temp_day * 365.
Definition temp_century : Z := temp_year * 100.

Definition set_token_index (p : Parser) (i : Z) : Parser :=
  {| query := query p; tokens := tokens p; num_tokens := num_tokens p;
     token_index := i; fields := fields p;
     field_aliases := field_aliases p; find_flags := find_flags p;
     time_from := time_from p; time_to := time_to p; or_list := or_list p;
     ticks := ticks p |}.

Definition set_num_tokens (p : Parser) (n : Z) : Parser :=
  {| query := query p; tokens := tokens p; num_tokens := n;
     token_index := token_index p; fields := fields p;
     field_aliases := field_aliases p; find_flags := find_flags p;
     time_from := time_from p; time_to := time_to p; or_list := or_list p;
     ticks := ticks p |}.

Definition set_fields (p : Parser) (f a : list string) : Parser :=
  {| query := query p; tokens := tokens p; num_tokens := num_tokens p;
     token_index := token_index p; fields := f;
     field_aliases := a; find_flags := find_flags p;
     time_from := time_from p; time_to := time_to p; or_list := or_list p;
     ticks := ticks p |}.

Definition set_find_flags (p : Parser) (f : Z) : Parser :=
  {| query := query p; tokens := tokens p; num_tokens := num_tokens p;
     token_index := token_index p; fields := fields p;
     field_aliases := field_aliases p; find_flags := f;
     time_from := time_from p; time_to := time_to p; or_list := or_list p;
     ticks := ticks p |}.

Definition set_time_from (p : Parser) (t : Z) : Parser :=
  {| query := query p; tokens := tokens p; num_tokens := num_tokens p;
     token_index := token_index p; fields := fields p;
     field_aliases := field_aliases p; find_flags := find_flags p;
     time_from := t; time_to := time_to p; or_list := or_list p;
     ticks := ticks p |}.

Definition set_time_to (p : Parser) (t : Z) : Parser :=
  {| query := query p; tokens := tokens p; num_tokens := num_tokens p;
     token_index := token_index p; fields := fields p;
     field_aliases := field_aliases p; find_flags := find_flags p;
     time_from := time_from p; time_to := t; or_list := or_list p;
     ticks := ticks p |}.

Definition set_or_list (p : Parser) (l : list (option or_item)) : Parser :=
  {| query := query p; tokens := tokens p; num_tokens := num_tokens p;
     token_index := token_index p; fields := fields p;
     field_aliases := field_aliases p; find_flags := find_flags p;
     time_from := time_from p; time_to := time_to p; or_list := l;
     ticks := ticks p |}.

Definition tick (p : Parser) : Parser :=
  {| query := query p; tokens := tokens p; num_tokens := num_tokens p;
     token_index := token_index p; fields := fields p;
     field_aliases := field_aliases p; find_flags := find_flags p;
     time_from := time_from p; time_to := time_to p; or_list := or_list p;
     ticks := S (ticks p) |}.

(** [p.token_index += n] *)
Definition advance (p : Parser) (n : Z) : Parser :=
  set_token_index p (token_index p + n).

(** [p.tokens[i]] *)
Definition tok_at (p : Parser) (i : Z) : result lexer_token :=
  index (tokens p) i.

(** [p.tokens[i].token == sym] *)
Definition token_is (p : Parser) (i : Z) (sym : Z) : result bool :=
  t <- tok_at p i ;; Ok (token t =? sym).

(** [a && b], where evaluating [b] may panic. *)
Definition andalso (a : bool) (b : result bool) : result bool :=
  if a then b else Ok false.

(** The debug line that opens most parser functions prints
    [p.tokens[p.token_index]]; what matters of it is that it indexes. *)
Definition trace (p : Parser) : result unit :=
  _ <- tok_at p (token_index p) ;; Ok tt.

(** [fmt.Errorf(msg + " '%s'", p.query[p.tokens[i].stmt_pos:])] *)
Definition errorf_at {A : Type} (msg : string) (p : Parser) (i : Z) : result A :=
  t <- tok_at p i ;;
  s <- slice_from (query p) (stmt_pos t) ;;
  Err (msg ++ " '" ++ s ++ "'")%string.

(** [l[len(l)-1] = x] *)
Definition set_last {A : Type} (l : list A) (x : A) : result (list A) :=
  match l with
  | [] => Panic "index out of range"
  | _ => Ok (removelast l ++ [x])
  end.

(** [*ptr] *)
Definition deref {A : Type} (ptr : option A) : result A :=
  match ptr with
  | Some a => Ok a
  | None => Panic "nil pointer dereference"
  end.

Fixpoint set_nth {A : Type} (l : list A) (n : nat) (x : A) : option (list A) :=
  match l, n with
  | [], _ => None
  | _ :: l', O => Some (x :: l')
  | a :: l', S n' =>
      match set_nth l' n' x with
      | Some r => Some (a :: r)
      | None => None
      end
  end.

(** [l[i] = x] *)
Definition set_index {A : Type} (l : list A) (i : Z) (x : A) : result (list A) :=
  if i <? 0 then Panic "index out of range"
  else match set_nth l (Z.to_nat i) x with
       | Some r => Ok r
       | None => Panic "index out of range"
       end.

Definition llen {A : Type} (l : list A) : Z := Z.of_nat (List.length l).

Definition with_and_list (o : or_item) (l : list (option and_item)) : or_item :=
  {| or_this := or_this o; or_left := or_left o; or_right := or_right o;
     and_list := l |}.

(** ** The parser *)

Section Parse.

(** The clock behind [time.Now()], in nanoseconds since the epoch. *)
Variable clock : nat -> Z.

(** Offset of the local zone, in seconds east of UTC. *)
Variable zone : Z.

(** [parser.go] tests for [sym_as], which the enumeration of
    [lexer_symbols.go] does not declare; its value is left open. *)
Variable sym_as : Z.

Definition time_Now (p : Parser) : GoTime.Time * Parser :=
  ({| GoTime.unix_ns := clock (ticks p); GoTime.location := GoTime.Local |},
   tick p).

Definition do_val_expr (p : Parser) : result item :=
  t <- tok_at p (token_index p) ;;
  Ok {| lexer_sym := token t;
        lexer_tag := Some (tag t);
        lexer_val := Some (val t) |}.

Definition do_and_cond (p : Parser) : result Parser :=
  _ <- trace p ;;
  let or_ofs := llen (or_list p) - 1 in
  optr <- index (or_list p) or_ofs ;;
  o <- deref optr ;;
  let al := match and_list o with
            | [] => [None]
            | l => l ++ [Some and_item_zero]
            end in
  ol <- set_index (or_list p) or_ofs (Some (with_and_list o al)) ;;
  let p := set_or_list p ol in
  left <- do_val_expr p ;;
  let p := advance p 1 in
  if token_index p + 2 >=? num_tokens p
  then errorf_at "MATCHING statement cut short at" p (token_index p)
  else
    t <- tok_at p (token_index p) ;;
    if negb (token t =? sym_equal)
    then errorf_at "expected equal (=) sign at" p (token_index p)
    else
      this <- do_val_expr p ;;
      let p := advance p 1 in      (* skip past comparison token *)
      right <- do_val_expr p ;;
      let p := advance p 1 in
      (* put the and_item in the or_list *)
      let new_and_item :=
        {| and_this := this; and_left := left; and_right := right |} in
      optr <- index (or_list p) or_ofs ;;
      o <- deref optr ;;
      al <- set_index (and_list o) (llen (and_list o) - 1) (Some new_and_item) ;;
      ol <- set_index (or_list p) or_ofs (Some (with_and_list o al)) ;;
      Ok (set_or_list p ol).

(** The loop [for p.tokens[p.token_index].token == sym_and]. *)
Fixpoint and_loop (fuel : nat) (p : Parser) : result Parser :=
  b <- token_is p (token_index p) sym_and ;;
  if b then
    match fuel with
    | O => OutOfFuel
    | S fuel' => p' <- do_and_cond (advance p 1) ;; and_loop fuel' p'
    end
  else Ok p.

Definition do_or_cond (fuel : nat) (p : Parser) : result Parser :=
  _ <- trace p ;;
  let p := set_or_list p (match or_list p with
                          | [] => [None]
                          | l => l ++ [Some or_item_zero]
                          end) in
  left <- do_val_expr p ;;
  let p := advance p 1 in
  if token_index p + 2 >=? num_tokens p
  then errorf_at "MATCHING statement cut short at" p (token_index p)
  else
    t <- tok_at p (token_index p) ;;
    if negb (token t =? sym_equal)
    then errorf_at "expected equal (=) sign at" p (token_index p)
    else
      this <- do_val_expr p ;;
      let p := advance p 1 in      (* skip past comparison token *)
      right <- do_val_expr p ;;
      let p := advance p 1 in
      (* put the item in the or_list *)
      let new_or_item :=
        {| or_this := this; or_left := left; or_right := right;
           and_list := [] |} in
      ol <- set_index (or_list p) (llen (or_list p) - 1) (Some new_or_item) ;;
      (* do we have any (more) AND clauses? *)
      and_loop fuel (set_or_list p ol).

(** The loop [for p.tokens[p.token_index].token == sym_or]. *)
Fixpoint or_loop (fuel : nat) (p : Parser) : result Parser :=
  b <- token_is p (token_index p) sym_or ;;
  if b then
    match fuel with
    | O => OutOfFuel
    | S fuel' => p' <- do_or_cond fuel (advance p 1) ;; or_loop fuel' p'
    end
  else Ok p.

Definition do_matching_cond (fuel : nat) (p : Parser) : result Parser :=
  _ <- trace p ;;
  (* first item in MATCHING clause is regarded as an OR *)
  p <- do_or_cond fuel p ;;
  or_loop fuel p.

Definition do_int_literal (p : Parser) : result Z :=
  _ <- trace p ;;
  t <- tok_at p (token_index p) ;;
  match Atoi (val t) with
  | Some i => Ok i
  | None => errorf_at "not an integer literal at" p (token_index p)
  end.

(** Find previous specified weekday, or the one before that. *)
Definition prev_weekday (curDateTime : GoTime.Time) (weekday times : Z)
  : GoTime.Time :=
  let curDateTime :=
    GoTime.AddDate zone curDateTime 0 0
      (Z.rem (- (GoTime.Weekday zone curDateTime - weekday + 7)) 7) in
  let curDateTime :=
    if 1 <? times then GoTime.AddDate zone curDateTime 0 0 (-7)
    else curDateTime in
  GoTime.Truncate curDateTime (24 * GoTime.Hour).

(** Find previous specified month, or the one before that. *)
Definition prev_month (curDateTime : GoTime.Time) (month times : Z)
  : GoTime.Time :=
  let curYear := GoTime.Year zone curDateTime in
  let curMonth := GoTime.Month zone curDateTime in
  let times := if curMonth <=? month then wrap64 (times + 1) else times in
  let curDateTime := GoTime.Date zone curYear month 1 0 0 0 0 GoTime.UTC in
  GoTime.AddDate zone curDateTime (wrap64 (- (times - 1))) 0 0.

(** The three shapes [LAST <ref>], [<ref> BEFORE LAST], [<ref> AGO] at the
    head of [do_reltime_ref]: the unit token, the count, the moved cursor. *)
Definition reltime_shape (p : Parser) (int_literal : Z)
  : result (Z * Z * Parser) :=
  let i := token_index p in
  c1 <- andalso (i + 1 <? num_tokens p) (token_is p i sym_last) ;;
  if c1 then
    t <- tok_at p (i + 1) ;; Ok (token t, 1, advance p 2)
  else
    c2 <- andalso (i + 2 <? num_tokens p)
            (b <- token_is p (i + 1) sym_before ;;
             andalso b (token_is p (i + 2) sym_last)) ;;
    if c2 then
      t <- tok_at p i ;; Ok (token t, 2, advance p 3)
    else
      c3 <- andalso (i + 1 <? num_tokens p) (token_is p (i + 1) sym_ago) ;;
      if c3 then
        t <- tok_at p i ;; Ok (token t, int_literal, advance p 2)
      else Ok (0, 0, p).

(** The [switch tok] of [do_reltime_ref]; [None] is its default case. *)
Definition reltime_switch (tok times : Z) (curDateTime : GoTime.Time)
  : option GoTime.Time :=
  let day := 24 * GoTime.Hour in
  if tok =? sym_second then
    Some (GoTime.Add curDateTime (wrap64 (- times)))
  else if tok =? sym_minute then
    Some (GoTime.Truncate
            (GoTime.Add curDateTime (wrap64 (- wrap64 (60 * times))))
            GoTime.Minute)
  else if tok =? sym_hour then
    Some (GoTime.Truncate
            (GoTime.Add curDateTime (wrap64 (- wrap64 (3600 * times))))
            GoTime.Hour)
  else if tok =? sym_monday then Some (prev_weekday curDateTime 1 times)
  else if tok =? sym_tuesday then Some (prev_weekday curDateTime 2 times)
  else if tok =? sym_wednesday then Some (prev_weekday curDateTime 3 times)
  else if tok =? sym_thursday then Some (prev_weekday curDateTime 4 times)
  else if tok =? sym_friday then Some (prev_weekday curDateTime 5 times)
  else if tok =? sym_saturday then Some (prev_weekday curDateTime 6 times)
  else if tok =? sym_sunday then Some (prev_weekday curDateTime 0 times)
  else if tok =? sym_january then Some (prev_month curDateTime 1 times)
  else if tok =? sym_february then Some (prev_month curDateTime 2 times)
  else if tok =? sym_march then Some (prev_month curDateTime 3 times)
  else if tok =? sym_april then Some (prev_month curDateTime 4 times)
  else if tok =? sym_may then Some (prev_month curDateTime 5 times)
  else if tok =? sym_june then Some (prev_month curDateTime 6 times)
  else if tok =? sym_july then Some (prev_month curDateTime 7 times)
  else if tok =? sym_august then Some (prev_month curDateTime 8 times)
  else if tok =? sym_september then Some (prev_month curDateTime 9 times)
  else if tok =? sym_october then Some (prev_month curDateTime 10 times)
  else if tok =? sym_november then Some (prev_month curDateTime 11 times)
  else if tok =? sym_december then Some (prev_month curDateTime 12 times)
  else if tok =? sym_day then
    Some (GoTime.Truncate
            (GoTime.AddDate zone curDateTime 0 0 (wrap64 (- times))) day)
  else if tok =? sym_week then
    Some (GoTime.Truncate
            (GoTime.AddDate zone curDateTime 0 0 (wrap64 (-7 * times))) day)
  else if tok =? sym_fortnight then
    Some (GoTime.Truncate
            (GoTime.AddDate zone curDateTime 0 0 (wrap64 (-14 * times))) day)
  else if tok =? sym_month then
    Some (GoTime.Truncate
            (GoTime.AddDate zone curDateTime 0 (wrap64 (- times)) 0) day)
  else if tok =? sym_quarter then
    Some (GoTime.Truncate
            (GoTime.AddDate zone curDateTime 0 (wrap64 (-3 * times)) 0) day)
  else if tok =? sym_year then
    Some (GoTime.Truncate
            (GoTime.AddDate zone curDateTime (wrap64 (- times)) 0 0) day)
  else if tok =? sym_century then
    Some (GoTime.Truncate
            (GoTime.AddDate zone curDateTime (wrap64 (-100 * times)) 0 0) day)
  else None.

(** Returns the value stored through [clock_ref].  The parameter [end] is
    read but changes nothing. *)
Definition do_reltime_ref (p : Parser) (int_literal : Z) (end_ : bool)
  : result (Z * Parser) :=
  _ <- trace p ;;
  let '(curDateTime, p) := time_Now p in
  '(tok, times, p) <- reltime_shape p int_literal ;;
  match reltime_switch tok times curDateTime with
  | Some t => Ok (GoTime.UnixNano t, p)
  | None =>
      if int_literal =? 0
      then errorf_at "unexpected symbol at" p (token_index p)
      else Ok (GoTime.UnixNano curDateTime, p)
  end.

(** Returns the value stored through [t]: the temporal reference.  If
    [end], the time is moved to the end of the referred range. *)
Definition do_temp_ref (p : Parser) (end_ : bool) : result (Z * Parser) :=
  _ <- trace p ;;
  let '(now, p) := time_Now p in
  let clock_ref := GoTime.UnixNano (GoTime.In_UTC now) in
  let i := token_index p in
  t <- tok_at p i ;;
  if token t =? sym_day then
    (* DAY BEFORE YESTERDAY *)
    c <- andalso (i + 2 <? num_tokens p)
           (b <- token_is p (i + 1) sym_before ;;
            andalso b (token_is p (i + 2) sym_yesterday)) ;;
    if c then
      let clock_ref := wrap64 (clock_ref - 2 * temp_day) in
      let clock_ref := wrap64 (clock_ref - Z.rem clock_ref temp_day) in
      let clock_ref :=
        if end_ then wrap64 (clock_ref + (temp_day - temp_second))
        else clock_ref in
      Ok (clock_ref, advance p 3)
    else errorf_at "BEFORE YESTERDAY missing at" p i
  else if token t =? sym_yesterday then
    (* YESTERDAY *)
    let clock_ref := wrap64 (clock_ref - temp_day) in
    let clock_ref := wrap64 (clock_ref - Z.rem clock_ref temp_day) in
    let clock_ref :=
      if end_ then wrap64 (clock_ref + (temp_day - temp_second))
      else clock_ref in
    Ok (clock_ref, advance p 1)
  else if token t =? sym_last then
    do_reltime_ref p 0 end_
  else if token t =? sym_none then
    if String.eqb (tag t) "int" then
      int_literal <- do_int_literal p ;;
      do_reltime_ref (advance p 1) int_literal end_
    else
      match GoTime.Parse GoTime.DateTime (val t) with
      | Some pt => Ok (GoTime.UnixNano (GoTime.In_UTC pt), advance p 1)
      | None =>
        match GoTime.Parse GoTime.DateOnly (val t) with
        | Some pt => Ok (GoTime.UnixNano (GoTime.In_UTC pt), advance p 1)
        | None =>
          match GoTime.Parse GoTime.TimeOnly (val t) with
          | Some pt => Ok (GoTime.UnixNano (GoTime.In_UTC pt), advance p 1)
          | None => errorf_at "invalid temporal reference at" p i
          end
        end
      end
  else
    do_reltime_ref p 0 end_.

Definition do_temp_since (p : Parser) : result Parser :=
  _ <- trace p ;;
  (* decode desired start time *)
  '(t, p) <- do_temp_ref p false ;;
  let p := set_time_from p t in
  (* for SINCE, end time is now *)
  let '(now, p) := time_Now p in
  Ok (set_time_to p (GoTime.UnixNano now)).

Definition do_temp_between (p : Parser) : result Parser :=
  _ <- trace p ;;
  (* decode desired start time *)
  '(t, p) <- do_temp_ref p false ;;
  let p := set_time_from p t in
  a <- token_is p (token_index p) sym_and ;;
  if negb a
  then errorf_at "missing AND in <temp-between> at" p (token_index p)
  else
    let p := advance p 1 in        (* skip past AND keyword *)
    (* decode desired end time, inclusive *)
    '(t, p) <- do_temp_ref p true ;;
    Ok (set_time_to p t).

Definition do_temp_cond (p : Parser) : result Parser :=
  _ <- trace p ;;
  t <- tok_at p (token_index p) ;;
  p <- (if token t =? sym_since then do_temp_since (advance p 1)
        else if token t =? sym_between then do_temp_between (advance p 1)
        else Ok p) ;;
  if time_to p <? time_from p        (* is the end time before the start? *)
  then Ok (set_time_to (set_time_from p (time_to p)) (time_from p))
  else Ok p.

Definition do_derived_field (p : Parser) : result Parser :=
  _ <- trace p ;;
  let i := token_index p in
  t <- tok_at p i ;;
  if String.eqb (tag t) "int" then Ok p            (* not yet implemented *)
  else if String.eqb (tag t) "float" then Ok p     (* not yet implemented *)
  else if String.eqb (tag t) "string" then Ok p    (* not yet implemented *)
  else if String.eqb (tag t) "ident" then
    let field := val t in
    let fs := fields p ++ [field] in
    alias <- andalso (i + 2 <? num_tokens p) (token_is p (i + 1) sym_as) ;;
    if alias
    then Ok (advance (set_fields p fs (field_aliases p ++ [val t])) 3)
    else Ok (advance (set_fields p fs (field_aliases p ++ [field])) 1)
  else errorf_at "unexpected clause in <derived-key> at" p i.

(** How one round of the loop of [do_stmt_sublist] is left. *)
Inductive round : Type :=
| Continue (p : Parser) (sublist : Z)    (* back to the loop condition *)
| Break (p : Parser) (sublist : Z).      (* break exitloop *)

(** The body of the loop: the [switch] on the current token. *)
Definition sublist_body (p : Parser) (sublist : Z) : result round :=
  let i := token_index p in
  t <- tok_at p i ;;
  if token t =? sym_comma then
    (* comma before first, two adjacent, or after last *)
    bad <- (if sublist <? 1 then Ok true
            else andalso (i + 1 <? num_tokens p)
                   (b <- token_is p (i + 1) sym_none ;; Ok (negb b))) ;;
    if bad then errorf_at "expected <stmt-sublist> at" p (i + 1)
    else Ok (Continue (advance p 1) sublist)
  else if token t =? sym_matching then Ok (Break p sublist)
  else if token t =? sym_since then Ok (Break p sublist)
  else if token t =? sym_between then Ok (Break p sublist)
  else if token t =? sym_none then
    let sublist := wrap64 (sublist + 1) in
    p <- do_derived_field p ;;
    Ok (Continue p sublist)
  else
    if sublist <? 1
    then errorf_at "unexpected clause in <stmt-sublist> at" p i
    else Ok (Continue p sublist).

(** The loop of [do_stmt_sublist]; one unit of fuel per round. *)
Fixpoint sublist_loop (fuel : nat) (p : Parser) (sublist : Z)
  : result (Parser * Z) :=
  if negb (token_index p <? num_tokens p) then Ok (p, sublist)
  else
    match fuel with
    | O => OutOfFuel
    | S fuel' =>
        r <- sublist_body p sublist ;;
        match r with
        | Continue p sublist => sublist_loop fuel' p sublist
        | Break p sublist => Ok (p, sublist)
        end
    end.

Definition do_stmt_sublist (fuel : nat) (p : Parser) : result Parser :=
  _ <- trace p ;;
  '(p, sublist) <- sublist_loop fuel p 0 ;;
  if sublist <? 1
  then errorf_at "FIND statement cut short" p (token_index p)
  else Ok p.

Definition do_stmt_list (fuel : nat) (p : Parser) : result Parser :=
  _ <- trace p ;;
  t <- tok_at p (token_index p) ;;
  if token t =? sym_all
  then
    let p := advance p 1 in
    Ok (set_find_flags p (Z.lor (find_flags p) find_flags_all))
  else do_stmt_sublist fuel p.

Definition do_stmt (fuel : nat) (p : Parser) : result Parser :=
  _ <- trace p ;;
  t <- tok_at p (token_index p) ;;
  if token t =? sym_find then do_stmt_list fuel (advance p 1)
  else Ok p.

(** Top level of syntax, called by [parser]. *)
Definition do_syntax (fuel : nat) (p : Parser) : result Parser :=
  t <- tok_at p (token_index p) ;;
  p <- (if token t =? sym_find then do_stmt fuel p
        else errorf_at "expected statement at" p (token_index p)) ;;
  t <- tok_at p (token_index p) ;;
  p <- (if token t =? sym_matching then do_matching_cond fuel (advance p 1)
        else Ok p) ;;
  (* temporal reference is NOT optional *)
  t <- tok_at p (token_index p) ;;
  if token t =? sym_since then do_temp_cond p
  else if token t =? sym_between then do_temp_cond p
  else errorf_at "expected temporal clause (SINCE or BETWEEN) at" p
                 (token_index p).

Fixpoint find_pipe (l : list lexer_token) (i : Z) : option Z :=
  match l with
  | [] => None
  | t :: l' => if token t =? sym_pipe then Some i else find_pipe l' (i + 1)
  end.

(** [l[:i]] *)
Definition slice_to {A : Type} (l : list A) (i : Z) : result (list A) :=
  if (0 <=? i) && (i <=? llen l) then Ok (firstn (Z.to_nat i) l)
  else Panic "slice bounds out of range".

(** The scan for sub-commands that opens [parser]: the values of the
    locals [cmd] and [cmd2] when the loop is left. *)
Definition sub_commands (toks : list lexer_token)
  : result (list lexer_token * list lexer_token) :=
  match find_pipe toks 0 with
  | None => Ok (toks, [])
  | Some i =>
      let cmd2 := skipn (Z.to_nat (i + 1)) toks in
      cmd <- slice_to toks (i - 1) ;;
      Ok (cmd, cmd2)
  end.

Definition check_item_ptrs (l v r : item) : result unit :=
  _ <- deref (lexer_val l) ;;
  _ <- deref (lexer_tag v) ;;
  _ <- deref (lexer_val r) ;;
  Ok tt.

Fixpoint dump_and_list (l : list (option and_item)) : result unit :=
  match l with
  | [] => Ok tt
  | a :: l' =>
      a <- deref a ;;
      _ <- check_item_ptrs (and_left a) (and_this a) (and_right a) ;;
      dump_and_list l'
  end.

(** The closing debug dump of [parser] dereferences every item. *)
Fixpoint dump_or_list (l : list (option or_item)) : result unit :=
  match l with
  | [] => Ok tt
  | o :: l' =>
      o <- deref o ;;
      _ <- check_item_ptrs (or_left o) (or_this o) (or_right o) ;;
      _ <- dump_and_list (and_list o) ;;
      dump_or_list l'
  end.

(** The parser is fed a single slice of lexer tokens by the application. *)
Definition parser (fuel : nat) (p : Parser) : result Parser :=
  (* see if there are sub-commands; the two slices are not used *)
  _ <- sub_commands (tokens p) ;;
  let p := set_num_tokens p (llen (tokens p)) in
  let p := set_token_index p 0 in
  match do_syntax fuel p with
  | Ok p =>
      _ <- dump_or_list (or_list p) ;;
      Ok p
  | Err e => Err ("syntax error: " ++ e)%string
  | Panic w => Panic w
  | OutOfFuel => OutOfFuel
  end.

End Parse.

(** ** Regular expressions, as [regexp] matches them

    Go's [regexp] returns the leftmost match, and among the matches that
    start there the one a backtracking search finds first.  The matcher
    below is that backtracking search, over the operators that the tables
    of [lexer_symbols.go] use. *)

Inductive regex : Type :=
| Eps                             (* the empty expression *)
| Bol                             (* ^ : at the beginning of the text *)
| WordB                           (* \b : at an ASCII word boundary *)
| Class (f : ascii -> bool)       (* one character of a class *)
| Seq (a b : regex)
| Alt (a b : regex)               (* a|b, preferring a *)
| Star (a : regex)                (* a*, preferring more *)
| LazyStar (a : regex).           (* a*?, preferring fewer *)

Definition is_upper (c : ascii) : bool :=
  (65 <=? nat_of_ascii c)%nat && (nat_of_ascii c <=? 90)%nat.

Definition is_lower (c : ascii) : bool :=
  (97 <=? nat_of_ascii c)%nat && (nat_of_ascii c <=? 122)%nat.

Definition is_word (c : ascii) : bool :=
  is_upper c || is_lower c || is_digit c || Ascii.eqb c "_".

Definition upcase (c : ascii) : ascii :=
  if is_lower c then ascii_of_nat (nat_of_ascii c - 32) else c.

Definition is_word_opt (c : option ascii) : bool :=
  match c with Some c => is_word c | None => false end.

Definition head (s : string) : option ascii :=
  match s with String c _ => Some c | EmptyString => None end.

(** The character before the cursor: the last one consumed by the match so
    far, else the one before the place the match started at. *)
Definition last_char (prev0 : option ascii) (acc : list ascii) : option ascii :=
  match acc with c :: _ => Some c | [] => prev0 end.

Definition mresult : Type := option (list ascii * string).

(** [rmatch r prev0 acc s k]: match [r] at the head of [s], having consumed
    [acc] (most recent first), then continue with [k]. *)
Fixpoint rmatch (r : regex) (prev0 : option ascii) (acc : list ascii)
    (s : string) (k : list ascii -> string -> mresult) : mresult :=
  match r with
  | Eps => k acc s
  | Bol =>
      match last_char prev0 acc with
      | None => k acc s
      | Some _ => None
      end
  | WordB =>
      if xorb (is_word_opt (last_char prev0 acc)) (is_word_opt (head s))
      then k acc s else None
  | Class f =>
      match s with
      | String c s' => if f c then k (c :: acc) s' else None
      | EmptyString => None
      end
  | Seq a b => rmatch a prev0 acc s (fun acc' s' => rmatch b prev0 acc' s' k)
  | Alt a b =>
      match rmatch a prev0 acc s k with
      | Some x => Some x
      | None => rmatch b prev0 acc s k
      end
  | Star a =>
      (fix loop (n : nat) (acc : list ascii) (s : string) {struct n} : mresult :=
         match n with
         | O => k acc s
         | S n' =>
             match rmatch a prev0 acc s (fun acc' s' => loop n' acc' s') with
             | Some x => Some x
             | None => k acc s
             end
         end) (String.length s) acc s
  | LazyStar a =>
      (fix loop (n : nat) (acc : list ascii) (s : string) {struct n} : mresult :=
         match k acc s with
         | Some x => Some x
         | None =>
             match n with
             | O => None
             | S n' => rmatch a prev0 acc s (fun acc' s' => loop n' acc' s')
             end
         end) (String.length s) acc s
  end.

Fixpoint string_of_rev (acc : list ascii) (tail : string) : string :=
  match acc with
  | [] => tail
  | c :: acc' => string_of_rev acc' (String c tail)
  end.

(** Leftmost match: the text skipped, the match, the text after it. *)
Fixpoint search (r : regex) (prev0 : option ascii) (s : string)
  : option (string * string * string) :=
  match rmatch r prev0 [] s (fun acc s' => Some (acc, s')) with
  | Some (acc, rest) => Some (EmptyString, string_of_rev acc EmptyString, rest)
  | None =>
      match s with
      | EmptyString => None
      | String c s' =>
          match search r (Some c) s' with
          | Some (pre, m, rest) => Some (String c pre, m, rest)
          | None => None
          end
      end
  end.

(** [re.FindString(s)] *)
Definition FindString (r : regex) (s : string) : string :=
  match search r None s with
  | Some (_, m, _) => m
  | None => EmptyString
  end.

Fixpoint last_of (s : string) (d : option ascii) : option ascii :=
  match s with
  | EmptyString => d
  | String c s' => last_of s' (Some c)
  end.

(** [re.ReplaceAllLiteralString(s, repl)]; no pattern of the tables matches
    the empty string, so successive matches are searched one after another. *)
Fixpoint replace_from (fuel : nat) (r : regex) (repl : string)
    (prev0 : option ascii) (s : string) : string :=
  match fuel with
  | O => s
  | S fuel' =>
      match search r prev0 s with
      | None => s
      | Some (pre, m, rest) =>
          (pre ++ repl ++
           replace_from fuel' r repl (last_of m (last_of pre prev0)) rest)%string
      end
  end.

Definition ReplaceAll (r : regex) (s repl : string) : string :=
  replace_from (S (String.length s)) r repl None s.

(** *** Building expressions *)

Definition chr (c : ascii) : regex := Class (Ascii.eqb c).

(** A character under the flag (?i). *)
Definition chr_i (c : ascii) : regex :=
  Class (fun x => Ascii.eqb (upcase x) (upcase c)).

Fixpoint str (s : string) : regex :=
  match s with
  | EmptyString => Eps
  | String c EmptyString => chr c
  | String c s' => Seq (chr c) (str s')
  end.

Fixpoint str_i (s : string) : regex :=
  match s with
  | EmptyString => Eps
  | String c EmptyString => chr_i c
  | String c s' => Seq (chr_i c) (str_i s')
  end.

Fixpoint alt_of (first : regex) (others : list regex) : regex :=
  match others with
  | [] => first
  | b :: l => Alt first (alt_of b l)
  end.

(** (?i)(W1|W2|...) *)
Definition words_i (l : list string) : regex :=
  match map str_i l with
  | [] => Eps
  | a :: l' => alt_of a l'
  end.

Definition opt (a : regex) : regex := Alt a Eps.        (* a? *)
Definition plus (a : regex) : regex := Seq a (Star a).  (* a+ *)
Definition lazy_plus (a : regex) : regex := Seq a (LazyStar a).  (* a+? *)
Definition any_of (l : list ascii) : regex :=
  Class (fun c => existsb (Ascii.eqb c) l).
Definition none_of (l : list ascii) : regex :=
  Class (fun c => negb (existsb (Ascii.eqb c) l)).
Definition digit : regex := Class is_digit.               (* \d *)
Definition dot : regex := none_of ["010"%char].            (* . *)

(** (?i)^(W1|W2|...)\b *)
Definition keyword (l : list string) : regex :=
  Seq Bol (Seq (words_i l) WordB).

(** ^lit *)
Definition at_start (s : string) : regex := Seq Bol (str s).

(** ** Lexer tables ([lexer_symbols.go]) *)

Record lexer_pre : Type := {
  pre_compiled : regex;
  replace : string
}.

(** Line comments, block comments and distinct spacing, as the three
    patterns are written: a brace is a literal brace in each of them.
    - slash slash brace, any character, brace, newline
    - either slash star brace and any character, or star brace star slash
    - a tab, carriage return or newline *)
Definition lexer_pre_table : list lexer_pre :=
  [ {| pre_compiled := Seq (str "//{") (Seq dot (Seq (chr "}") (chr "010")));
       replace := " " |};
    {| pre_compiled := Alt (Seq (str "/*{") dot) (str "*}*/");
       replace := " " |};
    {| pre_compiled := any_of ["009"; "013"; "010"]%char;
       replace := " " |} ].

Record lexer_regex : Type := {
  rtag : string;
  compiled : regex
}.

Definition ident_start : regex :=
  Class (fun c => is_upper c || is_lower c || Ascii.eqb c "_").

Definition ident_more : regex :=
  Class (fun c => is_upper c || is_lower c
                  || existsb (Ascii.eqb c) ["_"; "."; "@"; "$"]%char).

(** [a-zA-Z_][a-zA-Z_.@$]* *)
Definition ident_body : regex := Seq ident_start (Star ident_more).

Definition ident_regex : regex :=
  Alt (Seq Bol ident_body) (Seq (Seq (chr "[") ident_body) (chr "]")).

Definition mon_regex : regex :=
  Seq Bol (words_i ["JAN"; "FEB"; "MAR"; "APR"; "MAY"; "JUN";
                    "JUL"; "AUG"; "SEP"; "OCT"; "NOV"; "DEC"]%string).

Definition quote1 : ascii := "'"%char.
Definition quote2 : ascii := "034"%char.

(** The order of these expressions is important.  Each entry is followed by
    the pattern of the source. *)
Definition lexer_regex_table : list lexer_regex :=
  [ {| rtag := "command"; compiled := keyword ["FIND"] |};
      (* (?i)^FIND\b *)
    {| rtag := "cmdspec"; compiled := keyword ["ALL"] |};
      (* (?i)^ALL\b *)
    {| rtag := "command2"; compiled := keyword ["SORT"; "GROUP"; "DISTINCT"] |};
      (* (?i)^(SORT|GROUP|DISTINCT)\b *)
    {| rtag := "pipe"; compiled := Seq Bol (any_of ["|"]%char) |};
      (* ^[|] *)
    {| rtag := "condition"; compiled := keyword ["MATCHING"] |};
      (* (?i)^MATCHING\b *)
    {| rtag := "temporal"; compiled := keyword ["SINCE"; "BETWEEN"] |};
      (* (?i)^(SINCE|BETWEEN)\b *)
    {| rtag := "relative";
       compiled := keyword ["YESTERDAY"; "BEFORE"; "LAST"; "PREVIOUS"; "AGO";
                            "FOREVER"] |};
      (* (?i)^(YESTERDAY|BEFORE|LAST|PREVIOUS|AGO|FOREVER)\b *)
    {| rtag := "clock"; compiled := keyword ["SECOND"; "MINUTE"; "HOUR"] |};
      (* (?i)^(SECOND|MINUTE|HOUR)\b *)
    {| rtag := "clocks"; compiled := keyword ["SECONDS"; "MINUTES"; "HOURS"] |};
      (* (?i)^(SECONDS|MINUTES|HOURS)\b *)
    {| rtag := "calendar";
       compiled := keyword ["DAY"; "WEEK"; "FORTNIGHT"; "MONTH"; "QUARTER";
                            "YEAR"; "CENTURY"] |};
      (* (?i)^(DAY|WEEK|FORTNIGHT|MONTH|QUARTER|YEAR|CENTURY)\b *)
    {| rtag := "calendars";
       compiled := keyword ["DAYS"; "WEEKS"; "FORTNIGHTS"; "MONTHS";
                            "QUARTERS"; "YEARS"; "CENTURIES"] |};
      (* (?i)^(DAYS|WEEKS|FORTNIGHTS|MONTHS|QUARTERS|YEARS|CENTURIES)\b *)
    {| rtag := "weekday";
       compiled := keyword ["MONDAY"; "TUESDAY"; "WEDNESDAY"; "THURSDAY";
                            "FRIDAY"; "SATURDAY"; "SUNDAY"] |};
      (* (?i)^(MONDAY|TUESDAY|WEDNESDAY|THURSDAY|FRIDAY|SATURDAY|SUNDAY)\b *)
    {| rtag := "weekdays";
       compiled := keyword ["MONDAYS"; "TUESDAYS"; "WEDNESDAYS"; "THURSDAYS";
                            "FRIDAYS"; "SATURDAYS"; "SUNDAYS"] |};
      (* (?i)^(MONDAYS|TUESDAYS|...|SUNDAYS)\b *)
    {| rtag := "mon"; compiled := mon_regex |};
      (* (?i)^(JAN|FEB|MAR|APR|MAY|JUN|JUL|AUG|SEP|OCT|NOV|DEC) *)
    {| rtag := "months";
       compiled := Seq Bol (words_i ["JANUARY"; "FEBRUARY"; "MARCH"; "APRIL";
                                     "MAY"; "JUNE"; "JULY"; "AUGUST";
                                     "SEPTEMBER"; "OCTOBER"; "NOVEMBER";
                                     "DECEMBER"]) |};
      (* (?i)^(JANUARY|FEBRUARY|MARCH|...|DECEMBER) *)
    {| rtag := "string";
       compiled :=
         Seq Bol
           (Alt (Seq (chr quote1) (Seq (Star (none_of [quote1])) (chr quote1)))
                (Seq (chr quote2) (Seq (Star (none_of [quote2])) (chr quote2)))) |};
      (* strings, in single or in double quotes; anchored with ^ *)
    {| rtag := "ident"; compiled := ident_regex |};
      (* ^(I)|(\[I)\] where I is [a-zA-Z_] and then any number of
         [a-zA-Z_.@$]: the second alternative is not anchored *)
    {| rtag := "int";
       compiled :=
         Seq Bol (Seq (plus digit)
                      (opt (Seq (lazy_plus (any_of ["e"; "E"]%char))
                                (plus digit)))) |};
      (* ^(\d+([eE]+?\d+)?) *)
    {| rtag := "float";
       compiled :=
         Seq Bol
           (Seq (Star digit)
              (Seq (opt (chr "."))
                 (Seq (plus digit)
                    (opt (Seq (any_of ["e"; "E"]%char)
                            (Seq (opt (any_of ["-"; "+"]%char))
                                 (plus digit))))))) |};
      (* ^(\d*\.?\d+([eE][-+]?\d+)?) *)
    {| rtag := "comma"; compiled := at_start "," |};          (* ^, *)
    {| rtag := "lparen"; compiled := at_start "(" |};         (* ^[(] *)
    {| rtag := "rparen"; compiled := at_start ")" |};         (* ^[)] *)
    {| rtag := "minus"; compiled := at_start "-" |};          (* ^- *)
    {| rtag := "plus"; compiled := at_start "+" |};           (* ^[+] *)
    {| rtag := "equal"; compiled := Alt (at_start "=") (str "==") |};
      (* ^=|== *)
    {| rtag := "not_equal";
       compiled := Seq Bol (Alt (str "!=") (str "<>")) |};    (* ^(!=|<>) *)
    {| rtag := "mul"; compiled := at_start "*" |};            (* ^\* *)
    {| rtag := "div"; compiled := keyword ["/"; "DIV"] |};    (* (?i)^(/|DIV)\b *)
    {| rtag := "mod"; compiled := keyword ["%"; "MOD"] |};    (* (?i)^(%|MOD)\b *)
    {| rtag := "less_equal"; compiled := at_start "<=" |};    (* ^<= *)
    {| rtag := "greater_equal"; compiled := at_start ">=" |}; (* ^>= *)
    {| rtag := "less"; compiled := at_start "<" |};           (* ^< *)
    {| rtag := "greater"; compiled := at_start ">" |};        (* ^> *)
    {| rtag := "and"; compiled := keyword ["AND"] |};         (* (?i)^AND\b *)
    {| rtag := "or"; compiled := keyword ["OR"] |};           (* (?i)^OR\b *)
    {| rtag := "not"; compiled := keyword ["!"; "NOT"] |};    (* (?i)^(!|NOT)\b *)
    {| rtag := "like"; compiled := keyword ["LIKE"] |}        (* (?i)^LIKE\b *)
  ]%string.

(** string -> symbol look-up, as the table is written: FOREVER is given
    [sym_between], and the second month is spelled FEBUARY. *)
Definition lexer_symbol_table : list (string * Z) :=
  [ ("FIND", sym_find); ("SORT", sym_sort); ("GROUP", sym_group);
    ("DISTINCT", sym_distinct); ("ALL", sym_all); ("|", sym_pipe);
    ("MATCHING", sym_matching);
    ("SINCE", sym_since); ("BETWEEN", sym_between);
    ("YESTERDAY", sym_yesterday); ("BEFORE", sym_before); ("LAST", sym_last);
    ("PREVIOUS", sym_previous); ("AGO", sym_ago); ("FOREVER", sym_between);
    ("SECOND", sym_second); ("MINUTE", sym_minute); ("HOUR", sym_hour);
    ("SECONDS", sym_second); ("MINUTES", sym_minute); ("HOURS", sym_hour);
    ("DAY", sym_day); ("WEEK", sym_week); ("FORTNIGHT", sym_fortnight);
    ("MONTH", sym_month);
    ("DAYS", sym_day); ("WEEKS", sym_week); ("FORTNIGHTS", sym_fortnight);
    ("MONTHS", sym_month);
    ("QUARTER", sym_quarter); ("YEAR", sym_year); ("CENTURY", sym_century);
    ("QUARTERS", sym_quarter); ("YEARS", sym_year); ("CENTURIES", sym_century);
    ("MONDAY", sym_monday); ("TUESDAY", sym_tuesday);
    ("WEDNESDAY", sym_wednesday);
    ("MONDAYS", sym_monday); ("TUESDAYS", sym_tuesday);
    ("WEDNESDAYS", sym_wednesday);
    ("THURSDAY", sym_thursday); ("FRIDAY", sym_friday);
    ("SATURDAY", sym_saturday); ("SUNDAY", sym_sunday);
    ("THURSDAYS", sym_thursday); ("FRIDAYS", sym_friday);
    ("SATURDAYS", sym_saturday); ("SUNDAYS", sym_sunday);
    ("JAN", sym_january); ("FEB", sym_february); ("MAR", sym_march);
    ("APR", sym_april); ("MAY", sym_may); ("JUN", sym_june);
    ("JUL", sym_july); ("AUG", sym_august); ("SEP", sym_september);
    ("OCT", sym_october); ("NOV", sym_november); ("DEC", sym_december);
    ("JANUARY", sym_january); ("FEBUARY", sym_february); ("MARCH", sym_march);
    ("APRIL", sym_april); ("JUNE", sym_june);
    ("JULY", sym_july); ("AUGUST", sym_august); ("SEPTEMBER", sym_september);
    ("OCTOBER", sym_october); ("NOVEMBER", sym_november);
    ("DECEMBER", sym_december);
    (",", sym_comma); ("(", sym_lparen); (")", sym_rparen);
    ("-", sym_minus); ("+", sym_plus);
    ("=", sym_equal); ("<>", sym_not_equal); ("!=", sym_not_equal);
    ("*", sym_mul); ("/", sym_div); ("DIV", sym_div); ("%", sym_mod);
    ("MOD", sym_mod);
    ("<=", sym_less_equal); (">=", sym_greater_equal); ("<", sym_less);
    (">", sym_greater);
    ("AND", sym_and); ("OR", sym_or);
    ("NOT", sym_not); ("!", sym_not);
    ("LIKE", sym_like) ]%string.

Fixpoint lookup (table : list (string * Z)) (key : string) : option Z :=
  match table with
  | [] => None
  | (k, v) :: table' => if String.eqb k key then Some v else lookup table' key
  end.

(** ** The lexer ([lexer.go]) *)

Definition is_space (c : ascii) : bool :=
  existsb (Ascii.eqb c) [" "; "009"; "010"; "011"; "012"; "013"]%char.

Fixpoint trim_left (f : ascii -> bool) (s : string) : string :=
  match s with
  | String c s' => if f c then trim_left f s' else s
  | EmptyString => s
  end.

Fixpoint trim_right (f : ascii -> bool) (s : string) : string :=
  match s with
  | EmptyString => EmptyString
  | String c s' =>
      match trim_right f s' with
      | EmptyString => if f c then EmptyString else String c EmptyString
      | t => String c t
      end
  end.

(** [strings.TrimSpace] *)
Definition TrimSpace (s : string) : string :=
  trim_right is_space (trim_left is_space s).

(** [strings.Trim(s, cutset)] *)
Definition Trim (s : string) (cutset : list ascii) : string :=
  let f := fun c => existsb (Ascii.eqb c) cutset in
  trim_right f (trim_left f s).

(** [s[1 : len(s)-1]] *)
Definition strip_ends (s : string) : result string :=
  match s with
  | String _ (String c s') =>
      Ok (take (String.length s') (String c s'))
  | _ => Panic "slice bounds out of range"
  end.

(** The first rule, in table order, that finds a non-empty match. *)
Fixpoint first_match (table : list lexer_regex) (s : string)
  : option (lexer_regex * string) :=
  match table with
  | [] => None
  | rule :: table' =>
      match FindString (compiled rule) s with
      | EmptyString => first_match table' s
      | found => Some (rule, found)
      end
  end.

(** What one round of the tokenising loop appends, and the text it leaves. *)
Definition lexer_step (s : string) (pos : Z) : result (lexer_token * string) :=
  match first_match lexer_regex_table s with
  | None => Err ("unknown token or unquoted string at '" ++ s ++ "'")%string
  | Some (rule, found) =>
      '(found, tok) <-
        (if String.eqb (rtag rule) "string" then
           r <- strip_ends found ;; Ok (r, 0)         (* remove quotes *)
         else if String.eqb (rtag rule) "ident" then
           Ok (Trim found ["["; "]"]%char, 0)          (* remove brackets *)
         else if String.eqb (rtag rule) "int" then Ok (found, 0)
         else if String.eqb (rtag rule) "float" then Ok (found, 0)
         else
           (* the rest are (or should be!) in the token table *)
           match lookup lexer_symbol_table found with
           | Some sym => Ok (found, sym)
           | None =>
               Err ("lexer: token '" ++ found ++
                    "' from regex table unknown in symbol table")%string
           end) ;;
      let newtoken :=
        {| tag := rtag rule; token := tok; val := found; stmt_pos := pos |} in
      (* remove this token and the surrounding whitespace *)
      let s2 := TrimSpace (ReplaceAll (compiled rule) s EmptyString) in
      Ok (newtoken, s2)
  end.

Fixpoint lexer_loop (fuel : nat) (s : string) (pos : Z)
    (toks : list lexer_token) : result (list lexer_token) :=
  match s with
  | EmptyString => Ok toks
  | _ =>
      match fuel with
      | O => OutOfFuel
      | S fuel' =>
          '(newtoken, s2) <- lexer_step s pos ;;
          lexer_loop fuel' s2 (pos + (len s - len s2)) (toks ++ [newtoken])
      end
  end.

(** Token lexer using regular expressions.  Every round removes at least
    the match it found, so the length of the text bounds the rounds. *)
Definition lexer (s : string) : result (list lexer_token) :=
  (* first get rid of comment fluff, special spacing and CR/LF *)
  let s := fold_left (fun s pre => ReplaceAll (pre_compiled pre) s (replace pre))
                     lexer_pre_table s in
  (* remove leading and trailing whitespace *)
  let s := TrimSpace s in
  lexer_loop (String.length s) s 0 [].

(** ** Lexing, then parsing, as [TestParser] drives them *)

Definition new_Parser (q : string) (toks : list lexer_token) : Parser :=
  {| query := q; tokens := toks; num_tokens := llen toks; token_index := 0;
     fields := []; field_aliases := []; find_flags := 0;
     time_from := 0; time_to := 0; or_list := []; ticks := 0 |}.

Definition parse (clock : nat -> Z) (zone sym_as : Z) (fuel : nat)
    (q : string) : result Parser :=
  match lexer q with
  | Ok toks => parser clock zone sym_as fuel (new_Parser q toks)
  | Err e => Err ("Lexer error: " ++ e)%string
  | Panic w => Panic w
  | OutOfFuel => OutOfFuel
  end.

(** ** The condition tree as the specification words it

    A predicate is [left operator right]; a conjunction group is a sequence
    of predicates; the condition is a sequence of conjunction groups.  The
    first predicate starts a new group inside a new top-level entry, each
    AND adds one predicate to the current group, each OR starts a new group
    under the same disjunction. *)

Record predicate : Type := {
  pred_left : item;
  pred_op : item;
  pred_right : item
}.

Abbreviation ConjunctionGroup := (list predicate).
Abbreviation DisjunctionGroup := (list (list predicate)).

Definition item_of (t : lexer_token) : item :=
  {| lexer_sym := token t;
     lexer_tag := Some (tag t);
     lexer_val := Some (val t) |}.

Definition predicate_of (l e r : lexer_token) : predicate :=
  {| pred_left := item_of l; pred_op := item_of e; pred_right := item_of r |}.

(** Add one more predicate to the current (last) group. *)
Definition add_to_current (d : DisjunctionGroup) (pr : predicate)
  : DisjunctionGroup :=
  removelast d ++ [last d [] ++ [pr]].

(** Start a brand-new group under the same disjunction. *)
Definition open_group (d : DisjunctionGroup) (pr : predicate)
  : DisjunctionGroup :=
  d ++ [[pr]].

(** What follows the first predicate: AND value = value, OR value = value,
    until a token that is neither AND nor OR.  Returns the tree and the
    tokens left. *)
Fixpoint spec_more (d : DisjunctionGroup) (toks : list lexer_token)
  : option (DisjunctionGroup * list lexer_token) :=
  match toks with
  | c :: toks' =>
      if token c =? sym_and then
        match toks' with
        | l :: e :: r :: rest =>
            if token e =? sym_equal
            then spec_more (add_to_current d (predicate_of l e r)) rest
            else None
        | _ => None
        end
      else if token c =? sym_or then
        match toks' with
        | l :: e :: r :: rest =>
            if token e =? sym_equal
            then spec_more (open_group d (predicate_of l e r)) rest
            else None
        | _ => None
        end
      else Some (d, toks)
  | [] => Some (d, [])
  end.

Definition spec_matching (toks : list lexer_token)
  : option (DisjunctionGroup * list lexer_token) :=
  match toks with
  | l :: e :: r :: rest =>
      if token e =? sym_equal
      then spec_more [[predicate_of l e r]] rest
      else None
  | _ => None
  end.

(** The parser's representation of a group: the first predicate in the
    [or_item] itself, the further ones in its [and_list]. *)
Definition and_of (pr : predicate) : and_item :=
  {| and_this := pred_op pr; and_left := pred_left pr;
     and_right := pred_right pr |}.

Definition or_of (g : ConjunctionGroup) : or_item :=
  match g with
  | pr :: more =>
      {| or_this := pred_op pr; or_left := pred_left pr;
         or_right := pred_right pr;
         and_list := map (fun x => Some (and_of x)) more |}
  | [] => or_item_zero
  end.

Definition or_list_of (d : DisjunctionGroup) : list (option or_item) :=
  map (fun g => Some (or_of g)) d.

(** The tokens from the cursor on. *)
Definition ahead (p : Parser) : list lexer_token :=
  skipn (Z.to_nat (token_index p)) (tokens p).

(** The state after one predicate was read and the list was updated. *)
Definition after_predicate (p : Parser) (ol : list (option or_item)) : Parser :=
  set_or_list (set_token_index p (token_index p + 3)) ol.

(** ** Sample inputs *)

(** A clock that reads 2023-11-14 22:13:20.123456789 UTC at the first call
    and one nanosecond more at each further call. *)
Definition sample_clock (n : nat) : Z :=
  1700000000 * 10 ^ 9 + 123456789 + Z.of_nat n.

(** A value for [sym_as] outside the declared enumeration. *)
Definition sample_as : Z := 63.

Definition fresh_symbol (s : Z) : Prop := s < sym_none \/ sym_like < s.

Definition mk_token (t : string) (sym : Z) (v : string) (pos : Z) : lexer_token :=
  {| tag := t; token := sym; val := v; stmt_pos := pos |}.

(** FIND src_ip BETWEEN YESTERDAY AND DAY BEFORE YESTERDAY, with AND as the
    keyword token: the two references are in reverse order. *)
Definition between_reversed : Parser :=
  new_Parser "FIND src_ip BETWEEN YESTERDAY AND DAY BEFORE YESTERDAY"
    [ mk_token "command" sym_find "FIND" 0;
      mk_token "ident" sym_none "src_ip" 5;
      mk_token "temporal" sym_between "BETWEEN" 12;
      mk_token "relative" sym_yesterday "YESTERDAY" 20;
      mk_token "and" sym_and "AND" 30;
      mk_token "calendar" sym_day "DAY" 34;
      mk_token "relative" sym_before "BEFORE" 38;
      mk_token "relative" sym_yesterday "YESTERDAY" 45 ].

Definition parsed_or (d : Parser) (r : result Parser) : Parser :=
  match r with Ok q => q | _ => d end.

Definition between_reversed_parsed : Parser :=
  Eval vm_compute in
    parsed_or between_reversed
      (parser sample_clock 0 sample_as 8 between_reversed).

(** Token lists that the lexer produces (see the lemmas [lexer_...]). *)

Definition find_1_tokens : list lexer_token :=
  [ mk_token "command" sym_find "FIND" 0;
    mk_token "int" sym_none "1" 5;
    mk_token "temporal" sym_since "SINCE" 7;
    mk_token "relative" sym_yesterday "YESTERDAY" 13 ].

Definition find_src_ip_tokens : list lexer_token :=
  [ mk_token "command" sym_find "FIND" 0;
    mk_token "ident" sym_none "src_ip" 5 ].

Definition forever_tokens : list lexer_token :=
  [ mk_token "command" sym_find "FIND" 0;
    mk_token "ident" sym_none "src_ip" 5;
    mk_token "temporal" sym_since "SINCE" 12;
    mk_token "relative" sym_between "FOREVER" 18 ].

Definition last_hour_tokens : list lexer_token :=
  [ mk_token "command" sym_find "FIND" 0;
    mk_token "ident" sym_none "src_ip" 5;
    mk_token "temporal" sym_since "SINCE" 12;
    mk_token "relative" sym_last "LAST" 18;
    mk_token "clock" sym_hour "HOUR" 23 ].

Definition fortnight_ago : string :=
  "FIND src_ip,dest_ip BETWEEN LAST MONTH AND FORTNIGHT AGO".

Definition fortnight_ago_tokens : list lexer_token :=
  [ mk_token "command" sym_find "FIND" 0;
    mk_token "ident" sym_none "src_ip" 5;
    mk_token "comma" sym_comma "," 11;
    mk_token "ident" sym_none "dest_ip" 12;
    mk_token "temporal" sym_between "BETWEEN" 20;
    mk_token "relative" sym_last "LAST" 28;
    mk_token "calendar" sym_month "MONTH" 33;
    mk_token "ident" sym_none "AND" 39;
    mk_token "calendar" sym_fortnight "FORTNIGHT" 43;
    mk_token "relative" sym_ago "AGO" 53 ].

(** The same statement with AND as the keyword token, which the lexer never
    produces: the rule tagged ident precedes the rule tagged and. *)
Definition fortnight_ago_keyword_and : Parser :=
  new_Parser fortnight_ago
    [ mk_token "command" sym_find "FIND" 0;
      mk_token "ident" sym_none "src_ip" 5;
      mk_token "comma" sym_comma "," 11;
      mk_token "ident" sym_none "dest_ip" 12;
      mk_token "temporal" sym_between "BETWEEN" 20;
      mk_token "relative" sym_last "LAST" 28;
      mk_token "calendar" sym_month "MONTH" 33;
      mk_token "and" sym_and "AND" 39;
      mk_token "calendar" sym_fortnight "FORTNIGHT" 43;
      mk_token "relative" sym_ago "AGO" 53 ].

(** FORTNIGHT AGO without a count, as the start of a range. *)
Definition since_fortnight_ago : string := "FIND src_ip SINCE FORTNIGHT AGO".

Definition since_fortnight_ago_tokens : list lexer_token :=
  [ mk_token "command" sym_find "FIND" 0;
    mk_token "ident" sym_none "src_ip" 5;
    mk_token "temporal" sym_since "SINCE" 12;
    mk_token "calendar" sym_fortnight "FORTNIGHT" 18;
    mk_token "relative" sym_ago "AGO" 28 ].

(** The statement of [test_statements.go] that differs from [fortnight_ago]
    by its count. *)
Definition one_fortnight_ago : string :=
  "FIND src_ip,dest_ip BETWEEN LAST MONTH AND 1 FORTNIGHT AGO".

Definition one_fortnight_ago_tokens : list lexer_token :=
  [ mk_token "command" sym_find "FIND" 0;
    mk_token "ident" sym_none "src_ip" 5;
    mk_token "comma" sym_comma "," 11;
    mk_token "ident" sym_none "dest_ip" 12;
    mk_token "temporal" sym_between "BETWEEN" 20;
    mk_token "relative" sym_last "LAST" 28;
    mk_token "calendar" sym_month "MONTH" 33;
    mk_token "ident" sym_none "AND" 39;
    mk_token "int" sym_none "1" 43;
    mk_token "calendar" sym_fortnight "FORTNIGHT" 45;
    mk_token "relative" sym_ago "AGO" 55 ].

(** The units of [do_reltime_ref] that [do_temp_ref] hands on to it. *)
Definition unit_for_ago (t : lexer_token) : Prop :=
  sym_second <= token t <= sym_december /\ token t <> sym_day.

Definition known_symbol (t : lexer_token) : Prop :=
  sym_none <= token t <= sym_like.

(** The cursor on the last token of FIND src_ip SINCE YESTERDAY, where
    [do_temp_ref] is entered. *)
Definition at_yesterday : Parser :=
  set_token_index
    (new_Parser "FIND src_ip SINCE YESTERDAY"
       [ mk_token "command" sym_find "FIND" 0;
         mk_token "ident" sym_none "src_ip" 5;
         mk_token "temporal" sym_since "SINCE" 12;
         mk_token "relative" sym_yesterday "YESTERDAY" 18 ])
    3.

(** The cursor on DAY of ... BETWEEN FOREVER AND DAY BEFORE YESTERDAY. *)
Definition at_day_before_yesterday : Parser :=
  set_token_index
    (new_Parser "FIND src_ip BETWEEN FOREVER AND DAY BEFORE YESTERDAY"
       [ mk_token "command" sym_find "FIND" 0;
         mk_token "ident" sym_none "src_ip" 5;
         mk_token "temporal" sym_between "BETWEEN" 12;
         mk_token "relative" sym_forever "FOREVER" 20;
         mk_token "and" sym_and "AND" 28;
         mk_token "calendar" sym_day "DAY" 32;
         mk_token "relative" sym_before "BEFORE" 36;
         mk_token "relative" sym_yesterday "YESTERDAY" 43 ])
    5.

(** Midnight (UTC) of the day that lies [n] days before the day of the
    instant [now], in nanoseconds since the epoch. *)
Definition midnight_before (n now : Z) : Z := temp_day * (now / temp_day - n).

(** 23:59:59.999999999 of the day that begins at [midnight]. *)
Definition last_instant_of_day (midnight : Z) : Z := midnight + temp_day - 1.

(** FIND x MATCHING a = 1 AND b = 2 OR c = 3 SINCE YESTERDAY with AND and OR
    as keyword tokens, the cursor on the first token of the clause. *)
Definition at_matching : Parser :=
  set_token_index
    (new_Parser "FIND x MATCHING a = 1 AND b = 2 OR c = 3 SINCE YESTERDAY"
       [ mk_token "command" sym_find "FIND" 0;
         mk_token "ident" sym_none "x" 5;
         mk_token "condition" sym_matching "MATCHING" 7;
         mk_token "ident" sym_none "a" 16;
         mk_token "equal" sym_equal "=" 18;
         mk_token "int" sym_none "1" 20;
         mk_token "and" sym_and "AND" 22;
         mk_token "ident" sym_none "b" 26;
         mk_token "equal" sym_equal "=" 28;
         mk_token "int" sym_none "2" 30;
         mk_token "or" sym_or "OR" 32;
         mk_token "ident" sym_none "c" 35;
         mk_token "equal" sym_equal "=" 37;
         mk_token "int" sym_none "3" 39;
         mk_token "temporal" sym_since "SINCE" 41;
         mk_token "relative" sym_yesterday "YESTERDAY" 47 ])
    3.

Definition at_matching_parsed : Parser :=
  Eval vm_compute in parsed_or at_matching (do_matching_cond 2 at_matching).

Definition leaf (sym : Z) (t v : string) : item :=
  {| lexer_sym := sym; lexer_tag := Some t; lexer_val := Some v |}.

Definition equals (l r : item) : predicate :=
  {| pred_left := l; pred_op := leaf sym_equal "equal" "="; pred_right := r |}.

(** (a = 1 AND b = 2) OR (c = 3) *)
Definition at_matching_tree : DisjunctionGroup :=
  [ [ equals (leaf 0 "ident" "a") (leaf 0 "int" "1");
      equals (leaf 0 "ident" "b") (leaf 0 "int" "2") ];
    [ equals (leaf 0 "ident" "c") (leaf 0 "int" "3") ] ].

(** FIND x MATCHING a < b SINCE YESTERDAY, the cursor on the first token of
    the clause. *)
Definition at_less_than : Parser :=
  set_token_index
    (new_Parser "FIND x MATCHING a < b SINCE YESTERDAY"
       [ mk_token "command" sym_find "FIND" 0;
         mk_token "ident" sym_none "x" 5;
         mk_token "condition" sym_matching "MATCHING" 7;
         mk_token "ident" sym_none "a" 16;
         mk_token "less" sym_less "<" 18;
         mk_token "ident" sym_none "b" 20;
         mk_token "temporal" sym_since "SINCE" 22;
         mk_token "relative" sym_yesterday "YESTERDAY" 28 ])
    3.

Definition less_at_end_tokens : list lexer_token :=
  [ mk_token "command" sym_find "FIND" 0;
    mk_token "ident" sym_none "x" 5;
    mk_token "condition" sym_matching "MATCHING" 7;
    mk_token "ident" sym_none "a" 16;
    mk_token "less" sym_less "<" 18;
    mk_token "ident" sym_none "b" 20 ].

(** ** Full month names *)

Record month_name : Type := {
  full_name : string;
  abbreviation : string;    (* its first three letters *)
  remainder : string;       (* the letters after them *)
  month_sym : Z
}.

Definition month_names : list month_name :=
  [ {| full_name := "JANUARY"; abbreviation := "JAN"; remainder := "UARY";
       month_sym := sym_january |};
    {| full_name := "FEBRUARY"; abbreviation := "FEB"; remainder := "RUARY";
       month_sym := sym_february |};
    {| full_name := "MARCH"; abbreviation := "MAR"; remainder := "CH";
       month_sym := sym_march |};
    {| full_name := "APRIL"; abbreviation := "APR"; remainder := "IL";
       month_sym := sym_april |};
    {| full_name := "MAY"; abbreviation := "MAY"; remainder := "";
       month_sym := sym_may |};
    {| full_name := "JUNE"; abbreviation := "JUN"; remainder := "E";
       month_sym := sym_june |};
    {| full_name := "JULY"; abbreviation := "JUL"; remainder := "Y";
       month_sym := sym_july |};
    {| full_name := "AUGUST"; abbreviation := "AUG"; remainder := "UST";
       month_sym := sym_august |};
    {| full_name := "SEPTEMBER"; abbreviation := "SEP"; remainder := "TEMBER";
       month_sym := sym_september |};
    {| full_name := "OCTOBER"; abbreviation := "OCT"; remainder := "OBER";
       month_sym := sym_october |};
    {| full_name := "NOVEMBER"; abbreviation := "NOV"; remainder := "EMBER";
       month_sym := sym_november |};
    {| full_name := "DECEMBER"; abbreviation := "DEC"; remainder := "EMBER";
       month_sym := sym_december |} ]%string.

(** The text after a word: nothing, or a space and more. *)
Definition ends_word (rest : string) : Prop :=
  rest = EmptyString \/ exists r : string, rest = String " " r.

(** No white space at the end, as the text of the tokenising loop is. *)
Definition right_trimmed (s : string) : Prop := trim_right is_space s = s.

(** A match anchored at the head of the text. *)
Definition head_match (r : regex) (s : string) : mresult :=
  rmatch r None [] s (fun acc s' => Some (acc, s')).

Definition last_april_tokens : list lexer_token :=
  [ mk_token "command" sym_find "FIND" 0;
    mk_token "ident" sym_none "src_ip" 5;
    mk_token "temporal" sym_since "SINCE" 12;
    mk_token "relative" sym_last "LAST" 18;
    mk_token "mon" sym_april "APR" 23;
    mk_token "ident" sym_none "IL" 26 ].

Definition mon_rule : lexer_regex := {| rtag := "mon"; compiled := mon_regex |}.
Definition ident_rule : lexer_regex := {| rtag := "ident"; compiled := ident_regex |}.

Fixpoint no_space (w : string) : bool :=
  match w with
  | EmptyString => true
  | String c w' => negb (is_space c) && no_space w'
  end.

(** ** A pipe and further tokens behind a token sequence

    [piped qs X p] is the parser state [p] over the query text [qs] whose
    tokens are those of [p] followed by [X]. *)

Definition piped (qs : string) (X : list lexer_token) (p : Parser) : Parser :=
  {| query := qs; tokens := tokens p ++ X;
     num_tokens := num_tokens p + llen X;
     token_index := token_index p; fields := fields p;
     field_aliases := field_aliases p; find_flags := find_flags p;
     time_from := time_from p; time_to := time_to p; or_list := or_list p;
     ticks := ticks p |}.

Definition well_formed (p : Parser) : Prop := num_tokens p = llen (tokens p).

Definition alias_test (sym_as : Z) (p : Parser) : result bool :=
  andalso (token_index p + 2 <? num_tokens p)
          (token_is p (token_index p + 1) sym_as).

Definition piped_round (qs : string) (X : list lexer_token) (r : round)
  : round :=
  match r with
  | Continue q s => Continue (piped qs X q) s
  | Break q s => Break (piped qs X q) s
  end.

Definition piped_past (qs : string) (X : list lexer_token) (q q' : Parser)
  : Prop :=
  q' = piped qs X q
  \/ (token_is q (token_index q) sym_last = Ok true
      /\ q' = advance (piped qs X q) 2).

(** FIND src_ip SINCE YESTERDAY, and what follows it in
    FIND src_ip SINCE YESTERDAY | DISTINCT src_ip. *)
Definition since_yesterday_tokens : list lexer_token :=
  [ mk_token "command" sym_find "FIND" 0;
    mk_token "ident" sym_none "src_ip" 5;
    mk_token "temporal" sym_since "SINCE" 12;
    mk_token "relative" sym_yesterday "YESTERDAY" 18 ].

Definition pipe_token : lexer_token := mk_token "pipe" sym_pipe "|" 28.

Definition distinct_tokens : list lexer_token :=
  [ mk_token "command2" sym_distinct "DISTINCT" 30;
    mk_token "ident" sym_none "src_ip" 39 ].

Definition since_yesterday : Parser :=
  new_Parser "FIND src_ip SINCE YESTERDAY" since_yesterday_tokens.

Definition since_yesterday_parsed : Parser :=
  Eval vm_compute in
    parsed_or since_yesterday
      (parser sample_clock 0 sample_as 10 since_yesterday).

(** FIND src_ip SINCE 5 stops at its last token; with a pipe behind it the
    parser has a token to go on with. *)
Definition since_5_tokens : list lexer_token :=
  [ mk_token "command" sym_find "FIND" 0;
    mk_token "ident" sym_none "src_ip" 5;
    mk_token "temporal" sym_since "SINCE" 12;
    mk_token "int" sym_none "5" 18 ].

Definition sort_tokens : list lexer_token :=
  [ mk_token "command2" sym_sort "SORT" 22;
    mk_token "ident" sym_none "x" 27 ].

(** FIND src_ip SINCE LAST MAY: the month whose name is its abbreviation. *)
Definition last_may_tokens : list lexer_token :=
  [ mk_token "command" sym_find "FIND" 0;
    mk_token "ident" sym_none "src_ip" 5;
    mk_token "temporal" sym_since "SINCE" 12;
    mk_token "relative" sym_last "LAST" 18;
    mk_token "mon" sym_may "MAY" 23 ].

(** ** Notions for the properties of the lexer and of the parser *)

(** The least number of characters a match of the expression has. *)
Fixpoint min_len (r : regex) : nat :=
  match r with
  | Class _ => 1
  | Seq a b => min_len a + min_len b
  | Alt a b => Nat.min (min_len a) (min_len b)
  | _ => 0
  end.

(** The tags of the four rules whose tokens carry a value and no symbol. *)
Definition value_tag (t : string) : bool :=
  String.eqb t "string" || String.eqb t "ident" || String.eqb t "int"
  || String.eqb t "float".

(** A token is a value without a symbol, or its text is a key of the symbol
    table and its symbol the entry under that key. *)
Definition token_consistent (t : lexer_token) : Prop :=
  if value_tag (tag t) then token t = sym_none
  else lookup lexer_symbol_table (val t) = Some (token t).

(** A token that some round of the tokenising loop emits. *)
Definition emitted (t : lexer_token) : Prop :=
  exists (s : string) (s2 : string),
    lexer_step s (stmt_pos t) = Ok (t, s2).

Definition lexer_error (e : string) : Prop :=
  (exists rest : string,
      e = ("unknown token or unquoted string at '" ++ rest ++ "'")%string)
  \/ (exists found : string,
         e = ("lexer: token '" ++ found ++
              "' from regex table unknown in symbol table")%string).

(** What the pre-processing of [lexer] leaves to be tokenised. *)
Definition preprocessed (s : string) : string :=
  TrimSpace
    (fold_left (fun s pre => ReplaceAll (pre_compiled pre) s (replace pre))
               lexer_pre_table s).

(** A text of white space only (possibly empty). *)
Fixpoint all_space (s : string) : bool :=
  match s with
  | EmptyString => true
  | String c s' => is_space c && all_space s'
  end.

(** What a clause of the statement leaves alone.  The field list writes the
    fields, the aliases and the flags; MATCHING writes the condition; the
    temporal clause writes the two ends of the range and reads the clock. *)
Definition same_selection (p q : Parser) : Prop :=
  fields q = fields p /\ field_aliases q = field_aliases p
  /\ find_flags q = find_flags p.

Definition same_condition (p q : Parser) : Prop := or_list q = or_list p.

Definition same_range (p q : Parser) : Prop :=
  time_from q = time_from p /\ time_to q = time_to p /\ ticks q = ticks p.

Definition same_input (p q : Parser) : Prop :=
  query q = query p /\ tokens q = tokens p /\ num_tokens q = num_tokens p.

(** The two lists of the selection run in parallel, and say the same. *)
Definition aliases_repeat_fields (p : Parser) : Prop :=
  field_aliases p = fields p.

(** One entry of a field list: the field, and the comma before it if the
    query has one. *)
Record field_entry : Type := {
  comma_before : option lexer_token;
  field_token : lexer_token
}.

Definition entry_tokens (e : field_entry) : list lexer_token :=
  match comma_before e with
  | Some c => [c; field_token e]
  | None => [field_token e]
  end.

Definition entry_ok (e : field_entry) : Prop :=
  token (field_token e) = sym_none
  /\ tag (field_token e) = "ident"%string
  /\ match comma_before e with
     | Some c => token c = sym_comma
     | None => True
     end.

Definition field_list_tokens (es : list field_entry) : list lexer_token :=
  flat_map entry_tokens es.

Definition field_names (es : list field_entry) : list string :=
  map (fun e => val (field_token e)) es.

(** The token that ends a field list. *)
Definition ends_field_list (t : lexer_token) : Prop :=
  token t = sym_matching \/ token t = sym_since \/ token t = sym_between.

(** The first field has no comma before it. *)
Definition starts_with_field (sublist : Z) (es : list field_entry) : Prop :=
  match es with
  | e :: _ => comma_before e = None \/ 1 <= sublist
  | [] => True
  end.

(** The keys of the symbol table that are given a symbol. *)
Fixpoint keys_of (sym : Z) (table : list (string * Z)) : list string :=
  match table with
  | [] => []
  | (k, v) :: table' =>
      if v =? sym then k :: keys_of sym table' else keys_of sym table'
  end.

Definition equal_regex : regex := Alt (at_start "=") (str "==").

(** The rules of the table that precede the rule for identifiers. *)
Definition rules_before_ident : list lexer_regex :=
  firstn 16 lexer_regex_table.

Definition rules_from_ident : list lexer_regex :=
  skipn 16 lexer_regex_table.

(** The loop that [rmatch] runs for a starred expression. *)
Definition star_loop (a : regex) (prev0 : option ascii)
    (k : list ascii -> string -> mresult) : nat -> list ascii -> string -> mresult :=
  fix loop (n : nat) (acc : list ascii) (s : string) {struct n} : mresult :=
    match n with
    | O => k acc s
    | S n' =>
        match rmatch a prev0 acc s (fun acc' s' => loop n' acc' s') with
        | Some x => Some x
        | None => k acc s
        end
    end.

Fixpoint all_chars (f : ascii -> bool) (s : string) : bool :=
  match s with
  | EmptyString => true
  | String c s' => f c && all_chars f s'
  end.

Fixpoint rev_chars (s : string) (acc : list ascii) : list ascii :=
  match s with
  | EmptyString => acc
  | String c s' => rev_chars s' (c :: acc)
  end.

Definition string_regex : regex :=
  Seq Bol
    (Alt (Seq (chr quote1) (Seq (Star (none_of [quote1])) (chr quote1)))
         (Seq (chr quote2) (Seq (Star (none_of [quote2])) (chr quote2)))).

Definition string_rule : lexer_regex :=
  {| rtag := "string"; compiled := string_regex |}.

(** The two quotes of the rule for strings. *)
Definition is_quote (c : ascii) : Prop := c = quote1 \/ c = quote2.

Fixpoint upcase_string (s : string) : string :=
  match s with
  | EmptyString => EmptyString
  | String c s' => String (upcase c) (upcase_string s')
  end.

(** The civil date of a day of the 400-year era: year of the era, counted
    from 1 March, month and day. *)
Definition civil_of_doe (doe : Z) : Z * Z * Z :=
  let yoe := (doe - doe / 1460 + doe / 36524 - doe / 146096) / 365 in
  let doy := doe - (365 * yoe + yoe / 4 - yoe / 100) in
  let mp := (5 * doy + 2) / 153 in
  let d := doy - (153 * mp + 2) / 5 + 1 in
  let m := if mp <? 10 then mp + 3 else mp - 9 in
  (yoe, m, d).

Definition doe_of_civil (yoe m d : Z) : Z :=
  let mp := if 2 <? m then m - 3 else m + 9 in
  let doy := (153 * mp + 2) / 5 + d - 1 in
  yoe * 365 + yoe / 4 - yoe / 100 + doy.

(** [f] holds of the [n] integers from [z] on. *)
Fixpoint all_from (f : Z -> bool) (n : nat) (z : Z) : bool :=
  match n with
  | O => true
  | S n' => f z && all_from f n' (z + 1)
  end.

Definition doe_round_trip (doe : Z) : bool :=
  let '(yoe, m, d) := civil_of_doe doe in
  (0 <=? yoe) && (yoe <? 400) && (1 <=? m) && (m <=? 12)
  && (1 <=? d) && (d <=? 31) && (doe_of_civil yoe m d =? doe).

(** The calendar units that count days, with the days of each. *)
Definition day_units : list (Z * Z) :=
  [ (sym_day, 1); (sym_week, 7); (sym_fortnight, 14) ].

(** The first day of month [i mod 12 + 1] of year [i / 12] of the era comes
    back from its day of the era. *)
Definition first_of_month_round_trip (i : Z) : bool :=
  let yoe := i / 12 in
  let m := i mod 12 + 1 in
  let doe := doe_of_civil yoe m 1 in
  (0 <=? doe) && (doe <? 146097)
  && match civil_of_doe doe with
     | (yoe', m', d') => (yoe' =? yoe) && (m' =? m) && (d' =? 1)
     end.

(** How many years [prev_month] goes back from the current year. *)
Definition years_back (cur_month month times : Z) : Z :=
  times - 1 + (if cur_month <=? month then 1 else 0).

(** FIND src_ip BETWEEN YESTERDAY AND YESTERDAY as the lexer hands it over:
    AND is an identifier. *)
Definition between_lexed : list lexer_token :=
  [ mk_token "command" sym_find "FIND" 0;
    mk_token "ident" sym_none "src_ip" 5;
    mk_token "temporal" sym_between "BETWEEN" 12;
    mk_token "relative" sym_yesterday "YESTERDAY" 20;
    mk_token "ident" sym_none "AND" 30;
    mk_token "relative" sym_yesterday "YESTERDAY" 34 ].

Definition at_between : Parser :=
  set_token_index
    (new_Parser "FIND src_ip BETWEEN YESTERDAY AND YESTERDAY" between_lexed) 3.

(** A statement that begins with a pipe, and one that begins with SORT. *)
Definition pipe_first : Parser :=
  new_Parser "| SORT x"
    [ mk_token "pipe" sym_pipe "|" 0;
      mk_token "command2" sym_sort "SORT" 2;
      mk_token "ident" sym_none "x" 7 ].

Definition sort_first : Parser :=
  new_Parser "SORT x"
    [ mk_token "command2" sym_sort "SORT" 0;
      mk_token "ident" sym_none "x" 5 ].

(** FIND src_ip, dest_ip port SINCE YESTERDAY: three fields, the third
    without a comma before it; the cursor is past FIND. *)
Definition three_fields : list field_entry :=
  [ {| comma_before := None;
       field_token := mk_token "ident" sym_none "src_ip" 5 |};
    {| comma_before := Some (mk_token "comma" sym_comma "," 11);
       field_token := mk_token "ident" sym_none "dest_ip" 13 |};
    {| comma_before := None;
       field_token := mk_token "ident" sym_none "port" 21 |} ].

Definition at_three_fields : Parser :=
  set_token_index
    (new_Parser "FIND src_ip, dest_ip port SINCE YESTERDAY"
       ([ mk_token "command" sym_find "FIND" 0 ]
        ++ field_list_tokens three_fields
        ++ [ mk_token "temporal" sym_since "SINCE" 26;
             mk_token "relative" sym_yesterday "YESTERDAY" 32 ]))
    1.

(** FIND src_ip SINCE LAST HOUR, the cursor on LAST. *)
Definition at_last_hour : Parser :=
  set_token_index (new_Parser "FIND src_ip SINCE LAST HOUR" last_hour_tokens) 3.

(** FIND src_ip SINCE 3 DAYS AGO, the cursor on DAYS. *)
Definition at_days_ago : Parser :=
  set_token_index
    (new_Parser "FIND src_ip SINCE 3 DAYS AGO"
       [ mk_token "command" sym_find "FIND" 0;
         mk_token "ident" sym_none "src_ip" 5;
         mk_token "temporal" sym_since "SINCE" 12;
         mk_token "int" sym_none "3" 18;
         mk_token "calendars" sym_day "DAYS" 20;
         mk_token "relative" sym_ago "AGO" 25 ])
    4.

(** The clock of the samples at its first reading, as a local time. *)
Definition sample_now : GoTime.Time :=
  {| GoTime.unix_ns := sample_clock 0; GoTime.location := GoTime.Local |}.

(** What the third rule of the pre-processing does to a character. *)
Definition is_spacing (c : ascii) : bool :=
  existsb (Ascii.eqb c) ["009"; "013"; "010"]%char.

Definition to_space (c : ascii) : ascii :=
  if is_spacing c then " "%char else c.

Fixpoint map_chars (f : ascii -> ascii) (s : string) : string :=
  match s with
  | EmptyString => EmptyString
  | String c s' => String (f c) (map_chars f s')
  end.

Definition no_brace (c : ascii) : bool :=
  negb (Ascii.eqb c "{") && negb (Ascii.eqb c "}").

Definition line_comment_regex : regex :=
  Seq (str "//{") (Seq dot (Seq (chr "}") (chr "010"))).

Definition block_comment_regex : regex :=
  Alt (Seq (str "/*{") dot) (str "*}*/").

Definition spacing_regex : regex := any_of ["009"; "013"; "010"]%char.

(** FIND x SINCE YESTERDAY with a line comment behind it. *)
Definition commented : string := "FIND x SINCE YESTERDAY // the last day".

(** The characters of an identifier: [a-zA-Z_] and [a-zA-Z_.@$]. *)
Definition ident_start_char (c : ascii) : bool :=
  is_upper c || is_lower c || Ascii.eqb c "_".

Definition ident_char (c : ascii) : bool :=
  is_upper c || is_lower c || existsb (Ascii.eqb c) ["_"; "."; "@"; "$"]%char.

Definition is_bracket (c : ascii) : bool :=
  existsb (Ascii.eqb c) ["["; "]"]%char.

Definition no_open_bracket (c : ascii) : bool := negb (Ascii.eqb c "[").

(** An identifier in brackets, and a text behind it. *)
Definition bracketed (c : ascii) (body rest : string) : string :=
  String "[" (String c (body ++ String "]" rest)).

Definition bracketed_query : string := "[dest_ip] , src_ip".

(** The symbols of the units that [do_reltime_ref] knows run from
    [sym_second] to [sym_december]. *)
Definition no_unit (t : lexer_token) : Prop :=
  token t < sym_second \/ sym_december < token t.

(** FIND src_ip SINCE 3 DAYS: the count and the unit, without AGO. *)
Definition since_3_days : Parser :=
  new_Parser "FIND src_ip SINCE 3 DAYS"
    [ mk_token "command" sym_find "FIND" 0;
      mk_token "ident" sym_none "src_ip" 5;
      mk_token "temporal" sym_since "SINCE" 12;
      mk_token "int" sym_none "3" 18;
      mk_token "calendars" sym_day "DAYS" 20 ].

(** FIND src_ip SINCE LAST src_ip, and the same with a further token. *)
Definition since_last_ident : Parser :=
  new_Parser "FIND src_ip SINCE LAST src_ip"
    [ mk_token "command" sym_find "FIND" 0;
      mk_token "ident" sym_none "src_ip" 5;
      mk_token "temporal" sym_since "SINCE" 12;
      mk_token "relative" sym_last "LAST" 18;
      mk_token "ident" sym_none "src_ip" 23 ].

Definition since_last_ident_more : Parser :=
  new_Parser "FIND src_ip SINCE LAST src_ip now"
    [ mk_token "command" sym_find "FIND" 0;
      mk_token "ident" sym_none "src_ip" 5;
      mk_token "temporal" sym_since "SINCE" 12;
      mk_token "relative" sym_last "LAST" 18;
      mk_token "ident" sym_none "src_ip" 23;
      mk_token "ident" sym_none "now" 30 ].

Definition int_regex : regex :=
  Seq Bol (Seq (plus digit)
               (opt (Seq (lazy_plus (any_of ["e"; "E"]%char)) (plus digit)))).

Definition int_rule : lexer_regex := {| rtag := "int"; compiled := int_regex |}.

(** What ends the digits of an int: the end of the text, or a character
    that is neither a digit nor the mark of an exponent. *)
Definition ends_digits (tail : string) : Prop :=
  match tail with
  | EmptyString => True
  | String x _ =>
      is_digit x = false /\ Ascii.eqb x "e" = false /\ Ascii.eqb x "E" = false
  end.

(** SORT x behind two spaces. *)
Definition indented_sort : string := "  SORT x".

(** * Properties *)

(** ** The model of [time] on known dates *)

Example days_from_civil_epoch : GoTime.days_from_civil 1970 1 1 = 0.
Proof. reflexivity. Qed.

Example civil_from_days_sample :
  GoTime.civil_from_days 19675 = (2023, 11, 14)
  /\ GoTime.days_from_civil 2023 11 14 = 19675
  /\ GoTime.civil_from_days (-1) = (1969, 12, 31)
  /\ GoTime.civil_from_days 11016 = (2000, 2, 29).
Proof. repeat split; reflexivity. Qed.

Example parse_samples :
  GoTime.Parse GoTime.DateOnly "2020-05-04"
    = Some {| GoTime.unix_ns := 1588550400 * GoTime.Second;
              GoTime.location := GoTime.UTC |}
  /\ GoTime.Parse GoTime.DateTime "2020-05-04 10:00:00"
    = Some {| GoTime.unix_ns := 1588586400 * GoTime.Second;
              GoTime.location := GoTime.UTC |}
  /\ GoTime.Parse GoTime.DateTime "2021-02-29 10:00:00" = None
  /\ GoTime.Parse GoTime.DateOnly "LAST" = None.
Proof. repeat split; reflexivity. Qed.

(** ** Inversion of the sequencing of calls *)

Lemma bind_Ok {A B : Type} (m : result A) (k : A -> result B) (b : B) :
  bind m k = Ok b -> exists a, m = Ok a /\ k a = Ok b.
Proof.
  destruct m as [a| | |]; simpl; try discriminate.
  intros H. exists a. split; [reflexivity | exact H].
Qed.

Ltac bind_inv H :=
  let a := fresh "a" in
  let Ha := fresh "Ha" in
  apply bind_Ok in H; destruct H as [a [Ha H]].

(** ** The resolved range is ordered *)

Lemma do_temp_cond_ordered (clock : nat -> Z) (zone : Z) (p q : Parser) :
  do_temp_cond clock zone p = Ok q -> time_from q <= time_to q.
Proof.
  unfold do_temp_cond. intros H.
  bind_inv H. bind_inv H. bind_inv H.
  destruct (Z.ltb_spec (time_to a1) (time_from a1)) as [Hlt | Hge];
    inversion H; subst; simpl; lia.
Qed.

Lemma do_syntax_ordered (clock : nat -> Z) (zone sym_as : Z) (fuel : nat)
    (p q : Parser) :
  do_syntax clock zone sym_as fuel p = Ok q -> time_from q <= time_to q.
Proof.
  unfold do_syntax. intros H.
  bind_inv H. bind_inv H. bind_inv H. bind_inv H. bind_inv H.
  destruct (token a3 =? sym_since).
  - eapply do_temp_cond_ordered; eassumption.
  - destruct (token a3 =? sym_between).
    + eapply do_temp_cond_ordered; eassumption.
    + unfold errorf_at in H. destruct (tok_at a2 (token_index a2)); simpl in H;
        try discriminate.
      destruct (slice_from (query a2) (stmt_pos a4)); discriminate.
Qed.

(** C1.  Whenever the parser returns success, the resolved range satisfies
    [time_from <= time_to]: [do_syntax] succeeds only through
    [do_temp_cond], which swaps inverted endpoints before it returns.  The
    parser state is arbitrary, so this covers the token list of every query
    string, the SINCE and the BETWEEN form, and references given in reverse
    order. *)
Theorem time_range_ordered (clock : nat -> Z) (zone sym_as : Z) (fuel : nat)
    (p q : Parser) :
  parser clock zone sym_as fuel p = Ok q -> time_from q <= time_to q.
Proof.
  unfold parser. intros H. bind_inv H.
  destruct (do_syntax clock zone sym_as fuel
              (set_token_index (set_num_tokens p (llen (tokens p))) 0))
    as [r| | |] eqn:Hs; try discriminate.
  bind_inv H. inversion H; subst.
  eapply do_syntax_ordered; eassumption.
Qed.

Lemma time_range_ordered_witness :
  parser sample_clock 0 sample_as 8 between_reversed
    = Ok between_reversed_parsed
  /\ time_from between_reversed_parsed <= time_to between_reversed_parsed.
Proof.
  split.
  - vm_compute. reflexivity.
  - apply (time_range_ordered sample_clock 0 sample_as 8 between_reversed).
    vm_compute. reflexivity.
Defined.

(** The same for query strings, lexed and then parsed. *)
Corollary parse_time_range_ordered (clock : nat -> Z) (zone sym_as : Z)
    (fuel : nat) (s : string) (q : Parser) :
  parse clock zone sym_as fuel s = Ok q -> time_from q <= time_to q.
Proof.
  unfold parse. destruct (lexer s); try discriminate.
  intros H.
  unfold parser in H. bind_inv H.
  destruct (do_syntax clock zone sym_as fuel _) as [r| | |] eqn:Hs;
    try discriminate.
  bind_inv H. inversion H; subst.
  eapply do_syntax_ordered; eassumption.
Qed.

(** The endpoints of the sample were swapped: yesterday was resolved first. *)
Example between_reversed_range :
  time_from between_reversed_parsed = 1699833599 * 10 ^ 9
  /\ time_to between_reversed_parsed = 1699833600 * 10 ^ 9.
Proof. split; reflexivity. Qed.

(** ** The value of [sym_as] matters only when a token carries it *)

Definition no_symbol (a : Z) (toks : list lexer_token) : Prop :=
  Forall (fun t => token t <> a) toks.

Lemma index_In {A : Type} (l : list A) (i : Z) (a : A) :
  index l i = Ok a -> In a l.
Proof.
  unfold index. destruct (i <? 0); try discriminate.
  destruct (nth_error l (Z.to_nat i)) eqn:E; try discriminate.
  intros H; inversion H; subst. eapply nth_error_In; eassumption.
Qed.

Lemma token_is_absent (p : Parser) (j a : Z) :
  no_symbol a (tokens p) ->
  token_is p j a = (_ <- tok_at p j ;; Ok false).
Proof.
  intros Ha. unfold token_is, tok_at.
  destruct (index (tokens p) j) as [t| | |] eqn:E; simpl; try reflexivity.
  apply index_In in E.
  unfold no_symbol in Ha. rewrite Forall_forall in Ha.
  specialize (Ha t E). apply Z.eqb_neq in Ha. rewrite Ha. reflexivity.
Qed.

Lemma do_derived_field_as (a b : Z) (p : Parser) :
  no_symbol a (tokens p) -> no_symbol b (tokens p) ->
  do_derived_field a p = do_derived_field b p.
Proof.
  intros Ha Hb. unfold do_derived_field.
  rewrite (token_is_absent p _ a Ha), (token_is_absent p _ b Hb).
  reflexivity.
Qed.

Lemma do_derived_field_tokens (a : Z) (p q : Parser) :
  do_derived_field a p = Ok q ->
  tokens q = tokens p /\ num_tokens q = num_tokens p /\ query q = query p.
Proof.
  unfold do_derived_field. intros H. bind_inv H. bind_inv H.
  repeat match type of H with
         | (if ?c then _ else _) = _ => destruct c
         end;
    try (inversion H; subst; simpl; auto; fail).
  - bind_inv H. destruct a2; inversion H; subst; simpl; auto.
  - unfold errorf_at in H. bind_inv H. bind_inv H. discriminate.
Qed.

Lemma sublist_body_as (a b : Z) (p : Parser) (sublist : Z) :
  no_symbol a (tokens p) -> no_symbol b (tokens p) ->
  sublist_body a p sublist = sublist_body b p sublist.
Proof.
  intros Ha Hb. unfold sublist_body.
  rewrite (do_derived_field_as a b p Ha Hb). reflexivity.
Qed.

Lemma sublist_body_tokens (a : Z) (p : Parser) (sublist : Z) (r : round) :
  sublist_body a p sublist = Ok r ->
  match r with
  | Continue q _ | Break q _ =>
      tokens q = tokens p /\ num_tokens q = num_tokens p /\ query q = query p
  end.
Proof.
  unfold sublist_body. intros H. bind_inv H.
  repeat match type of H with
         | (if ?c then _ else _) = _ => destruct c
         end;
    try (inversion H; subst; simpl; auto; fail).
  - bind_inv H. destruct a1.
    + unfold errorf_at in H. bind_inv H. bind_inv H. discriminate.
    + inversion H; subst; simpl; auto.
  - bind_inv H. inversion H; subst.
    eapply do_derived_field_tokens; eassumption.
  - unfold errorf_at in H. bind_inv H. bind_inv H. discriminate.
Qed.

Lemma sublist_loop_as (a b : Z) (fuel : nat) :
  forall (p : Parser) (sublist : Z),
    no_symbol a (tokens p) -> no_symbol b (tokens p) ->
    sublist_loop a fuel p sublist = sublist_loop b fuel p sublist.
Proof.
  induction fuel as [| fuel IH]; intros p sublist Ha Hb;
    cbn [sublist_loop]; [reflexivity |].
  rewrite (sublist_body_as a b p sublist Ha Hb).
  destruct (sublist_body b p sublist) as [r| | |] eqn:E; cbn [bind];
    try reflexivity.
  apply sublist_body_tokens in E.
  destruct r as [q s | q s]; [| reflexivity].
  destruct E as [E _].
  rewrite (IH q s); [reflexivity | rewrite E; assumption ..].
Qed.

Lemma do_stmt_as (a b : Z) (fuel : nat) (p : Parser) :
  no_symbol a (tokens p) -> no_symbol b (tokens p) ->
  do_stmt a fuel p = do_stmt b fuel p.
Proof.
  intros Ha Hb. unfold do_stmt, do_stmt_list, do_stmt_sublist.
  rewrite (sublist_loop_as a b fuel (advance p 1) 0 Ha Hb).
  reflexivity.
Qed.

Lemma parser_as (clock : nat -> Z) (zone a b : Z) (fuel : nat) (p : Parser) :
  no_symbol a (tokens p) -> no_symbol b (tokens p) ->
  parser clock zone a fuel p = parser clock zone b fuel p.
Proof.
  intros Ha Hb. unfold parser, do_syntax.
  rewrite (do_stmt_as a b fuel
             (set_token_index (set_num_tokens p (llen (tokens p))) 0) Ha Hb).
  reflexivity.
Qed.

Lemma fresh_symbol_absent (a : Z) (toks : list lexer_token) :
  fresh_symbol a ->
  Forall (fun t => sym_none <= token t <= sym_like) toks ->
  no_symbol a toks.
Proof.
  unfold fresh_symbol, no_symbol. intros Ha H.
  induction H as [| t l Ht _ IH]; constructor; [lia | exact IH].
Qed.

Lemma sample_as_fresh : fresh_symbol sample_as.
Proof. right. reflexivity. Qed.

Ltac known_symbols :=
  repeat constructor; unfold known_symbol; vm_compute; discriminate.

(** Replace a fresh [sym_as] by [sample_as] in a call of [parser]. *)
Ltac to_sample_as clock zone sym_as H :=
  rewrite (parser_as clock zone sym_as sample_as);
  [ | apply fresh_symbol_absent; [exact H | known_symbols]
    | apply fresh_symbol_absent; [exact sample_as_fresh | known_symbols] ].

(** ** What the lexer makes of the sample statements *)

Lemma lexer_find_1 : lexer "FIND 1 SINCE YESTERDAY" = Ok find_1_tokens.
Proof. vm_compute. reflexivity. Qed.

Lemma lexer_find_src_ip : lexer "FIND src_ip" = Ok find_src_ip_tokens.
Proof. vm_compute. reflexivity. Qed.

Lemma lexer_forever : lexer "FIND src_ip SINCE FOREVER" = Ok forever_tokens.
Proof. vm_compute. reflexivity. Qed.

Lemma lexer_last_hour : lexer "FIND src_ip SINCE LAST HOUR" = Ok last_hour_tokens.
Proof. vm_compute. reflexivity. Qed.

Lemma lexer_fortnight_ago : lexer fortnight_ago = Ok fortnight_ago_tokens.
Proof. vm_compute. reflexivity. Qed.

(** ** A literal in the field list: the loop does not advance *)

Definition literal_tag (t : string) : bool :=
  String.eqb t "int" || String.eqb t "float" || String.eqb t "string".

Lemma do_derived_field_literal (sym_as : Z) (p : Parser) (t : lexer_token) :
  tok_at p (token_index p) = Ok t ->
  literal_tag (tag t) = true ->
  do_derived_field sym_as p = Ok p.
Proof.
  intros Ht Hl. unfold do_derived_field, trace. rewrite Ht. cbn [bind].
  unfold literal_tag in Hl.
  destruct (String.eqb (tag t) "int"); [reflexivity |].
  destruct (String.eqb (tag t) "float"); [reflexivity |].
  destruct (String.eqb (tag t) "string"); [reflexivity | discriminate].
Qed.

Lemma sublist_body_literal (sym_as : Z) (p : Parser) (t : lexer_token)
    (sublist : Z) :
  tok_at p (token_index p) = Ok t ->
  token t = sym_none ->
  literal_tag (tag t) = true ->
  sublist_body sym_as p sublist = Ok (Continue p (wrap64 (sublist + 1))).
Proof.
  intros Ht Hn Hl. unfold sublist_body. rewrite Ht. cbn [bind].
  rewrite Hn. cbn [Z.eqb sym_none sym_comma sym_matching sym_since sym_between].
  rewrite (do_derived_field_literal sym_as p t Ht Hl). reflexivity.
Qed.

(** A round on a literal leaves the cursor where it was, so the loop is
    cut off by any amount of fuel. *)
Lemma sublist_loop_literal (sym_as : Z) (p : Parser) (t : lexer_token)
    (fuel : nat) :
  forall sublist : Z,
    token_index p < num_tokens p ->
    tok_at p (token_index p) = Ok t ->
    token t = sym_none ->
    literal_tag (tag t) = true ->
    sublist_loop sym_as fuel p sublist = OutOfFuel.
Proof.
  induction fuel as [| fuel IH]; intros sublist Hi Ht Hn Hl;
    cbn [sublist_loop]; apply Z.ltb_lt in Hi as Hb; rewrite Hb; cbn [negb].
  - reflexivity.
  - rewrite (sublist_body_literal sym_as p t sublist Ht Hn Hl). cbn [bind].
    apply IH; assumption.
Qed.

(** C2 (the code departs from the claim).  On the statement
    FIND 1 SINCE YESTERDAY the parser does not terminate: the field list
    holds an int literal, [do_stmt_sublist] hands it to [do_derived_field],
    which returns without moving the cursor, and the loop meets the same
    token again.  Whatever the fuel, the loop is cut off. *)
Theorem literal_field_never_returns (clock : nat -> Z) (zone sym_as : Z)
    (fuel : nat) :
  parse clock zone sym_as fuel "FIND 1 SINCE YESTERDAY" = OutOfFuel.
Proof.
  unfold parse. rewrite lexer_find_1.
  unfold parser, do_syntax, do_stmt, do_stmt_list, do_stmt_sublist.
  match goal with
  | |- context [sublist_loop ?a ?f ?p ?s] =>
      rewrite (sublist_loop_literal a p (mk_token "int" sym_none "1" 5) f s)
  end; reflexivity.
Qed.

(** C3 (the code departs from the claim).  On FIND src_ip the field list
    ends the token slice; [do_syntax] then indexes [p.tokens] at the cursor
    without a bounds check and panics, where the claim has it return the
    error for a missing temporal clause. *)
Theorem missing_temporal_clause_panics (clock : nat -> Z) (zone sym_as : Z)
    (fuel : nat) :
  parse clock zone sym_as (S fuel) "FIND src_ip" = Panic "index out of range".
Proof.
  unfold parse. rewrite lexer_find_src_ip.
  destruct fuel; lazy; reflexivity.
Qed.

(** Where a token that is neither SINCE nor BETWEEN stands at the place of
    the temporal clause, the error is returned. *)
Example missing_temporal_clause_reported (clock : nat -> Z) (zone sym_as : Z)
    (fuel : nat) :
  parse clock zone sym_as fuel "FIND ALL src_ip"
  = Err "syntax error: expected temporal clause (SINCE or BETWEEN) at 'src_ip'".
Proof. lazy. reflexivity. Qed.

(** C5 (the code departs from the claim).  FIND src_ip SINCE FOREVER is
    rejected.  The symbol table gives FOREVER the symbol [sym_between], and
    [do_temp_ref] has no case for [sym_forever] either: the token falls to
    [do_reltime_ref], which matches none of its shapes and reports an
    unexpected symbol. *)
Theorem since_forever_rejected (clock : nat -> Z) (zone sym_as : Z)
    (fuel : nat) :
  fresh_symbol sym_as ->
  parse clock zone sym_as (2 + fuel) "FIND src_ip SINCE FOREVER"
  = Err "syntax error: unexpected symbol at 'FOREVER'".
Proof.
  intros Has. unfold parse. rewrite lexer_forever.
  to_sample_as clock zone sym_as Has.
  lazy. reflexivity.
Qed.

Lemma since_forever_rejected_witness :
  fresh_symbol sample_as
  /\ parse sample_clock 0 sample_as 2 "FIND src_ip SINCE FOREVER"
     = Err "syntax error: unexpected symbol at 'FOREVER'".
Proof.
  split.
  - right. reflexivity.
  - apply (since_forever_rejected sample_clock 0 sample_as 0).
    right. reflexivity.
Defined.

(** A token that does carry [sym_forever] fares no better. *)
Example sym_forever_rejected (clock : nat -> Z) (zone : Z) :
  parser clock zone sample_as 2
    (new_Parser "FIND src_ip SINCE FOREVER"
       [ mk_token "command" sym_find "FIND" 0;
         mk_token "ident" sym_none "src_ip" 5;
         mk_token "temporal" sym_since "SINCE" 12;
         mk_token "relative" sym_forever "FOREVER" 18 ])
  = Err "syntax error: unexpected symbol at 'FOREVER'".
Proof. lazy. reflexivity. Qed.

(** ** FORTNIGHT AGO without a count *)

Lemma fortnight_ago_error (clock : nat -> Z) (zone sym_as : Z) (fuel : nat) :
  fresh_symbol sym_as ->
  parse clock zone sym_as (4 + fuel) fortnight_ago
  = Err "syntax error: missing AND in <temp-between> at 'AND FORTNIGHT AGO'".
Proof.
  intros Has. unfold parse. rewrite lexer_fortnight_ago.
  to_sample_as clock zone sym_as Has.
  lazy. reflexivity.
Qed.

Lemma fortnight_ago_short_fuel (clock : nat -> Z) (zone sym_as : Z)
    (fuel : nat) :
  fresh_symbol sym_as -> (fuel < 4)%nat ->
  parse clock zone sym_as fuel fortnight_ago = OutOfFuel.
Proof.
  intros Has Hf. unfold parse. rewrite lexer_fortnight_ago.
  to_sample_as clock zone sym_as Has.
  destruct fuel as [| [| [| [| fuel]]]]; try lia; lazy; reflexivity.
Qed.

Lemma lexer_since_fortnight_ago :
  lexer since_fortnight_ago = Ok since_fortnight_ago_tokens.
Proof. vm_compute. reflexivity. Qed.

Lemma lexer_one_fortnight_ago :
  lexer one_fortnight_ago = Ok one_fortnight_ago_tokens.
Proof. vm_compute. reflexivity. Qed.

(** The shape [<unit> AGO]: the count is the one handed in. *)
Lemma reltime_shape_ago (p : Parser) (u a : lexer_token) (il : Z) :
  tok_at p (token_index p) = Ok u -> token u <> sym_last ->
  tok_at p (token_index p + 1) = Ok a -> token a = sym_ago ->
  token_index p + 1 < num_tokens p ->
  reltime_shape p il = Ok (token u, il, advance p 2).
Proof.
  intros Hu Nu Ha Ta Hn. unfold reltime_shape, token_is.
  rewrite Hu, Ha. cbn [bind]. rewrite Ta.
  apply Z.ltb_lt in Hn. rewrite Hn. cbn [andalso].
  apply Z.eqb_neq in Nu. rewrite Nu.
  cbn [Z.eqb sym_ago sym_before Pos.eqb andalso].
  destruct (token_index p + 2 <? num_tokens p); reflexivity.
Qed.

Lemma reltime_switch_unit (zone tok times : Z) (now : GoTime.Time) :
  sym_second <= tok <= sym_december ->
  exists t : GoTime.Time, reltime_switch zone tok times now = Some t.
Proof.
  intros H. unfold reltime_switch.
  repeat match goal with
         | |- context [tok =? ?s] =>
             destruct (Z.eqb_spec tok s); [eexists; reflexivity |]
         end.
  exfalso. unfold sym_second, sym_minute, sym_hour, sym_day, sym_week,
    sym_fortnight, sym_month, sym_quarter, sym_year, sym_century,
    sym_monday, sym_tuesday, sym_wednesday, sym_thursday, sym_friday,
    sym_saturday, sym_sunday, sym_january, sym_february, sym_march,
    sym_april, sym_may, sym_june, sym_july, sym_august, sym_september,
    sym_october, sym_november, sym_december in *.
  lia.
Qed.

(** A unit before AGO, with no count before the unit: [do_temp_ref] hands
    the count 0 to [do_reltime_ref], which takes it for the number of units
    and returns the instant, not an error. *)
Lemma unit_ago_without_count (clock : nat -> Z) (zone : Z) (p : Parser)
    (u a : lexer_token) (e : bool) :
  tok_at p (token_index p) = Ok u -> unit_for_ago u ->
  tok_at p (token_index p + 1) = Ok a -> token a = sym_ago ->
  token_index p + 1 < num_tokens p ->
  exists t : GoTime.Time,
    reltime_switch zone (token u) 0
      {| GoTime.unix_ns := clock (S (ticks p));
         GoTime.location := GoTime.Local |} = Some t
    /\ do_temp_ref clock zone p e
       = Ok (GoTime.UnixNano t, advance (tick (tick p)) 2).
Proof.
  intros Hu [Hr Nd] Ha Ta Hn.
  destruct (reltime_switch_unit zone (token u) 0
              {| GoTime.unix_ns := clock (S (ticks p));
                 GoTime.location := GoTime.Local |} Hr) as [t Ht].
  exists t. split; [exact Ht |].
  assert (Nl : token u <> sym_last)
    by (unfold sym_second, sym_last in *; lia).
  unfold do_temp_ref, trace. rewrite Hu. cbn [bind time_Now].
  replace (tok_at (tick p) (token_index (tick p))) with (Ok u)
    by (symmetry; exact Hu).
  cbn [bind].
  replace (token u =? sym_day) with false
    by (symmetry; apply Z.eqb_neq; exact Nd).
  replace (token u =? sym_yesterday) with false
    by (symmetry; apply Z.eqb_neq; unfold sym_second, sym_yesterday in *; lia).
  replace (token u =? sym_last) with false
    by (symmetry; apply Z.eqb_neq; exact Nl).
  replace (token u =? sym_none) with false
    by (symmetry; apply Z.eqb_neq; unfold sym_second, sym_none in *; lia).
  unfold do_reltime_ref, trace.
  replace (tok_at (tick p) (token_index (tick p))) with (Ok u)
    by (symmetry; exact Hu).
  cbn [bind time_Now].
  rewrite (reltime_shape_ago (tick (tick p)) u a 0 Hu Nl Ha Ta Hn).
  cbn [bind ticks tick]. rewrite Ht. reflexivity.
Qed.

Lemma is_ok_parser_since (clock : nat -> Z) (zone a : Z) (fuel : nat)
    (p : Parser) (v : Z) (q : Parser) :
  sub_commands (tokens p) = Ok (tokens p, []) ->
  do_stmt a fuel (set_token_index (set_num_tokens p (llen (tokens p))) 0)
  = Ok q ->
  or_list q = [] ->
  (exists s, tok_at q (token_index q) = Ok s /\ token s = sym_since) ->
  (exists s, tok_at q (token_index q + 1) = Ok s) ->
  do_temp_ref clock zone (advance q 1) false = Ok (v, advance (tick (tick q)) 3) ->
  tok_at p 0 = Ok (mk_token "command" sym_find "FIND" 0) ->
  is_ok (parser clock zone a fuel p) = true.
Proof.
  intros Hsub Hstmt Hor [s [Hs Ts]] [s1 Hs1] Hrel Hf.
  unfold parser. rewrite Hsub. cbn [bind]. unfold do_syntax.
  replace (tok_at (set_token_index (set_num_tokens p (llen (tokens p))) 0)
             (token_index (set_token_index (set_num_tokens p (llen (tokens p))) 0)))
    with (Ok (mk_token "command" sym_find "FIND" 0)) by (symmetry; exact Hf).
  cbn [bind token mk_token Z.eqb sym_find Pos.eqb]. rewrite Hstmt.
  cbn [bind]. rewrite Hs. cbn [bind]. rewrite Ts.
  cbn [Z.eqb sym_since sym_matching Pos.eqb bind]. rewrite Hs. cbn [bind].
  rewrite Ts. cbn [Z.eqb sym_since Pos.eqb].
  unfold do_temp_cond, trace. rewrite Hs. cbn [bind]. rewrite Ts.
  cbn [Z.eqb sym_since Pos.eqb]. unfold do_temp_since, trace.
  replace (tok_at (advance q 1) (token_index (advance q 1))) with (Ok s1)
    by (symmetry; exact Hs1).
  cbn [bind]. rewrite Hrel. cbn [bind time_Now].
  match goal with
  | |- context [if ?c then _ else _] => destruct c
  end; cbn [or_list set_time_to set_time_from tick advance set_token_index];
    rewrite Hor; reflexivity.
Qed.

Lemma since_fortnight_ago_accepted (clock : nat -> Z) (zone sym_as : Z)
    (fuel : nat) :
  fresh_symbol sym_as ->
  is_ok (parse clock zone sym_as (2 + fuel) since_fortnight_ago) = true.
Proof.
  intros Has. unfold parse. rewrite lexer_since_fortnight_ago.
  to_sample_as clock zone sym_as Has.
  set (p := new_Parser since_fortnight_ago since_fortnight_ago_tokens).
  destruct (unit_ago_without_count clock zone
              (advance (set_fields (advance p 2) ["src_ip"%string]
                                   ["src_ip"%string]) 1)
              (mk_token "calendar" sym_fortnight "FORTNIGHT" 18)
              (mk_token "relative" sym_ago "AGO" 28) false
              eq_refl ltac:(split; [split |]; vm_compute; discriminate)
              eq_refl eq_refl ltac:(reflexivity)) as [t [_ Ht]].
  apply (is_ok_parser_since clock zone sample_as (2 + fuel) p
           (GoTime.UnixNano t)
           (set_fields (advance p 2) ["src_ip"%string] ["src_ip"%string])).
  - reflexivity.
  - reflexivity.
  - reflexivity.
  - eexists. split; reflexivity.
  - eexists. reflexivity.
  - exact Ht.
  - reflexivity.
Qed.

Lemma one_fortnight_ago_error (clock : nat -> Z) (zone sym_as : Z)
    (fuel : nat) :
  fresh_symbol sym_as ->
  parse clock zone sym_as (4 + fuel) one_fortnight_ago
  = Err "syntax error: missing AND in <temp-between> at 'AND 1 FORTNIGHT AGO'".
Proof.
  intros Has. unfold parse. rewrite lexer_one_fortnight_ago.
  to_sample_as clock zone sym_as Has.
  lazy. reflexivity.
Qed.

(** C6 (the code departs from the claim).  The count before a unit and AGO
    is not asked for.  Where a unit other than DAY stands before AGO with
    no count, [do_temp_ref] hands [do_reltime_ref] the count 0, which it
    takes for the number of units: the reference resolves, without an
    error, and FIND src_ip SINCE FORTNIGHT AGO is accepted.  The statement
    of the claim, FIND src_ip,dest_ip BETWEEN LAST MONTH AND FORTNIGHT AGO,
    is refused all the same, and never accepted, but for its AND, which the
    lexer hands over as an identifier: the error is the one for a missing
    AND, raised before FORTNIGHT AGO is read, and the statement with the
    count 1, which [test_statements.go] lists as a good one, is refused in
    the same way. *)
Theorem ago_without_count_accepted (clock : nat -> Z) (zone sym_as : Z) :
  fresh_symbol sym_as ->
  (forall (p : Parser) (u a : lexer_token) (e : bool),
      tok_at p (token_index p) = Ok u -> unit_for_ago u ->
      tok_at p (token_index p + 1) = Ok a -> token a = sym_ago ->
      token_index p + 1 < num_tokens p ->
      exists t : GoTime.Time,
        reltime_switch zone (token u) 0
          {| GoTime.unix_ns := clock (S (ticks p));
             GoTime.location := GoTime.Local |} = Some t
        /\ do_temp_ref clock zone p e
           = Ok (GoTime.UnixNano t, advance (tick (tick p)) 2))
  /\ (forall fuel : nat,
        is_ok (parse clock zone sym_as (2 + fuel) since_fortnight_ago) = true)
  /\ (forall fuel : nat,
        parse clock zone sym_as (4 + fuel) fortnight_ago
        = Err "syntax error: missing AND in <temp-between> at 'AND FORTNIGHT AGO'")
  /\ (forall fuel : nat,
        is_ok (parse clock zone sym_as fuel fortnight_ago) = false)
  /\ (forall fuel : nat,
        parse clock zone sym_as (4 + fuel) one_fortnight_ago
        = Err "syntax error: missing AND in <temp-between> at 'AND 1 FORTNIGHT AGO'").
Proof.
  intros Has. split; [| split; [| split; [| split]]].
  - intros p u a e Hu Hunit Ha Ta Hn.
    exact (unit_ago_without_count clock zone p u a e Hu Hunit Ha Ta Hn).
  - intros fuel. apply since_fortnight_ago_accepted. exact Has.
  - intros fuel. apply fortnight_ago_error. exact Has.
  - intros fuel. destruct (Nat.lt_ge_cases fuel 4) as [Hlt | Hge].
    + rewrite fortnight_ago_short_fuel by assumption. reflexivity.
    + replace fuel with (4 + (fuel - 4))%nat by lia.
      rewrite fortnight_ago_error by assumption. reflexivity.
  - intros fuel. apply one_fortnight_ago_error. exact Has.
Qed.

Lemma ago_without_count_accepted_witness :
  fresh_symbol sample_as
  /\ (exists t : GoTime.Time,
        reltime_switch 0 sym_fortnight 0
          {| GoTime.unix_ns := sample_clock 1;
             GoTime.location := GoTime.Local |} = Some t
        /\ do_temp_ref sample_clock 0
             (set_token_index
                (new_Parser since_fortnight_ago since_fortnight_ago_tokens) 3)
             false
           = Ok (GoTime.UnixNano t,
                 advance
                   (tick (tick (set_token_index
                                  (new_Parser since_fortnight_ago
                                     since_fortnight_ago_tokens) 3))) 2))
  /\ (exists q : Parser,
        parse sample_clock 0 sample_as 2 since_fortnight_ago = Ok q
        /\ time_from q = midnight_before 0 (sample_clock 1)
        /\ time_to q = sample_clock 2)
  /\ parse sample_clock 0 sample_as 4 fortnight_ago
     = Err "syntax error: missing AND in <temp-between> at 'AND FORTNIGHT AGO'".
Proof.
  split; [right; reflexivity |]. split; [| split].
  - apply (proj1 (ago_without_count_accepted sample_clock 0 sample_as
                    (or_intror eq_refl))
             (set_token_index
                (new_Parser since_fortnight_ago since_fortnight_ago_tokens) 3)
             (mk_token "calendar" sym_fortnight "FORTNIGHT" 18)
             (mk_token "relative" sym_ago "AGO" 28) false).
    + reflexivity.
    + split; [split |]; vm_compute; discriminate.
    + reflexivity.
    + reflexivity.
    + reflexivity.
  - eexists. split; [vm_compute; reflexivity |].
    split; vm_compute; reflexivity.
  - apply (proj1 (proj2 (proj2 (ago_without_count_accepted sample_clock 0
                                  sample_as (or_intror eq_refl)))) 0%nat).
Defined.

(** Were AND the keyword token, the statement of the claim would be
    accepted, FORTNIGHT AGO counting zero fortnights. *)
Example fortnight_ago_keyword_and_accepted :
  is_ok (parser sample_clock 0 sample_as 4 fortnight_ago_keyword_and) = true.
Proof. vm_compute. reflexivity. Qed.

(** ** Relative clock references *)

(** The three clock units, for a count [n]: [n], [60 * n] and [3600 * n]
    are handed to [Add] as durations, which are nanoseconds. *)
Lemma clock_units_subtract_nanoseconds (zone n : Z) (now : GoTime.Time) :
  reltime_switch zone sym_second n now
  = Some (GoTime.Add now (wrap64 (- n)))
  /\ reltime_switch zone sym_minute n now
    = Some (GoTime.Truncate
              (GoTime.Add now (wrap64 (- wrap64 (60 * n)))) GoTime.Minute)
  /\ reltime_switch zone sym_hour n now
    = Some (GoTime.Truncate
              (GoTime.Add now (wrap64 (- wrap64 (3600 * n)))) GoTime.Hour).
Proof. repeat split; reflexivity. Qed.

(** C4 (the code departs from the claim).  FIND src_ip SINCE LAST HOUR, at
    a clock that reads 22:13:20.12 on 2023-11-14 (UTC): [time_from] is
    22:00:00 of that day, the top of the current hour, and not 21:00:00,
    the top of the hour one hour earlier.  The count is subtracted as 3600
    nanoseconds before the truncation. *)
Theorem last_hour_is_the_current_hour :
  exists q : Parser,
    parse sample_clock 0 sample_as 2 "FIND src_ip SINCE LAST HOUR" = Ok q
    /\ time_from q = 1699999200 * 10 ^ 9
    /\ time_from q <> 1699999200 * 10 ^ 9 - temp_hour
    /\ time_to q = sample_clock 2.
Proof.
  eexists. split; [vm_compute; reflexivity |].
  repeat split; vm_compute; discriminate.
Qed.

(** ** YESTERDAY and DAY BEFORE YESTERDAY *)

Lemma wrap64_id (z : Z) : int64_min <= z <= int64_max -> wrap64 z = z.
Proof.
  unfold int64_min, int64_max, wrap64. intros H.
  rewrite Z.mod_small; lia.
Qed.

Lemma temp_day_pos : 0 < temp_day.
Proof. reflexivity. Qed.

Lemma midnight_before_spec (n now : Z) :
  midnight_before n now = (now - n * temp_day) - (now - n * temp_day) mod temp_day.
Proof.
  unfold midnight_before.
  pose proof temp_day_pos as Hd.
  replace (now - n * temp_day) with (now + (- n) * temp_day) by ring.
  rewrite Z.mod_add by lia.
  pose proof (Z.div_mod now temp_day ltac:(lia)) as E.
  lia.
Qed.

(** Midnight is a multiple of the day and lies within one day before the
    instant moved back by [n] days. *)
Lemma midnight_before_bounds (n now : Z) :
  midnight_before n now mod temp_day = 0
  /\ now - n * temp_day - temp_day < midnight_before n now <= now - n * temp_day.
Proof.
  pose proof temp_day_pos as Hd. split.
  - unfold midnight_before. rewrite Z.mul_comm. apply Z.mod_mul. lia.
  - rewrite midnight_before_spec.
    pose proof (Z.mod_pos_bound (now - n * temp_day) temp_day Hd). lia.
Qed.

(** [clock_ref -= a; clock_ref -= clock_ref % temp_day], for [a] a whole
    number of days that does not reach before the epoch. *)
Lemma round_back_to_day (n a now : Z) :
  a = n * temp_day -> a <= now <= int64_max -> 0 <= n ->
  wrap64 (wrap64 (wrap64 now - a) - Z.rem (wrap64 (wrap64 now - a)) temp_day)
  = midnight_before n now.
Proof.
  intros Ea Hnow Hn. pose proof temp_day_pos as Hd.
  assert (Ha : 0 <= a) by (subst a; apply Z.mul_nonneg_nonneg; lia).
  assert (Hmax : int64_max = 9223372036854775807) by reflexivity.
  assert (Hmin : int64_min = -9223372036854775808) by reflexivity.
  rewrite (wrap64_id now) by lia.
  rewrite (wrap64_id (now - a)) by lia.
  rewrite Z.rem_mod_nonneg by lia.
  rewrite midnight_before_spec. rewrite <- Ea.
  pose proof (Z.mod_pos_bound (now - a) temp_day Hd).
  assert (Hday : temp_day = 86400000000000) by reflexivity.
  apply wrap64_id. lia.
Qed.

Lemma end_of_day_in_range (n now : Z) :
  1 <= n -> now <= int64_max -> 0 <= now - n * temp_day ->
  wrap64 (midnight_before n now + (temp_day - temp_second))
  = midnight_before n now + (temp_day - temp_second).
Proof.
  intros Hn Hnow Hlo. pose proof temp_day_pos as Hd.
  assert (Hmax : int64_max = 9223372036854775807) by reflexivity.
  assert (Hmin : int64_min = -9223372036854775808) by reflexivity.
  assert (Hs : temp_second = 1000000000) by reflexivity.
  assert (Hday : temp_day = 86400000000000) by reflexivity.
  destruct (midnight_before_bounds n now) as [_ Hb].
  assert (Hn' : temp_day <= n * temp_day) by nia.
  apply wrap64_id. lia.
Qed.

(** C7, as amended.  With a clock at or after 2 January 1970 (3 January for
    DAY BEFORE YESTERDAY) and within [int64], a YESTERDAY reference
    resolves to midnight of the day before the clock's day when [end] is
    false, and to that midnight plus [temp_day - temp_second], which is
    23:59:59.000000000 of the same day, when [end] is true; DAY BEFORE
    YESTERDAY does the same two days back. *)
Theorem yesterday_bounds (clock : nat -> Z) (zone : Z) (p : Parser)
    (t : lexer_token) (end_ : bool) :
  tok_at p (token_index p) = Ok t ->
  temp_day <= clock (ticks p) <= int64_max ->
  (token t = sym_yesterday ->
   do_temp_ref clock zone p end_
   = Ok (midnight_before 1 (clock (ticks p))
         + (if end_ then temp_day - temp_second else 0),
         advance (tick p) 1))
  /\ (token t = sym_day ->
      token_index p + 2 < num_tokens p ->
      token_is p (token_index p + 1) sym_before = Ok true ->
      token_is p (token_index p + 2) sym_yesterday = Ok true ->
      2 * temp_day <= clock (ticks p) ->
      do_temp_ref clock zone p end_
      = Ok (midnight_before 2 (clock (ticks p))
            + (if end_ then temp_day - temp_second else 0),
            advance (tick p) 3)).
Proof.
  intros Ht Hnow. pose proof temp_day_pos as Hd.
  assert (Hday : temp_day = 86400000000000) by reflexivity.
  split.
  - intros Hy. unfold do_temp_ref, trace, time_Now. rewrite Ht. cbn [bind].
    change (tok_at (tick p) (token_index (tick p)))
      with (tok_at p (token_index p)).
    rewrite Ht. cbn [bind]. rewrite Hy.
    change (sym_yesterday =? sym_day) with false.
    change (sym_yesterday =? sym_yesterday) with true. cbv iota.
    unfold GoTime.UnixNano, GoTime.In_UTC. cbn [GoTime.unix_ns].
    rewrite (round_back_to_day 1 temp_day) by lia.
    destruct end_.
    + rewrite end_of_day_in_range by lia. reflexivity.
    + rewrite Z.add_0_r. reflexivity.
  - intros Hy Hi Hb1 Hb2 Hnow2.
    unfold do_temp_ref, trace, time_Now. rewrite Ht. cbn [bind].
    change (tok_at (tick p) (token_index (tick p)))
      with (tok_at p (token_index p)).
    rewrite Ht. cbn [bind]. rewrite Hy.
    change (sym_day =? sym_day) with true. cbv iota.
    change (num_tokens (tick p)) with (num_tokens p).
    change (token_index (tick p)) with (token_index p).
    apply Z.ltb_lt in Hi. rewrite Hi. cbn [andalso].
    change (token_is (tick p)) with (token_is p).
    rewrite Hb1. cbn [bind andalso]. rewrite Hb2. cbn [bind].
    unfold GoTime.UnixNano, GoTime.In_UTC. cbn [GoTime.unix_ns].
    rewrite (round_back_to_day 2 (2 * temp_day)) by lia.
    destruct end_.
    + rewrite end_of_day_in_range by lia. reflexivity.
    + rewrite Z.add_0_r. reflexivity.
Qed.

Lemma yesterday_bounds_witness :
  tok_at at_yesterday (token_index at_yesterday)
    = Ok (mk_token "relative" sym_yesterday "YESTERDAY" 18)
  /\ tok_at at_day_before_yesterday (token_index at_day_before_yesterday)
    = Ok (mk_token "calendar" sym_day "DAY" 32)
  /\ temp_day <= sample_clock 0 <= int64_max
  /\ do_temp_ref sample_clock 0 at_yesterday false
    = Ok (1699833600 * 10 ^ 9, advance (tick at_yesterday) 1)
  /\ do_temp_ref sample_clock 0 at_yesterday true
    = Ok (1699833600 * 10 ^ 9 + 86399 * 10 ^ 9, advance (tick at_yesterday) 1)
  /\ do_temp_ref sample_clock 0 at_day_before_yesterday true
    = Ok (1699747200 * 10 ^ 9 + 86399 * 10 ^ 9,
          advance (tick at_day_before_yesterday) 3).
Proof.
  assert (Hc : temp_day <= sample_clock 0 <= int64_max)
    by (split; vm_compute; discriminate).
  split; [reflexivity |]. split; [reflexivity |]. split; [exact Hc |].
  split; [| split].
  - rewrite (proj1 (yesterday_bounds sample_clock 0 at_yesterday
                      (mk_token "relative" sym_yesterday "YESTERDAY" 18)
                      false eq_refl Hc) eq_refl).
    vm_compute. reflexivity.
  - rewrite (proj1 (yesterday_bounds sample_clock 0 at_yesterday
                      (mk_token "relative" sym_yesterday "YESTERDAY" 18)
                      true eq_refl Hc) eq_refl).
    vm_compute. reflexivity.
  - rewrite (proj2 (yesterday_bounds sample_clock 0 at_day_before_yesterday
                      (mk_token "calendar" sym_day "DAY" 32)
                      true eq_refl Hc)
               eq_refl eq_refl eq_refl eq_refl
               ltac:(vm_compute; discriminate)).
    vm_compute. reflexivity.
Defined.

(** C7 as stated fails: with [end] the bound is 23:59:59.000000000 of
    yesterday, one second less a nanosecond short of the last instant. *)
Lemma yesterday_end_not_last_instant :
  exists (v : Z) (q : Parser),
    do_temp_ref sample_clock 0 at_yesterday true = Ok (v, q)
    /\ v = 1699919999 * 10 ^ 9
    /\ last_instant_of_day (midnight_before 1 (sample_clock 0))
       = 1699919999 * 10 ^ 9 + 999999999
    /\ v <> last_instant_of_day (midnight_before 1 (sample_clock 0)).
Proof.
  eexists. eexists. split; [vm_compute; reflexivity |].
  split; [reflexivity |]. split; [reflexivity |].
  vm_compute. discriminate.
Qed.

(** ** The MATCHING clause *)

Lemma nth_error_skipn {A : Type} (l : list A) :
  forall (n : nat) (a : A),
    nth_error l n = Some a -> skipn n l = a :: skipn (S n) l.
Proof.
  induction l as [| x l IH]; intros [| n] a H; simpl in H; try discriminate.
  - inversion H; subst. reflexivity.
  - simpl. apply IH. exact H.
Qed.

Lemma index_skipn {A : Type} (l : list A) (i : Z) (a : A) :
  index l i = Ok a ->
  0 <= i /\ skipn (Z.to_nat i) l = a :: skipn (Z.to_nat (i + 1)) l.
Proof.
  unfold index. destruct (Z.ltb_spec i 0) as [Hneg | Hpos]; try discriminate.
  destruct (nth_error l (Z.to_nat i)) eqn:E; try discriminate.
  intros H; inversion H; subst. split; [exact Hpos |].
  rewrite Z2Nat.inj_add by lia. rewrite Nat.add_1_r.
  apply nth_error_skipn. exact E.
Qed.

Lemma index_last {A : Type} (l : list A) (x y : A) :
  index (l ++ [x]) (llen (l ++ [y]) - 1) = Ok x.
Proof.
  unfold index, llen. rewrite length_app. simpl.
  destruct (Z.ltb_spec (Z.of_nat (List.length l + 1) - 1) 0); [lia |].
  replace (Z.to_nat (Z.of_nat (List.length l + 1) - 1))
    with (List.length l) by lia.
  rewrite nth_error_app2 by lia. rewrite Nat.sub_diag. reflexivity.
Qed.

Lemma set_nth_last {A : Type} (l : list A) (x y : A) :
  set_nth (l ++ [x]) (List.length l) y = Some (l ++ [y]).
Proof.
  induction l as [| a l IH]; simpl; [reflexivity |].
  rewrite IH. reflexivity.
Qed.

Lemma set_index_last {A : Type} (l : list A) (x y z : A) :
  set_index (l ++ [x]) (llen (l ++ [z]) - 1) y = Ok (l ++ [y]).
Proof.
  unfold set_index, llen. rewrite length_app. simpl.
  destruct (Z.ltb_spec (Z.of_nat (List.length l + 1) - 1) 0); [lia |].
  replace (Z.to_nat (Z.of_nat (List.length l + 1) - 1))
    with (List.length l) by lia.
  rewrite set_nth_last. reflexivity.
Qed.

Lemma index_nil {A : Type} (i : Z) (a : A) : index [] i = Ok a -> False.
Proof.
  unfold index. destruct (i <? 0); try discriminate.
  destruct (Z.to_nat i); discriminate.
Qed.

Lemma errorf_at_not_Ok {A : Type} (msg : string) (p : Parser) (i : Z) (a : A) :
  errorf_at msg p i = Ok a -> False.
Proof.
  unfold errorf_at. intros H. bind_inv H. bind_inv H. discriminate.
Qed.

Lemma add_to_current_last (d : DisjunctionGroup) (g : ConjunctionGroup)
    (pr : predicate) :
  add_to_current (d ++ [g]) pr = d ++ [g ++ [pr]].
Proof.
  unfold add_to_current. rewrite removelast_last, last_last. reflexivity.
Qed.

Lemma stub_shape {A : Type} (l : list (option A)) (z : option A) :
  exists x : option A,
    match l with [] => [None] | a :: l' => (a :: l') ++ [z] end = l ++ [x].
Proof.
  destruct l as [| a l]; [exists None | exists z]; reflexivity.
Qed.

Lemma do_val_expr_inv (p : Parser) (it : item) :
  do_val_expr p = Ok it ->
  exists t : lexer_token, tok_at p (token_index p) = Ok t /\ it = item_of t.
Proof.
  unfold do_val_expr. intros H. bind_inv H. inversion H; subst.
  exists a. split; [assumption | reflexivity].
Qed.

Lemma Parser_eq (p q : Parser) :
  query p = query q -> tokens p = tokens q -> num_tokens p = num_tokens q ->
  token_index p = token_index q -> fields p = fields q ->
  field_aliases p = field_aliases q -> find_flags p = find_flags q ->
  time_from p = time_from q -> time_to p = time_to q ->
  or_list p = or_list q -> ticks p = ticks q -> p = q.
Proof.
  destruct p, q; simpl; intros; subst; reflexivity.
Qed.

Lemma do_and_cond_spec (p q : Parser) (ol : list (option or_item)) (o : or_item) :
  do_and_cond p = Ok q ->
  or_list p = ol ++ [Some o] ->
  exists l e r : lexer_token,
    tok_at p (token_index p) = Ok l
    /\ tok_at p (token_index p + 1) = Ok e
    /\ tok_at p (token_index p + 2) = Ok r
    /\ token e = sym_equal
    /\ token_index p + 3 < num_tokens p
    /\ q = after_predicate p
             (ol ++ [Some (with_and_list o
                             (and_list o ++ [Some (and_of (predicate_of l e r))]))]).
Proof.
  intros H Hol. unfold do_and_cond in H.
  bind_inv H. rewrite Hol in H. rewrite index_last in H. cbn [bind deref] in H.
  destruct (stub_shape (and_list o) (Some and_item_zero)) as [x Hx].
  rewrite Hx in H. clear Hx.
  rewrite set_index_last in H. cbn [bind] in H.
  bind_inv H.
  match type of H with
  | (if ?c then _ else _) = _ => destruct c eqn:Hc
  end.
  { exfalso. eapply errorf_at_not_Ok. eassumption. }
  bind_inv H.
  match type of H with
  | (if ?c then _ else _) = _ => destruct c eqn:Hq
  end.
  { exfalso. eapply errorf_at_not_Ok. eassumption. }
  bind_inv H. bind_inv H.
  cbn [or_list set_or_list advance set_token_index] in H.
  rewrite index_last in H. cbn [bind deref and_list with_and_list] in H.
  rewrite set_index_last in H. cbn [bind] in H.
  rewrite set_index_last in H. cbn [bind] in H.
  apply do_val_expr_inv in Ha0, Ha2, Ha3.
  destruct Ha0 as [l [Hl El]], Ha2 as [e [He Ee]], Ha3 as [r [Hr Er]].
  cbn [tok_at tokens num_tokens token_index advance set_or_list set_token_index] in Hl, He, Hr, Ha1, Hc.
  fold (tok_at p (token_index p)) in Hl.
  fold (tok_at p (token_index p + 1)) in He, Ha1.
  fold (tok_at p (token_index p + 1 + 1)) in Hr.
  rewrite He in Ha1. inversion Ha1; subst a1.
  replace (token_index p + 1 + 1) with (token_index p + 2) in Hr by lia.
  exists l, e, r. repeat split; try assumption.
  - apply negb_false_iff in Hq. apply Z.eqb_eq in Hq. exact Hq.
  -     rewrite Z.geb_leb in Hc. apply Z.leb_gt in Hc. lia.
  - inversion H; subst. apply Parser_eq; cbn; try reflexivity. lia.
Qed.

Lemma do_or_cond_inv (fuel : nat) (p q : Parser) :
  do_or_cond fuel p = Ok q ->
  exists l e r : lexer_token,
    tok_at p (token_index p) = Ok l
    /\ tok_at p (token_index p + 1) = Ok e
    /\ tok_at p (token_index p + 2) = Ok r
    /\ token e = sym_equal
    /\ token_index p + 3 < num_tokens p
    /\ and_loop fuel
         (after_predicate p
            (or_list p ++ [Some (or_of [predicate_of l e r])])) = Ok q.
Proof.
  intros H. unfold do_or_cond in H.
  bind_inv H.
  destruct (stub_shape (or_list p) (Some or_item_zero)) as [x Hx].
  rewrite Hx in H. clear Hx.
  bind_inv H.
  match type of H with
  | (if ?c then _ else _) = _ => destruct c eqn:Hc
  end.
  { exfalso. eapply errorf_at_not_Ok. eassumption. }
  bind_inv H.
  match type of H with
  | (if ?c then _ else _) = _ => destruct c eqn:Hq
  end.
  { exfalso. eapply errorf_at_not_Ok. eassumption. }
  bind_inv H. bind_inv H.
  cbn [or_list set_or_list advance set_token_index] in H.
  rewrite set_index_last in H. cbn [bind] in H.
  apply do_val_expr_inv in Ha0, Ha2, Ha3.
  destruct Ha0 as [l [Hl El]], Ha2 as [e [He Ee]], Ha3 as [r [Hr Er]].
  cbn [tok_at tokens num_tokens token_index advance set_or_list set_token_index]
    in Hl, He, Hr, Ha1, Hc.
  fold (tok_at p (token_index p)) in Hl.
  fold (tok_at p (token_index p + 1)) in He, Ha1.
  fold (tok_at p (token_index p + 1 + 1)) in Hr.
  rewrite He in Ha1. inversion Ha1; subst a1.
  replace (token_index p + 1 + 1) with (token_index p + 2) in Hr by lia.
  exists l, e, r. repeat split; try assumption.
  - apply negb_false_iff in Hq. apply Z.eqb_eq in Hq. exact Hq.
  - rewrite Z.geb_leb in Hc. apply Z.leb_gt in Hc. lia.
  - subst. rewrite <- H. f_equal.
    apply Parser_eq; cbn; try reflexivity. lia.
Qed.

Lemma ahead_cons (p : Parser) (t : lexer_token) :
  tok_at p (token_index p) = Ok t ->
  ahead p = t :: skipn (Z.to_nat (token_index p + 1)) (tokens p).
Proof.
  intros H. unfold ahead. apply index_skipn in H. apply H.
Qed.

Lemma tok_at_skipn (p : Parser) (i : Z) (t : lexer_token) :
  tok_at p i = Ok t ->
  skipn (Z.to_nat i) (tokens p) = t :: skipn (Z.to_nat (i + 1)) (tokens p).
Proof.
  intros H. apply index_skipn in H. apply H.
Qed.

Lemma token_is_inv (p : Parser) (i sym : Z) (b : bool) :
  token_is p i sym = Ok b ->
  exists t : lexer_token, tok_at p i = Ok t /\ (token t =? sym) = b.
Proof.
  unfold token_is. intros H. bind_inv H. inversion H; subst.
  exists a. split; [assumption | reflexivity].
Qed.

Lemma and_loop_spec (fuel : nat) :
  forall (p q : Parser) (ol : list (option or_item)) (o : or_item),
    and_loop fuel p = Ok q ->
    or_list p = ol ++ [Some o] ->
    exists more : list predicate,
      or_list q
      = ol ++ [Some (with_and_list o
                       (and_list o ++ map (fun x => Some (and_of x)) more))]
      /\ tokens q = tokens p
      /\ (exists t : lexer_token,
             tok_at q (token_index q) = Ok t /\ token t <> sym_and)
      /\ forall (d : DisjunctionGroup) (g : ConjunctionGroup),
           spec_more (d ++ [g]) (ahead p) = spec_more (d ++ [g ++ more]) (ahead q).
Proof.
  induction fuel as [| fuel IH]; intros p q ol o H Hol;
    cbn [and_loop] in H; bind_inv H;
    apply token_is_inv in Ha; destruct Ha as [c [Hc Hb]];
    destruct a; try discriminate.
  1, 3: (inversion H; subst q; exists []; cbn [map]; rewrite app_nil_r;
         split; [destruct o; exact Hol |]; split; [reflexivity |];
         split; [exists c; split; [exact Hc | apply Z.eqb_neq; exact Hb] |];
         intros d g; rewrite app_nil_r; reflexivity).
  bind_inv H.
    apply (do_and_cond_spec _ _ ol o) in Ha; [| exact Hol].
    destruct Ha as [l [e [r [Hl [He [Hr [Heq [Hn Ea]]]]]]]].
    pose (pr := predicate_of l e r).
    apply (IH _ _ ol (with_and_list o (and_list o ++ [Some (and_of (predicate_of l e r))]))) in H;
      [| subst a; reflexivity].
    destruct H as [more [Hq [Ht [Hex Hs]]]].
    exists (predicate_of l e r :: more).
    split.
    { rewrite Hq. cbn [and_list with_and_list map].
      rewrite <- app_assoc. reflexivity. }
    split; [rewrite Ht; subst a; reflexivity |].
    split; [exact Hex |].
    intros d g.
    cbn [tok_at tokens token_index advance set_token_index] in Hl, He, Hr.
    rewrite (ahead_cons p c Hc).
    fold (tok_at p (token_index p + 1)) in Hl.
    fold (tok_at p (token_index p + 1 + 1)) in He.
    fold (tok_at p (token_index p + 1 + 2)) in Hr.
    replace (token_index p + 1 + 2) with (token_index p + 1 + 1 + 1) in Hr by lia.
    rewrite (tok_at_skipn p _ l Hl), (tok_at_skipn p _ e He), (tok_at_skipn p _ r Hr).
    cbn [spec_more]. rewrite Hb, Heq. rewrite Z.eqb_refl.
    rewrite add_to_current_last.
    assert (Ea' : ahead a
                  = skipn (Z.to_nat (token_index p + 1 + 1 + 1 + 1)) (tokens p))
      by (subst a; unfold ahead; cbn; f_equal; f_equal; lia).
    rewrite <- Ea'. rewrite (Hs d (g ++ [predicate_of l e r])).
    rewrite <- app_assoc. reflexivity.
Qed.

Lemma do_or_cond_spec (fuel : nat) (p q : Parser) :
  do_or_cond fuel p = Ok q ->
  exists (l e r : lexer_token) (more : list predicate),
    ahead p = l :: e :: r :: skipn (Z.to_nat (token_index p + 3)) (tokens p)
    /\ token e = sym_equal
    /\ or_list q = or_list p ++ [Some (or_of (predicate_of l e r :: more))]
    /\ tokens q = tokens p
    /\ (exists t : lexer_token,
           tok_at q (token_index q) = Ok t /\ token t <> sym_and)
    /\ forall d : DisjunctionGroup,
         spec_more (d ++ [[predicate_of l e r]])
                   (skipn (Z.to_nat (token_index p + 3)) (tokens p))
         = spec_more (d ++ [predicate_of l e r :: more]) (ahead q).
Proof.
  intros H. apply do_or_cond_inv in H.
  destruct H as [l [e [r [Hl [He [Hr [Heq [Hn H]]]]]]]].
  apply (and_loop_spec fuel _ _ (or_list p) (or_of [predicate_of l e r])) in H;
    [| reflexivity].
  destruct H as [more [Hq [Ht [Hex Hs]]]].
  exists l, e, r, more.
  split.
  { rewrite (ahead_cons p l Hl), (tok_at_skipn p _ e He).
    replace (token_index p + 2) with (token_index p + 1 + 1) in Hr by lia.
    rewrite (tok_at_skipn p _ r Hr).
    replace (token_index p + 1 + 1 + 1) with (token_index p + 3) by lia.
    reflexivity. }
  split; [exact Heq |].
  split; [exact Hq |].
  split; [exact Ht |].
  split; [exact Hex |].
  intros d. exact (Hs d [predicate_of l e r]).
Qed.

Lemma or_loop_spec (fuel : nat) :
  forall p q : Parser,
    or_loop fuel p = Ok q ->
    (exists t : lexer_token,
        tok_at p (token_index p) = Ok t /\ token t <> sym_and) ->
    exists d' : DisjunctionGroup,
      or_list q = or_list p ++ or_list_of d'
      /\ tokens q = tokens p
      /\ forall d : DisjunctionGroup,
           spec_more d (ahead p) = Some (d ++ d', ahead q).
Proof.
  induction fuel as [| fuel IH]; intros p q H [t0 [Ht0 Hna]];
    cbn [or_loop] in H; bind_inv H;
    apply token_is_inv in Ha; destruct Ha as [c [Hc Hb]];
    rewrite Ht0 in Hc; inversion Hc; subst c;
    destruct a; try discriminate.
  1, 3: (inversion H; subst q; exists []; cbn [or_list_of map];
         rewrite app_nil_r; split; [reflexivity |]; split; [reflexivity |];
         intros d; rewrite (ahead_cons p t0 Ht0); cbn [spec_more];
         apply Z.eqb_neq in Hna; rewrite Hna, Hb; rewrite app_nil_r;
         reflexivity).
  bind_inv H.
    apply do_or_cond_spec in Ha.
    destruct Ha as [l [e [r [more [Hah [Heq [Hq [Ht [Hex Hs]]]]]]]]].
    apply IH in H; [| exact Hex].
    destruct H as [d' [Hq' [Ht' Hs']]].
    exists ((predicate_of l e r :: more) :: d').
    split.
    { rewrite Hq', Hq. cbn [or_list advance set_token_index or_list_of map].
      rewrite <- app_assoc. reflexivity. }
    split; [rewrite Ht', Ht; reflexivity |].
    intros d. rewrite (ahead_cons p t0 Ht0). 
    change (skipn (Z.to_nat (token_index p + 1)) (tokens p))
      with (ahead (advance p 1)).
    rewrite Hah. cbn [spec_more].
    apply Z.eqb_neq in Hna. rewrite Hna, Hb, Heq, Z.eqb_refl.
    unfold open_group. rewrite Hs, Hs'.
    rewrite <- app_assoc. reflexivity.
Qed.


Lemma do_matching_cond_spec (fuel : nat) (p q : Parser) :
  do_matching_cond fuel p = Ok q ->
  exists d : DisjunctionGroup,
    spec_matching (ahead p) = Some (d, ahead q)
    /\ or_list q = or_list p ++ or_list_of d
    /\ tokens q = tokens p.
Proof.
  unfold do_matching_cond. intros H. bind_inv H. bind_inv H.
  apply do_or_cond_spec in Ha0.
  destruct Ha0 as [l [e [r [more [Hah [Heq [Hq [Ht [Hex Hs]]]]]]]]].
  apply or_loop_spec in H; [| exact Hex].
  destruct H as [d' [Hq' [Ht' Hs']]].
  exists ((predicate_of l e r :: more) :: d').
  split; [| split].
  - rewrite Hah. cbn [spec_matching]. rewrite Heq, Z.eqb_refl.
    etransitivity; [exact (Hs []) |]. rewrite Hs'. reflexivity.
  - rewrite Hq', Hq. cbn [or_list_of map]. rewrite <- app_assoc. reflexivity.
  - rewrite Ht', Ht. reflexivity.
Qed.

Lemma tok_at_set_or_list (p : Parser) (ol : list (option or_item)) (i : Z) :
  tok_at (set_or_list p ol) i = tok_at p i.
Proof. reflexivity. Qed.

Lemma tok_at_advance (p : Parser) (n i : Z) :
  tok_at (advance p n) i = tok_at p i.
Proof. reflexivity. Qed.

Lemma errorf_at_set_or_list {A : Type} (msg : string) (p : Parser)
    (ol : list (option or_item)) (i : Z) :
  @errorf_at A msg (set_or_list p ol) i = errorf_at msg p i.
Proof. reflexivity. Qed.

Lemma errorf_at_advance {A : Type} (msg : string) (p : Parser) (n i : Z) :
  @errorf_at A msg (advance p n) i = errorf_at msg p i.
Proof. reflexivity. Qed.

Lemma errorf_at_Err {A : Type} (msg : string) (p : Parser) (i : Z)
    (t : lexer_token) (s : string) :
  tok_at p i = Ok t ->
  slice_from (query p) (stmt_pos t) = Ok s ->
  @errorf_at A msg p i = Err (msg ++ " '" ++ s ++ "'")%string.
Proof.
  intros Ht Hs. unfold errorf_at. rewrite Ht. cbn [bind]. rewrite Hs.
  reflexivity.
Qed.

(** A predicate whose second token is not the equal sign. *)
Lemma predicate_without_equal (p : Parser) (l e : lexer_token) (s : string) :
  tok_at p (token_index p) = Ok l ->
  tok_at p (token_index p + 1) = Ok e ->
  token e <> sym_equal ->
  token_index p + 3 < num_tokens p ->
  slice_from (query p) (stmt_pos e) = Ok s ->
  (forall fuel : nat,
      do_or_cond fuel p
      = Err ("expected equal (=) sign at '" ++ s ++ "'")%string)
  /\ (forall (ol : list (option or_item)) (o : or_item),
        or_list p = ol ++ [Some o] ->
        do_and_cond p
        = Err ("expected equal (=) sign at '" ++ s ++ "'")%string).
Proof.
  intros Hl He Hne Hn Hs.
  assert (Hc : (token_index p + 1 + 2 >=? num_tokens p) = false)
    by (rewrite Z.geb_leb; apply Z.leb_gt; lia).
  apply Z.eqb_neq in Hne.
  split.
  - intros fuel. unfold do_or_cond, trace, do_val_expr.
    rewrite Hl. cbn [bind].
    destruct (stub_shape (or_list p) (Some or_item_zero)) as [x Hx].
    rewrite Hx. clear Hx.
    cbn [num_tokens token_index advance set_or_list set_token_index].
    rewrite !tok_at_set_or_list. rewrite Hl. cbn [bind].
    rewrite Hc. rewrite !tok_at_advance, !tok_at_set_or_list.
    rewrite He. cbn [bind].
    rewrite Hne. cbn [negb].
    rewrite (errorf_at_Err _ _ _ e s); [reflexivity | exact He | exact Hs].
  - intros ol o Hol. unfold do_and_cond, trace, do_val_expr.
    rewrite Hl. cbn [bind]. rewrite Hol. rewrite index_last. cbn [bind deref].
    destruct (stub_shape (and_list o) (Some and_item_zero)) as [x Hx].
    rewrite Hx. clear Hx. rewrite set_index_last. cbn [bind].
    cbn [num_tokens token_index advance set_or_list set_token_index].
    rewrite !tok_at_set_or_list. rewrite Hl. cbn [bind].
    rewrite Hc. rewrite !tok_at_advance, !tok_at_set_or_list.
    rewrite He. cbn [bind].
    rewrite Hne. cbn [negb].
    rewrite (errorf_at_Err _ _ _ e s); [reflexivity | exact He | exact Hs].
Qed.

(** C8, as amended.  A MATCHING clause that parses successfully leaves the
    tree that the specification words: the first predicate opens a new
    group in a new entry of [or_list], each AND adds one predicate to the
    current group, each OR opens a new group; the entries are appended to
    [or_list], and the cursor is left on the first token that is neither AND
    nor OR.  A predicate whose comparison token is not the equal sign makes
    [do_or_cond] and [do_and_cond] return the expected-equal error, provided
    two tokens follow the comparison token (with fewer, the clause is
    reported as cut short before the comparison token is looked at). *)
Theorem matching_condition_tree :
  (forall (fuel : nat) (p q : Parser),
      do_matching_cond fuel p = Ok q ->
      exists d : DisjunctionGroup,
        spec_matching (ahead p) = Some (d, ahead q)
        /\ or_list q = or_list p ++ or_list_of d)
  /\ (forall (p : Parser) (l e : lexer_token) (s : string),
        tok_at p (token_index p) = Ok l ->
        tok_at p (token_index p + 1) = Ok e ->
        token e <> sym_equal ->
        token_index p + 3 < num_tokens p ->
        slice_from (query p) (stmt_pos e) = Ok s ->
        (forall fuel : nat,
            do_or_cond fuel p
            = Err ("expected equal (=) sign at '" ++ s ++ "'")%string)
        /\ (forall (ol : list (option or_item)) (o : or_item),
              or_list p = ol ++ [Some o] ->
              do_and_cond p
              = Err ("expected equal (=) sign at '" ++ s ++ "'")%string)).
Proof.
  split.
  - intros fuel p q H. apply do_matching_cond_spec in H.
    destruct H as [d [Hs [Ho _]]]. exists d. split; assumption.
  - apply predicate_without_equal.
Qed.

Lemma matching_condition_tree_witness :
  do_matching_cond 2 at_matching = Ok at_matching_parsed
  /\ (exists d : DisjunctionGroup,
        spec_matching (ahead at_matching) = Some (d, ahead at_matching_parsed)
        /\ or_list at_matching_parsed = or_list at_matching ++ or_list_of d)
  /\ tok_at at_less_than (token_index at_less_than)
      = Ok (mk_token "ident" sym_none "a" 16)
  /\ tok_at at_less_than (token_index at_less_than + 1)
      = Ok (mk_token "less" sym_less "<" 18)
  /\ sym_less <> sym_equal
  /\ token_index at_less_than + 3 < num_tokens at_less_than
  /\ do_or_cond 2 at_less_than
      = Err "expected equal (=) sign at '< b SINCE YESTERDAY'".
Proof.
  split; [vm_compute; reflexivity |].
  split.
  { apply (proj1 matching_condition_tree 2%nat at_matching at_matching_parsed).
    vm_compute. reflexivity. }
  split; [reflexivity |]. split; [reflexivity |].
  split; [vm_compute; discriminate |]. split; [reflexivity |].
  apply (proj1 (proj2 matching_condition_tree at_less_than
                  (mk_token "ident" sym_none "a" 16)
                  (mk_token "less" sym_less "<" 18)
                  "< b SINCE YESTERDAY"%string
                  eq_refl eq_refl
                  ltac:(vm_compute; discriminate) eq_refl eq_refl)).
Defined.

(** The tree of the sample, and the tokens left. *)
Example at_matching_result :
  spec_matching (ahead at_matching)
  = Some (at_matching_tree, ahead at_matching_parsed)
  /\ or_list at_matching_parsed = or_list_of at_matching_tree
  /\ token_index at_matching_parsed = 14.
Proof. repeat split; vm_compute; reflexivity. Qed.

Lemma lexer_less_at_end :
  lexer "FIND x MATCHING a < b" = Ok less_at_end_tokens.
Proof. vm_compute. reflexivity. Qed.

(** C8 as stated fails: a predicate with the comparison token [<] that ends
    the statement is reported as cut short, not as lacking the equal sign. *)
Lemma less_at_end_reports_cut_short :
  lexer "FIND x MATCHING a < b" = Ok less_at_end_tokens
  /\ index less_at_end_tokens 4 = Ok (mk_token "less" sym_less "<" 18)
  /\ parse sample_clock 0 sample_as 2 "FIND x MATCHING a < b"
     = Err "syntax error: MATCHING statement cut short at '< b'"
  /\ parse sample_clock 0 sample_as 2 "FIND x MATCHING a < b"
     <> Err "syntax error: expected equal (=) sign at '< b'".
Proof.
  split; [vm_compute; reflexivity |].
  split; [reflexivity |].
  split; [vm_compute; reflexivity |].
  vm_compute. discriminate.
Qed.

(** ** Full month names in the lexer *)

Lemma search_anchored_tail (r : regex) :
  forall (s : string) (c : ascii), search (Seq Bol r) (Some c) s = None.
Proof.
  induction s as [| x s IH]; intros c; cbn [search rmatch last_char].
  - reflexivity.
  - rewrite IH. reflexivity.
Qed.

Lemma search_anchored (r : regex) (s : string) :
  search (Seq Bol r) None s
  = match head_match (Seq Bol r) s with
    | Some (acc, rest) => Some (EmptyString, string_of_rev acc EmptyString, rest)
    | None => None
    end.
Proof.
  unfold head_match.
  destruct s as [| x s]; cbn [search];
    destruct (rmatch (Seq Bol r) None [] _ _) as [[acc rest] |];
    try reflexivity.
  rewrite search_anchored_tail. reflexivity.
Qed.

Lemma FindString_anchored (r : regex) (s : string) :
  FindString (Seq Bol r) s
  = match head_match (Seq Bol r) s with
    | Some (acc, _) => string_of_rev acc EmptyString
    | None => EmptyString
    end.
Proof.
  unfold FindString. rewrite search_anchored.
  destruct (head_match (Seq Bol r) s) as [[acc rest] |]; reflexivity.
Qed.

Lemma last_of_some (s : string) (c : ascii) : exists x, last_of s (Some c) = Some x.
Proof.
  revert c. induction s as [| y s IH]; intros c; cbn [last_of].
  - exists c. reflexivity.
  - apply IH.
Qed.

Lemma string_of_rev_nonempty (acc : list ascii) (c : ascii) (t : string) :
  exists x u, string_of_rev acc (String c t) = String x u.
Proof.
  revert c t. induction acc as [| a acc IH]; intros c t; cbn [string_of_rev].
  - exists c, t. reflexivity.
  - apply IH.
Qed.

Lemma ReplaceAll_anchored (r : regex) (s : string) (a : ascii)
    (acc : list ascii) (rest : string) :
  head_match (Seq Bol r) s = Some (a :: acc, rest) ->
  ReplaceAll (Seq Bol r) s EmptyString = rest.
Proof.
  intros H. unfold ReplaceAll. cbn [replace_from].
  rewrite search_anchored, H.
  cbn [string_of_rev].
  destruct (string_of_rev_nonempty acc a EmptyString) as [x [u E]].
  rewrite E. cbn [last_of append].
  destruct (last_of_some u x) as [y Ey]. rewrite Ey.
  destruct (String.length s); cbn [replace_from]; [reflexivity |].
  rewrite search_anchored_tail. reflexivity.
Qed.

Lemma trim_right_cons (f : ascii -> bool) (c : ascii) (s : string) :
  trim_right f s = s -> f c = false -> trim_right f (String c s) = String c s.
Proof.
  intros Hs Hc. cbn [trim_right]. rewrite Hs, Hc.
  destruct s; reflexivity.
Qed.



Lemma first_match_skip (rule : lexer_regex) (table : list lexer_regex)
    (s : string) :
  FindString (compiled rule) s = EmptyString ->
  first_match (rule :: table) s = first_match table s.
Proof. intros H. cbn [first_match]. rewrite H. reflexivity. Qed.

Lemma first_match_hit (rule : lexer_regex) (table : list lexer_regex)
    (s : string) (c : ascii) (found : string) :
  FindString (compiled rule) s = String c found ->
  first_match (rule :: table) s = Some (rule, String c found).
Proof. intros H. cbn [first_match]. rewrite H. reflexivity. Qed.

Ltac anchored_find :=
  cbn [compiled]; unfold keyword, at_start, mon_regex;
  rewrite FindString_anchored; vm_compute; reflexivity.

Ltac first_match_anchored :=
  unfold lexer_regex_table;
  repeat (rewrite first_match_skip by anchored_find);
  erewrite first_match_hit by anchored_find;
  reflexivity.

Lemma month_first_match (m : month_name) (rest : string) :
  In m month_names ->
  first_match lexer_regex_table (full_name m ++ rest)
  = Some (mon_rule, abbreviation m).
Proof.
  intros Hin. cbn [In month_names] in Hin.
  repeat (destruct Hin as [Hin | Hin]; [subst m; cbn [full_name abbreviation] |]);
    [.. | contradiction]; first_match_anchored.
Qed.

Lemma month_head_match (m : month_name) (rest : string) :
  In m month_names ->
  exists (a : ascii) (acc : list ascii),
    head_match mon_regex (full_name m ++ rest)
    = Some (a :: acc, (remainder m ++ rest)%string).
Proof.
  intros Hin. cbn [In month_names] in Hin.
  repeat (destruct Hin as [Hin | Hin]; [subst m; cbn [full_name remainder] |]);
    [.. | contradiction]; eexists; eexists; vm_compute; reflexivity.
Qed.

Lemma month_lookup (m : month_name) :
  In m month_names ->
  lookup lexer_symbol_table (abbreviation m) = Some (month_sym m).
Proof.
  intros Hin. cbn [In month_names] in Hin.
  repeat (destruct Hin as [Hin | Hin]; [subst m |]);
    [.. | contradiction]; reflexivity.
Qed.

Lemma month_step (m : month_name) (rest : string) (pos : Z) :
  In m month_names ->
  lexer_step (full_name m ++ rest) pos
  = Ok (mk_token "mon" (month_sym m) (abbreviation m) pos,
        TrimSpace (remainder m ++ rest)).
Proof.
  intros Hin. unfold lexer_step.
  rewrite (month_first_match m rest Hin).
  cbn [rtag compiled mon_rule]. cbn [String.eqb Ascii.eqb Bool.eqb].
  rewrite (month_lookup m Hin). cbn [bind].
  destruct (month_head_match m rest Hin) as [a [acc H]].
  unfold mon_regex in *.
  rewrite (ReplaceAll_anchored _ _ a acc _ H). reflexivity.
Qed.

Lemma ends_word_cases (rest : string) (P : string -> Prop) :
  ends_word rest ->
  P EmptyString -> (forall r : string, P (String " " r)) -> P rest.
Proof.
  intros [E | [r E]] H0 H1; subst rest; [exact H0 | apply H1].
Qed.

Ltac ident_find :=
  cbn [compiled]; unfold ident_regex, FindString; vm_compute; reflexivity.

Ltac first_match_ident :=
  unfold lexer_regex_table;
  repeat (rewrite first_match_skip by anchored_find);
  erewrite first_match_hit by ident_find;
  reflexivity.

Lemma remainder_first_match (m : month_name) (rest : string) :
  In m month_names -> remainder m <> EmptyString -> ends_word rest ->
  first_match lexer_regex_table (remainder m ++ rest)
  = Some (ident_rule, remainder m).
Proof.
  intros Hin Hne Hr. cbn [In month_names] in Hin.
  repeat (destruct Hin as [Hin | Hin];
          [subst m; cbn [remainder] in Hne |- * |]);
    [.. | contradiction]; try (exfalso; apply Hne; reflexivity);
    apply (ends_word_cases rest); try assumption; intros;
    first_match_ident.
Qed.

Lemma remainder_step (m : month_name) (rest : string) (pos : Z) :
  In m month_names -> remainder m <> EmptyString -> ends_word rest ->
  lexer_step (remainder m ++ rest) pos
  = Ok (mk_token "ident" sym_none (remainder m) pos,
        TrimSpace (ReplaceAll ident_regex (remainder m ++ rest) EmptyString)).
Proof.
  intros Hin Hne Hr. unfold lexer_step.
  rewrite (remainder_first_match m rest Hin Hne Hr).
  cbn [rtag compiled ident_rule]. cbn [String.eqb Ascii.eqb Bool.eqb bind].
  replace (Trim (remainder m) ["["%char; "]"%char]) with (remainder m);
    [reflexivity |].
  cbn [In month_names] in Hin.
  repeat (destruct Hin as [Hin | Hin]; [subst m |]);
    [.. | contradiction]; reflexivity.
Qed.

Lemma lexer_loop_step (fuel : nat) (s s2 : string) (pos : Z)
    (toks : list lexer_token) (tok : lexer_token) :
  s <> EmptyString ->
  lexer_step s pos = Ok (tok, s2) ->
  lexer_loop (S fuel) s pos toks
  = lexer_loop fuel s2 (pos + (len s - len s2)) (toks ++ [tok]).
Proof.
  intros Hs H. destruct s as [| c s]; [contradiction |].
  cbn [lexer_loop]. rewrite H. reflexivity.
Qed.

Lemma right_trimmed_word (w rest : string) :
  no_space w = true -> right_trimmed rest -> right_trimmed (w ++ rest).
Proof.
  unfold right_trimmed. intros Hw Hr.
  induction w as [| c w IH]; [exact Hr |].
  cbn [no_space] in Hw. apply andb_true_iff in Hw. destruct Hw as [Hc Hw].
  cbn [append]. apply trim_right_cons; [apply IH; exact Hw |].
  apply negb_true_iff. exact Hc.
Qed.

Lemma TrimSpace_word (w rest : string) :
  no_space w = true -> w <> EmptyString -> right_trimmed rest ->
  TrimSpace (w ++ rest) = (w ++ rest)%string.
Proof.
  intros Hw Hne Hr. unfold TrimSpace.
  destruct w as [| c w]; [contradiction |].
  pose proof (right_trimmed_word (String c w) rest Hw Hr) as Ht.
  cbn [no_space] in Hw. apply andb_true_iff in Hw. destruct Hw as [Hc Hw].
  apply negb_true_iff in Hc.
  cbn [append trim_left]. rewrite Hc. exact Ht.
Qed.

Lemma len_append (a b : string) : len (a ++ b) = len a + len b.
Proof.
  unfold len. induction a as [| c a IH]; cbn [append String.length].
  - reflexivity.
  - rewrite !Nat2Z.inj_succ. lia.
Qed.

Lemma month_name_parts (m : month_name) :
  In m month_names ->
  full_name m = (abbreviation m ++ remainder m)%string
  /\ len (abbreviation m) = 3
  /\ no_space (remainder m) = true
  /\ full_name m <> EmptyString.
Proof.
  intros Hin. cbn [In month_names] in Hin.
  repeat (destruct Hin as [Hin | Hin]; [subst m |]);
    [.. | contradiction]; repeat split; discriminate.
Qed.

(** C10, amended.  Where the text left to tokenise begins with a full month
    name (in capitals, followed by a space or by the end of the text), the
    round of the loop emits the token tagged mon for its first three letters:
    the rule tagged mon has no word boundary and precedes the rule tagged
    months, which is never reached.  For every name but MAY letters remain,
    and the next round emits them as an identifier; MAY is its own
    abbreviation and leaves none. *)
Theorem full_month_name_is_split (m : month_name) (rest : string) (pos : Z)
    (toks : list lexer_token) (fuel : nat) :
  In m month_names -> ends_word rest -> right_trimmed rest ->
  lexer_step (full_name m ++ rest) pos
  = Ok (mk_token "mon" (month_sym m) (abbreviation m) pos,
        TrimSpace (remainder m ++ rest))
  /\ (remainder m <> EmptyString ->
      let s2 := TrimSpace (ReplaceAll ident_regex (remainder m ++ rest)
                             EmptyString) in
      lexer_loop (S (S fuel)) (full_name m ++ rest) pos toks
      = lexer_loop fuel s2
          (pos + 3 + (len (remainder m ++ rest) - len s2))
          (toks ++ [ mk_token "mon" (month_sym m) (abbreviation m) pos;
                     mk_token "ident" sym_none (remainder m) (pos + 3) ])).
Proof.
  intros Hin Hw Hr.
  destruct (month_name_parts m Hin) as [Ef [El [Hns Hfn]]].
  split; [apply month_step; exact Hin |].
  intros Hne s2.
  assert (Hs1 : (full_name m ++ rest)%string <> EmptyString)
    by (destruct (full_name m); [exfalso; apply Hfn; reflexivity
                                | cbn [append]; discriminate]).
  assert (Hs2 : (remainder m ++ rest)%string <> EmptyString)
    by (destruct (remainder m); [exfalso; apply Hne; reflexivity
                                | cbn [append]; discriminate]).
  rewrite (lexer_loop_step (S fuel) _ _ pos toks _ Hs1
             (month_step m rest pos Hin)).
  rewrite (TrimSpace_word _ _ Hns Hne Hr).
  assert (Ep : pos + (len (full_name m ++ rest) - len (remainder m ++ rest))
               = pos + 3).
  { rewrite Ef. rewrite !len_append. lia. }
  rewrite Ep.
  rewrite (lexer_loop_step fuel _ _ (pos + 3) _ _ Hs2
             (remainder_step m rest (pos + 3) Hin Hne Hw)).
  rewrite <- app_assoc. reflexivity.
Qed.

Lemma full_month_name_is_split_witness :
  In {| full_name := "APRIL"; abbreviation := "APR"; remainder := "IL";
        month_sym := sym_april |} month_names
  /\ ends_word EmptyString
  /\ right_trimmed EmptyString
  /\ lexer_step "APRIL" 23 = Ok (mk_token "mon" sym_april "APR" 23, "IL"%string)
  /\ lexer_loop 2 "APRIL" 23 [] 
     = Ok [ mk_token "mon" sym_april "APR" 23;
            mk_token "ident" sym_none "IL" 26 ].
Proof.
  assert (Hin : In {| full_name := "APRIL"; abbreviation := "APR";
                      remainder := "IL"; month_sym := sym_april |}
                   month_names)
    by (cbn [In month_names]; auto).
  assert (Hw : ends_word EmptyString) by (left; reflexivity).
  assert (Ht : right_trimmed EmptyString) by reflexivity.
  split; [exact Hin |]. split; [exact Hw |]. split; [exact Ht |].
  destruct (full_month_name_is_split _ EmptyString 23 [] 0%nat Hin Hw Ht)
    as [H1 H2].
  split.
  - exact H1.
  - refine (eq_trans (H2 _) _); [discriminate | vm_compute; reflexivity].
Defined.

Example lexer_last_april :
  lexer "FIND src_ip SINCE LAST APRIL" = Ok last_april_tokens.
Proof. vm_compute. reflexivity. Qed.

(** MAY is one token, tagged mon: no identifier follows it. *)
Lemma may_is_a_single_token :
  lexer "FIND src_ip SINCE LAST MAY" = Ok last_may_tokens
  /\ lexer_step "MAY" 23 = Ok (mk_token "mon" sym_may "MAY" 23, EmptyString).
Proof. split; vm_compute; reflexivity. Qed.

(** ** Sub-commands behind a pipe *)

Section Piped.

(** The text of the piped query. *)
Variable qs : string.

Lemma llen_nonneg {A : Type} (l : list A) : 0 <= llen l.
Proof. unfold llen. lia. Qed.

Lemma index_bounds {A : Type} (l : list A) (i : Z) (a : A) :
  index l i = Ok a -> 0 <= i < llen l.
Proof.
  unfold index, llen. destruct (Z.ltb_spec i 0); try discriminate.
  destruct (nth_error l (Z.to_nat i)) eqn:E; try discriminate.
  intros _. assert (Hn : nth_error l (Z.to_nat i) <> None) by congruence.
  apply nth_error_Some in Hn. lia.
Qed.

Lemma index_app_left {A : Type} (l X : list A) (i : Z) (a : A) :
  index l i = Ok a -> index (l ++ X) i = Ok a.
Proof.
  intros H. pose proof (index_bounds l i a H) as Hb. revert H.
  unfold index, llen in *. destruct (Z.ltb_spec i 0); try discriminate.
  rewrite nth_error_app1 by lia. auto.
Qed.

Lemma index_app_head {A : Type} (l X : list A) (x : A) :
  index (l ++ x :: X) (llen l) = Ok x.
Proof.
  unfold index, llen. destruct (Z.ltb_spec (Z.of_nat (List.length l)) 0); [lia |].
  rewrite Nat2Z.id. rewrite nth_error_app2 by lia.
  rewrite Nat.sub_diag. reflexivity.
Qed.

Lemma tok_at_piped (X : list lexer_token) (p : Parser) (i : Z) (t : lexer_token) :
  tok_at p i = Ok t -> tok_at (piped qs X p) i = Ok t.
Proof. unfold tok_at. cbn [tokens piped]. apply index_app_left. Qed.

Lemma tok_at_bounds (p : Parser) (i : Z) (t : lexer_token) :
  tok_at p i = Ok t -> 0 <= i < llen (tokens p).
Proof. apply index_bounds. Qed.

Lemma trace_inv (p : Parser) (u : unit) :
  trace p = Ok u -> exists t, tok_at p (token_index p) = Ok t.
Proof.
  unfold trace. intros H. bind_inv H. exists a. exact Ha.
Qed.

Lemma trace_piped (X : list lexer_token) (p : Parser) (u : unit) :
  trace p = Ok u -> trace (piped qs X p) = Ok u.
Proof.
  unfold trace. intros H. bind_inv H.
  change (token_index (piped qs X p)) with (token_index p).
  rewrite (tok_at_piped X p _ a Ha). exact H.
Qed.

Lemma token_is_piped (X : list lexer_token) (p : Parser) (i sym : Z) (b : bool) :
  token_is p i sym = Ok b -> token_is (piped qs X p) i sym = Ok b.
Proof.
  unfold token_is. intros H. bind_inv H.
  rewrite (tok_at_piped X p _ a Ha). exact H.
Qed.

Lemma index_last_inv {A : Type} (l : list A) (x : A) :
  index l (llen l - 1) = Ok x -> exists l', l = l' ++ [x].
Proof.
  intros H. destruct (exists_last (l := l)) as [l' [y E]].
  { intros ->. eapply index_nil. exact H. }
  subst l. rewrite (index_last l' y y) in H. inversion H; subst.
  exists l'. reflexivity.
Qed.

Lemma do_and_cond_complete (p : Parser) (l e r : lexer_token)
    (ol : list (option or_item)) (o : or_item) :
  tok_at p (token_index p) = Ok l ->
  tok_at p (token_index p + 1) = Ok e ->
  tok_at p (token_index p + 2) = Ok r ->
  token e = sym_equal ->
  token_index p + 3 < num_tokens p ->
  or_list p = ol ++ [Some o] ->
  do_and_cond p
  = Ok (after_predicate p
          (ol ++ [Some (with_and_list o
                          (and_list o ++ [Some (and_of (predicate_of l e r))]))])).
Proof.
  intros Hl He Hr Heq Hn Hol.
  assert (Hc : (token_index p + 1 + 2 >=? num_tokens p) = false)
    by (rewrite Z.geb_leb; apply Z.leb_gt; lia).
  replace (token_index p + 2) with (token_index p + 1 + 1) in Hr by lia.
  unfold do_and_cond, trace, do_val_expr.
  rewrite Hl. cbn [bind]. rewrite Hol. rewrite index_last. cbn [bind deref].
  destruct (stub_shape (and_list o) (Some and_item_zero)) as [x Hx].
  rewrite Hx. clear Hx. rewrite set_index_last. cbn [bind].
  cbn [num_tokens token_index advance set_or_list set_token_index].
  rewrite !tok_at_set_or_list. rewrite Hl. cbn [bind].
  rewrite Hc. rewrite !tok_at_advance, !tok_at_set_or_list.
  rewrite He. cbn [bind]. rewrite Heq. cbn [negb Z.eqb sym_equal Pos.eqb].
  rewrite Hr. cbn [bind or_list set_or_list advance set_token_index].
  rewrite index_last. cbn [bind deref and_list with_and_list].
  rewrite set_index_last. cbn [bind]. rewrite set_index_last. cbn [bind].
  f_equal. apply Parser_eq; cbn; try reflexivity; try lia.
  unfold and_of, predicate_of, item_of. cbn [pred_op pred_left pred_right].
  rewrite Heq. reflexivity.
Qed.

Lemma do_and_cond_piped (X : list lexer_token) (p q : Parser) :
  do_and_cond p = Ok q -> do_and_cond (piped qs X p) = Ok (piped qs X q).
Proof.
  intros H.
  assert (Hol : exists ol o, or_list p = ol ++ [Some o]).
  { unfold do_and_cond in H. bind_inv H. bind_inv H. bind_inv H.
    apply index_last_inv in Ha0. destruct Ha0 as [ol E].
    destruct a0; try discriminate. cbn [deref] in Ha1. inversion Ha1; subst.
    exists ol, a1. exact E. }
  destruct Hol as [ol [o Hol]].
  destruct (do_and_cond_spec p q ol o H Hol)
    as [l [e [r [Hl [He [Hr [Heq [Hn Eq]]]]]]]].
  rewrite (do_and_cond_complete (piped qs X p) l e r ol o);
    try (apply tok_at_piped; assumption); try assumption.
  - subst q. reflexivity.
  - cbn [num_tokens token_index piped]. pose proof (llen_nonneg X). lia.
Qed.

Lemma and_loop_piped (X : list lexer_token) (fuel : nat) :
  forall p q : Parser,
    and_loop fuel p = Ok q -> and_loop fuel (piped qs X p) = Ok (piped qs X q).
Proof.
  induction fuel as [| fuel IH]; intros p q H; cbn [and_loop] in H |- *;
    bind_inv H;
    change (token_index (piped qs X p)) with (token_index p);
    rewrite (token_is_piped X p _ _ a Ha); cbn [bind];
    destruct a; try discriminate.
  1, 3: (inversion H; subst; reflexivity).
  bind_inv H.
  change (advance (piped qs X p) 1) with (piped qs X (advance p 1)).
  rewrite (do_and_cond_piped X _ _ Ha0). cbn [bind].
  apply IH. exact H.
Qed.

Lemma do_or_cond_complete (fuel : nat) (p : Parser) (l e r : lexer_token) :
  tok_at p (token_index p) = Ok l ->
  tok_at p (token_index p + 1) = Ok e ->
  tok_at p (token_index p + 2) = Ok r ->
  token e = sym_equal ->
  token_index p + 3 < num_tokens p ->
  do_or_cond fuel p
  = and_loop fuel
      (after_predicate p (or_list p ++ [Some (or_of [predicate_of l e r])])).
Proof.
  intros Hl He Hr Heq Hn.
  assert (Hc : (token_index p + 1 + 2 >=? num_tokens p) = false)
    by (rewrite Z.geb_leb; apply Z.leb_gt; lia).
  replace (token_index p + 2) with (token_index p + 1 + 1) in Hr by lia.
  unfold do_or_cond, trace, do_val_expr.
  rewrite Hl. cbn [bind].
  destruct (stub_shape (or_list p) (Some or_item_zero)) as [x Hx].
  rewrite Hx. clear Hx.
  cbn [num_tokens token_index advance set_or_list set_token_index].
  rewrite !tok_at_set_or_list. rewrite Hl. cbn [bind].
  rewrite Hc. rewrite !tok_at_advance, !tok_at_set_or_list.
  rewrite He. cbn [bind].
  replace (token e =? sym_equal) with true by (symmetry; apply Z.eqb_eq; exact Heq).
  cbn [negb].
  rewrite Hr. cbn [bind or_list set_or_list advance set_token_index].
  rewrite set_index_last. cbn [bind].
  f_equal. apply Parser_eq; cbn; try reflexivity; try lia.
Qed.

Lemma do_or_cond_piped (X : list lexer_token) (fuel : nat) (p q : Parser) :
  do_or_cond fuel p = Ok q -> do_or_cond fuel (piped qs X p) = Ok (piped qs X q).
Proof.
  intros H. apply do_or_cond_inv in H.
  destruct H as [l [e [r [Hl [He [Hr [Heq [Hn H]]]]]]]].
  rewrite (do_or_cond_complete fuel (piped qs X p) l e r);
    try (apply tok_at_piped; assumption); try assumption.
  - apply (and_loop_piped X) in H. exact H.
  - cbn [num_tokens token_index piped]. pose proof (llen_nonneg X). lia.
Qed.

Lemma or_loop_piped (X : list lexer_token) (fuel : nat) :
  forall p q : Parser,
    or_loop fuel p = Ok q -> or_loop fuel (piped qs X p) = Ok (piped qs X q).
Proof.
  induction fuel as [| fuel IH]; intros p q H; cbn [or_loop] in H |- *;
    bind_inv H;
    change (token_index (piped qs X p)) with (token_index p);
    rewrite (token_is_piped X p _ _ a Ha); cbn [bind];
    destruct a; try discriminate.
  1, 3: (inversion H; subst; reflexivity).
  bind_inv H.
  change (advance (piped qs X p) 1) with (piped qs X (advance p 1)).
  rewrite (do_or_cond_piped X _ _ _ Ha0). cbn [bind].
  apply IH. exact H.
Qed.

Lemma do_matching_cond_piped (X : list lexer_token) (fuel : nat) (p q : Parser) :
  do_matching_cond fuel p = Ok q ->
  do_matching_cond fuel (piped qs X p) = Ok (piped qs X q).
Proof.
  unfold do_matching_cond. intros H. bind_inv H. bind_inv H.
  rewrite (trace_piped X p a Ha). cbn [bind].
  rewrite (do_or_cond_piped X _ _ _ Ha0). cbn [bind].
  apply or_loop_piped. exact H.
Qed.

(** *** The field list *)

Lemma index_in_range {A : Type} (l : list A) (i : Z) :
  0 <= i < llen l -> exists a : A, index l i = Ok a.
Proof.
  unfold index, llen. intros H.
  destruct (Z.ltb_spec i 0); [lia |].
  destruct (nth_error l (Z.to_nat i)) eqn:E.
  - exists a. reflexivity.
  - apply nth_error_None in E. lia.
Qed.

Lemma sublist_loop_at_end (a : Z) (fuel : nat) (p : Parser) (s : Z) :
  num_tokens p <= token_index p ->
  sublist_loop a fuel p s = Ok (p, s).
Proof.
  intros H. apply Z.ltb_ge in H.
  destruct fuel; cbn [sublist_loop]; rewrite H; reflexivity.
Qed.

(** On a token that no case of the switch names the round changes nothing:
    the loop is cut off, or reports the token when no field was read. *)
Lemma sublist_loop_default (a : Z) (p : Parser) (t : lexer_token) (fuel : nat) :
  forall (s : Z) (r : Parser * Z),
    tok_at p (token_index p) = Ok t ->
    token_index p < num_tokens p ->
    token t <> sym_comma -> token t <> sym_matching ->
    token t <> sym_since -> token t <> sym_between -> token t <> sym_none ->
    sublist_loop a fuel p s = Ok r -> False.
Proof.
  intros s r Ht Hi H1 H2 H3 H4 H5.
  apply Z.eqb_neq in H1, H2, H3, H4, H5. apply Z.ltb_lt in Hi.
  induction fuel as [| fuel IH]; cbn [sublist_loop]; rewrite Hi; cbn [negb];
    [discriminate |].
  unfold sublist_body. rewrite Ht. cbn [bind].
  rewrite H1, H2, H3, H4, H5.
  destruct (s <? 1).
  - intros H. bind_inv H. eapply errorf_at_not_Ok. exact Ha.
  - cbn [bind]. exact IH.
Qed.

Lemma alias_test_piped (a : Z) (tp : lexer_token) (R : list lexer_token)
    (p : Parser) (t : lexer_token) (b : bool) :
  well_formed p -> token tp <> a ->
  tok_at p (token_index p) = Ok t ->
  alias_test a p = Ok b ->
  alias_test a (piped qs (tp :: R) p) = Ok b
  \/ (b = false /\ token_index p + 2 = num_tokens p
      /\ token_is p (token_index p + 1) a = Ok true).
Proof.
  unfold well_formed, alias_test. intros Hwf Hne Ht H.
  pose proof (tok_at_bounds p _ t Ht) as Hb.
  pose proof (llen_nonneg R) as HR.
  cbn [num_tokens token_index piped].
  assert (HX : llen (tp :: R) = 1 + llen R)
    by (unfold llen; cbn [List.length]; lia).
  apply Z.eqb_neq in Hne.
  destruct (Z.ltb_spec (token_index p + 2) (num_tokens p)) as [Hlt | Hge];
    cbn [andalso] in H.
  - left. replace (token_index p + 2 <? num_tokens p + llen (tp :: R)) with true
      by (symmetry; apply Z.ltb_lt; lia).
    cbn [andalso]. apply token_is_piped. exact H.
  - inversion H; subst b.
    destruct (Z.ltb_spec (token_index p + 2) (num_tokens p + llen (tp :: R)));
      cbn [andalso]; [| left; reflexivity].
    destruct (Z.eq_dec (token_index p + 1) (num_tokens p)) as [E | E].
    + left. unfold token_is, tok_at. cbn [tokens piped].
      rewrite E, Hwf. rewrite index_app_head. cbn [bind]. rewrite Hne.
      reflexivity.
    + destruct (index_in_range (tokens p) (token_index p + 1)) as [t' Ht'];
        [lia |].
      destruct (token t' =? a) eqn:Ea.
      * right. split; [reflexivity |]. split; [lia |].
        unfold token_is, tok_at. rewrite Ht'. cbn [bind]. rewrite Ea.
        reflexivity.
      * left. unfold token_is. rewrite (tok_at_piped _ p _ t' Ht').
        cbn [bind]. rewrite Ea. reflexivity.
Qed.

Lemma do_derived_field_piped (a : Z) (X : list lexer_token) (p q : Parser) :
  do_derived_field a p = Ok q ->
  alias_test a (piped qs X p) = alias_test a p ->
  do_derived_field a (piped qs X p) = Ok (piped qs X q).
Proof.
  unfold do_derived_field. intros H Hal. bind_inv H. bind_inv H.
  rewrite (trace_piped X p a0 Ha). cbn [bind].
  change (token_index (piped qs X p)) with (token_index p).
  rewrite (tok_at_piped X p _ a1 Ha0). cbn [bind].
  destruct (String.eqb (tag a1) "int");
    [inversion H; subst; reflexivity |].
  destruct (String.eqb (tag a1) "float");
    [inversion H; subst; reflexivity |].
  destruct (String.eqb (tag a1) "string");
    [inversion H; subst; reflexivity |].
  destruct (String.eqb (tag a1) "ident").
  - unfold alias_test in Hal.
    change (token_index (piped qs X p)) with (token_index p) in Hal.
    rewrite Hal. bind_inv H. rewrite Ha1. cbn [bind].
    destruct a2; inversion H; subst; reflexivity.
  - exfalso. eapply errorf_at_not_Ok. exact H.
Qed.

Lemma sublist_body_piped (a : Z) (X : list lexer_token) (p : Parser) (s : Z)
    (r : round) :
  sublist_body a p s = Ok r ->
  token_index p + 1 < num_tokens p
  \/ (forall t, tok_at p (token_index p) = Ok t -> token t <> sym_comma) ->
  (forall t, tok_at p (token_index p) = Ok t -> token t = sym_none ->
             alias_test a (piped qs X p) = alias_test a p) ->
  sublist_body a (piped qs X p) s = Ok (piped_round qs X r).
Proof.
  unfold sublist_body. intros H Hc Hal. bind_inv H.
  change (token_index (piped qs X p)) with (token_index p).
  rewrite (tok_at_piped X p _ a0 Ha). cbn [bind].
  pose proof (llen_nonneg X) as HX.
  destruct (Z.eqb_spec (token a0) sym_comma) as [Ec | Ec].
  { destruct Hc as [Hc | Hc]; [| exfalso; exact (Hc a0 Ha Ec)].
    destruct (s <? 1); cbn [bind] in H |- *.
    - exfalso. eapply errorf_at_not_Ok. exact H.
    - cbn [num_tokens piped].
      replace (token_index p + 1 <? num_tokens p) with true in H
        by (symmetry; apply Z.ltb_lt; lia).
      replace (token_index p + 1 <? num_tokens p + llen X) with true
        by (symmetry; apply Z.ltb_lt; lia).
      cbn [andalso] in H |- *. bind_inv H.
      apply bind_Ok in Ha0. destruct Ha0 as [b [Hb Ha0]].
      rewrite (token_is_piped X p _ _ b Hb). cbn [bind].
      inversion Ha0; subst a1.
      destruct (negb b).
      + exfalso. eapply errorf_at_not_Ok. exact H.
      + inversion H; subst. reflexivity. }
  destruct (token a0 =? sym_matching);
    [inversion H; subst; reflexivity |].
  destruct (token a0 =? sym_since);
    [inversion H; subst; reflexivity |].
  destruct (token a0 =? sym_between);
    [inversion H; subst; reflexivity |].
  destruct (Z.eqb_spec (token a0) sym_none) as [En | En].
  - bind_inv H. rewrite (do_derived_field_piped a X p _ Ha0 (Hal a0 Ha En)).
    cbn [bind]. inversion H; subst. reflexivity.
  - destruct (s <? 1).
    + exfalso. eapply errorf_at_not_Ok. exact H.
    + inversion H; subst. reflexivity.
Qed.

Lemma alias_test_total (a : Z) (p : Parser) (t : lexer_token) :
  well_formed p -> tok_at p (token_index p) = Ok t ->
  exists b : bool, alias_test a p = Ok b.
Proof.
  unfold well_formed, alias_test. intros Hwf Ht.
  pose proof (tok_at_bounds p _ t Ht) as Hb.
  destruct (Z.ltb_spec (token_index p + 2) (num_tokens p)); cbn [andalso].
  - destruct (index_in_range (tokens p) (token_index p + 1)) as [t' Ht'];
      [lia |].
    exists (token t' =? a). unfold token_is, tok_at. rewrite Ht'. reflexivity.
  - exists false. reflexivity.
Qed.

Lemma sublist_body_comma (a : Z) (p : Parser) (s : Z) (r : round)
    (t : lexer_token) :
  sublist_body a p s = Ok r ->
  tok_at p (token_index p) = Ok t -> token t = sym_comma ->
  r = Continue (advance p 1) s.
Proof.
  unfold sublist_body. intros H Ht Ec. rewrite Ht in H. cbn [bind] in H.
  rewrite Ec in H. cbn [Z.eqb sym_comma Pos.eqb] in H.
  bind_inv H. destruct a0.
  - exfalso. eapply errorf_at_not_Ok. exact H.
  - inversion H. reflexivity.
Qed.

(** A field that is followed by the fresh symbol as the last token. *)
Lemma sublist_body_before_as (a : Z) (p : Parser) (s : Z) (r : round)
    (t : lexer_token) :
  sublist_body a p s = Ok r ->
  tok_at p (token_index p) = Ok t -> token t = sym_none ->
  alias_test a p = Ok false ->
  exists (q : Parser) (s1 : Z),
    r = Continue q s1
    /\ tokens q = tokens p /\ num_tokens q = num_tokens p
    /\ (token_index q = token_index p + 1
        \/ (q = p /\ literal_tag (tag t) = true)).
Proof.
  unfold sublist_body. intros H Ht En Hal. rewrite Ht in H. cbn [bind] in H.
  rewrite En in H.
  cbn [Z.eqb sym_none sym_comma sym_matching sym_since sym_between] in H.
  bind_inv H. inversion H; subst r. clear H.
  exists a0, (wrap64 (s + 1)). split; [reflexivity |].
  unfold do_derived_field in Ha. bind_inv Ha. rewrite Ht in Ha. cbn [bind] in Ha.
  unfold literal_tag.
  destruct (String.eqb (tag t) "int");
    [inversion Ha; subst; auto |].
  destruct (String.eqb (tag t) "float");
    [inversion Ha; subst; auto |].
  destruct (String.eqb (tag t) "string");
    [inversion Ha; subst; auto |].
  destruct (String.eqb (tag t) "ident").
  - unfold alias_test in Hal. rewrite Hal in Ha. cbn [bind] in Ha.
    inversion Ha; subst. cbn. auto.
  - exfalso. eapply errorf_at_not_Ok. exact Ha.
Qed.

Lemma fresh_symbol_neq (a : Z) :
  fresh_symbol a ->
  a <> sym_pipe /\ a <> sym_comma /\ a <> sym_matching /\ a <> sym_since
  /\ a <> sym_between /\ a <> sym_none.
Proof.
  unfold fresh_symbol, sym_none, sym_like, sym_pipe, sym_comma, sym_matching,
    sym_since, sym_between.
  intros H. repeat split; lia.
Qed.

Lemma sublist_loop_piped (a : Z) (tp : lexer_token) (R : list lexer_token)
    (fuel : nat) :
  fresh_symbol a -> token tp = sym_pipe ->
  forall (p : Parser) (s : Z) (q : Parser) (s' : Z),
    well_formed p ->
    sublist_loop a fuel p s = Ok (q, s') ->
    token_index q < num_tokens p ->
    sublist_loop a fuel (piped qs (tp :: R) p) s = Ok (piped qs (tp :: R) q, s').
Proof.
  intros Hfresh Htp.
  destruct (fresh_symbol_neq a Hfresh) as [Np [Nc [Nm [Ns [Nb Nn]]]]].
  pose proof (llen_nonneg (tp :: R)) as HX.
  induction fuel as [| fuel IH]; intros p s q s' Hwf H Hq;
    cbn [sublist_loop] in H |- *;
    destruct (Z.ltb_spec (token_index p) (num_tokens p)) as [Hi | Hi];
    cbn [negb] in H; try discriminate;
    try (inversion H; subst; lia).
  cbn [num_tokens token_index piped].
  replace (token_index p <? num_tokens p + llen (tp :: R)) with true
    by (symmetry; apply Z.ltb_lt; lia).
  cbn [negb].
  bind_inv H.
  assert (Ht : exists t, tok_at p (token_index p) = Ok t).
  { unfold sublist_body in Ha. bind_inv Ha. eauto. }
  destruct Ht as [t Ht].
  pose proof (sublist_body_tokens a p s a0 Ha) as Htok.
  rewrite (sublist_body_piped a (tp :: R) p s a0 Ha).
  - cbn [bind]. destruct a0 as [p1 s1 | p1 s1]; cbn [piped_round].
    + destruct Htok as [E1 [E2 _]].
      apply IH; [unfold well_formed; rewrite E1, E2; exact Hwf | exact H |].
      rewrite E2. exact Hq.
    + inversion H; subst. reflexivity.
  - (* a comma is not the last token *)
    destruct (Z_lt_dec (token_index p + 1) (num_tokens p)) as [Hlt | Hge];
      [left; exact Hlt | right].
    intros t0 Ht0 Ec. rewrite Ht in Ht0. inversion Ht0; subst t0.
    rewrite (sublist_body_comma a p s a0 t Ha Ht Ec) in H.
    rewrite sublist_loop_at_end in H by (cbn; lia).
    inversion H; subst q. cbn in Hq. lia.
  - (* the test for an alias reads the same *)
    intros t0 Ht0 En. rewrite Ht in Ht0. inversion Ht0; subst t0.
    destruct (alias_test_total a p t Hwf Ht) as [b Hb].
    destruct (alias_test_piped a tp R p t b Hwf) as [Hl | [Eb [Hn Has]]];
      try assumption.
    + rewrite Htp. auto.
    + rewrite Hl, Hb. reflexivity.
    + exfalso. subst b.
      destruct (sublist_body_before_as a p s a0 t Ha Ht En Hb)
        as [p1 [s1 [Er [E1 [E2 Hcase]]]]].
      subst a0.
      destruct Hcase as [Hidx | [Ep Hlit]].
      * apply token_is_inv in Has. destruct Has as [t' [Ht' Et']].
        apply Z.eqb_eq in Et'.
        eapply (sublist_loop_default a p1 t' fuel s1 (q, s'));
          try (rewrite Et'; assumption); try exact H.
        -- unfold tok_at. rewrite E1, Hidx. exact Ht'.
        -- rewrite E2, Hidx. lia.
      * subst p1.
        rewrite (sublist_loop_literal a p t fuel s1 Hi Ht En Hlit) in H.
        discriminate.
Qed.

Lemma sublist_loop_tokens (a : Z) (fuel : nat) :
  forall (p : Parser) (s : Z) (q : Parser) (s' : Z),
    sublist_loop a fuel p s = Ok (q, s') ->
    tokens q = tokens p /\ num_tokens q = num_tokens p.
Proof.
  induction fuel as [| fuel IH]; intros p s q s' H; cbn [sublist_loop] in H;
    destruct (token_index p <? num_tokens p); cbn [negb] in H;
    try discriminate; try (inversion H; subst; auto; fail).
  bind_inv H. pose proof (sublist_body_tokens a p s a0 Ha) as Hb.
  destruct a0 as [p1 s1 | p1 s1].
  - destruct (IH _ _ _ _ H) as [E1 E2]. destruct Hb as [E3 [E4 _]].
    rewrite E1, E2. auto.
  - inversion H; subst. destruct Hb as [E3 [E4 _]]. auto.
Qed.

Lemma do_stmt_sublist_piped (a : Z) (tp : lexer_token) (R : list lexer_token)
    (fuel : nat) (p q : Parser) :
  fresh_symbol a -> token tp = sym_pipe -> well_formed p ->
  do_stmt_sublist a fuel p = Ok q ->
  token_index q < num_tokens p ->
  do_stmt_sublist a fuel (piped qs (tp :: R) p) = Ok (piped qs (tp :: R) q).
Proof.
  unfold do_stmt_sublist. intros Hf Htp Hwf H Hq. bind_inv H. bind_inv H.
  destruct a1 as [p1 s1].
  rewrite (trace_piped _ p a0 Ha). cbn [bind].
  destruct (s1 <? 1) eqn:Es.
  - exfalso. eapply errorf_at_not_Ok. exact H.
  - inversion H; subst p1.
    rewrite (sublist_loop_piped a tp R fuel Hf Htp p 0 q s1 Hwf Ha0 Hq).
    cbn [bind]. rewrite Es. reflexivity.
Qed.

Lemma do_stmt_sublist_tokens (a : Z) (fuel : nat) (p q : Parser) :
  do_stmt_sublist a fuel p = Ok q ->
  tokens q = tokens p /\ num_tokens q = num_tokens p.
Proof.
  unfold do_stmt_sublist. intros H. bind_inv H. bind_inv H.
  destruct a1 as [p1 s1]. destruct (s1 <? 1).
  - exfalso. eapply errorf_at_not_Ok. exact H.
  - inversion H; subst. eapply sublist_loop_tokens. exact Ha0.
Qed.

Lemma do_stmt_list_piped (a : Z) (tp : lexer_token) (R : list lexer_token)
    (fuel : nat) (p q : Parser) :
  fresh_symbol a -> token tp = sym_pipe -> well_formed p ->
  do_stmt_list a fuel p = Ok q ->
  token_index q < num_tokens p ->
  do_stmt_list a fuel (piped qs (tp :: R) p) = Ok (piped qs (tp :: R) q).
Proof.
  unfold do_stmt_list. intros Hf Htp Hwf H Hq. bind_inv H. bind_inv H.
  rewrite (trace_piped _ p a0 Ha). cbn [bind].
  change (token_index (piped qs (tp :: R) p)) with (token_index p).
  rewrite (tok_at_piped _ p _ a1 Ha0). cbn [bind].
  destruct (token a1 =? sym_all).
  - inversion H; subst. reflexivity.
  - apply do_stmt_sublist_piped; assumption.
Qed.

Lemma do_stmt_list_tokens (a : Z) (fuel : nat) (p q : Parser) :
  do_stmt_list a fuel p = Ok q ->
  tokens q = tokens p /\ num_tokens q = num_tokens p.
Proof.
  unfold do_stmt_list. intros H. bind_inv H. bind_inv H.
  destruct (token a1 =? sym_all).
  - inversion H; subst. cbn. auto.
  - eapply do_stmt_sublist_tokens. exact H.
Qed.

Lemma do_stmt_piped (a : Z) (tp : lexer_token) (R : list lexer_token)
    (fuel : nat) (p q : Parser) :
  fresh_symbol a -> token tp = sym_pipe -> well_formed p ->
  do_stmt a fuel p = Ok q ->
  token_index q < num_tokens p ->
  do_stmt a fuel (piped qs (tp :: R) p) = Ok (piped qs (tp :: R) q).
Proof.
  unfold do_stmt. intros Hf Htp Hwf H Hq. bind_inv H. bind_inv H.
  rewrite (trace_piped _ p a0 Ha). cbn [bind].
  change (token_index (piped qs (tp :: R) p)) with (token_index p).
  rewrite (tok_at_piped _ p _ a1 Ha0). cbn [bind].
  destruct (token a1 =? sym_find).
  - change (advance (piped qs (tp :: R) p) 1) with (piped qs (tp :: R) (advance p 1)).
    apply do_stmt_list_piped; assumption.
  - inversion H; subst. reflexivity.
Qed.

Lemma do_stmt_tokens (a : Z) (fuel : nat) (p q : Parser) :
  do_stmt a fuel p = Ok q ->
  tokens q = tokens p /\ num_tokens q = num_tokens p.
Proof.
  unfold do_stmt. intros H. bind_inv H. bind_inv H.
  destruct (token a1 =? sym_find).
  - apply do_stmt_list_tokens in H. cbn in H. exact H.
  - inversion H; subst. auto.
Qed.

(** *** The size of the token sequence is kept *)

Ltac walk H :=
  repeat first
    [ solve [exfalso; eapply errorf_at_not_Ok; exact H]
    | discriminate H
    | apply bind_Ok in H; let a := fresh "a" in let Ha := fresh "Ha" in
      destruct H as [a [Ha H]]
    | match type of H with
      | (if ?c then _ else _) = _ => destruct c
      end ].

Lemma do_and_cond_num_tokens (p q : Parser) :
  do_and_cond p = Ok q -> num_tokens q = num_tokens p.
Proof.
  unfold do_and_cond. intros H. walk H. inversion H; subst. reflexivity.
Qed.

Lemma and_loop_num_tokens (fuel : nat) :
  forall p q : Parser, and_loop fuel p = Ok q -> num_tokens q = num_tokens p.
Proof.
  induction fuel as [| fuel IH]; intros p q H; cbn [and_loop] in H;
    apply bind_Ok in H; destruct H as [b [Hb H]]; destruct b;
    try discriminate; try (inversion H; subst; reflexivity).
  apply bind_Ok in H. destruct H as [p1 [Hp1 H]].
  apply IH in H. apply do_and_cond_num_tokens in Hp1. rewrite H, Hp1.
  reflexivity.
Qed.

Lemma do_or_cond_num_tokens (fuel : nat) (p q : Parser) :
  do_or_cond fuel p = Ok q -> num_tokens q = num_tokens p.
Proof.
  intros H. apply do_or_cond_inv in H.
  destruct H as [l [e [r [_ [_ [_ [_ [_ H]]]]]]]].
  apply and_loop_num_tokens in H. exact H.
Qed.

Lemma or_loop_num_tokens (fuel : nat) :
  forall p q : Parser, or_loop fuel p = Ok q -> num_tokens q = num_tokens p.
Proof.
  induction fuel as [| fuel IH]; intros p q H; cbn [or_loop] in H;
    apply bind_Ok in H; destruct H as [b [Hb H]]; destruct b;
    try discriminate; try (inversion H; subst; reflexivity).
  apply bind_Ok in H. destruct H as [p1 [Hp1 H]].
  apply IH in H. apply do_or_cond_num_tokens in Hp1. rewrite H, Hp1.
  reflexivity.
Qed.

Lemma do_matching_cond_num_tokens (fuel : nat) (p q : Parser) :
  do_matching_cond fuel p = Ok q -> num_tokens q = num_tokens p.
Proof.
  unfold do_matching_cond. intros H.
  apply bind_Ok in H. destruct H as [u [_ H]].
  apply bind_Ok in H. destruct H as [p1 [Hp1 H]].
  apply or_loop_num_tokens in H. apply do_or_cond_num_tokens in Hp1.
  rewrite H, Hp1. reflexivity.
Qed.

Lemma token_is_at (p : Parser) (i sym : Z) (t : lexer_token) :
  tok_at p i = Ok t -> token_is p i sym = Ok (token t =? sym).
Proof. unfold token_is. intros ->. reflexivity. Qed.

Lemma tok_at_piped_head (tp : lexer_token) (R : list lexer_token) (p : Parser) :
  well_formed p -> tok_at (piped qs (tp :: R) p) (num_tokens p) = Ok tp.
Proof.
  unfold well_formed, tok_at. intros ->. cbn [tokens piped].
  apply index_app_head.
Qed.

Lemma reltime_shape_piped (tp : lexer_token) (R : list lexer_token)
    (p : Parser) (il tok times : Z) (q : Parser) :
  token tp = sym_pipe -> well_formed p ->
  0 <= token_index p < num_tokens p ->
  reltime_shape p il = Ok (tok, times, q) ->
  reltime_shape (piped qs (tp :: R) p) il = Ok (tok, times, piped qs (tp :: R) q)
  \/ (tok = 0 /\ times = 0 /\ q = p
      /\ token_is p (token_index p) sym_last = Ok true
      /\ reltime_shape (piped qs (tp :: R) p) il
         = Ok (sym_pipe, 1, advance (piped qs (tp :: R) p) 2)).
Proof.
  intros Htp Hwf Hi H.
  pose proof (llen_nonneg R) as HR.
  assert (HX : llen (tp :: R) = 1 + llen R).
  { unfold llen. cbn [List.length]. lia. }
  pose proof (tok_at_piped_head tp R p Hwf) as Hhead.
  destruct (index_in_range (tokens p) (token_index p)) as [t0 Ht0];
    [unfold well_formed in Hwf; lia |].
  change (tok_at p (token_index p) = Ok t0) in Ht0.
  revert H. unfold reltime_shape.
  cbn [token_index num_tokens piped]. rewrite HX.
  rewrite (token_is_at p _ sym_last t0 Ht0).
  rewrite (token_is_at _ _ sym_last t0 (tok_at_piped (tp :: R) p _ t0 Ht0)).
  rewrite Ht0, (tok_at_piped (tp :: R) p _ t0 Ht0).
  destruct (Z_lt_dec (token_index p + 1) (num_tokens p)) as [H1 | H1].
  - destruct (index_in_range (tokens p) (token_index p + 1)) as [t1 Ht1];
      [unfold well_formed in Hwf; lia |].
    change (tok_at p (token_index p + 1) = Ok t1) in Ht1.
    rewrite !(token_is_at p _ _ t1 Ht1).
    rewrite !(token_is_at _ _ _ t1 (tok_at_piped (tp :: R) p _ t1 Ht1)).
    rewrite Ht1, (tok_at_piped (tp :: R) p _ t1 Ht1).
    destruct (Z.ltb_spec (token_index p + 1) (num_tokens p)); [| lia].
    destruct (Z.ltb_spec (token_index p + 1) (num_tokens p + (1 + llen R)));
      [| lia].
    destruct (Z.ltb_spec (token_index p + 2) (num_tokens p + (1 + llen R)));
      [| lia].
    destruct (Z.ltb_spec (token_index p + 2) (num_tokens p)) as [Hlt2 | Hge2].
    + destruct (index_in_range (tokens p) (token_index p + 2)) as [t2 Ht2];
        [unfold well_formed in Hwf; lia |].
      change (tok_at p (token_index p + 2) = Ok t2) in Ht2.
      rewrite !(token_is_at p _ _ t2 Ht2).
      rewrite !(token_is_at _ _ _ t2 (tok_at_piped (tp :: R) p _ t2 Ht2)).
      cbn [andalso bind].
      intros Hr. left.
      destruct (token t0 =? sym_last);
        [inversion Hr; subst; reflexivity |].
      destruct (token t1 =? sym_before); cbn [andalso] in Hr |- *;
        [destruct (token t2 =? sym_last);
         [inversion Hr; subst; reflexivity |] |];
        (destruct (token t1 =? sym_ago); inversion Hr; subst; reflexivity).
    + assert (E2 : token_index p + 2 = num_tokens p) by lia. rewrite !E2.
      rewrite (token_is_at _ _ sym_last tp Hhead). rewrite Htp.
      cbn [andalso bind].
      intros Hr. left.
      destruct (token t0 =? sym_last);
        [inversion Hr; subst; reflexivity |].
      destruct (token t1 =? sym_before); cbn [andalso bind Z.eqb sym_pipe sym_last Pos.eqb];
        (destruct (token t1 =? sym_ago); inversion Hr; subst; reflexivity).
  - assert (E1 : token_index p + 1 = num_tokens p) by lia. rewrite !E1.
    rewrite !(token_is_at _ _ _ tp Hhead). rewrite Hhead, Htp.
    destruct (Z.ltb_spec (num_tokens p) (num_tokens p)); [lia |].
    destruct (Z.ltb_spec (num_tokens p) (num_tokens p + (1 + llen R)));
      [| lia].
    destruct (Z.ltb_spec (token_index p + 2) (num_tokens p)); [lia |].
    cbn [andalso bind].
    intros Hr. inversion Hr; subst.
    destruct (token t0 =? sym_last).
    + right. cbn [bind]. rewrite Htp. repeat split; reflexivity.
    + left. cbn [bind Z.eqb sym_pipe sym_before sym_ago Pos.eqb andalso].
      destruct (token_index q + 2 <? num_tokens q + (1 + llen R));
        reflexivity.
Qed.

Lemma reltime_switch_none (zone times : Z) (cur : GoTime.Time) :
  reltime_switch zone 0 times cur = None.
Proof. reflexivity. Qed.

Lemma reltime_switch_pipe (zone times : Z) (cur : GoTime.Time) :
  reltime_switch zone sym_pipe times cur = None.
Proof. reflexivity. Qed.

Lemma trace_bounds (p : Parser) (u : unit) :
  well_formed p -> trace p = Ok u -> 0 <= token_index p < num_tokens p.
Proof.
  intros Hwf H. apply trace_inv in H. destruct H as [t Ht].
  apply tok_at_bounds in Ht. unfold well_formed in Hwf. lia.
Qed.

Lemma do_reltime_ref_piped (clock : nat -> Z) (zone : Z) (tp : lexer_token)
    (R : list lexer_token) (p : Parser) (il : Z) (e : bool) (v : Z)
    (q : Parser) :
  token tp = sym_pipe -> well_formed p ->
  do_reltime_ref clock zone p il e = Ok (v, q) ->
  exists q' : Parser,
    do_reltime_ref clock zone (piped qs (tp :: R) p) il e = Ok (v, q')
    /\ piped_past qs (tp :: R) q q'.
Proof.
  unfold do_reltime_ref, time_Now. intros Htp Hwf H.
  apply bind_Ok in H. destruct H as [u [Hu H]].
  apply bind_Ok in H. destruct H as [[[tok times] p1] [Hs H]].
  rewrite (trace_piped _ p u Hu). cbn [bind].
  change (tick (piped qs (tp :: R) p)) with (piped qs (tp :: R) (tick p)).
  change (ticks (piped qs (tp :: R) p)) with (ticks p).
  destruct (reltime_shape_piped tp R (tick p) il tok times p1 Htp Hwf
              (trace_bounds p u Hwf Hu) Hs)
    as [Hl | [Et [En [Ep [Hlast Hr]]]]].
  - rewrite Hl. cbn [bind].
    destruct (reltime_switch zone tok times _).
    + inversion H; subst. eexists. split; [reflexivity | left; reflexivity].
    + destruct (il =? 0).
      * exfalso. eapply errorf_at_not_Ok. exact H.
      * inversion H; subst. eexists. split; [reflexivity | left; reflexivity].
  - subst tok times p1. rewrite Hr. cbn [bind].
    rewrite reltime_switch_none in H. rewrite reltime_switch_pipe.
    destruct (il =? 0).
    + exfalso. eapply errorf_at_not_Ok. exact H.
    + inversion H; subst. eexists. split; [reflexivity |].
      right. split; [exact Hlast | reflexivity].
Qed.

Lemma do_int_literal_piped (X : list lexer_token) (p : Parser) (il : Z) :
  do_int_literal p = Ok il -> do_int_literal (piped qs X p) = Ok il.
Proof.
  unfold do_int_literal. intros H.
  apply bind_Ok in H. destruct H as [u [Hu H]].
  apply bind_Ok in H. destruct H as [t [Ht H]].
  rewrite (trace_piped _ p u Hu). cbn [bind].
  change (token_index (piped qs X p)) with (token_index p).
  rewrite (tok_at_piped X p _ t Ht). cbn [bind].
  destruct (Atoi (val t)); [exact H |].
  exfalso. eapply errorf_at_not_Ok. exact H.
Qed.

Lemma do_temp_ref_piped (clock : nat -> Z) (zone : Z) (tp : lexer_token)
    (R : list lexer_token) (p : Parser) (e : bool) (v : Z) (q : Parser) :
  token tp = sym_pipe -> well_formed p ->
  do_temp_ref clock zone p e = Ok (v, q) ->
  exists q' : Parser,
    do_temp_ref clock zone (piped qs (tp :: R) p) e = Ok (v, q')
    /\ piped_past qs (tp :: R) q q'.
Proof.
  unfold do_temp_ref, time_Now. intros Htp Hwf H.
  apply bind_Ok in H. destruct H as [u [Hu H]].
  apply bind_Ok in H. destruct H as [t [Ht H]].
  rewrite (trace_piped _ p u Hu). cbn [bind].
  change (tick (piped qs (tp :: R) p)) with (piped qs (tp :: R) (tick p)).
  change (ticks (piped qs (tp :: R) p)) with (ticks p).
  change (token_index (piped qs (tp :: R) (tick p))) with (token_index (tick p)).
  rewrite (tok_at_piped _ _ _ t Ht). cbn [bind].
  destruct (token t =? sym_day).
  { apply bind_Ok in H. destruct H as [c [Hc H]].
    destruct c; [| exfalso; eapply errorf_at_not_Ok; exact H].
    destruct (Z.ltb_spec (token_index (tick p) + 2) (num_tokens (tick p)))
      as [Hlt | Hge]; cbn [andalso] in Hc; [| discriminate].
    apply bind_Ok in Hc. destruct Hc as [b [Hb Hc]].
    destruct b; cbn [andalso] in Hc; [| discriminate].
    pose proof (llen_nonneg (tp :: R)) as HX.
    replace (token_index (tick p) + 2 <? num_tokens (piped qs (tp :: R) (tick p)))
      with true
      by (symmetry; apply Z.ltb_lt; cbn [num_tokens piped tick] in *; lia).
    cbn [andalso].
    rewrite (token_is_piped _ _ _ _ _ Hb). cbn [bind andalso].
    rewrite (token_is_piped _ _ _ _ _ Hc). cbn [bind].
    inversion H; subst. eexists. split; [reflexivity | left; reflexivity]. }
  destruct (token t =? sym_yesterday).
  { inversion H; subst. eexists. split; [reflexivity | left; reflexivity]. }
  destruct (token t =? sym_last).
  { apply do_reltime_ref_piped; assumption. }
  destruct (token t =? sym_none).
  { destruct (String.eqb (tag t) "int").
    - apply bind_Ok in H. destruct H as [il [Hil H]].
      rewrite (do_int_literal_piped _ _ _ Hil). cbn [bind].
      change (advance (piped qs (tp :: R) (tick p)) 1)
        with (piped qs (tp :: R) (advance (tick p) 1)).
      apply do_reltime_ref_piped; assumption.
    - destruct (GoTime.Parse GoTime.DateTime (val t)).
      { inversion H; subst. eexists. split; [reflexivity | left; reflexivity]. }
      destruct (GoTime.Parse GoTime.DateOnly (val t)).
      { inversion H; subst. eexists. split; [reflexivity | left; reflexivity]. }
      destruct (GoTime.Parse GoTime.TimeOnly (val t)).
      { inversion H; subst. eexists. split; [reflexivity | left; reflexivity]. }
      exfalso. eapply errorf_at_not_Ok. exact H. }
  apply do_reltime_ref_piped; assumption.
Qed.

Lemma reltime_shape_tokens (p : Parser) (il tok times : Z) (q : Parser) :
  reltime_shape p il = Ok (tok, times, q) ->
  tokens q = tokens p /\ num_tokens q = num_tokens p.
Proof.
  unfold reltime_shape. intros H. walk H; inversion H; subst; auto.
Qed.

Lemma do_reltime_ref_tokens (clock : nat -> Z) (zone : Z) (p : Parser)
    (il : Z) (e : bool) (v : Z) (q : Parser) :
  do_reltime_ref clock zone p il e = Ok (v, q) ->
  tokens q = tokens p /\ num_tokens q = num_tokens p.
Proof.
  unfold do_reltime_ref, time_Now. intros H.
  apply bind_Ok in H. destruct H as [u [Hu H]].
  apply bind_Ok in H. destruct H as [[[tok times] p1] [Hs H]].
  apply reltime_shape_tokens in Hs.
  destruct (reltime_switch zone tok times _).
  - inversion H; subst. exact Hs.
  - destruct (il =? 0).
    + exfalso. eapply errorf_at_not_Ok. exact H.
    + inversion H; subst. exact Hs.
Qed.

Lemma do_temp_ref_tokens (clock : nat -> Z) (zone : Z) (p : Parser) (e : bool)
    (v : Z) (q : Parser) :
  do_temp_ref clock zone p e = Ok (v, q) ->
  tokens q = tokens p /\ num_tokens q = num_tokens p.
Proof.
  unfold do_temp_ref, time_Now. intros H.
  apply bind_Ok in H. destruct H as [u [Hu H]].
  apply bind_Ok in H. destruct H as [t [Ht H]].
  destruct (token t =? sym_day).
  { apply bind_Ok in H. destruct H as [c [Hc H]].
    destruct c; [| exfalso; eapply errorf_at_not_Ok; exact H].
    inversion H; subst. auto. }
  destruct (token t =? sym_yesterday).
  { inversion H; subst. auto. }
  destruct (token t =? sym_last).
  { apply do_reltime_ref_tokens in H. exact H. }
  destruct (token t =? sym_none).
  { destruct (String.eqb (tag t) "int").
    - apply bind_Ok in H. destruct H as [il [Hil H]].
      apply do_reltime_ref_tokens in H. exact H.
    - destruct (GoTime.Parse GoTime.DateTime (val t)).
      { inversion H; subst. auto. }
      destruct (GoTime.Parse GoTime.DateOnly (val t)).
      { inversion H; subst. auto. }
      destruct (GoTime.Parse GoTime.TimeOnly (val t)).
      { inversion H; subst. auto. }
      exfalso. eapply errorf_at_not_Ok. exact H. }
  apply do_reltime_ref_tokens in H. exact H.
Qed.

Lemma do_temp_since_piped (clock : nat -> Z) (zone : Z) (tp : lexer_token)
    (R : list lexer_token) (p q : Parser) :
  token tp = sym_pipe -> well_formed p ->
  do_temp_since clock zone p = Ok q ->
  exists q' : Parser,
    do_temp_since clock zone (piped qs (tp :: R) p) = Ok q'
    /\ piped_past qs (tp :: R) q q'.
Proof.
  unfold do_temp_since, time_Now. intros Htp Hwf H.
  apply bind_Ok in H. destruct H as [u [Hu H]].
  apply bind_Ok in H. destruct H as [[t p1] [Hr H]].
  rewrite (trace_piped _ p u Hu). cbn [bind].
  destruct (do_temp_ref_piped clock zone tp R p false t p1 Htp Hwf Hr)
    as [p1' [Hr' Hpast]].
  rewrite Hr'. cbn [bind]. inversion H; subst q. clear H.
  destruct Hpast as [-> | [Hlast ->]].
  - eexists. split; [reflexivity | left; reflexivity].
  - eexists. split; [reflexivity |].
    right. split; [exact Hlast | reflexivity].
Qed.

Lemma do_temp_between_piped (clock : nat -> Z) (zone : Z) (tp : lexer_token)
    (R : list lexer_token) (p q : Parser) :
  token tp = sym_pipe -> well_formed p ->
  do_temp_between clock zone p = Ok q ->
  exists q' : Parser,
    do_temp_between clock zone (piped qs (tp :: R) p) = Ok q'
    /\ piped_past qs (tp :: R) q q'.
Proof.
  unfold do_temp_between. intros Htp Hwf H.
  apply bind_Ok in H. destruct H as [u [Hu H]].
  apply bind_Ok in H. destruct H as [[t p1] [Hr H]].
  apply bind_Ok in H. destruct H as [b [Hb H]].
  destruct b; cbn [negb] in H;
    [| exfalso; eapply errorf_at_not_Ok; exact H].
  apply bind_Ok in H. destruct H as [[t2 p2] [Hr2 H]].
  inversion H; subst q. clear H.
  rewrite (trace_piped _ p u Hu). cbn [bind].
  destruct (do_temp_ref_piped clock zone tp R p false t p1 Htp Hwf Hr)
    as [p1' [Hr' Hpast]].
  rewrite Hr'. cbn [bind].
  destruct Hpast as [-> | [Hlast ->]].
  - change (token_index (set_time_from (piped qs (tp :: R) p1) t))
      with (token_index (set_time_from p1 t)).
    change (set_time_from (piped qs (tp :: R) p1) t)
      with (piped qs (tp :: R) (set_time_from p1 t)).
    rewrite (token_is_piped _ _ _ _ _ Hb). cbn [bind negb].
    change (advance (piped qs (tp :: R) (set_time_from p1 t)) 1)
      with (piped qs (tp :: R) (advance (set_time_from p1 t) 1)).
    destruct (do_temp_ref_tokens clock zone p false t p1 Hr) as [E1 E2].
    assert (Hwf1 : well_formed (advance (set_time_from p1 t) 1)).
    { unfold well_formed in *. cbn. rewrite E1, E2. exact Hwf. }
    destruct (do_temp_ref_piped clock zone tp R _ true t2 p2 Htp Hwf1 Hr2)
      as [p2' [Hr2' Hpast]].
    rewrite Hr2'. cbn [bind].
    destruct Hpast as [-> | [Hlast ->]].
    + eexists. split; [reflexivity | left; reflexivity].
    + eexists. split; [reflexivity |].
      right. split; [exact Hlast | reflexivity].
  - (* the reference ends on LAST, so AND does not follow *)
    exfalso.
    apply token_is_inv in Hb. destruct Hb as [t1 [Ht1 Et1]].
    apply token_is_inv in Hlast. destruct Hlast as [t1' [Ht1' Et1']].
    change (tok_at p1 (token_index p1) = Ok t1) in Ht1.
    rewrite Ht1 in Ht1'. inversion Ht1'; subst t1'.
    apply Z.eqb_eq in Et1, Et1'. rewrite Et1 in Et1'. discriminate.
Qed.

Lemma do_temp_cond_piped (clock : nat -> Z) (zone : Z) (tp : lexer_token)
    (R : list lexer_token) (p q : Parser) :
  token tp = sym_pipe -> well_formed p ->
  do_temp_cond clock zone p = Ok q ->
  exists q' : Parser,
    do_temp_cond clock zone (piped qs (tp :: R) p) = Ok q'
    /\ piped_past qs (tp :: R) q q'.
Proof.
  unfold do_temp_cond. intros Htp Hwf H.
  apply bind_Ok in H. destruct H as [u [Hu H]].
  apply bind_Ok in H. destruct H as [t [Ht H]].
  apply bind_Ok in H. destruct H as [p1 [Hp1 H]].
  rewrite (trace_piped _ p u Hu). cbn [bind].
  change (token_index (piped qs (tp :: R) p)) with (token_index p).
  rewrite (tok_at_piped _ _ _ t Ht). cbn [bind].
  change (advance (piped qs (tp :: R) p) 1) with (piped qs (tp :: R) (advance p 1)).
  assert (Hp1' : exists p1' : Parser,
             (if token t =? sym_since
              then do_temp_since clock zone (piped qs (tp :: R) (advance p 1))
              else if token t =? sym_between
                   then do_temp_between clock zone
                          (piped qs (tp :: R) (advance p 1))
                   else Ok (piped qs (tp :: R) p)) = Ok p1'
             /\ piped_past qs (tp :: R) p1 p1').
  { destruct (token t =? sym_since);
      [apply do_temp_since_piped; assumption |].
    destruct (token t =? sym_between);
      [apply do_temp_between_piped; assumption |].
    inversion Hp1; subst. eexists. split; [reflexivity | left; reflexivity]. }
  destruct Hp1' as [p1' [Hr' Hpast]].
  rewrite Hr'. cbn [bind].
  destruct Hpast as [-> | [Hlast ->]];
    cbn [time_to time_from piped advance set_token_index];
    destruct (time_to p1 <? time_from p1); inversion H; subst q;
    eexists; (split; [reflexivity |]);
    try (left; reflexivity);
    (right; split; [exact Hlast | reflexivity]).
Qed.

Lemma do_syntax_piped (clock : nat -> Z) (zone a : Z) (tp : lexer_token)
    (R : list lexer_token) (fuel : nat) (p q : Parser) :
  fresh_symbol a -> token tp = sym_pipe -> well_formed p ->
  do_syntax clock zone a fuel p = Ok q ->
  exists q' : Parser,
    do_syntax clock zone a fuel (piped qs (tp :: R) p) = Ok q'
    /\ piped_past qs (tp :: R) q q'.
Proof.
  unfold do_syntax. intros Hf Htp Hwf H.
  apply bind_Ok in H. destruct H as [t [Ht H]].
  apply bind_Ok in H. destruct H as [p1 [Hp1 H]].
  apply bind_Ok in H. destruct H as [t1 [Ht1 H]].
  apply bind_Ok in H. destruct H as [p2 [Hp2 H]].
  apply bind_Ok in H. destruct H as [t2 [Ht2 H]].
  change (token_index (piped qs (tp :: R) p)) with (token_index p).
  rewrite (tok_at_piped _ _ _ t Ht). cbn [bind].
  destruct (token t =? sym_find);
    [| exfalso; eapply errorf_at_not_Ok; exact Hp1].
  destruct (do_stmt_tokens a fuel p p1 Hp1) as [E1 E2].
  assert (Hwf1 : well_formed p1).
  { unfold well_formed in *. rewrite E1, E2. exact Hwf. }
  rewrite (do_stmt_piped a tp R fuel p p1 Hf Htp Hwf Hp1).
  2: { apply tok_at_bounds in Ht1. unfold well_formed in Hwf.
       rewrite E1 in Ht1. lia. }
  cbn [bind].
  change (token_index (piped qs (tp :: R) p1)) with (token_index p1).
  rewrite (tok_at_piped _ _ _ t1 Ht1). cbn [bind].
  assert (Hp2' :
            (if token t1 =? sym_matching
             then do_matching_cond fuel (advance (piped qs (tp :: R) p1) 1)
             else Ok (piped qs (tp :: R) p1)) = Ok (piped qs (tp :: R) p2)
            /\ well_formed p2).
  { destruct (token t1 =? sym_matching).
    - split.
      + apply (do_matching_cond_piped (tp :: R) fuel (advance p1 1) p2 Hp2).
      + pose proof (do_matching_cond_num_tokens _ _ _ Hp2) as N2.
        apply do_matching_cond_spec in Hp2.
        destruct Hp2 as [d [_ [_ T2]]].
        unfold well_formed in *. rewrite T2, N2. exact Hwf1.
    - inversion Hp2; subst. split; [reflexivity | exact Hwf1]. }
  destruct Hp2' as [Hr2 Hwf2]. rewrite Hr2. cbn [bind].
  change (token_index (piped qs (tp :: R) p2)) with (token_index p2).
  rewrite (tok_at_piped _ _ _ t2 Ht2). cbn [bind].
  destruct (token t2 =? sym_since);
    [apply do_temp_cond_piped; assumption |].
  destruct (token t2 =? sym_between);
    [apply do_temp_cond_piped; assumption |].
  exfalso. eapply errorf_at_not_Ok. exact H.
Qed.

(** *** The scan for sub-commands *)

Lemma find_pipe_bounds (l : list lexer_token) :
  forall i j : Z, find_pipe l i = Some j -> i <= j < i + llen l.
Proof.
  induction l as [| t l IH]; intros i j H; cbn [find_pipe] in H;
    [discriminate |].
  assert (Hl : llen (t :: l) = 1 + llen l).
  { unfold llen. cbn [List.length]. lia. }
  pose proof (llen_nonneg l).
  destruct (token t =? sym_pipe).
  - inversion H; subst. lia.
  - apply IH in H. lia.
Qed.

Lemma find_pipe_app (l X : list lexer_token) :
  forall i : Z,
    find_pipe (l ++ X) i
    = match find_pipe l i with
      | Some j => Some j
      | None => find_pipe X (i + llen l)
      end.
Proof.
  induction l as [| t l IH]; intros i; cbn [find_pipe app].
  - unfold llen. cbn [List.length]. f_equal. lia.
  - destruct (token t =? sym_pipe); [reflexivity |].
    rewrite IH. destruct (find_pipe l (i + 1)); [reflexivity |].
    f_equal. unfold llen. cbn [List.length]. lia.
Qed.

Lemma llen_app {A : Type} (l X : list A) : llen (l ++ X) = llen l + llen X.
Proof. unfold llen. rewrite length_app. lia. Qed.

Lemma sub_commands_piped (P : list lexer_token) (tp : lexer_token)
    (R : list lexer_token) (r : list lexer_token * list lexer_token) :
  token tp = sym_pipe -> P <> [] ->
  sub_commands P = Ok r ->
  exists r', sub_commands (P ++ tp :: R) = Ok r'.
Proof.
  unfold sub_commands. intros Htp Hne H.
  rewrite find_pipe_app. pose proof (llen_nonneg (tp :: R)) as HX.
  destruct (find_pipe P 0) as [j |] eqn:Ej.
  - apply bind_Ok in H. destruct H as [cmd [Hc _]].
    unfold slice_to in *. rewrite llen_app.
    destruct (Z.leb_spec 0 (j - 1)); cbn [andb] in *; [| discriminate].
    destruct (Z.leb_spec (j - 1) (llen P)); [| discriminate].
    destruct (Z.leb_spec (j - 1) (llen P + llen (tp :: R))); [| lia].
    cbn [bind]. eexists. reflexivity.
  - cbn [find_pipe]. rewrite Htp. cbn [Z.eqb sym_pipe Pos.eqb].
    unfold slice_to. rewrite llen_app.
    assert (0 < llen P).
    { destruct P; [congruence |]. unfold llen. cbn [List.length]. lia. }
    destruct (Z.leb_spec 0 (0 + llen P - 1)); [| lia].
    destruct (Z.leb_spec (0 + llen P - 1) (llen P + llen (tp :: R))); [| lia].
    cbn [andb bind]. eexists. reflexivity.
Qed.

Lemma firstn_removelast {A : Type} (P X : list A) :
  P <> [] -> firstn (Z.to_nat (llen P - 1)) (P ++ X) = removelast P.
Proof.
  intros Hne. destruct (exists_last Hne) as [P' [x ->]].
  rewrite removelast_last. unfold llen. rewrite length_app. cbn [List.length].
  replace (Z.to_nat (Z.of_nat (List.length P' + 1) - 1)) with (List.length P')
    by lia.
  rewrite <- app_assoc. rewrite firstn_app, Nat.sub_diag, firstn_all.
  cbn [firstn]. apply app_nil_r.
Qed.

Lemma skipn_past {A : Type} (P : list A) (x : A) (R : list A) :
  skipn (Z.to_nat (llen P + 1)) (P ++ x :: R) = R.
Proof.
  unfold llen. replace (Z.to_nat (Z.of_nat (List.length P) + 1))
    with (List.length P + 1)%nat by lia.
  replace (P ++ x :: R) with ((P ++ [x]) ++ R)
    by (rewrite <- app_assoc; reflexivity).
  rewrite skipn_app, length_app. cbn [List.length].
  rewrite Nat.sub_diag. cbn [skipn].
  rewrite skipn_all2 by (rewrite length_app; cbn [List.length]; lia).
  reflexivity.
Qed.

Lemma sub_commands_first_pipe (P : list lexer_token) (tp : lexer_token)
    (R : list lexer_token) :
  token tp = sym_pipe -> P <> [] -> find_pipe P 0 = None ->
  sub_commands (P ++ tp :: R) = Ok (removelast P, R).
Proof.
  unfold sub_commands. intros Htp Hne Hno.
  rewrite find_pipe_app, Hno. cbn [find_pipe]. rewrite Htp.
  cbn [Z.eqb sym_pipe Pos.eqb]. change (0 + llen P) with (llen P).
  rewrite skipn_past. unfold slice_to. rewrite llen_app.
  pose proof (llen_nonneg (tp :: R)) as HX.
  assert (0 < llen P).
  { destruct P; [congruence |]. unfold llen. cbn [List.length]. lia. }
  destruct (Z.leb_spec 0 (llen P - 1)); [| lia].
  destruct (Z.leb_spec (llen P - 1) (llen P + llen (tp :: R))); [| lia].
  cbn [andb bind]. rewrite firstn_removelast by exact Hne. reflexivity.
Qed.

Lemma parser_piped (clock : nat -> Z) (zone a : Z) (tp : lexer_token)
    (R : list lexer_token) (fuel : nat) (p q : Parser) :
  fresh_symbol a -> token tp = sym_pipe ->
  parser clock zone a fuel p = Ok q ->
  exists q' : Parser,
    parser clock zone a fuel (piped qs (tp :: R) p) = Ok q'
    /\ piped_past qs (tp :: R) q q'.
Proof.
  unfold parser. intros Hf Htp H.
  apply bind_Ok in H. destruct H as [r [Hr H]].
  destruct (do_syntax clock zone a fuel _) as [q0 | | |] eqn:Hs;
    try discriminate.
  apply bind_Ok in H. destruct H as [u [Hu H]]. inversion H; subst q0. clear H.
  assert (Hne : tokens p <> []).
  { unfold do_syntax in Hs. apply bind_Ok in Hs. destruct Hs as [t [Ht _]].
    apply tok_at_bounds in Ht. cbn in Ht. intros E. rewrite E in Ht.
    unfold llen in Ht. cbn in Ht. lia. }
  destruct (sub_commands_piped (tokens p) tp R r Htp Hne Hr) as [r' Hr'].
  cbn [tokens piped]. rewrite Hr'. cbn [bind].
  rewrite llen_app.
  change (set_token_index
            (set_num_tokens (piped qs (tp :: R) p)
               (llen (tokens p) + llen (tp :: R))) 0)
    with (piped qs (tp :: R)
            (set_token_index (set_num_tokens p (llen (tokens p))) 0)).
  destruct (do_syntax_piped clock zone a tp R fuel _ q Hf Htp
              (eq_refl : well_formed
                 (set_token_index (set_num_tokens p (llen (tokens p))) 0)) Hs)
    as [q' [Hs' Hpast]].
  rewrite Hs'.
  assert (Eol : or_list q' = or_list q).
  { destruct Hpast as [-> | [_ ->]]; reflexivity. }
  rewrite Eol, Hu. cbn [bind].
  exists q'. split; [reflexivity | exact Hpast].
Qed.

End Piped.

Lemma do_temp_cond_tokens (clock : nat -> Z) (zone : Z) (p q : Parser) :
  do_temp_cond clock zone p = Ok q ->
  tokens q = tokens p /\ num_tokens q = num_tokens p.
Proof.
  unfold do_temp_cond. intros H.
  apply bind_Ok in H. destruct H as [u [Hu H]].
  apply bind_Ok in H. destruct H as [t [Ht H]].
  apply bind_Ok in H. destruct H as [p1 [Hp1 H]].
  assert (E : tokens p1 = tokens p /\ num_tokens p1 = num_tokens p).
  { destruct (token t =? sym_since).
    - unfold do_temp_since, time_Now in Hp1.
      apply bind_Ok in Hp1. destruct Hp1 as [u1 [_ Hp1]].
      apply bind_Ok in Hp1. destruct Hp1 as [[v p2] [Hr Hp1]].
      apply do_temp_ref_tokens in Hr. inversion Hp1; subst. exact Hr.
    - destruct (token t =? sym_between).
      + unfold do_temp_between in Hp1.
        apply bind_Ok in Hp1. destruct Hp1 as [u1 [_ Hp1]].
        apply bind_Ok in Hp1. destruct Hp1 as [[v p2] [Hr Hp1]].
        apply bind_Ok in Hp1. destruct Hp1 as [b [_ Hp1]].
        destruct b; cbn [negb] in Hp1;
          [| exfalso; eapply errorf_at_not_Ok; exact Hp1].
        apply bind_Ok in Hp1. destruct Hp1 as [[v3 p3] [Hr3 Hp1]].
        apply do_temp_ref_tokens in Hr, Hr3. inversion Hp1; subst.
        cbn in Hr3 |- *. destruct Hr as [E1 E2], Hr3 as [E3 E4].
        rewrite E3, E4. auto.
      + inversion Hp1; subst. auto. }
  destruct (time_to p1 <? time_from p1); inversion H; subst; exact E.
Qed.

Lemma do_syntax_tokens (clock : nat -> Z) (zone a : Z) (fuel : nat)
    (p q : Parser) :
  do_syntax clock zone a fuel p = Ok q ->
  tokens q = tokens p /\ num_tokens q = num_tokens p.
Proof.
  unfold do_syntax. intros H.
  apply bind_Ok in H. destruct H as [t [Ht H]].
  apply bind_Ok in H. destruct H as [p1 [Hp1 H]].
  apply bind_Ok in H. destruct H as [t1 [Ht1 H]].
  apply bind_Ok in H. destruct H as [p2 [Hp2 H]].
  apply bind_Ok in H. destruct H as [t2 [Ht2 H]].
  destruct (token t =? sym_find);
    [| exfalso; eapply errorf_at_not_Ok; exact Hp1].
  destruct (do_stmt_tokens a fuel p p1 Hp1) as [E1 E2].
  assert (E : tokens p2 = tokens p1 /\ num_tokens p2 = num_tokens p1).
  { destruct (token t1 =? sym_matching).
    - pose proof (do_matching_cond_num_tokens _ _ _ Hp2) as N2.
      apply do_matching_cond_spec in Hp2. destruct Hp2 as [d [_ [_ T2]]].
      auto.
    - inversion Hp2; subst. auto. }
  destruct E as [E3 E4].
  assert (E : tokens q = tokens p2 /\ num_tokens q = num_tokens p2).
  { destruct (token t2 =? sym_since);
      [eapply do_temp_cond_tokens; exact H |].
    destruct (token t2 =? sym_between);
      [eapply do_temp_cond_tokens; exact H |].
    exfalso. eapply errorf_at_not_Ok. exact H. }
  destruct E as [E5 E6]. rewrite E5, E6, E3, E4. auto.
Qed.

Lemma parser_tokens (clock : nat -> Z) (zone a : Z) (fuel : nat)
    (p q : Parser) :
  parser clock zone a fuel p = Ok q ->
  tokens q = tokens p /\ num_tokens q = llen (tokens p) /\ tokens p <> [].
Proof.
  unfold parser. intros H.
  apply bind_Ok in H. destruct H as [r [_ H]].
  destruct (do_syntax clock zone a fuel _) as [q0 | | |] eqn:Hs;
    try discriminate.
  apply bind_Ok in H. destruct H as [u [_ H]]. inversion H; subst q0.
  split; [| split]; try (apply do_syntax_tokens in Hs; apply Hs).
  unfold do_syntax in Hs. apply bind_Ok in Hs. destruct Hs as [t [Ht _]].
  apply tok_at_bounds in Ht. cbn in Ht. intros E. rewrite E in Ht.
  unfold llen in Ht. cbn in Ht. lia.
Qed.

Lemma piped_new_Parser (qp qs : string) (P X : list lexer_token) :
  new_Parser qs (P ++ X) = piped qs X (new_Parser qp P).
Proof. unfold new_Parser, piped. cbn. rewrite llen_app. reflexivity. Qed.

(** C9, amended.  Let the unpiped token sequence, without a pipe of its own,
    parse successfully, and put a pipe token and any further tokens behind
    it.  The scan that opens the parser computes the remainder, which is
    exactly the tokens behind the pipe, and a primary slice that lacks the
    last token before the pipe; neither slice is kept.  The grammar is
    driven over the whole sequence: the parser state holds all of it.  The
    parse succeeds with the fields, aliases, flags, condition and time range
    of the unpiped form. *)
Theorem piped_statement_parses_alike (clock : nat -> Z) (zone sym_as : Z)
    (fuel : nat) (qp qs : string) (P : list lexer_token) (tp : lexer_token)
    (R : list lexer_token) (r : Parser) :
  fresh_symbol sym_as ->
  token tp = sym_pipe ->
  find_pipe P 0 = None ->
  parser clock zone sym_as fuel (new_Parser qp P) = Ok r ->
  sub_commands (P ++ tp :: R) = Ok (removelast P, R)
  /\ exists r' : Parser,
       parser clock zone sym_as fuel (new_Parser qs (P ++ tp :: R)) = Ok r'
       /\ tokens r' = P ++ tp :: R
       /\ num_tokens r' = llen (P ++ tp :: R)
       /\ fields r' = fields r
       /\ field_aliases r' = field_aliases r
       /\ find_flags r' = find_flags r
       /\ or_list r' = or_list r
       /\ time_from r' = time_from r
       /\ time_to r' = time_to r.
Proof.
  intros Hf Htp Hno H.
  destruct (parser_tokens _ _ _ _ _ _ H) as [_ [_ Hne]]. cbn in Hne.
  split; [apply sub_commands_first_pipe; assumption |].
  destruct (parser_piped qs clock zone sym_as tp R fuel _ r Hf Htp H)
    as [r' [Hr' Hpast]].
  exists r'. rewrite (piped_new_Parser qp qs). split; [exact Hr' |].
  destruct (parser_tokens _ _ _ _ _ _ Hr') as [T [N _]].
  split; [exact T |]. split; [exact N |].
  destruct Hpast as [-> | [_ ->]]; repeat split; reflexivity.
Qed.

Lemma piped_statement_parses_alike_witness :
  fresh_symbol sample_as
  /\ token pipe_token = sym_pipe
  /\ find_pipe since_yesterday_tokens 0 = None
  /\ parser sample_clock 0 sample_as 10 since_yesterday
     = Ok since_yesterday_parsed
  /\ sub_commands (since_yesterday_tokens ++ pipe_token :: distinct_tokens)
     = Ok (removelast since_yesterday_tokens, distinct_tokens)
  /\ exists r' : Parser,
       parser sample_clock 0 sample_as 10
         (new_Parser "FIND src_ip SINCE YESTERDAY | DISTINCT src_ip"
            (since_yesterday_tokens ++ pipe_token :: distinct_tokens))
       = Ok r'
       /\ tokens r' = since_yesterday_tokens ++ pipe_token :: distinct_tokens
       /\ num_tokens r'
          = llen (since_yesterday_tokens ++ pipe_token :: distinct_tokens)
       /\ fields r' = fields since_yesterday_parsed
       /\ field_aliases r' = field_aliases since_yesterday_parsed
       /\ find_flags r' = find_flags since_yesterday_parsed
       /\ or_list r' = or_list since_yesterday_parsed
       /\ time_from r' = time_from since_yesterday_parsed
       /\ time_to r' = time_to since_yesterday_parsed.
Proof.
  assert (Hf : fresh_symbol sample_as) by (right; reflexivity).
  assert (Hp : parser sample_clock 0 sample_as 10 since_yesterday
               = Ok since_yesterday_parsed) by (vm_compute; reflexivity).
  split; [exact Hf |]. split; [reflexivity |]. split; [reflexivity |].
  split; [exact Hp |].
  exact (piped_statement_parses_alike sample_clock 0 sample_as 10
           "FIND src_ip SINCE YESTERDAY"
           "FIND src_ip SINCE YESTERDAY | DISTINCT src_ip"
           since_yesterday_tokens pipe_token distinct_tokens
           since_yesterday_parsed Hf eq_refl eq_refl Hp).
Defined.

(** The tokens behind the pipe reach the grammar: FIND src_ip SINCE 5 runs
    past its last token, the same statement with a pipe behind it does not,
    and parses. *)
Lemma pipe_reaches_the_grammar :
  lexer "FIND src_ip SINCE 5" = Ok since_5_tokens
  /\ lexer "FIND src_ip SINCE 5 | SORT x"
     = Ok (since_5_tokens ++ mk_token "pipe" sym_pipe "|" 20 :: sort_tokens)
  /\ parse sample_clock 0 sample_as 10 "FIND src_ip SINCE 5"
     = Panic "index out of range"
  /\ exists r' : Parser,
       parse sample_clock 0 sample_as 10 "FIND src_ip SINCE 5 | SORT x"
       = Ok r'
       /\ num_tokens r' = 7
       /\ fields r' = ["src_ip"%string]
       /\ time_from r' = sample_clock 1
       /\ time_to r' = sample_clock 2.
Proof.
  split; [vm_compute; reflexivity |].
  split; [vm_compute; reflexivity |].
  split; [vm_compute; reflexivity |].
  eexists. split; [vm_compute; reflexivity |].
  repeat split; vm_compute; reflexivity.
Qed.

Example lexer_since_yesterday_piped :
  lexer "FIND src_ip SINCE YESTERDAY | DISTINCT src_ip"
  = Ok (since_yesterday_tokens ++ pipe_token :: distinct_tokens).
Proof. vm_compute. reflexivity. Qed.

(** * The lexer and the parser at large *)

Lemma string_append_assoc (a b c : string) :
  ((a ++ b) ++ c = a ++ (b ++ c))%string.
Proof.
  induction a as [| x a IH]; cbn [append]; [reflexivity |].
  rewrite IH. reflexivity.
Qed.

Lemma string_of_rev_app (acc : list ascii) (t : string) :
  string_of_rev acc t = (string_of_rev acc EmptyString ++ t)%string.
Proof.
  revert t. induction acc as [| c acc IH]; intros t; cbn [string_of_rev].
  - reflexivity.
  - rewrite IH, (IH (String c EmptyString)). rewrite string_append_assoc.
    reflexivity.
Qed.

Lemma string_of_rev_length (acc : list ascii) (t : string) :
  String.length (string_of_rev acc t)
  = (List.length acc + String.length t)%nat.
Proof.
  revert t. induction acc as [| c acc IH]; intros t;
    cbn [string_of_rev List.length].
  - reflexivity.
  - rewrite IH. cbn [String.length]. lia.
Qed.

(** What a match consumes it takes from the head of the text, and it takes
    at least [min_len] characters. *)
Lemma rmatch_frame (r : regex) (prev0 : option ascii) :
  forall (acc : list ascii) (s : string)
         (k : list ascii -> string -> mresult) (res : list ascii * string),
    rmatch r prev0 acc s k = Some res ->
    exists (acc' : list ascii) (s' : string),
      k acc' s' = Some res
      /\ string_of_rev acc' s' = string_of_rev acc s
      /\ (List.length acc + min_len r <= List.length acc')%nat.
Proof.
  induction r as [| | | f | a IHa b IHb | a IHa b IHb | a IHa | a IHa];
    intros acc s k res H; cbn [rmatch min_len] in H |- *.
  - exists acc, s. repeat split; [exact H | lia].
  - destruct (last_char prev0 acc); [discriminate |].
    exists acc, s. repeat split; [exact H | lia].
  - destruct (xorb _ _); [| discriminate].
    exists acc, s. repeat split; [exact H | lia].
  - destruct s as [| c s]; [discriminate |].
    destruct (f c); [| discriminate].
    exists (c :: acc), s. repeat split; [exact H | cbn [List.length]; lia].
  - apply IHa in H. destruct H as [acc1 [s1 [H [E1 L1]]]].
    apply IHb in H. destruct H as [acc2 [s2 [H [E2 L2]]]].
    exists acc2, s2. repeat split; [exact H | congruence | lia].
  - destruct (rmatch a prev0 acc s k) as [x |] eqn:E.
    + inversion H; subst x. apply IHa in E.
      destruct E as [acc1 [s1 [E [E1 L1]]]].
      exists acc1, s1. repeat split; [exact E | exact E1 | lia].
    + apply IHb in H. destruct H as [acc1 [s1 [H [E1 L1]]]].
      exists acc1, s1. repeat split; [exact H | exact E1 | lia].
  - remember (String.length s) as n eqn:En. clear En.
    revert acc s H. induction n as [| n IHn]; intros acc s H.
    + exists acc, s. repeat split; [exact H | lia].
    + match type of H with
      | match ?m with _ => _ end = _ => destruct m as [x |] eqn:E
      end.
      * inversion H; subst x. apply IHa in E.
        destruct E as [acc1 [s1 [E [E1 L1]]]].
        apply IHn in E. destruct E as [acc2 [s2 [E [E2 L2]]]].
        exists acc2, s2. repeat split; [exact E | congruence | lia].
      * exists acc, s. repeat split; [exact H | lia].
  - remember (String.length s) as n eqn:En. clear En.
    revert acc s H. induction n as [| n IHn]; intros acc s H.
    + destruct (k acc s) as [x |] eqn:E; [| discriminate].
      exists acc, s. repeat split; [congruence | lia].
    + destruct (k acc s) as [x |] eqn:E.
      * exists acc, s. repeat split; [congruence | lia].
      * apply IHa in H. destruct H as [acc1 [s1 [H [E1 L1]]]].
        apply IHn in H. destruct H as [acc2 [s2 [H [E2 L2]]]].
        exists acc2, s2. repeat split; [exact H | congruence | lia].
Qed.

(** A match splits the text into what precedes it, the match and the rest. *)
Lemma search_split (r : regex) :
  forall (s : string) (prev0 : option ascii) (pre m rest : string),
    search r prev0 s = Some (pre, m, rest) ->
    s = (pre ++ m ++ rest)%string /\ (min_len r <= String.length m)%nat.
Proof.
  induction s as [| c s IH]; intros prev0 pre m rest H; cbn [search] in H.
  - destruct (rmatch r prev0 [] EmptyString _) as [[acc rest0] |] eqn:E;
      [| discriminate].
    inversion H; subst. apply rmatch_frame in E.
    destruct E as [acc' [s' [E [E1 L1]]]]. inversion E; subst.
    cbn [string_of_rev] in E1. cbn [append].
    rewrite <- string_of_rev_app. split; [congruence |].
    rewrite string_of_rev_length. cbn [List.length String.length] in *. lia.
  - destruct (rmatch r prev0 [] (String c s) _) as [[acc rest0] |] eqn:E.
    + inversion H; subst. apply rmatch_frame in E.
      destruct E as [acc' [s' [E [E1 L1]]]]. inversion E; subst.
      cbn [string_of_rev] in E1. cbn [append].
      rewrite <- string_of_rev_app. split; [congruence |].
      rewrite string_of_rev_length. cbn [List.length String.length] in *. lia.
    + destruct (search r (Some c) s) as [[[pre0 m0] rest0] |] eqn:Es;
        [| discriminate].
      inversion H; subst. apply IH in Es. destruct Es as [Es L].
      split; [cbn [append]; congruence | exact L].
Qed.

Lemma length_append (a b : string) :
  String.length (a ++ b) = (String.length a + String.length b)%nat.
Proof.
  induction a as [| c a IH]; cbn [append String.length]; [reflexivity | lia].
Qed.

(** Replacing matches by a text no longer than the shortest match does not
    lengthen the text. *)
Lemma replace_from_length (r : regex) (repl : string) :
  (String.length repl <= min_len r)%nat ->
  forall (fuel : nat) (prev0 : option ascii) (s : string),
    (String.length (replace_from fuel r repl prev0 s) <= String.length s)%nat.
Proof.
  intros Hr. induction fuel as [| fuel IH]; intros prev0 s;
    cbn [replace_from]; [lia |].
  destruct (search r prev0 s) as [[[pre m] rest] |] eqn:E; [| lia].
  apply search_split in E. destruct E as [E L]. subst s.
  rewrite !length_append.
  specialize (IH (last_of m (last_of pre prev0)) rest). lia.
Qed.

(** Removing the matches of an expression that finds a non-empty match
    shortens the text. *)
Lemma replace_from_shortens (r : regex) (fuel : nat) (prev0 : option ascii)
    (s pre m rest : string) :
  search r prev0 s = Some (pre, m, rest) -> m <> EmptyString ->
  (String.length (replace_from (S fuel) r EmptyString prev0 s)
   < String.length s)%nat.
Proof.
  intros E Hm. cbn [replace_from]. rewrite E.
  apply search_split in E. destruct E as [E _]. subst s.
  rewrite !length_append. cbn [append].
  pose proof (replace_from_length r EmptyString (Nat.le_0_l _) fuel
                (last_of m (last_of pre prev0)) rest) as Hl.
  destruct m as [| c m]; [contradiction Hm; reflexivity |].
  cbn [String.length]. lia.
Qed.

Lemma ReplaceAll_shortens (r : regex) (s : string) :
  FindString r s <> EmptyString ->
  (String.length (ReplaceAll r s EmptyString) < String.length s)%nat.
Proof.
  unfold FindString, ReplaceAll.
  destruct (search r None s) as [[[pre m] rest] |] eqn:E;
    [| intros H; contradiction H; reflexivity].
  intros Hm. eapply replace_from_shortens; eassumption.
Qed.

Lemma trim_left_length (f : ascii -> bool) (s : string) :
  (String.length (trim_left f s) <= String.length s)%nat.
Proof.
  induction s as [| c s IH]; cbn [trim_left String.length]; [lia |].
  destruct (f c); cbn [String.length]; lia.
Qed.

Lemma trim_right_length (f : ascii -> bool) (s : string) :
  (String.length (trim_right f s) <= String.length s)%nat.
Proof.
  induction s as [| c s IH]; cbn [trim_right String.length]; [lia |].
  destruct (trim_right f s) as [| d t]; cbn [String.length] in *.
  - destruct (f c); cbn [String.length]; lia.
  - lia.
Qed.

Lemma TrimSpace_length (s : string) :
  (String.length (TrimSpace s) <= String.length s)%nat.
Proof.
  unfold TrimSpace.
  pose proof (trim_right_length is_space (trim_left is_space s)).
  pose proof (trim_left_length is_space s). lia.
Qed.

Lemma first_match_inv (table : list lexer_regex) (s : string)
    (rule : lexer_regex) (found : string) :
  first_match table s = Some (rule, found) ->
  In rule table
  /\ found = FindString (compiled rule) s
  /\ found <> EmptyString.
Proof.
  induction table as [| r table IH]; cbn [first_match]; [discriminate |].
  destruct (FindString (compiled r) s) as [| c f] eqn:E.
  - intros H. apply IH in H. destruct H as [H1 H2]. split; [right |]; assumption.
  - intros H. inversion H; subst. split; [left; reflexivity |].
    split; [symmetry; exact E | discriminate].
Qed.

Lemma FindString_min_len (r : regex) (s : string) :
  FindString r s <> EmptyString ->
  (min_len r <= String.length (FindString r s))%nat.
Proof.
  unfold FindString.
  destruct (search r None s) as [[[pre m] rest] |] eqn:E;
    [| intros H; contradiction H; reflexivity].
  intros _. apply search_split in E. apply E.
Qed.

Lemma string_rule_min_len (rule : lexer_regex) :
  In rule lexer_regex_table -> String.eqb (rtag rule) "string" = true ->
  (2 <= min_len (compiled rule))%nat.
Proof.
  intros Hin Ht.
  assert (H : forallb (fun r => if String.eqb (rtag r) "string"
                                then (2 <=? min_len (compiled r))%nat
                                else true) lexer_regex_table = true)
    by (vm_compute; reflexivity).
  rewrite forallb_forall in H. specialize (H rule Hin). rewrite Ht in H.
  apply Nat.leb_le. exact H.
Qed.

Lemma strip_ends_ok (s : string) :
  (2 <= String.length s)%nat -> exists r : string, strip_ends s = Ok r.
Proof.
  destruct s as [| a [| b s]]; cbn [String.length]; try lia.
  intros _. eexists. reflexivity.
Qed.

(** One round: the token it emits and the text it leaves. *)
Lemma lexer_step_inv (s : string) (pos : Z) (tok : lexer_token) (s2 : string) :
  lexer_step s pos = Ok (tok, s2) ->
  stmt_pos tok = pos
  /\ (String.length s2 < String.length s)%nat
  /\ token_consistent tok
  /\ exists (rule : lexer_regex) (found : string),
       first_match lexer_regex_table s = Some (rule, found)
       /\ tag tok = rtag rule.
Proof.
  unfold lexer_step.
  destruct (first_match lexer_regex_table s) as [[rule found] |] eqn:E;
    [| discriminate].
  intros H. apply bind_Ok in H. destruct H as [[v sym] [Hv H]].
  inversion H; subst tok s2. clear H. cbn [stmt_pos tag token val].
  split; [reflexivity |].
  destruct (first_match_inv _ _ _ _ E) as [Hin [Hf Hne]].
  split.
  { pose proof (TrimSpace_length
                  (ReplaceAll (compiled rule) s EmptyString)) as H1.
    assert (H2 : FindString (compiled rule) s <> EmptyString)
      by (rewrite <- Hf; exact Hne).
    apply ReplaceAll_shortens in H2. lia. }
  split; [| exists rule, found; split; reflexivity].
  unfold token_consistent, value_tag. cbn [tag token val].
  destruct (String.eqb (rtag rule) "string"); cbn [orb].
  { apply bind_Ok in Hv. destruct Hv as [r [_ Hv]]. inversion Hv. reflexivity. }
  destruct (String.eqb (rtag rule) "ident"); cbn [orb].
  { inversion Hv. reflexivity. }
  destruct (String.eqb (rtag rule) "int"); cbn [orb].
  { inversion Hv. reflexivity. }
  destruct (String.eqb (rtag rule) "float"); cbn [orb].
  { inversion Hv. reflexivity. }
  destruct (lookup lexer_symbol_table found) as [sy |] eqn:El;
    [| discriminate].
  inversion Hv; subst. exact El.
Qed.

(** One round returns a token or an error: the slice that removes the
    quotes of a string is within bounds. *)
Lemma lexer_step_total (s : string) (pos : Z) :
  (exists (tok : lexer_token) (s2 : string), lexer_step s pos = Ok (tok, s2))
  \/ (exists e : string, lexer_step s pos = Err e /\ lexer_error e).
Proof.
  unfold lexer_step.
  destruct (first_match lexer_regex_table s) as [[rule found] |] eqn:E.
  2: { right. eexists. split; [reflexivity |]. left. exists s. reflexivity. }
  destruct (first_match_inv _ _ _ _ E) as [Hin [Hf Hne]].
  destruct (String.eqb (rtag rule) "string") eqn:Es.
  { pose proof (string_rule_min_len rule Hin Es) as Hm.
    assert (H2 : FindString (compiled rule) s <> EmptyString)
      by (rewrite <- Hf; exact Hne).
    apply FindString_min_len in H2. rewrite <- Hf in H2.
    destruct (strip_ends_ok found) as [r Hr]; [lia |].
    rewrite Hr. cbn [bind]. left. eexists. eexists. reflexivity. }
  destruct (String.eqb (rtag rule) "ident");
    [left; eexists; eexists; reflexivity |].
  destruct (String.eqb (rtag rule) "int");
    [left; eexists; eexists; reflexivity |].
  destruct (String.eqb (rtag rule) "float");
    [left; eexists; eexists; reflexivity |].
  destruct (lookup lexer_symbol_table found) as [sy |].
  - left. eexists. eexists. reflexivity.
  - right. eexists. split; [reflexivity |]. right. exists found. reflexivity.
Qed.

Lemma lexer_loop_total (fuel : nat) :
  forall (s : string) (pos : Z) (toks : list lexer_token),
    (String.length s <= fuel)%nat ->
    (exists r : list lexer_token, lexer_loop fuel s pos toks = Ok r)
    \/ (exists e : string, lexer_loop fuel s pos toks = Err e /\ lexer_error e).
Proof.
  induction fuel as [| fuel IH]; intros s pos toks Hl.
  - destruct s as [| c s]; [| cbn [String.length] in Hl; lia].
    left. eexists. reflexivity.
  - destruct s as [| c s]; [left; eexists; reflexivity |].
    cbn [lexer_loop].
    destruct (lexer_step_total (String c s) pos)
      as [[tok [s2 H]] | [e [H He]]]; rewrite H; cbn [bind].
    + apply IH. apply lexer_step_inv in H. lia.
    + right. exists e. split; [reflexivity | exact He].
Qed.

Lemma lexer_unfold (s : string) :
  lexer s
  = lexer_loop (String.length (preprocessed s)) (preprocessed s) 0 [].
Proof. reflexivity. Qed.

(** X1.  The lexer returns on every text: the tokens, or one of its two errors.
    The loop is not cut off, and no slice is out of bounds. *)
Theorem lexer_returns (s : string) :
  (exists toks : list lexer_token, lexer s = Ok toks)
  \/ (exists e : string, lexer s = Err e /\ lexer_error e).
Proof. rewrite lexer_unfold. apply lexer_loop_total. lia. Qed.

Lemma lexer_loop_inv (fuel : nat) :
  forall (s : string) (pos : Z) (toks res : list lexer_token),
    lexer_loop fuel s pos toks = Ok res ->
    exists new : list lexer_token,
      res = toks ++ new
      /\ Forall emitted new
      /\ Forall (fun t => pos <= stmt_pos t < pos + len s) new
      /\ StronglySorted Z.lt (map stmt_pos new).
Proof.
  induction fuel as [| fuel IH]; intros s pos toks res H;
    destruct s as [| c s]; cbn [lexer_loop] in H; try discriminate;
    try (inversion H; subst; exists []; rewrite app_nil_r;
         repeat split; constructor).
  apply bind_Ok in H. destruct H as [[tok s2] [Hs H]].
  apply IH in H. destruct H as [new [Hres [He [Hp Hsort]]]].
  pose proof (lexer_step_inv _ _ _ _ Hs) as [Hpos [Hlen _]].
  assert (Hl : len s2 < len (String c s)) by (unfold len; lia).
  assert (Hl0 : 0 <= len s2) by (unfold len; lia).
  exists (tok :: new).
  split; [rewrite Hres, <- app_assoc; reflexivity |].
  split; [constructor; [exists (String c s), s2; rewrite Hpos; exact Hs
                       | exact He] |].
  split.
  - constructor; [lia |].
    eapply Forall_impl; [| exact Hp]. cbn beta. intros t Ht. lia.
  - cbn [map]. constructor; [exact Hsort |].
    rewrite Forall_map. eapply Forall_impl; [| exact Hp].
    cbn beta. intros t Ht. lia.
Qed.

Lemma preprocessed_length (s : string) :
  (String.length (preprocessed s) <= String.length s)%nat.
Proof.
  unfold preprocessed, lexer_pre_table. cbn [fold_left pre_compiled replace].
  etransitivity; [apply TrimSpace_length |].
  unfold ReplaceAll.
  etransitivity;
    [apply replace_from_length; vm_compute; repeat constructor |].
  etransitivity;
    [apply replace_from_length; vm_compute; repeat constructor |].
  apply replace_from_length; vm_compute; repeat constructor.
Qed.

Lemma lexer_position_bounds (q : string) (toks : list lexer_token) :
  lexer q = Ok toks ->
  Forall (fun t => 0 <= stmt_pos t < len q) toks.
Proof.
  rewrite lexer_unfold. intros H. apply lexer_loop_inv in H.
  destruct H as [new [Hres [_ [Hp Hs]]]]. cbn [app] in Hres. subst new.
  eapply Forall_impl; [| exact Hp]. cbn beta. intros t Ht.
  pose proof (preprocessed_length q). unfold len in *. lia.
Qed.

(** X2.  Positions: the tokens of a query carry strictly increasing positions,
    all of them inside the query. *)
Theorem lexer_positions (q : string) (toks : list lexer_token) :
  lexer q = Ok toks ->
  Forall (fun t => 0 <= stmt_pos t < len q) toks
  /\ StronglySorted Z.lt (map stmt_pos toks).
Proof.
  intros H. split; [apply lexer_position_bounds; exact H |].
  rewrite lexer_unfold in H. apply lexer_loop_inv in H.
  destruct H as [new [Hres [_ [_ Hs]]]]. cbn [app] in Hres. subst new.
  exact Hs.
Qed.

Lemma lexer_emitted (q : string) (toks : list lexer_token) :
  lexer q = Ok toks -> Forall emitted toks.
Proof.
  rewrite lexer_unfold. intros H. apply lexer_loop_inv in H.
  destruct H as [new [Hres [He _]]]. cbn [app] in Hres. subst new. exact He.
Qed.

(** X3.  Every token of the lexer is a value without a symbol, or carries the
    symbol that the table holds for its text. *)
Theorem lexer_tokens_consistent (q : string) (toks : list lexer_token) :
  lexer q = Ok toks -> Forall token_consistent toks.
Proof.
  intros H. apply lexer_emitted in H.
  eapply Forall_impl; [| exact H]. intros t [s [s2 Hs]].
  apply lexer_step_inv in Hs. apply Hs.
Qed.

(** ** The first token *)

(** A parser state without tokens: [do_syntax] indexes the empty slice. *)
Lemma parser_without_tokens (clock : nat -> Z) (zone sym_as : Z)
    (fuel : nat) (p : Parser) :
  tokens p = [] ->
  parser clock zone sym_as fuel p = Panic "index out of range".
Proof.
  intros H. unfold parser, do_syntax, tok_at. rewrite H.
  cbn [sub_commands find_pipe bind set_num_tokens set_token_index tokens
       token_index].
  rewrite H. reflexivity.
Qed.

(** X4.  A statement whose first token is a pipe makes the parser panic: the
    scan for sub-commands slices [cmd[:i-1]] at [i = 0]. *)
Theorem parser_pipe_first (clock : nat -> Z) (zone sym_as : Z)
    (fuel : nat) (p : Parser) (t : lexer_token) (l : list lexer_token) :
  tokens p = t :: l -> token t = sym_pipe ->
  parser clock zone sym_as fuel p = Panic "slice bounds out of range".
Proof.
  intros H Ht. unfold parser, sub_commands. rewrite H.
  cbn [find_pipe]. rewrite Ht. reflexivity.
Qed.

Lemma sub_commands_not_first (t : lexer_token) (l : list lexer_token) :
  token t <> sym_pipe ->
  exists r, sub_commands (t :: l) = Ok r.
Proof.
  intros Ht. unfold sub_commands. cbn [find_pipe].
  apply Z.eqb_neq in Ht. rewrite Ht.
  destruct (find_pipe l (0 + 1)) as [i |] eqn:E; [| eexists; reflexivity].
  apply find_pipe_bounds in E. unfold slice_to.
  assert (Hl : llen (t :: l) = 1 + llen l)
    by (unfold llen; cbn [List.length]; lia).
  rewrite Hl.
  destruct (Z.leb_spec 0 (i - 1)); [| lia].
  destruct (Z.leb_spec (i - 1) (1 + llen l)); [| lia].
  cbn [andb bind]. eexists. reflexivity.
Qed.

(** X5.  A first token other than FIND (and than a pipe) is reported: the
    parser returns the error expected statement, with the text of the query
    from that token on. *)
Theorem parser_expects_statement (clock : nat -> Z) (zone sym_as : Z)
    (fuel : nat) (p : Parser) (t : lexer_token) (l : list lexer_token)
    (s : string) :
  tokens p = t :: l ->
  token t <> sym_find -> token t <> sym_pipe ->
  slice_from (query p) (stmt_pos t) = Ok s ->
  parser clock zone sym_as fuel p
  = Err ("syntax error: expected statement at '" ++ s ++ "'")%string.
Proof.
  intros H Hf Hp Hs. unfold parser. rewrite H.
  destruct (sub_commands_not_first t l Hp) as [r Hr]. rewrite Hr.
  cbn [bind]. unfold do_syntax, tok_at.
  cbn [tokens set_token_index set_num_tokens token_index]. rewrite H.
  cbn [index Z.ltb Z.compare Z.to_nat nth_error bind].
  apply Z.eqb_neq in Hf. rewrite Hf.
  unfold errorf_at, tok_at.
  cbn [tokens set_token_index set_num_tokens token_index query].
  rewrite H. cbn [index Z.ltb Z.compare Z.to_nat nth_error bind].
  rewrite Hs. reflexivity.
Qed.

Lemma all_space_append (a b : string) :
  all_space (a ++ b) = all_space a && all_space b.
Proof.
  induction a as [| c a IH]; cbn [append all_space]; [reflexivity |].
  rewrite IH, andb_assoc. reflexivity.
Qed.

Lemma replace_from_all_space (r : regex) (repl : string) :
  all_space repl = true ->
  forall (fuel : nat) (prev0 : option ascii) (s : string),
    all_space s = true ->
    all_space (replace_from fuel r repl prev0 s) = true.
Proof.
  intros Hr. induction fuel as [| fuel IH]; intros prev0 s Hs;
    cbn [replace_from]; [exact Hs |].
  destruct (search r prev0 s) as [[[pre m] rest] |] eqn:E; [| exact Hs].
  apply search_split in E. destruct E as [E _]. subst s.
  rewrite !all_space_append in Hs |- *.
  apply andb_true_iff in Hs. destruct Hs as [H1 Hs].
  apply andb_true_iff in Hs. destruct Hs as [H2 H3].
  rewrite H1, Hr, IH by exact H3. reflexivity.
Qed.

Lemma trim_left_all_space (s : string) :
  all_space s = true -> trim_left is_space s = EmptyString.
Proof.
  induction s as [| c s IH]; cbn [all_space trim_left]; [reflexivity |].
  intros H. apply andb_true_iff in H. destruct H as [Hc Hs].
  rewrite Hc. apply IH. exact Hs.
Qed.

Lemma preprocessed_all_space (q : string) :
  all_space q = true -> preprocessed q = EmptyString.
Proof.
  intros H. unfold preprocessed, TrimSpace, lexer_pre_table.
  cbn [fold_left pre_compiled replace]. unfold ReplaceAll.
  rewrite trim_left_all_space; [reflexivity |].
  repeat (apply replace_from_all_space; [reflexivity |]). exact H.
Qed.

Lemma lexer_blank (q : string) :
  all_space q = true -> lexer q = Ok [].
Proof.
  intros H. rewrite lexer_unfold, (preprocessed_all_space q H). reflexivity.
Qed.

(** ** An empty query *)

(** X6.  An empty or blank query has no tokens, and the lexer returns no error;
    the parser then indexes the empty token slice and panics. *)
Theorem blank_query (clock : nat -> Z) (zone sym_as : Z) (fuel : nat)
    (q : string) :
  all_space q = true ->
  lexer q = Ok []
  /\ parse clock zone sym_as fuel q = Panic "index out of range".
Proof.
  intros H. split; [apply lexer_blank; exact H |].
  unfold parse. rewrite (lexer_blank q H).
  apply parser_without_tokens. reflexivity.
Qed.

(** ** The flag [end] *)

(** X7.  Only YESTERDAY and DAY BEFORE YESTERDAY look at [end]: for every other
    reference the end of a range resolves like its start. *)
Theorem end_is_ignored (clock : nat -> Z) (zone : Z) (p : Parser) :
  (forall t : lexer_token,
      tok_at p (token_index p) = Ok t ->
      token t <> sym_day /\ token t <> sym_yesterday) ->
  do_temp_ref clock zone p true = do_temp_ref clock zone p false.
Proof.
  intros H. unfold do_temp_ref, time_Now.
  destruct (trace p) as [u | | |]; cbn [bind]; try reflexivity.
  change (token_index (tick p)) with (token_index p).
  change (tok_at (tick p) (token_index p)) with (tok_at p (token_index p)).
  destruct (tok_at p (token_index p)) as [t | | |] eqn:E; cbn [bind];
    try reflexivity.
  destruct (H t eq_refl) as [Hd Hy].
  apply Z.eqb_neq in Hd, Hy. rewrite Hd, Hy. reflexivity.
Qed.

Ltac walk H :=
  repeat first
    [ solve [exfalso; eapply errorf_at_not_Ok; exact H]
    | discriminate H
    | apply bind_Ok in H; let a := fresh "a" in let Ha := fresh "Ha" in
      destruct H as [a [Ha H]]
    | match type of H with
      | (if ?c then _ else _) = _ => destruct c
      end ].

Ltac frame := unfold same_selection, same_range, same_input, same_condition;
              cbn; repeat split; reflexivity.

(** *** MATCHING *)

Lemma do_and_cond_frame (p q : Parser) :
  do_and_cond p = Ok q ->
  same_selection p q /\ same_range p q /\ same_input p q.
Proof.
  unfold do_and_cond. intros H. walk H. inversion H; subst. frame.
Qed.

Lemma frame_trans (p q r : Parser) :
  same_selection p q /\ same_range p q /\ same_input p q ->
  same_selection q r /\ same_range q r /\ same_input q r ->
  same_selection p r /\ same_range p r /\ same_input p r.
Proof.
  unfold same_selection, same_range, same_input.
  intros [[A1 [A2 A3]] [[A4 [A5 A6]] [A7 [A8 A9]]]]
         [[B1 [B2 B3]] [[B4 [B5 B6]] [B7 [B8 B9]]]].
  repeat split; congruence.
Qed.

Lemma and_loop_frame (fuel : nat) :
  forall p q : Parser,
    and_loop fuel p = Ok q ->
    same_selection p q /\ same_range p q /\ same_input p q.
Proof.
  induction fuel as [| fuel IH]; intros p q H; cbn [and_loop] in H;
    apply bind_Ok in H; destruct H as [b [Hb H]]; destruct b;
    try discriminate; try (inversion H; subst; frame).
  apply bind_Ok in H. destruct H as [p1 [Hp1 H]].
  apply do_and_cond_frame in Hp1. apply IH in H.
  eapply frame_trans; [| exact H].
  eapply frame_trans; [| exact Hp1]. frame.
Qed.

Lemma do_or_cond_frame (fuel : nat) (p q : Parser) :
  do_or_cond fuel p = Ok q ->
  same_selection p q /\ same_range p q /\ same_input p q.
Proof.
  intros H. apply do_or_cond_inv in H.
  destruct H as [l [e [r [_ [_ [_ [_ [_ H]]]]]]]].
  apply and_loop_frame in H.
  eapply frame_trans; [| exact H]. frame.
Qed.

Lemma or_loop_frame (fuel : nat) :
  forall p q : Parser,
    or_loop fuel p = Ok q ->
    same_selection p q /\ same_range p q /\ same_input p q.
Proof.
  induction fuel as [| fuel IH]; intros p q H; cbn [or_loop] in H;
    apply bind_Ok in H; destruct H as [b [Hb H]]; destruct b;
    try discriminate; try (inversion H; subst; frame).
  apply bind_Ok in H. destruct H as [p1 [Hp1 H]].
  apply do_or_cond_frame in Hp1. apply IH in H.
  eapply frame_trans; [| exact H].
  eapply frame_trans; [| exact Hp1]. frame.
Qed.

Lemma do_matching_cond_frame (fuel : nat) (p q : Parser) :
  do_matching_cond fuel p = Ok q ->
  same_selection p q /\ same_range p q /\ same_input p q.
Proof.
  unfold do_matching_cond. intros H.
  apply bind_Ok in H. destruct H as [u [_ H]].
  apply bind_Ok in H. destruct H as [p1 [Hp1 H]].
  apply or_loop_frame in H. apply do_or_cond_frame in Hp1.
  eapply frame_trans; eassumption.
Qed.

(** *** The temporal clause *)

Lemma reltime_shape_frame (p : Parser) (il tok times : Z) (q : Parser) :
  reltime_shape p il = Ok (tok, times, q) ->
  same_selection p q /\ same_condition p q /\ same_input p q.
Proof.
  unfold reltime_shape. intros H. walk H; inversion H; subst; frame.
Qed.

Lemma do_reltime_ref_frame (clock : nat -> Z) (zone : Z) (p : Parser)
    (il : Z) (e : bool) (v : Z) (q : Parser) :
  do_reltime_ref clock zone p il e = Ok (v, q) ->
  same_selection p q /\ same_condition p q /\ same_input p q.
Proof.
  unfold do_reltime_ref, time_Now. intros H.
  apply bind_Ok in H. destruct H as [u [Hu H]].
  apply bind_Ok in H. destruct H as [[[tok times] p1] [Hs H]].
  apply reltime_shape_frame in Hs.
  destruct (reltime_switch zone tok times _).
  - inversion H; subst. exact Hs.
  - destruct (il =? 0).
    + exfalso. eapply errorf_at_not_Ok. exact H.
    + inversion H; subst. exact Hs.
Qed.

Lemma do_temp_ref_frame (clock : nat -> Z) (zone : Z) (p : Parser) (e : bool)
    (v : Z) (q : Parser) :
  do_temp_ref clock zone p e = Ok (v, q) ->
  same_selection p q /\ same_condition p q /\ same_input p q.
Proof.
  unfold do_temp_ref, time_Now. intros H.
  apply bind_Ok in H. destruct H as [u [Hu H]].
  apply bind_Ok in H. destruct H as [t [Ht H]].
  destruct (token t =? sym_day).
  { apply bind_Ok in H. destruct H as [c [Hc H]].
    destruct c; [| exfalso; eapply errorf_at_not_Ok; exact H].
    inversion H; subst. frame. }
  destruct (token t =? sym_yesterday).
  { inversion H; subst. frame. }
  destruct (token t =? sym_last).
  { apply do_reltime_ref_frame in H. exact H. }
  destruct (token t =? sym_none).
  { destruct (String.eqb (tag t) "int").
    - apply bind_Ok in H. destruct H as [il [Hil H]].
      apply do_reltime_ref_frame in H. exact H.
    - destruct (GoTime.Parse GoTime.DateTime (val t)).
      { inversion H; subst. frame. }
      destruct (GoTime.Parse GoTime.DateOnly (val t)).
      { inversion H; subst. frame. }
      destruct (GoTime.Parse GoTime.TimeOnly (val t)).
      { inversion H; subst. frame. }
      exfalso. eapply errorf_at_not_Ok. exact H. }
  apply do_reltime_ref_frame in H. exact H.
Qed.

Lemma frame_trans' (p q r : Parser) :
  same_selection p q /\ same_condition p q /\ same_input p q ->
  same_selection q r /\ same_condition q r /\ same_input q r ->
  same_selection p r /\ same_condition p r /\ same_input p r.
Proof.
  unfold same_selection, same_condition, same_input.
  intros [[A1 [A2 A3]] [A4 [A7 [A8 A9]]]]
         [[B1 [B2 B3]] [B4 [B7 [B8 B9]]]].
  repeat split; congruence.
Qed.

Lemma do_temp_cond_frame (clock : nat -> Z) (zone : Z) (p q : Parser) :
  do_temp_cond clock zone p = Ok q ->
  same_selection p q /\ same_condition p q /\ same_input p q.
Proof.
  unfold do_temp_cond. intros H.
  apply bind_Ok in H. destruct H as [u [Hu H]].
  apply bind_Ok in H. destruct H as [t [Ht H]].
  apply bind_Ok in H. destruct H as [p1 [Hp1 H]].
  assert (E : same_selection p p1 /\ same_condition p p1 /\ same_input p p1).
  { destruct (token t =? sym_since).
    - unfold do_temp_since, time_Now in Hp1.
      apply bind_Ok in Hp1. destruct Hp1 as [u1 [_ Hp1]].
      apply bind_Ok in Hp1. destruct Hp1 as [[v p2] [Hr Hp1]].
      apply do_temp_ref_frame in Hr. inversion Hp1; subst.
      eapply frame_trans'; [| eapply frame_trans'; [exact Hr |]]; frame.
    - destruct (token t =? sym_between).
      + unfold do_temp_between in Hp1.
        apply bind_Ok in Hp1. destruct Hp1 as [u1 [_ Hp1]].
        apply bind_Ok in Hp1. destruct Hp1 as [[v p2] [Hr Hp1]].
        apply bind_Ok in Hp1. destruct Hp1 as [b [_ Hp1]].
        destruct b; cbn [negb] in Hp1;
          [| exfalso; eapply errorf_at_not_Ok; exact Hp1].
        apply bind_Ok in Hp1. destruct Hp1 as [[v3 p3] [Hr3 Hp1]].
        apply do_temp_ref_frame in Hr, Hr3. inversion Hp1; subst.
        eapply frame_trans'; [| eapply frame_trans'; [exact Hr |]];
          [frame |].
        eapply frame_trans'; [| eapply frame_trans'; [exact Hr3 |]]; frame.
      + inversion Hp1; subst. frame. }
  destruct (time_to p1 <? time_from p1); inversion H; subst;
    (eapply frame_trans'; [exact E |]); frame.
Qed.

(** *** The field list *)

Ltac sframe :=
  unfold same_condition, same_range, same_input, aliases_repeat_fields;
  cbn; repeat split; auto.

Lemma do_derived_field_frame (a : Z) (p q : Parser) :
  do_derived_field a p = Ok q ->
  same_condition p q /\ same_range p q /\ same_input p q
  /\ find_flags q = find_flags p
  /\ (aliases_repeat_fields p -> aliases_repeat_fields q).
Proof.
  unfold do_derived_field, aliases_repeat_fields. intros H.
  apply bind_Ok in H. destruct H as [u [_ H]].
  apply bind_Ok in H. destruct H as [t [_ H]].
  destruct (String.eqb (tag t) "int");
    [inversion H; subst; repeat split; auto |].
  destruct (String.eqb (tag t) "float");
    [inversion H; subst; repeat split; auto |].
  destruct (String.eqb (tag t) "string");
    [inversion H; subst; repeat split; auto |].
  destruct (String.eqb (tag t) "ident");
    [| exfalso; eapply errorf_at_not_Ok; exact H].
  apply bind_Ok in H. destruct H as [b [_ H]].
  destruct b; inversion H; subst; cbn;
    (repeat split; try reflexivity); intros E; rewrite E; reflexivity.
Qed.

Lemma stmt_frame_trans (p q r : Parser) :
  same_condition p q /\ same_range p q /\ same_input p q
  /\ (aliases_repeat_fields p -> aliases_repeat_fields q) ->
  same_condition q r /\ same_range q r /\ same_input q r
  /\ (aliases_repeat_fields q -> aliases_repeat_fields r) ->
  same_condition p r /\ same_range p r /\ same_input p r
  /\ (aliases_repeat_fields p -> aliases_repeat_fields r).
Proof.
  unfold same_condition, same_range, same_input.
  intros [A1 [[A2 [A3 A4]] [[A5 [A6 A7]] A8]]]
         [B1 [[B2 [B3 B4]] [[B5 [B6 B7]] B8]]].
  repeat split; try congruence. auto.
Qed.

Lemma stmt_frame_refl (p : Parser) :
  same_condition p p /\ same_range p p /\ same_input p p
  /\ (aliases_repeat_fields p -> aliases_repeat_fields p).
Proof.
  unfold same_condition, same_range, same_input. repeat split; auto.
Qed.

Lemma sublist_body_frame (a : Z) (p : Parser) (s : Z) (r : round) :
  sublist_body a p s = Ok r ->
  match r with
  | Continue q _ | Break q _ =>
      same_condition p q /\ same_range p q /\ same_input p q
      /\ (aliases_repeat_fields p -> aliases_repeat_fields q)
  end.
Proof.
  unfold sublist_body. intros H.
  apply bind_Ok in H. destruct H as [t [_ H]].
  destruct (token t =? sym_comma).
  { apply bind_Ok in H. destruct H as [b [_ H]].
    destruct b; [exfalso; eapply errorf_at_not_Ok; exact H |].
    inversion H; subst. sframe. }
  destruct (token t =? sym_matching);
    [inversion H; subst; sframe |].
  destruct (token t =? sym_since);
    [inversion H; subst; sframe |].
  destruct (token t =? sym_between);
    [inversion H; subst; sframe |].
  destruct (token t =? sym_none).
  { apply bind_Ok in H. destruct H as [q [Hq H]].
    inversion H; subst. apply do_derived_field_frame in Hq.
    destruct Hq as [Q1 [Q2 [Q3 [_ Q4]]]]. auto. }
  destruct (s <? 1); [exfalso; eapply errorf_at_not_Ok; exact H |].
  inversion H; subst. sframe.
Qed.

Lemma sublist_loop_frame (a : Z) (fuel : nat) :
  forall (p : Parser) (s : Z) (q : Parser) (s' : Z),
    sublist_loop a fuel p s = Ok (q, s') ->
    same_condition p q /\ same_range p q /\ same_input p q
    /\ (aliases_repeat_fields p -> aliases_repeat_fields q).
Proof.
  induction fuel as [| fuel IH]; intros p s q s' H; cbn [sublist_loop] in H;
    destruct (token_index p <? num_tokens p); cbn [negb] in H;
    try discriminate;
    try (inversion H; subst; apply stmt_frame_refl).
  apply bind_Ok in H. destruct H as [r [Hr H]].
  apply sublist_body_frame in Hr.
  destruct r as [p1 s1 | p1 s1].
  - apply IH in H. eapply stmt_frame_trans; eassumption.
  - inversion H; subst. exact Hr.
Qed.

Lemma do_stmt_frame (a : Z) (fuel : nat) (p q : Parser) :
  do_stmt a fuel p = Ok q ->
  same_condition p q /\ same_range p q /\ same_input p q
  /\ (aliases_repeat_fields p -> aliases_repeat_fields q).
Proof.
  unfold do_stmt. intros H.
  apply bind_Ok in H. destruct H as [u [_ H]].
  apply bind_Ok in H. destruct H as [t [_ H]].
  destruct (token t =? sym_find);
    [| inversion H; subst; apply stmt_frame_refl].
  unfold do_stmt_list in H.
  apply bind_Ok in H. destruct H as [u1 [_ H]].
  apply bind_Ok in H. destruct H as [t1 [_ H]].
  destruct (token t1 =? sym_all).
  { inversion H; subst. unfold same_condition, same_range, same_input,
      aliases_repeat_fields. cbn. repeat split; auto. }
  unfold do_stmt_sublist in H.
  apply bind_Ok in H. destruct H as [u2 [_ H]].
  apply bind_Ok in H. destruct H as [[p1 s1] [Hl H]].
  destruct (s1 <? 1); [exfalso; eapply errorf_at_not_Ok; exact H |].
  inversion H; subst. apply sublist_loop_frame in Hl.
  eapply stmt_frame_trans; [| exact Hl].
  unfold same_condition, same_range, same_input, aliases_repeat_fields.
  cbn. repeat split; auto.
Qed.

(** ** What each clause leaves alone *)

(** X8.  The three clauses write disjoint parts of the parser state: the field
    list leaves the condition and the range alone, MATCHING the selection
    and the range, the temporal clause the selection and the condition; the
    query and the tokens are never written. *)
Theorem clauses_are_independent (clock : nat -> Z) (zone sym_as : Z)
    (fuel : nat) (p q : Parser) :
  (do_stmt sym_as fuel p = Ok q ->
   same_condition p q /\ same_range p q /\ same_input p q)
  /\ (do_matching_cond fuel p = Ok q ->
      same_selection p q /\ same_range p q /\ same_input p q)
  /\ (do_temp_cond clock zone p = Ok q ->
      same_selection p q /\ same_condition p q /\ same_input p q).
Proof.
  split; [| split].
  - intros H. apply do_stmt_frame in H. tauto.
  - apply do_matching_cond_frame.
  - apply do_temp_cond_frame.
Qed.

Lemma do_syntax_aliases (clock : nat -> Z) (zone a : Z) (fuel : nat)
    (p q : Parser) :
  do_syntax clock zone a fuel p = Ok q ->
  aliases_repeat_fields p -> aliases_repeat_fields q.
Proof.
  unfold do_syntax, aliases_repeat_fields. intros H Hp.
  apply bind_Ok in H. destruct H as [t [Ht H]].
  apply bind_Ok in H. destruct H as [p1 [Hp1 H]].
  apply bind_Ok in H. destruct H as [t1 [Ht1 H]].
  apply bind_Ok in H. destruct H as [p2 [Hp2 H]].
  apply bind_Ok in H. destruct H as [t2 [Ht2 H]].
  destruct (token t =? sym_find);
    [| exfalso; eapply errorf_at_not_Ok; exact Hp1].
  apply do_stmt_frame in Hp1. destruct Hp1 as [_ [_ [_ A1]]].
  specialize (A1 Hp). unfold aliases_repeat_fields in A1.
  assert (A2 : field_aliases p2 = fields p2).
  { destruct (token t1 =? sym_matching).
    - apply do_matching_cond_frame in Hp2.
      destruct Hp2 as [[F1 [F2 _]] _]. cbn in F1, F2. congruence.
    - inversion Hp2; subst. exact A1. }
  assert (E : same_selection p2 q).
  { destruct (token t2 =? sym_since);
      [apply do_temp_cond_frame in H; apply H |].
    destruct (token t2 =? sym_between);
      [apply do_temp_cond_frame in H; apply H |].
    exfalso. eapply errorf_at_not_Ok. exact H. }
  destruct E as [F1 [F2 _]]. congruence.
Qed.

(** X9.  The alias list repeats the field list: both branches of
    [do_derived_field] append the name of the field, so an alias that the
    query gives is not kept. *)
Theorem parser_aliases_repeat_fields (clock : nat -> Z) (zone sym_as : Z)
    (fuel : nat) (p q : Parser) :
  parser clock zone sym_as fuel p = Ok q ->
  field_aliases p = fields p ->
  field_aliases q = fields q.
Proof.
  unfold parser. intros H Hp.
  apply bind_Ok in H. destruct H as [r [_ H]].
  destruct (do_syntax clock zone sym_as fuel _) as [q0 | | |] eqn:Hs;
    try discriminate.
  apply bind_Ok in H. destruct H as [u [_ H]]. inversion H; subst q0.
  apply (do_syntax_aliases _ _ _ _ _ _ Hs). exact Hp.
Qed.

Lemma index_app_next {A : Type} (l X : list A) (x y : A) :
  index (l ++ x :: y :: X) (llen l + 1) = Ok y.
Proof.
  replace (l ++ x :: y :: X) with ((l ++ [x]) ++ y :: X)
    by (rewrite <- app_assoc; reflexivity).
  replace (llen l + 1) with (llen (l ++ [x])); [apply index_app_head |].
  rewrite llen_app. reflexivity.
Qed.

Lemma step_comma (a : Z) (p : Parser) (s : Z) (c f : lexer_token) :
  tok_at p (token_index p) = Ok c -> token c = sym_comma ->
  tok_at p (token_index p + 1) = Ok f -> token f = sym_none ->
  1 <= s ->
  sublist_body a p s = Ok (Continue (advance p 1) s).
Proof.
  intros Hc Ec Hf Ef Hs. unfold sublist_body. rewrite Hc. cbn [bind].
  rewrite Ec. cbn [Z.eqb sym_comma Pos.eqb].
  destruct (Z.ltb_spec s 1); [lia |].
  unfold token_is. rewrite Hf. cbn [bind]. rewrite Ef.
  cbn [Z.eqb sym_none negb].
  destruct (token_index p + 1 <? num_tokens p); reflexivity.
Qed.

Lemma step_field (a : Z) (p : Parser) (s : Z) (f t : lexer_token) :
  tok_at p (token_index p) = Ok f ->
  token f = sym_none -> tag f = "ident"%string ->
  tok_at p (token_index p + 1) = Ok t -> token t <> a ->
  sublist_body a p s
  = Ok (Continue
          (advance (set_fields p (fields p ++ [val f])
                                 (field_aliases p ++ [val f])) 1)
          (wrap64 (s + 1))).
Proof.
  intros Hf Ef Tf Ht Nt. unfold sublist_body. rewrite Hf. cbn [bind].
  rewrite Ef. cbn [Z.eqb sym_none sym_comma sym_matching sym_since sym_between].
  unfold do_derived_field, trace. rewrite Hf. cbn [bind]. rewrite Tf.
  cbn [String.eqb Ascii.eqb Bool.eqb].
  unfold token_is. rewrite Ht. cbn [bind].
  apply Z.eqb_neq in Nt. rewrite Nt.
  destruct (token_index p + 2 <? num_tokens p); reflexivity.
Qed.

Lemma step_end (a : Z) (p : Parser) (s : Z) (t : lexer_token) :
  tok_at p (token_index p) = Ok t -> ends_field_list t ->
  sublist_body a p s = Ok (Break p s).
Proof.
  intros Ht He. unfold sublist_body. rewrite Ht. cbn [bind].
  destruct He as [E | [E | E]]; rewrite E; reflexivity.
Qed.

Lemma next_token (a : Z) (es : list field_entry) (term : lexer_token)
    (rest : list lexer_token) :
  fresh_symbol a -> Forall entry_ok es -> token term <> a ->
  exists (t : lexer_token) (l : list lexer_token),
    field_list_tokens es ++ term :: rest = t :: l /\ token t <> a.
Proof.
  intros Hf Hes Ht.
  destruct (fresh_symbol_neq a Hf) as [Np [Nc [Nm [Ns [Nb Nn]]]]].
  destruct es as [| e es]; cbn [field_list_tokens flat_map app].
  - exists term, rest. split; [reflexivity | exact Ht].
  - inversion Hes as [| e' es' [E1 [E2 E3]] Hes']; subst.
    unfold entry_tokens. destruct (comma_before e) as [c |]; cbn [app].
    + eexists. eexists. split; [reflexivity |]. rewrite E3. auto.
    + eexists. eexists. split; [reflexivity |]. rewrite E1. auto.
Qed.

Lemma ends_field_list_not_as (a : Z) (term : lexer_token) :
  fresh_symbol a -> ends_field_list term -> token term <> a.
Proof.
  intros Hf Ht.
  destruct (fresh_symbol_neq a Hf) as [Np [Nc [Nm [Ns [Nb Nn]]]]].
  destruct Ht as [E | [E | E]]; rewrite E; auto.
Qed.

Lemma llen_cons {A : Type} (x : A) (l : list A) : llen (x :: l) = 1 + llen l.
Proof. unfold llen. cbn [List.length]. lia. Qed.

Ltac parser_fields :=
  cbn [query tokens num_tokens token_index fields field_aliases find_flags
       time_from time_to or_list ticks advance set_fields set_token_index
       field_names map].

Ltac solve_len := unfold llen; rewrite ?length_app; cbn [List.length app]; lia.

(** The rounds of the loop over the entries of a field list: what is left
    of the loop goes on behind the list, with the fields collected. *)
Lemma sublist_loop_prefix (a : Z) (term : lexer_token)
    (rest : list lexer_token) :
  fresh_symbol a -> token term <> a ->
  forall (es : list field_entry) (fuel : nat) (p : Parser) (s : Z)
         (pre : list lexer_token),
    Forall entry_ok es -> starts_with_field s es ->
    0 <= s -> s + llen es <= int64_max ->
    tokens p = pre ++ field_list_tokens es ++ term :: rest ->
    num_tokens p = llen (tokens p) ->
    token_index p = llen pre ->
    sublist_loop a (List.length (field_list_tokens es) + fuel) p s
    = sublist_loop a fuel
        (advance (set_fields p (fields p ++ field_names es)
                               (field_aliases p ++ field_names es))
                 (llen (field_list_tokens es)))
        (s + llen es).
Proof.
  intros Hf Hterm.
  induction es as [| e es IH];
    intros fuel p s pre Hes Hstart Hs Hmax Htok Hnum Hidx.
  - cbn [field_list_tokens flat_map app field_names map List.length
         Nat.add] in *.
    f_equal.
    + apply Parser_eq; parser_fields; rewrite ?app_nil_r; try reflexivity.
      solve_len.
    + solve_len.
  - inversion Hes as [| e' es' Hok Hes']; subst e' es'.
    destruct Hok as [E1 [E2 E3]].
    destruct (next_token a es term rest Hf Hes' Hterm) as [t' [l' [Hn Nt']]].
    assert (Hle : llen (e :: es) = 1 + llen es) by apply llen_cons.
    pose proof (llen_nonneg es) as Hes0.
    cbn [field_list_tokens flat_map] in Htok |- *.
    fold (field_list_tokens es) in Htok |- *.
    rewrite <- app_assoc in Htok. rewrite Hn in Htok.
    unfold entry_tokens in Htok |- *. cbn [starts_with_field] in Hstart.
    destruct (comma_before e) as [c |] eqn:Ec.
    + (* a comma, then the field *)
      destruct Hstart as [Hstart | Hstart]; [discriminate |].
      cbn [app] in Htok. cbn [app List.length Nat.add].
      assert (Hc : tok_at p (token_index p) = Ok c).
      { unfold tok_at. rewrite Htok, Hidx. apply index_app_head. }
      assert (Hfd : tok_at p (token_index p + 1) = Ok (field_token e)).
      { unfold tok_at. rewrite Htok, Hidx. apply index_app_next. }
      assert (Hlt : token_index p + 1 < num_tokens p).
      { rewrite Hnum, Htok, Hidx, llen_app, !llen_cons.
        pose proof (llen_nonneg l'). lia. }
      cbn [sublist_loop].
      replace (token_index p <? num_tokens p) with true
        by (symmetry; apply Z.ltb_lt; lia).
      cbn [negb].
      rewrite (step_comma a p s c _ Hc E3 Hfd E1 Hstart). cbn [bind].
      cbn [sublist_loop].
      replace (token_index (advance p 1) <? num_tokens (advance p 1))
        with true by (symmetry; apply Z.ltb_lt; cbn; lia).
      cbn [negb].
      assert (Hfd' : tok_at (advance p 1) (token_index (advance p 1))
                     = Ok (field_token e)) by exact Hfd.
      assert (Ht' : tok_at (advance p 1) (token_index (advance p 1) + 1)
                    = Ok t').
      { unfold tok_at. cbn [tokens advance set_token_index token_index].
        rewrite Htok, Hidx.
        replace (pre ++ c :: field_token e :: t' :: l')
          with ((pre ++ [c]) ++ field_token e :: t' :: l')
          by (rewrite <- app_assoc; reflexivity).
        replace (llen pre + 1) with (llen (pre ++ [c]))
          by (rewrite llen_app; reflexivity).
        apply index_app_next. }
      rewrite (step_field a _ s _ t' Hfd' E1 E2 Ht' Nt'). cbn [bind].
      rewrite wrap64_id by (unfold int64_min, int64_max in *; lia).
      rewrite (IH fuel _ (s + 1) (pre ++ [c; field_token e]));
        try assumption.
      * f_equal.
        -- apply Parser_eq; parser_fields; try reflexivity;
             rewrite <- ?app_assoc; try reflexivity.
           solve_len.
        -- lia.
      * destruct es; cbn; auto. right. lia.
      * lia.
      * lia.
      * parser_fields. rewrite Htok, <- Hn, <- app_assoc. reflexivity.
      * parser_fields. rewrite Hidx. solve_len.
    + (* the field alone *)
      cbn [app] in Htok. cbn [app List.length Nat.add].
      assert (Hfd : tok_at p (token_index p) = Ok (field_token e)).
      { unfold tok_at. rewrite Htok, Hidx. apply index_app_head. }
      assert (Ht' : tok_at p (token_index p + 1) = Ok t').
      { unfold tok_at. rewrite Htok, Hidx. apply index_app_next. }
      assert (Hlt : token_index p + 1 < num_tokens p).
      { rewrite Hnum, Htok, Hidx, llen_app, !llen_cons.
        pose proof (llen_nonneg l'). lia. }
      cbn [sublist_loop].
      replace (token_index p <? num_tokens p) with true
        by (symmetry; apply Z.ltb_lt; lia).
      cbn [negb].
      rewrite (step_field a _ s _ t' Hfd E1 E2 Ht' Nt'). cbn [bind].
      rewrite wrap64_id by (unfold int64_min, int64_max in *; lia).
      rewrite (IH fuel _ (s + 1) (pre ++ [field_token e]));
        try assumption.
      * f_equal.
        -- apply Parser_eq; parser_fields; try reflexivity;
             rewrite <- ?app_assoc; try reflexivity.
           solve_len.
        -- lia.
      * destruct es; cbn; auto. right. lia.
      * lia.
      * lia.
      * parser_fields. rewrite Htok, <- Hn, <- app_assoc. reflexivity.
      * parser_fields. rewrite Hidx. solve_len.
Qed.

(** The cursor behind a field list is on the token that follows it. *)
Lemma after_field_list (p : Parser) (pre : list lexer_token)
    (es : list field_entry) (term : lexer_token) (rest : list lexer_token)
    (f al : list string) :
  tokens p = pre ++ field_list_tokens es ++ term :: rest ->
  num_tokens p = llen (tokens p) ->
  token_index p = llen pre ->
  let q := advance (set_fields p f al) (llen (field_list_tokens es)) in
  tok_at q (token_index q) = Ok term /\ token_index q < num_tokens q.
Proof.
  intros Htok Hnum Hidx q. subst q. split.
  - unfold tok_at. parser_fields. rewrite Htok, Hidx, app_assoc.
    rewrite <- llen_app. apply index_app_head.
  - parser_fields. rewrite Hnum, Htok, Hidx, !llen_app, llen_cons.
    pose proof (llen_nonneg rest). lia.
Qed.

Lemma sublist_loop_fields (a : Z) (term : lexer_token)
    (rest : list lexer_token) :
  fresh_symbol a -> ends_field_list term ->
  forall (es : list field_entry) (fuel : nat) (p : Parser) (s : Z)
         (pre : list lexer_token),
    Forall entry_ok es -> starts_with_field s es ->
    0 <= s -> s + llen es <= int64_max ->
    tokens p = pre ++ field_list_tokens es ++ term :: rest ->
    num_tokens p = llen (tokens p) ->
    token_index p = llen pre ->
    (List.length (field_list_tokens es) < fuel)%nat ->
    sublist_loop a fuel p s
    = Ok (advance (set_fields p (fields p ++ field_names es)
                                (field_aliases p ++ field_names es))
                  (llen (field_list_tokens es)),
          s + llen es).
Proof.
  intros Hf Hterm es fuel p s pre Hes Hstart Hs Hmax Htok Hnum Hidx Hfuel.
  replace fuel
    with (List.length (field_list_tokens es)
          + S (fuel - S (List.length (field_list_tokens es))))%nat by lia.
  rewrite (sublist_loop_prefix a term rest Hf
             (ends_field_list_not_as a term Hf Hterm) es _ p s pre);
    try assumption.
  destruct (after_field_list p pre es term rest
              (fields p ++ field_names es) (field_aliases p ++ field_names es)
              Htok Hnum Hidx) as [Ht Hlt].
  cbn [sublist_loop]. apply Z.ltb_lt in Hlt. rewrite Hlt. cbn [negb].
  rewrite (step_end a _ _ term Ht Hterm). reflexivity.
Qed.

Lemma lookup_keys (table : list (string * Z)) (k : string) (v : Z) :
  lookup table k = Some v -> In k (keys_of v table).
Proof.
  induction table as [| [k0 v0] table IH]; cbn [lookup keys_of];
    [discriminate |].
  destruct (String.eqb_spec k0 k) as [E | E].
  - intros H. inversion H; subst. rewrite Z.eqb_refl. left. reflexivity.
  - intros H. apply IH in H. destruct (v0 =? v); [right |]; exact H.
Qed.

Lemma lexer_step_symbol (s : string) (pos : Z) (tok : lexer_token)
    (s2 : string) :
  lexer_step s pos = Ok (tok, s2) -> token tok <> sym_none ->
  exists rule : lexer_regex,
    first_match lexer_regex_table s = Some (rule, val tok)
    /\ value_tag (rtag rule) = false
    /\ lookup lexer_symbol_table (val tok) = Some (token tok).
Proof.
  unfold lexer_step.
  destruct (first_match lexer_regex_table s) as [[rule found] |] eqn:E;
    [| discriminate].
  intros H. apply bind_Ok in H. destruct H as [[v sym] [Hv H]].
  inversion H; subst tok s2. clear H. cbn [token val]. intros Hn.
  exists rule. unfold value_tag.
  destruct (String.eqb (rtag rule) "string"); cbn [orb].
  { apply bind_Ok in Hv. destruct Hv as [r [_ Hv]]. inversion Hv; subst.
    contradiction Hn; reflexivity. }
  destruct (String.eqb (rtag rule) "ident"); cbn [orb].
  { inversion Hv; subst. contradiction Hn; reflexivity. }
  destruct (String.eqb (rtag rule) "int"); cbn [orb].
  { inversion Hv; subst. contradiction Hn; reflexivity. }
  destruct (String.eqb (rtag rule) "float"); cbn [orb].
  { inversion Hv; subst. contradiction Hn; reflexivity. }
  destruct (lookup lexer_symbol_table found) as [sy |] eqn:El;
    [| discriminate].
  inversion Hv; subst. repeat split. exact El.
Qed.

(** Every rule whose token carries a symbol is anchored, but the one for
    the equal sign. *)
Lemma table_anchored (rule : lexer_regex) :
  In rule lexer_regex_table -> value_tag (rtag rule) = false ->
  compiled rule = equal_regex \/ exists r, compiled rule = Seq Bol r.
Proof.
  unfold lexer_regex_table. cbn [In]. intros H Hv.
  repeat (destruct H as [H | H];
          [subst rule;
           first [right; eexists; reflexivity | left; reflexivity
                 | discriminate Hv] |]).
  contradiction.
Qed.

Lemma FindString_anchored_prefix (r : regex) (s : string) :
  FindString (Seq Bol r) s <> EmptyString ->
  exists rest : string, s = (FindString (Seq Bol r) s ++ rest)%string.
Proof.
  unfold FindString.
  destruct (search (Seq Bol r) None s) as [[[pre m] rest] |] eqn:E;
    [| intros H; contradiction H; reflexivity].
  intros _. pose proof (search_split _ _ _ _ _ _ E) as [Hs _].
  rewrite search_anchored in E.
  destruct (head_match (Seq Bol r) s) as [[acc rest0] |]; [| discriminate].
  inversion E. subst pre m rest0. exists rest. exact Hs.
Qed.

Lemma equal_match (prev0 : option ascii) (s : string) (acc : list ascii)
    (rest : string) :
  rmatch equal_regex prev0 [] s (fun acc s' => Some (acc, s')) = Some (acc, rest) ->
  string_of_rev acc EmptyString = "="%string
  \/ string_of_rev acc EmptyString = "=="%string.
Proof.
  unfold equal_regex, at_start. cbn [str chr rmatch last_char].
  destruct s as [| a [| b s]];
    destruct prev0 as [x |]; try discriminate;
    try (destruct (Ascii.eqb_spec "=" a) as [Ea | Ea]; [subst a |];
         try discriminate; intros H; inversion H; subst; left; reflexivity);
    destruct (Ascii.eqb_spec "=" a) as [Ea | Ea]; [subst a |];
    try discriminate;
    try (intros H; inversion H; subst; left; reflexivity);
    destruct (Ascii.eqb_spec "=" b) as [Eb | Eb]; [subst b |];
    try discriminate; intros H; inversion H; subst; right; reflexivity.
Qed.

(** The rule for the equal sign finds an equal sign, or two. *)
Lemma equal_find :
  forall (s : string) (prev0 : option ascii) (pre m rest : string),
    search equal_regex prev0 s = Some (pre, m, rest) ->
    m = "="%string \/ m = "=="%string.
Proof.
  induction s as [| c s IH]; intros prev0 pre m rest H; cbn [search] in H.
  - destruct (rmatch equal_regex prev0 [] EmptyString _)
      as [[acc rest0] |] eqn:E; [| discriminate].
    inversion H; subst. eapply equal_match. exact E.
  - destruct (rmatch equal_regex prev0 [] (String c s) _)
      as [[acc rest0] |] eqn:E.
    + inversion H; subst. eapply equal_match. exact E.
    + destruct (search equal_regex (Some c) s) as [[[pre0 m0] rest1] |] eqn:Es;
        [| discriminate].
      inversion H; subst. eapply IH. exact Es.
Qed.

Lemma star_total (a : regex) (prev0 : option ascii) (acc : list ascii)
    (s : string) :
  exists res : list ascii * string,
    rmatch (Star a) prev0 acc s (fun acc s' => Some (acc, s')) = Some res.
Proof.
  cbn [rmatch]. generalize (String.length s) as n. intros n.
  revert acc s. induction n as [| n IH]; intros acc s.
  - eexists. reflexivity.
  - match goal with
    | |- exists res, match ?m with _ => _ end = _ => destruct m as [x |]
    end; eexists; reflexivity.
Qed.

(** Where the text begins with a letter or an underscore, the rule for
    identifiers finds a match. *)
Lemma ident_matches (c : ascii) (s : string) :
  (is_upper c || is_lower c || Ascii.eqb c "_") = true ->
  FindString ident_regex (String c s) <> EmptyString.
Proof.
  intros Hc. unfold FindString, ident_regex, ident_body, ident_start.
  cbn [search rmatch last_char]. rewrite Hc.
  destruct (star_total ident_more None [c] s) as [[acc rest] H].
  pose proof (rmatch_frame _ _ _ _ _ _ H) as [acc' [s' [H' [_ L]]]].
  cbn [rmatch] in H. rewrite H. clear H. rename H' into H.
  inversion H; subst. cbn [List.length] in L.
  destruct acc as [| x acc]; [cbn [List.length] in L; lia |].
  cbn [string_of_rev].
  destruct (string_of_rev_nonempty acc x EmptyString) as [y [u E]].
  rewrite E. discriminate.
Qed.

Lemma table_split :
  lexer_regex_table = rules_before_ident ++ rules_from_ident.
Proof. reflexivity. Qed.

Lemma first_match_app (l1 l2 : list lexer_regex) (s : string) :
  Forall (fun r => FindString (compiled r) s = EmptyString) l1 ->
  first_match (l1 ++ l2) s = first_match l2 s.
Proof.
  induction 1 as [| r l1 Hr _ IH]; cbn [app]; [reflexivity |].
  rewrite first_match_skip by exact Hr. exact IH.
Qed.

(** None of the rules before the one for identifiers matches at one of the
    words AND, OR, LIKE. *)
Lemma word_passes_keywords (w rest : string) :
  In w ["AND"; "OR"; "LIKE"]%string ->
  Forall (fun r => FindString (compiled r) (w ++ rest) = EmptyString)
         rules_before_ident.
Proof.
  cbn [In]. intros H.
  repeat (destruct H as [H | H]; [subst w |]); [.. | contradiction];
    unfold rules_before_ident, lexer_regex_table; cbn [firstn];
    repeat (constructor; [anchored_find |]); constructor.
Qed.

Lemma word_is_ident (w rest : string) :
  In w ["AND"; "OR"; "LIKE"]%string ->
  exists found : string,
    first_match lexer_regex_table (w ++ rest) = Some (ident_rule, found).
Proof.
  intros Hw. rewrite table_split.
  rewrite first_match_app by (apply word_passes_keywords; exact Hw).
  unfold rules_from_ident, lexer_regex_table. cbn [skipn].
  cbn [first_match compiled].
  assert (Hm : FindString ident_regex (w ++ rest) <> EmptyString).
  { cbn [In] in Hw.
    repeat (destruct Hw as [Hw | Hw]; [subst w |]); [.. | contradiction];
      cbn [append]; apply ident_matches; reflexivity. }
  destruct (FindString ident_regex (w ++ rest)) as [| c f];
    [contradiction Hm; reflexivity |].
  eexists. reflexivity.
Qed.

Lemma no_keyword_token (s : string) (pos : Z) (tok : lexer_token) (s2 : string)
    (w : string) :
  lexer_step s pos = Ok (tok, s2) -> token tok <> sym_none ->
  In w ["AND"; "OR"; "LIKE"]%string ->
  val tok <> w.
Proof.
  intros Hs Hn Hw Ev.
  destruct (lexer_step_symbol _ _ _ _ Hs Hn) as [rule [Hf [Hv _]]].
  destruct (first_match_inv _ _ _ _ Hf) as [Hin [Hfound Hne]].
  destruct (table_anchored rule Hin Hv) as [Heq | [r Hr]].
  - rewrite Heq in Hfound. unfold FindString in Hfound.
    destruct (search equal_regex None s) as [[[pre m] rest] |] eqn:E.
    + apply equal_find in E. rewrite Ev in Hfound. subst m.
      cbn [In] in Hw.
      repeat (destruct Hw as [Hw | Hw]; [subst w |]); [.. | contradiction];
        destruct E; discriminate.
    + apply Hne. exact Hfound.
  - rewrite Hr in Hfound.
    destruct (FindString_anchored_prefix r s) as [rest Hrest];
      [rewrite <- Hfound; exact Hne |].
    rewrite <- Hfound, Ev in Hrest. subst s.
    destruct (word_is_ident w rest Hw) as [found' Hi].
    rewrite Hi in Hf. inversion Hf; subst rule.
    discriminate Hv.
Qed.

Lemma emitted_symbols (t : lexer_token) :
  emitted t ->
  token t <> sym_and /\ token t <> sym_or /\ token t <> sym_like
  /\ token t <> sym_forever.
Proof.
  intros [s [s2 Hs]].
  assert (K : forall sym : Z,
             sym <> sym_none -> token t = sym ->
             In (val t) (keys_of sym lexer_symbol_table)).
  { intros sym Hn E.
    destruct (lexer_step_symbol _ _ _ _ Hs) as [rule [_ [_ Hk]]];
      [rewrite E; exact Hn |].
    rewrite E in Hk. apply lookup_keys. exact Hk. }
  repeat split; intros E.
  - specialize (K sym_and ltac:(discriminate) E).
    vm_compute in K. destruct K as [K | []].
    eapply (no_keyword_token _ _ _ _ "AND" Hs);
      [rewrite E; discriminate | cbn; auto | symmetry; exact K].
  - specialize (K sym_or ltac:(discriminate) E).
    vm_compute in K. destruct K as [K | []].
    eapply (no_keyword_token _ _ _ _ "OR" Hs);
      [rewrite E; discriminate | cbn; auto | symmetry; exact K].
  - specialize (K sym_like ltac:(discriminate) E).
    vm_compute in K. destruct K as [K | []].
    eapply (no_keyword_token _ _ _ _ "LIKE" Hs);
      [rewrite E; discriminate | cbn; auto | symmetry; exact K].
  - specialize (K sym_forever ltac:(discriminate) E).
    vm_compute in K. exact K.
Qed.

(** ** Symbols that no text produces *)

(** X10.  No text makes the lexer emit the symbols of AND, OR and LIKE, whose
    words the rule for identifiers takes first, nor the symbol of FOREVER,
    which the symbol table gives to no key. *)
Theorem lexer_never_emits (q : string) (toks : list lexer_token)
    (t : lexer_token) :
  lexer q = Ok toks -> In t toks ->
  token t <> sym_and /\ token t <> sym_or /\ token t <> sym_like
  /\ token t <> sym_forever.
Proof.
  intros Hl Hin. apply lexer_emitted in Hl.
  rewrite Forall_forall in Hl. apply emitted_symbols. apply Hl. exact Hin.
Qed.

(** [do_temp_between] succeeds only past a token that carries [sym_and]. *)
Lemma do_temp_between_reads_and (clock : nat -> Z) (zone : Z) (p q : Parser) :
  do_temp_between clock zone p = Ok q ->
  exists t : lexer_token, In t (tokens p) /\ token t = sym_and.
Proof.
  unfold do_temp_between. intros H.
  apply bind_Ok in H. destruct H as [u [_ H]].
  apply bind_Ok in H. destruct H as [[v p1] [Hr H]].
  apply bind_Ok in H. destruct H as [b [Hb H]].
  destruct b; cbn [negb] in H;
    [| exfalso; eapply errorf_at_not_Ok; exact H].
  apply do_temp_ref_frame in Hr. destruct Hr as [_ [_ [_ [Ht _]]]].
  apply token_is_inv in Hb. destruct Hb as [t [Hat Et]].
  exists t. split.
  - apply index_In in Hat. cbn in Hat. rewrite Ht in Hat. exact Hat.
  - apply Z.eqb_eq. exact Et.
Qed.

(** X11.  No query text gets through BETWEEN: the AND between the two references
    reaches the parser as an identifier, and [do_temp_between] reports or
    panics. *)
Theorem between_never_parses (clock : nat -> Z) (zone : Z) (q : string)
    (toks : list lexer_token) (p : Parser) :
  lexer q = Ok toks -> tokens p = toks ->
  forall r : Parser, do_temp_between clock zone p <> Ok r.
Proof.
  intros Hl Hp r H. apply do_temp_between_reads_and in H.
  destruct H as [t [Hin Et]]. rewrite Hp in Hin.
  apply lexer_emitted in Hl. rewrite Forall_forall in Hl.
  destruct (emitted_symbols t (Hl t Hin)) as [Ha _].
  contradiction.
Qed.

Lemma rmatch_star (a : regex) (prev0 : option ascii) (acc : list ascii)
    (s : string) (k : list ascii -> string -> mresult) :
  rmatch (Star a) prev0 acc s k = star_loop a prev0 k (String.length s) acc s.
Proof. reflexivity. Qed.

(** A starred class takes the whole run of characters of the class when the
    continuation accepts what follows the run. *)
Lemma star_class_run (f : ascii -> bool) (prev0 : option ascii)
    (k : list ascii -> string -> mresult) (rest : string)
    (res : list ascii * string) :
  (match rest with String c _ => f c = false | EmptyString => True end) ->
  forall (body : string) (n : nat) (acc : list ascii),
    all_chars f body = true ->
    (String.length body <= n)%nat ->
    k (rev_chars body acc) rest = Some res ->
    star_loop (Class f) prev0 k n acc (body ++ rest) = Some res.
Proof.
  intros Hrest. induction body as [| c body IH]; intros n acc Hb Hn Hk;
    cbn [append all_chars rev_chars String.length] in *.
  - destruct n as [| n]; cbn [star_loop]; [exact Hk |].
    cbn [rmatch]. destruct rest as [| c r]; [exact Hk |].
    rewrite Hrest. exact Hk.
  - apply andb_true_iff in Hb. destruct Hb as [Hc Hb].
    destruct n as [| n]; [lia |]. cbn [star_loop rmatch]. rewrite Hc.
    change ((fix loop (n0 : nat) (acc0 : list ascii) (s : string) {struct n0}
               : mresult := _) n (c :: acc) (body ++ rest)%string)
      with (star_loop (Class f) prev0 k n (c :: acc) (body ++ rest)).
    rewrite (IH n (c :: acc) Hb ltac:(lia) Hk). reflexivity.
Qed.

Lemma string_of_rev_chars (body : string) (acc : list ascii) (t : string) :
  string_of_rev (rev_chars body acc) t = string_of_rev acc (body ++ t).
Proof.
  revert acc t. induction body as [| c body IH]; intros acc t;
    cbn [rev_chars append]; [reflexivity |].
  rewrite IH. reflexivity.
Qed.

Lemma strip_ends_quoted (a b : ascii) (body : string) :
  strip_ends (String a (body ++ String b EmptyString)) = Ok body.
Proof.
  unfold strip_ends.
  assert (T : forall s : string,
             take (String.length s) (s ++ String b EmptyString) = s).
  { induction s as [| c s IH]; cbn [String.length append take];
      [reflexivity | rewrite IH; reflexivity]. }
  destruct body as [| c body]; cbn [append]; [reflexivity |].
  f_equal.
  replace (String.length (body ++ String b EmptyString))
    with (String.length (String c body))
    by (rewrite length_append; cbn [String.length]; lia).
  apply (T (String c body)).
Qed.

Lemma is_quote_cases (qc : ascii) (P : ascii -> Prop) :
  is_quote qc -> P quote1 -> P quote2 -> P qc.
Proof. intros [E | E]; subst; auto. Qed.

Lemma all_chars_ext (f g : ascii -> bool) (s : string) :
  (forall c, f c = g c) -> all_chars f s = all_chars g s.
Proof.
  intros H. induction s as [| c s IH]; cbn [all_chars]; [reflexivity |].
  rewrite H, IH. reflexivity.
Qed.

Lemma rmatch_Seq (a b : regex) (prev0 : option ascii) (acc : list ascii)
    (s : string) (k : list ascii -> string -> mresult) :
  rmatch (Seq a b) prev0 acc s k
  = rmatch a prev0 acc s (fun acc' s' => rmatch b prev0 acc' s' k).
Proof. reflexivity. Qed.

Lemma rmatch_chr (c : ascii) (prev0 : option ascii) (acc : list ascii)
    (s : string) (k : list ascii -> string -> mresult) :
  rmatch (chr c) prev0 acc (String c s) k = k (c :: acc) s.
Proof. cbn [rmatch chr]. rewrite Ascii.eqb_refl. reflexivity. Qed.

Lemma rmatch_chr_miss (c x : ascii) (prev0 : option ascii) (acc : list ascii)
    (s : string) (k : list ascii -> string -> mresult) :
  Ascii.eqb c x = false -> rmatch (chr c) prev0 acc (String x s) k = None.
Proof. intros H. cbn [rmatch chr]. rewrite H. reflexivity. Qed.

Lemma rmatch_Bol (s : string) (k : list ascii -> string -> mresult) :
  rmatch Bol None [] s k = k [] s.
Proof. reflexivity. Qed.

(** A quote, what is not a quote, a quote. *)
Lemma quoted_match (qc : ascii) (body rest : string) (prev0 : option ascii)
    (k : list ascii -> string -> mresult) (res : list ascii * string) :
  all_chars (fun c => negb (Ascii.eqb c qc)) body = true ->
  k (qc :: rev_chars body [qc]) rest = Some res ->
  rmatch (Seq (chr qc) (Seq (Star (none_of [qc])) (chr qc))) prev0 []
         (String qc (body ++ String qc rest)) k
  = Some res.
Proof.
  intros Hb Ek. rewrite rmatch_Seq, rmatch_chr, rmatch_Seq, rmatch_star.
  apply star_class_run.
  - cbn [existsb]. rewrite Ascii.eqb_refl. reflexivity.
  - rewrite <- Hb. apply all_chars_ext. intros c. cbn [existsb].
    rewrite orb_false_r. reflexivity.
  - rewrite length_append. lia.
  - rewrite rmatch_chr. exact Ek.
Qed.

(** The match of the rule for strings at a quoted text. *)
Lemma string_head_match (qc : ascii) (body rest : string) :
  is_quote qc ->
  all_chars (fun c => negb (Ascii.eqb c qc)) body = true ->
  head_match string_regex (String qc (body ++ String qc rest))
  = Some (qc :: rev_chars body [qc], rest).
Proof.
  intros Hq Hb. unfold head_match, string_regex.
  rewrite rmatch_Seq, rmatch_Bol.
  destruct Hq as [E | E]; subst qc.
  - change (rmatch (Alt ?a ?b) ?p ?acc ?s ?k)
      with (match rmatch a p acc s k with
            | Some x => Some x
            | None => rmatch b p acc s k
            end).
    rewrite (quoted_match quote1 body rest None _ _ Hb eq_refl). reflexivity.
  - change (rmatch (Alt ?a ?b) ?p ?acc ?s ?k)
      with (match rmatch a p acc s k with
            | Some x => Some x
            | None => rmatch b p acc s k
            end).
    rewrite (quoted_match quote2 body rest None _ _ Hb eq_refl).
    rewrite rmatch_Seq, rmatch_chr_miss by reflexivity. reflexivity.
Qed.

Lemma quote_passes_keywords (qc : ascii) (rest : string) :
  is_quote qc ->
  Forall (fun r => FindString (compiled r) (String qc rest) = EmptyString)
         (firstn 15 lexer_regex_table).
Proof.
  intros [E | E]; subst qc; unfold lexer_regex_table; cbn [firstn];
    repeat (constructor; [anchored_find |]); constructor.
Qed.

Lemma string_of_rev_quoted (qc : ascii) (body : string) :
  string_of_rev (qc :: rev_chars body [qc]) EmptyString
  = String qc (body ++ String qc EmptyString).
Proof.
  cbn [string_of_rev]. rewrite string_of_rev_chars. reflexivity.
Qed.

Lemma string_first_match (qc : ascii) (body rest : string) :
  is_quote qc ->
  all_chars (fun c => negb (Ascii.eqb c qc)) body = true ->
  first_match lexer_regex_table (String qc (body ++ String qc rest))
  = Some (string_rule, String qc (body ++ String qc EmptyString)).
Proof.
  intros Hq Hb.
  change lexer_regex_table
    with (firstn 15 lexer_regex_table ++ skipn 15 lexer_regex_table).
  rewrite first_match_app by (apply quote_passes_keywords; exact Hq).
  unfold lexer_regex_table. cbn [skipn].
  fold string_regex. fold string_rule.
  apply first_match_hit. cbn [compiled string_rule]. unfold string_regex.
  rewrite FindString_anchored. fold string_regex.
  rewrite (string_head_match qc body rest Hq Hb).
  apply string_of_rev_quoted.
Qed.

(** ** A quoted string *)

(** X12.  A text in quotes, without that quote inside, becomes one token tagged
    string whose value is the text between the quotes; the text after the
    closing quote is left, trimmed. *)
Theorem quoted_string_token (qc : ascii) (body rest : string) (pos : Z) :
  is_quote qc ->
  all_chars (fun c => negb (Ascii.eqb c qc)) body = true ->
  lexer_step (String qc (body ++ String qc rest)) pos
  = Ok (mk_token "string" sym_none body pos, TrimSpace rest).
Proof.
  intros Hq Hb. unfold lexer_step.
  rewrite (string_first_match qc body rest Hq Hb).
  cbn [rtag string_rule compiled]. cbn [String.eqb Ascii.eqb Bool.eqb].
  rewrite strip_ends_quoted. cbn [bind].
  unfold string_regex.
  rewrite (ReplaceAll_anchored _ _ qc (rev_chars body [qc]) rest).
  - reflexivity.
  - fold string_regex. apply string_head_match; assumption.
Qed.

Lemma upcase_inv (c : ascii) :
  is_upper (upcase c) = true ->
  c = upcase c \/ c = ascii_of_nat (nat_of_ascii (upcase c) + 32).
Proof.
  destruct c as [[] [] [] [] [] [] [] []]; vm_compute; intros H;
    try discriminate; auto.
Qed.

(** ** Keywords are accepted in capitals only *)

(** X13.  FIND in any other spelling than capitals is matched by its rule, which
    ignores case, and is then missed in the symbol table. *)
Theorem find_in_capitals_only (w rest : string) (pos : Z) :
  upcase_string w = "FIND"%string -> w <> "FIND"%string -> ends_word rest ->
  lexer_step (w ++ rest) pos
  = Err ("lexer: token '" ++ w ++
         "' from regex table unknown in symbol table")%string.
Proof.
  intros Hu Hw Hr.
  destruct w as [| c1 [| c2 [| c3 [| c4 [| c5 w]]]]];
    cbn [upcase_string] in Hu; try discriminate.
  inversion Hu as [[U1 U2 U3 U4]]. clear Hu.
  destruct (upcase_inv c1) as [E1 | E1]; [rewrite U1; reflexivity | |];
    rewrite U1 in E1; subst c1;
    (destruct (upcase_inv c2) as [E2 | E2]; [rewrite U2; reflexivity | |];
     rewrite U2 in E2; subst c2);
    (destruct (upcase_inv c3) as [E3 | E3]; [rewrite U3; reflexivity | |];
     rewrite U3 in E3; subst c3);
    (destruct (upcase_inv c4) as [E4 | E4]; [rewrite U4; reflexivity | |];
     rewrite U4 in E4; subst c4);
    try (contradiction Hw; reflexivity);
    apply (ends_word_cases rest); try assumption; intros;
    vm_compute; reflexivity.
Qed.

Lemma all_from_spec (f : Z -> bool) (n : nat) :
  forall z : Z,
    all_from f n z = true ->
    forall i : Z, z <= i < z + Z.of_nat n -> f i = true.
Proof.
  induction n as [| n IH]; intros z H i Hi; [lia |].
  cbn [all_from] in H. apply andb_true_iff in H. destruct H as [H0 H].
  destruct (Z.eq_dec i z) as [-> | Hne]; [exact H0 |].
  apply (IH (z + 1) H). lia.
Qed.

Lemma era_round_trip :
  all_from doe_round_trip (Z.to_nat 146097) 0 = true.
Proof. vm_compute. reflexivity. Qed.

Lemma doe_round_trip_all (doe : Z) :
  0 <= doe < 146097 -> doe_round_trip doe = true.
Proof.
  intros H. apply (all_from_spec _ _ 0 era_round_trip). lia.
Qed.

Lemma civil_from_days_era (z : Z) :
  GoTime.civil_from_days z
  = let era := (z + 719468) / 146097 in
    let '(yoe, m, d) := civil_of_doe ((z + 719468) mod 146097) in
    ((if m <=? 2 then yoe + era * 400 + 1 else yoe + era * 400), m, d).
Proof.
  unfold GoTime.civil_from_days, civil_of_doe.
  rewrite Z.mod_eq by lia.
  replace (146097 * ((z + 719468) / 146097))
    with ((z + 719468) / 146097 * 146097) by lia.
  reflexivity.
Qed.

(** The day count of the civil date of a day count is that day count. *)
Lemma days_of_civil_of_days (z : Z) :
  let '(y, m, d) := GoTime.civil_from_days z in
  GoTime.days_from_civil y m d = z /\ 1 <= m <= 12 /\ 1 <= d <= 31.
Proof.
  rewrite civil_from_days_era. cbv zeta.
  pose proof (Z.mod_pos_bound (z + 719468) 146097 ltac:(lia)) as Hb.
  pose proof (Z.div_mod (z + 719468) 146097 ltac:(lia)) as Hz.
  pose proof (doe_round_trip_all _ Hb) as Hc. unfold doe_round_trip in Hc.
  destruct (civil_of_doe ((z + 719468) mod 146097)) as [[yoe m] d].
  repeat (apply andb_true_iff in Hc; destruct Hc as [Hc ?]).
  assert (Hy : (yoe + (z + 719468) / 146097 * 400) / 400
               = (z + 719468) / 146097).
  { rewrite Z.div_add by lia. rewrite Z.div_small by lia. lia. }
  split; [| lia].
  unfold GoTime.days_from_civil.
  unfold doe_of_civil in *.
  destruct (m <=? 2) eqn:Em;
    [replace (yoe + (z + 719468) / 146097 * 400 + 1 - 1)
       with (yoe + (z + 719468) / 146097 * 400) by lia |];
    cbv zeta; rewrite Hy;
    replace (yoe + (z + 719468) / 146097 * 400
             - (z + 719468) / 146097 * 400) with yoe by lia;
    lia.
Qed.

(** Adding days to a time adds as many times twenty-four hours: the zone
    is at a fixed offset. *)
Lemma AddDate_days (zone : Z) (t : GoTime.Time) (k : Z) :
  GoTime.AddDate zone t 0 0 k = GoTime.Add t (k * GoTime.day_ns).
Proof.
  unfold GoTime.AddDate, GoTime.civil, GoTime.Add.
  pose proof (days_of_civil_of_days (GoTime.wall zone t / GoTime.day_ns))
    as H.
  destruct (GoTime.civil_from_days (GoTime.wall zone t / GoTime.day_ns))
    as [[y m] d].
  destruct H as [Hd [Hm _]].
  unfold GoTime.Date. cbv zeta. f_equal.
  replace (m + 0 - 1) with (m - 1) by lia.
  rewrite (Z.div_small (m - 1) 12) by lia.
  rewrite (Z.mod_small (m - 1) 12) by lia.
  replace (y + 0 + 0) with y by lia. replace (m - 1 + 1) with m by lia.
  assert (Hl : GoTime.days_from_civil y m 1 + (d + k - 1)
               = GoTime.days_from_civil y m d + k).
  { unfold GoTime.days_from_civil. cbv zeta. lia. }
  rewrite Hl, Hd.
  assert (Hday : GoTime.day_ns = 86400000000000) by reflexivity.
  pose proof (Z.div_mod (GoTime.wall zone t) GoTime.day_ns
                ltac:(rewrite Hday; lia)) as Hw.
  unfold GoTime.wall in *. 
  set (w := GoTime.unix_ns t + GoTime.offset zone (GoTime.location t)
                              * GoTime.Second) in *.
  set (D := GoTime.day_ns) in *.
  nia.
Qed.

Lemma day_ns_value : GoTime.day_ns = 86400000000000.
Proof. reflexivity. Qed.

Lemma temp_day_value : temp_day = 86400000000000.
Proof. reflexivity. Qed.

(** Truncating to twenty-four hours rounds down to midnight (UTC): the zero
    time of Go is a midnight. *)
Lemma Truncate_day (t : GoTime.Time) :
  GoTime.unix_ns (GoTime.Truncate t (24 * GoTime.Hour))
  = midnight_before 0 (GoTime.unix_ns t).
Proof.
  unfold GoTime.Truncate, GoTime.Add, midnight_before.
  change (24 * GoTime.Hour <=? 0) with false. cbn [GoTime.unix_ns].
  change (24 * GoTime.Hour) with 86400000000000.
  change GoTime.unix_to_internal with (719162 * 86400000000000).
  rewrite temp_day_value. rewrite Z.mod_add by lia.
  pose proof (Z.div_mod (GoTime.unix_ns t) 86400000000000 ltac:(lia)). lia.
Qed.

Lemma day_unit_switch (zone tok mult times : Z) (now : GoTime.Time) :
  In (tok, mult) day_units ->
  - int64_max <= mult * times <= int64_max ->
  exists t : GoTime.Time,
    reltime_switch zone tok times now = Some t
    /\ GoTime.unix_ns t = midnight_before (mult * times) (GoTime.unix_ns now).
Proof.
  unfold day_units. cbn [In]. intros H Hr.
  assert (Hmax : int64_max = 9223372036854775807) by reflexivity.
  assert (Hmin : int64_min = -9223372036854775808) by reflexivity.
  destruct H as [H | [H | [H | []]]]; inversion H; subst tok mult;
    eexists; (split; [reflexivity |]);
    rewrite Truncate_day, AddDate_days; cbn [GoTime.Add GoTime.unix_ns];
    rewrite wrap64_id by lia;
    unfold midnight_before; rewrite day_ns_value, temp_day_value;
    [ replace (GoTime.unix_ns now + - times * 86400000000000)
        with (GoTime.unix_ns now + (- (1 * times)) * 86400000000000) by lia
    | replace (GoTime.unix_ns now + -7 * times * 86400000000000)
        with (GoTime.unix_ns now + (- (7 * times)) * 86400000000000) by lia
    | replace (GoTime.unix_ns now + -14 * times * 86400000000000)
        with (GoTime.unix_ns now + (- (14 * times)) * 86400000000000) by lia ];
    rewrite Z.div_add by lia; lia.
Qed.

(** ** DAY, WEEK and FORTNIGHT *)

(** Where the local zone keeps one offset from UTC, [AddDate] by days is a
    shift by as many times 24 hours, and the offset plays no part. *)
Lemma day_units_at_offset (clock : nat -> Z) (zone : Z) (p : Parser)
    (il : Z) (e : bool) (tok times mult : Z) (q : Parser) (u : unit) :
  trace p = Ok u ->
  reltime_shape (tick p) il = Ok (tok, times, q) ->
  In (tok, mult) day_units ->
  - int64_max <= mult * times <= int64_max ->
  in_int64 (midnight_before (mult * times) (clock (ticks p))) ->
  do_reltime_ref clock zone p il e
  = Ok (midnight_before (mult * times) (clock (ticks p)), q).
Proof.
  intros Ht Hs Hin Hr Hm. unfold do_reltime_ref, time_Now.
  rewrite Ht. cbn [bind]. rewrite Hs. cbn [bind].
  destruct (day_unit_switch zone tok mult times
              {| GoTime.unix_ns := clock (ticks p);
                 GoTime.location := GoTime.Local |} Hin Hr)
    as [t [Hsw Hu]].
  rewrite Hsw. unfold GoTime.UnixNano. rewrite Hu. cbn [GoTime.unix_ns].
  rewrite wrap64_id by exact Hm. reflexivity.
Qed.

(** X14.  With the local zone at UTC, a reference in days, weeks or
    fortnights, in any of the three shapes, resolves to the midnight (UTC)
    that lies the counted number of days before the day of the clock. *)
Theorem day_units_resolve (clock : nat -> Z) (p : Parser)
    (il : Z) (e : bool) (tok times mult : Z) (q : Parser) (u : unit) :
  trace p = Ok u ->
  reltime_shape (tick p) il = Ok (tok, times, q) ->
  In (tok, mult) day_units ->
  - int64_max <= mult * times <= int64_max ->
  in_int64 (midnight_before (mult * times) (clock (ticks p))) ->
  do_reltime_ref clock 0 p il e
  = Ok (midnight_before (mult * times) (clock (ticks p)), q).
Proof.
  intros Ht Hs Hin Hr Hm.
  apply (day_units_at_offset clock 0 p il e tok times mult q u);
    assumption.
Qed.

(** ** Weekdays *)

Lemma weekday_back (W wd : Z) :
  0 <= W <= 6 -> 0 <= wd <= 6 ->
  - 6 <= Z.rem (- (W - wd + 7)) 7 <= 0
  /\ (W + Z.rem (- (W - wd + 7)) 7 = wd
      \/ W + Z.rem (- (W - wd + 7)) 7 = wd - 7).
Proof.
  intros HW Hwd.
  pose (f := fun W wd : Z =>
               let j := Z.rem (- (W - wd + 7)) 7 in
               (-6 <=? j) && (j <=? 0)
               && ((W + j =? wd) || (W + j =? wd - 7))).
  assert (H : all_from (fun W => all_from (f W) 7 0) 7 0 = true)
    by (vm_compute; reflexivity).
  pose proof (all_from_spec _ _ _ H W ltac:(lia)) as H1. cbv beta in H1.
  pose proof (all_from_spec _ _ _ H1 wd ltac:(lia)) as H2.
  unfold f in H2. cbv zeta in H2.
  apply andb_true_iff in H2. destruct H2 as [H2 H3].
  apply andb_true_iff in H2. destruct H2 as [H2 H4].
  apply orb_true_iff in H3. lia.
Qed.

(** X15.  With the local zone at UTC, [prev_weekday] returns a midnight (UTC) of
    the weekday asked for: the latest one that is not after the current
    instant, so the current day itself when it is that weekday, and the one
    a week before that when [times] is above one. *)
Theorem prev_weekday_utc (cur : GoTime.Time) (wd times : Z) :
  0 <= wd <= 6 ->
  let r := prev_weekday 0 cur wd times in
  let back := if 1 <? times then 7 * GoTime.day_ns else 0 in
  GoTime.Weekday 0 r = wd
  /\ GoTime.unix_ns r mod GoTime.day_ns = 0
  /\ GoTime.unix_ns cur - back - 7 * GoTime.day_ns < GoTime.unix_ns r
     <= GoTime.unix_ns cur - back.
Proof.
  intros Hwd. cbv zeta. unfold prev_weekday.
  set (W := GoTime.Weekday 0 cur).
  assert (HW : 0 <= W <= 6).
  { unfold W, GoTime.Weekday.
    pose proof (Z.mod_pos_bound (GoTime.wall 0 cur / GoTime.day_ns + 4) 7
                  ltac:(lia)). lia. }
  destruct (weekday_back W wd HW Hwd) as [Hj Hsum].
  set (j := Z.rem (- (W - wd + 7)) 7) in *.
  rewrite !AddDate_days.
  assert (Hwall : forall t, GoTime.wall 0 t = GoTime.unix_ns t).
  { intros t. unfold GoTime.wall, GoTime.offset.
    destruct (GoTime.location t); lia. }
  assert (HWd : exists k, GoTime.unix_ns cur / GoTime.day_ns + 4 = 7 * k + W).
  { exists ((GoTime.unix_ns cur / GoTime.day_ns + 4) / 7).
    unfold W, GoTime.Weekday. rewrite Hwall.
    apply Z.div_mod. lia. }
  destruct HWd as [k Hk].
  pose proof (Z.div_mod (GoTime.unix_ns cur) GoTime.day_ns
                ltac:(rewrite day_ns_value; lia)) as Hdm.
  pose proof (Z.mod_pos_bound (GoTime.unix_ns cur) GoTime.day_ns
                ltac:(rewrite day_ns_value; lia)) as Hmb.
  assert (Hres : forall b : Z,
             GoTime.unix_ns
               (GoTime.Truncate
                  (GoTime.Add (GoTime.Add cur (j * GoTime.day_ns))
                              (b * GoTime.day_ns)) (24 * GoTime.Hour))
             = GoTime.day_ns * (GoTime.unix_ns cur / GoTime.day_ns + j + b)).
  { intros b. rewrite Truncate_day. unfold midnight_before.
    cbn [GoTime.Add GoTime.unix_ns]. rewrite temp_day_value, day_ns_value.
    replace (GoTime.unix_ns cur + j * 86400000000000 + b * 86400000000000)
      with (GoTime.unix_ns cur + (j + b) * 86400000000000) by lia.
    rewrite Z.div_add by lia. lia. }
  assert (Hres0 :
            GoTime.unix_ns
              (GoTime.Truncate (GoTime.Add cur (j * GoTime.day_ns))
                               (24 * GoTime.Hour))
            = GoTime.day_ns * (GoTime.unix_ns cur / GoTime.day_ns + j + 0)).
  { rewrite <- (Hres 0). f_equal. f_equal. unfold GoTime.Add.
    cbn [GoTime.unix_ns GoTime.location]. f_equal. lia. }
  assert (Hmod : forall x : Z, (GoTime.day_ns * x) mod GoTime.day_ns = 0).
  { intros x. rewrite Z.mul_comm. apply Z.mod_mul. rewrite day_ns_value. lia. }
  assert (Hdiv : forall x : Z, GoTime.day_ns * x / GoTime.day_ns = x).
  { intros x. rewrite Z.mul_comm. apply Z.div_mul. rewrite day_ns_value. lia. }
  assert (Hwk : forall x : Z,
             (GoTime.unix_ns cur / GoTime.day_ns + j + x * 7 + 4) mod 7 = wd).
  { intros x. symmetry.
    destruct Hsum as [E | E].
    - apply (Z.mod_unique_pos _ _ (k + x)); lia.
    - apply (Z.mod_unique_pos _ _ (k + x - 1)); lia. }
  destruct (1 <? times).
  - unfold GoTime.Weekday. rewrite Hwall.
    rewrite (Hres (-7)). rewrite Hmod, Hdiv.
    split; [| split; [reflexivity |]].
    + replace (GoTime.unix_ns cur / GoTime.day_ns + j + -7 + 4)
        with (GoTime.unix_ns cur / GoTime.day_ns + j + (-1) * 7 + 4) by lia.
      apply Hwk.
    + rewrite day_ns_value in *. lia.
  - unfold GoTime.Weekday. rewrite Hwall.
    rewrite Hres0. rewrite Hmod, Hdiv.
    split; [| split; [reflexivity |]].
    + replace (GoTime.unix_ns cur / GoTime.day_ns + j + 0 + 4)
        with (GoTime.unix_ns cur / GoTime.day_ns + j + 0 * 7 + 4) by lia.
      apply Hwk.
    + rewrite day_ns_value in *. lia.
Qed.

Lemma months_round_trip :
  all_from first_of_month_round_trip (Z.to_nat 4800) 0 = true.
Proof. vm_compute. reflexivity. Qed.

(** The civil date of the first day of a month is that first day. *)
Lemma civil_of_first_of_month (y m : Z) :
  1 <= m <= 12 ->
  GoTime.civil_from_days (GoTime.days_from_civil y m 1) = (y, m, 1).
Proof.
  intros Hm.
  set (y' := if m <=? 2 then y - 1 else y).
  pose proof (Z.div_mod y' 400 ltac:(lia)) as Hy.
  pose proof (Z.mod_pos_bound y' 400 ltac:(lia)) as Hyb.
  pose proof (all_from_spec _ _ _ months_round_trip
                (12 * (y' mod 400) + (m - 1)) ltac:(lia)) as H.
  unfold first_of_month_round_trip in H. cbv zeta in H.
  replace ((12 * (y' mod 400) + (m - 1)) / 12) with (y' mod 400) in H.
  2: { symmetry. rewrite Z.mul_comm, Z.div_add_l by lia.
       rewrite (Z.div_small (m - 1) 12) by lia. lia. }
  replace ((12 * (y' mod 400) + (m - 1)) mod 12 + 1) with m in H.
  2: { replace (12 * (y' mod 400) + (m - 1))
         with ((m - 1) + (y' mod 400) * 12) by lia.
       rewrite Z.mod_add by lia. rewrite Z.mod_small by lia. lia. }
  apply andb_true_iff in H. destruct H as [Hd Hc].
  apply andb_true_iff in Hd. destruct Hd as [Hd0 Hd1].
  assert (Hz : GoTime.days_from_civil y m 1 + 719468
               = y' / 400 * 146097 + doe_of_civil (y' mod 400) m 1).
  { unfold GoTime.days_from_civil, doe_of_civil. cbv zeta. fold y'.
    replace (y' - y' / 400 * 400) with (y' mod 400)
      by (rewrite Z.mod_eq by lia; lia).
    lia. }
  rewrite civil_from_days_era. cbv zeta. rewrite Hz.
  replace (y' / 400 * 146097 + doe_of_civil (y' mod 400) m 1)
    with (doe_of_civil (y' mod 400) m 1 + y' / 400 * 146097) by lia.
  rewrite Z.mod_add by lia. rewrite Z.div_add by lia.
  rewrite Z.mod_small by lia. rewrite Z.div_small by lia.
  destruct (civil_of_doe (doe_of_civil (y' mod 400) m 1)) as [[yoe' m'] d'].
  apply andb_true_iff in Hc. destruct Hc as [Hc Hc3].
  apply andb_true_iff in Hc. destruct Hc as [Hc1 Hc2].
  apply Z.eqb_eq in Hc1, Hc2, Hc3. subst yoe' m' d'.
  unfold y' in *. destruct (m <=? 2); f_equal; f_equal; lia.
Qed.

Lemma Date_first_of_month (zone y m : Z) :
  1 <= m <= 12 ->
  GoTime.Date zone y m 1 0 0 0 0 GoTime.UTC
  = {| GoTime.unix_ns := GoTime.days_from_civil y m 1 * GoTime.day_ns;
       GoTime.location := GoTime.UTC |}.
Proof.
  intros Hm. unfold GoTime.Date. cbv zeta. cbn [GoTime.offset]. f_equal.
  rewrite (Z.div_small (m - 1) 12) by lia.
  rewrite (Z.mod_small (m - 1) 12) by lia.
  replace (y + 0) with y by lia. replace (m - 1 + 1) with m by lia. lia.
Qed.

(** ** Months *)

(** X16.  [prev_month] returns the first day of the month asked for, at 00:00
    UTC, of the current year when that month lies before the current one
    and [times] is one, and of as many years earlier as [years_back]
    counts otherwise: the current month itself counts as not yet past. *)
Theorem prev_month_first_day (zone : Z) (cur : GoTime.Time) (month times : Z) :
  1 <= month <= 12 ->
  - int64_max < times < int64_max ->
  prev_month zone cur month times
  = {| GoTime.unix_ns :=
         GoTime.days_from_civil
           (GoTime.Year zone cur
            - years_back (GoTime.Month zone cur) month times) month 1
         * GoTime.day_ns;
       GoTime.location := GoTime.UTC |}.
Proof.
  intros Hm Ht. unfold prev_month, years_back. cbv zeta.
  assert (Hmax : int64_max = 9223372036854775807) by reflexivity.
  assert (Hmin : int64_min = -9223372036854775808) by reflexivity.
  rewrite Date_first_of_month by exact Hm.
  unfold GoTime.AddDate, GoTime.civil, GoTime.wall.
  cbn [GoTime.unix_ns GoTime.location GoTime.offset].
  replace (GoTime.days_from_civil (GoTime.Year zone cur) month 1
           * GoTime.day_ns + 0 * GoTime.Second)
    with (GoTime.days_from_civil (GoTime.Year zone cur) month 1
          * GoTime.day_ns) by lia.
  rewrite Z.div_mul by (rewrite day_ns_value; lia).
  rewrite Z.mod_mul by (rewrite day_ns_value; lia).
  rewrite civil_of_first_of_month by exact Hm.
  replace (month + 0) with month by lia. replace (1 + 0) with 1 by lia.
  rewrite Date_first_of_month by exact Hm.
  f_equal. f_equal. f_equal.
  destruct (GoTime.Month zone cur <=? month).
  - rewrite (wrap64_id (times + 1)) by lia.
    rewrite wrap64_id by lia. lia.
  - rewrite wrap64_id by lia. lia.
Qed.

(** ** The field list *)

(** X17.  The fields of a list are collected in the order of the query, each with
    its own name as alias; a comma between two fields may be left out.  The
    cursor stops on the token that ends the list. *)
Theorem field_list_in_order (sym_as : Z) (fuel : nat) (p : Parser)
    (pre : list lexer_token) (e : field_entry) (es : list field_entry)
    (term : lexer_token) (rest : list lexer_token) :
  fresh_symbol sym_as ->
  Forall entry_ok (e :: es) -> comma_before e = None ->
  ends_field_list term ->
  tokens p = pre ++ field_list_tokens (e :: es) ++ term :: rest ->
  num_tokens p = llen (tokens p) ->
  token_index p = llen pre ->
  llen (e :: es) <= int64_max ->
  (List.length (field_list_tokens (e :: es)) < fuel)%nat ->
  do_stmt_sublist sym_as fuel p
  = Ok (advance
          (set_fields p (fields p ++ field_names (e :: es))
                        (field_aliases p ++ field_names (e :: es)))
          (llen (field_list_tokens (e :: es)))).
Proof.
  intros Hf Hes Hc Hterm Htok Hnum Hidx Hmax Hfuel.
  unfold do_stmt_sublist, trace.
  assert (Ht : exists t, tok_at p (token_index p) = Ok t).
  { unfold tok_at. rewrite Htok, Hidx.
    cbn [field_list_tokens flat_map]. unfold entry_tokens. rewrite Hc.
    cbn [app]. eexists. apply index_app_head. }
  destruct Ht as [t Ht]. rewrite Ht. cbn [bind].
  rewrite (sublist_loop_fields sym_as term rest Hf Hterm (e :: es) fuel p 0 pre);
    try assumption; try lia.
  - cbn [bind].
    assert (Hl : 1 <= 0 + llen (e :: es)) by (rewrite llen_cons;
      pose proof (llen_nonneg es); lia).
    destruct (Z.ltb_spec (0 + llen (e :: es)) 1); [lia | reflexivity].
  - cbn [starts_with_field]. left. exact Hc.
Qed.

(** ** Error reports *)

(** X18.  Where the tokens are those of the query, the report of an error at a
    token of the statement slices the query within bounds: it returns the
    error with the rest of the query, and does not panic. *)
Theorem error_report_in_bounds {A : Type} (msg : string) (p : Parser)
    (i : Z) (t : lexer_token) :
  lexer (query p) = Ok (tokens p) ->
  tok_at p i = Ok t ->
  exists s : string,
    slice_from (query p) (stmt_pos t) = Ok s
    /\ @errorf_at A msg p i = Err (msg ++ " '" ++ s ++ "'")%string.
Proof.
  intros Hl Ht.
  pose proof (lexer_position_bounds _ _ Hl) as Hp.
  rewrite Forall_forall in Hp.
  pose proof (Hp t (index_In _ _ _ Ht)) as Hb. cbv beta in Hb.
  assert (Hs : slice_from (query p) (stmt_pos t)
               = Ok (drop (Z.to_nat (stmt_pos t)) (query p))).
  { unfold slice_from.
    destruct (Z.leb_spec 0 (stmt_pos t)); [| lia].
    destruct (Z.leb_spec (stmt_pos t) (len (query p))); [| lia].
    reflexivity. }
  eexists. split; [exact Hs |].
  apply errorf_at_Err with (t := t); assumption.
Qed.

Lemma lexer_positions_witness :
  lexer "FIND src_ip SINCE LAST HOUR" = Ok last_hour_tokens
  /\ Forall (fun t => 0 <= stmt_pos t < len "FIND src_ip SINCE LAST HOUR")
            last_hour_tokens
  /\ StronglySorted Z.lt (map stmt_pos last_hour_tokens).
Proof.
  assert (H : lexer "FIND src_ip SINCE LAST HOUR" = Ok last_hour_tokens)
    by (vm_compute; reflexivity).
  split; [exact H |].
  exact (lexer_positions _ _ H).
Defined.

Lemma lexer_tokens_consistent_witness :
  lexer "FIND src_ip SINCE LAST HOUR" = Ok last_hour_tokens
  /\ Forall token_consistent last_hour_tokens.
Proof.
  assert (H : lexer "FIND src_ip SINCE LAST HOUR" = Ok last_hour_tokens)
    by (vm_compute; reflexivity).
  split; [exact H |].
  exact (lexer_tokens_consistent _ _ H).
Defined.

Lemma lexer_never_emits_witness :
  lexer "FIND src_ip SINCE FOREVER" = Ok forever_tokens
  /\ In (mk_token "relative" sym_between "FOREVER" 18) forever_tokens
  /\ (token (mk_token "relative" sym_between "FOREVER" 18) <> sym_and
      /\ token (mk_token "relative" sym_between "FOREVER" 18) <> sym_or
      /\ token (mk_token "relative" sym_between "FOREVER" 18) <> sym_like
      /\ token (mk_token "relative" sym_between "FOREVER" 18) <> sym_forever).
Proof.
  assert (H : lexer "FIND src_ip SINCE FOREVER" = Ok forever_tokens)
    by (vm_compute; reflexivity).
  assert (Hin : In (mk_token "relative" sym_between "FOREVER" 18)
                   forever_tokens)
    by (cbn [In forever_tokens]; auto).
  split; [exact H |]. split; [exact Hin |].
  exact (lexer_never_emits _ _ _ H Hin).
Defined.

Lemma between_never_parses_witness :
  lexer "FIND src_ip BETWEEN YESTERDAY AND YESTERDAY" = Ok between_lexed
  /\ tokens at_between = between_lexed
  /\ forall r : Parser, do_temp_between sample_clock 0 at_between <> Ok r.
Proof.
  assert (H : lexer "FIND src_ip BETWEEN YESTERDAY AND YESTERDAY"
              = Ok between_lexed) by (vm_compute; reflexivity).
  split; [exact H |]. split; [reflexivity |].
  exact (between_never_parses sample_clock 0 _ _ at_between H eq_refl).
Defined.

Lemma blank_query_witness :
  all_space "   " = true
  /\ lexer "   " = Ok []
  /\ parse sample_clock 0 sample_as 1 "   " = Panic "index out of range".
Proof.
  split; [reflexivity |].
  exact (blank_query sample_clock 0 sample_as 1 "   " eq_refl).
Defined.

Lemma parser_pipe_first_witness :
  token (mk_token "pipe" sym_pipe "|" 0) = sym_pipe
  /\ parser sample_clock 0 sample_as 1 pipe_first
     = Panic "slice bounds out of range".
Proof.
  split; [reflexivity |].
  exact (parser_pipe_first sample_clock 0 sample_as 1 pipe_first
           _ _ eq_refl eq_refl).
Defined.

Lemma parser_expects_statement_witness :
  slice_from (query sort_first) 0 = Ok "SORT x"%string
  /\ parser sample_clock 0 sample_as 1 sort_first
     = Err "syntax error: expected statement at 'SORT x'".
Proof.
  split; [reflexivity |].
  exact (parser_expects_statement sample_clock 0 sample_as 1 sort_first
           (mk_token "command2" sym_sort "SORT" 0) _ "SORT x" eq_refl
           ltac:(discriminate) ltac:(discriminate) eq_refl).
Defined.

Lemma three_fields_ok : Forall entry_ok three_fields.
Proof. repeat constructor. Qed.

Lemma field_list_in_order_witness :
  Forall entry_ok three_fields
  /\ do_stmt_sublist sample_as 5 at_three_fields
     = Ok (advance
             (set_fields at_three_fields
                ["src_ip"; "dest_ip"; "port"]%string
                ["src_ip"; "dest_ip"; "port"]%string) 4).
Proof.
  split; [exact three_fields_ok |].
  exact (field_list_in_order sample_as 5 at_three_fields
           [ mk_token "command" sym_find "FIND" 0 ]
           _ _ (mk_token "temporal" sym_since "SINCE" 26)
           [ mk_token "relative" sym_yesterday "YESTERDAY" 32 ]
           sample_as_fresh three_fields_ok eq_refl
           (or_intror (or_introl eq_refl)) eq_refl eq_refl eq_refl
           ltac:(vm_compute; discriminate) ltac:(cbn; lia)).
Defined.

Lemma parser_aliases_repeat_fields_witness :
  parser sample_clock 0 sample_as 10 since_yesterday
  = Ok since_yesterday_parsed
  /\ field_aliases since_yesterday = fields since_yesterday
  /\ field_aliases since_yesterday_parsed = fields since_yesterday_parsed.
Proof.
  assert (H : parser sample_clock 0 sample_as 10 since_yesterday
              = Ok since_yesterday_parsed) by (vm_compute; reflexivity).
  split; [exact H |]. split; [reflexivity |].
  exact (parser_aliases_repeat_fields _ _ _ _ _ _ H eq_refl).
Defined.

Lemma end_is_ignored_witness :
  tok_at at_last_hour (token_index at_last_hour)
  = Ok (mk_token "relative" sym_last "LAST" 18)
  /\ do_temp_ref sample_clock 0 at_last_hour true
     = do_temp_ref sample_clock 0 at_last_hour false.
Proof.
  split; [reflexivity |].
  apply (end_is_ignored sample_clock 0 at_last_hour).
  intros t H. vm_compute in H. inversion H. split; discriminate.
Defined.

Lemma error_report_in_bounds_witness :
  lexer (query at_last_hour) = Ok (tokens at_last_hour)
  /\ tok_at at_last_hour 4 = Ok (mk_token "clock" sym_hour "HOUR" 23)
  /\ exists s : string,
       slice_from (query at_last_hour) 23 = Ok s
       /\ @errorf_at Parser "unexpected symbol at" at_last_hour 4
          = Err ("unexpected symbol at" ++ " '" ++ s ++ "'")%string.
Proof.
  assert (H : lexer (query at_last_hour) = Ok (tokens at_last_hour))
    by (vm_compute; reflexivity).
  split; [exact H |]. split; [reflexivity |].
  exact (error_report_in_bounds "unexpected symbol at" at_last_hour 4
           (mk_token "clock" sym_hour "HOUR" 23) H eq_refl).
Defined.

Lemma quoted_string_token_witness :
  is_quote quote1
  /\ lexer_step "'192.168.0.1' SINCE YESTERDAY" 30
     = Ok (mk_token "string" sym_none "192.168.0.1" 30,
           "SINCE YESTERDAY"%string).
Proof.
  split; [left; reflexivity |].
  exact (quoted_string_token quote1 "192.168.0.1" " SINCE YESTERDAY" 30
           (or_introl eq_refl) eq_refl).
Defined.

Lemma find_in_capitals_only_witness :
  upcase_string "find" = "FIND"%string
  /\ lexer_step "find src_ip" 0
     = Err "lexer: token 'find' from regex table unknown in symbol table".
Proof.
  split; [reflexivity |].
  exact (find_in_capitals_only "find" " src_ip" 0 eq_refl
           ltac:(discriminate) (or_intror (ex_intro _ "src_ip"%string eq_refl))).
Defined.

Lemma day_units_resolve_witness :
  reltime_shape (tick at_days_ago) 3 = Ok (sym_day, 3, advance (tick at_days_ago) 2)
  /\ do_reltime_ref sample_clock 0 at_days_ago 3 false
     = Ok (midnight_before 3 (sample_clock 0), advance (tick at_days_ago) 2).
Proof.
  split; [reflexivity |].
  exact (day_units_resolve sample_clock at_days_ago 3 false sym_day 3 1
           (advance (tick at_days_ago) 2) tt eq_refl eq_refl
           (or_introl eq_refl)
           ltac:(vm_compute; split; discriminate)
           ltac:(vm_compute; split; discriminate)).
Defined.

Lemma prev_weekday_utc_witness :
  GoTime.Weekday 0 (prev_weekday 0 sample_now 2 1) = 2
  /\ GoTime.unix_ns (prev_weekday 0 sample_now 2 1) mod GoTime.day_ns = 0
  /\ GoTime.unix_ns sample_now - 0 - 7 * GoTime.day_ns
     < GoTime.unix_ns (prev_weekday 0 sample_now 2 1)
     <= GoTime.unix_ns sample_now - 0.
Proof.
  exact (prev_weekday_utc sample_now 2 1 ltac:(lia)).
Defined.

Lemma prev_month_first_day_witness :
  prev_month 0 sample_now 4 1
  = {| GoTime.unix_ns := GoTime.days_from_civil 2023 4 1 * GoTime.day_ns;
       GoTime.location := GoTime.UTC |}.
Proof.
  exact (prev_month_first_day 0 sample_now 4 1 ltac:(lia)
           ltac:(vm_compute; split; reflexivity)).
Defined.

Lemma clauses_are_independent_witness :
  (exists q : Parser,
      do_stmt sample_as 10 since_yesterday = Ok q
      /\ same_condition since_yesterday q /\ same_range since_yesterday q
      /\ same_input since_yesterday q)
  /\ (do_matching_cond 2 at_matching = Ok at_matching_parsed
      /\ same_selection at_matching at_matching_parsed
      /\ same_range at_matching at_matching_parsed
      /\ same_input at_matching at_matching_parsed)
  /\ (exists q : Parser,
        do_temp_cond sample_clock 0 (set_token_index since_yesterday 2) = Ok q
        /\ same_selection (set_token_index since_yesterday 2) q
        /\ same_condition (set_token_index since_yesterday 2) q
        /\ same_input (set_token_index since_yesterday 2) q).
Proof.
  split; [| split].
  - eexists. split; [vm_compute; reflexivity |].
    apply (proj1 (clauses_are_independent sample_clock 0 sample_as 10
                    since_yesterday _)).
    vm_compute. reflexivity.
  - split; [vm_compute; reflexivity |].
    apply (proj1 (proj2 (clauses_are_independent sample_clock 0 sample_as 2
                           at_matching at_matching_parsed))).
    vm_compute. reflexivity.
  - eexists. split; [vm_compute; reflexivity |].
    apply (proj2 (proj2 (clauses_are_independent sample_clock 0 sample_as 10
                           (set_token_index since_yesterday 2) _))).
    vm_compute. reflexivity.
Defined.

(** Where the expression does not match at the head of the text, replacing
    goes on behind the first character. *)
Lemma replace_from_skip (r : regex) (repl : string) (n : nat)
    (prev0 : option ascii) (c : ascii) (s : string) :
  rmatch r prev0 [] (String c s) (fun acc s' => Some (acc, s')) = None ->
  replace_from (S n) r repl prev0 (String c s)
  = String c (replace_from (S n) r repl (Some c) s).
Proof.
  intros H. cbn [replace_from search]. rewrite H.
  destruct (search r (Some c) s) as [[[pre m] rest] |]; reflexivity.
Qed.

(** An expression that matches at no position of the text leaves it as it
    is.  [ok] tells the characters before the position that are met: all of
    them, or all but the start of the text. *)
Lemma replace_from_none (r : regex) (repl : string) (n : nat)
    (P : ascii -> bool) (ok : option ascii -> Prop) :
  (forall c : ascii, ok (Some c)) ->
  (forall (p : option ascii) (s : string),
      ok p -> all_chars P s = true ->
      rmatch r p [] s (fun acc s' => Some (acc, s')) = None) ->
  forall (s : string) (prev0 : option ascii),
    ok prev0 -> all_chars P s = true ->
    replace_from (S n) r repl prev0 s = s.
Proof.
  intros Hok Hr. induction s as [| c s IH]; intros prev0 Hp Hs.
  - cbn [replace_from search]. rewrite Hr by assumption. reflexivity.
  - rewrite replace_from_skip by (apply Hr; assumption).
    cbn [all_chars] in Hs. apply andb_true_iff in Hs.
    rewrite IH; [reflexivity | apply Hok | apply Hs].
Qed.

Lemma no_brace_open (c : ascii) :
  no_brace c = true -> Ascii.eqb "{" c = false.
Proof.
  unfold no_brace. intros H. apply andb_true_iff in H. destruct H as [H _].
  rewrite Ascii.eqb_sym. apply negb_true_iff. exact H.
Qed.

Lemma no_brace_close (c : ascii) :
  no_brace c = true -> Ascii.eqb "}" c = false.
Proof.
  unfold no_brace. intros H. apply andb_true_iff in H. destruct H as [_ H].
  rewrite Ascii.eqb_sym. apply negb_true_iff. exact H.
Qed.

Lemma line_comment_needs_brace (p : option ascii) (s : string) :
  True -> all_chars no_brace s = true ->
  rmatch line_comment_regex p [] s (fun acc s' => Some (acc, s')) = None.
Proof.
  intros _ Hs. unfold line_comment_regex. cbn [str chr rmatch].
  destruct s as [| a [| b [| c s]]]; cbn [all_chars] in Hs;
    try reflexivity;
    try (destruct (Ascii.eqb "/" a); reflexivity);
    try (destruct (Ascii.eqb "/" a); [| reflexivity];
         destruct (Ascii.eqb "/" b); reflexivity).
  destruct (Ascii.eqb "/" a); [| reflexivity].
  destruct (Ascii.eqb "/" b); [| reflexivity].
  apply andb_true_iff in Hs. destruct Hs as [_ Hs].
  apply andb_true_iff in Hs. destruct Hs as [_ Hs].
  apply andb_true_iff in Hs. destruct Hs as [Hc _].
  rewrite (no_brace_open c Hc). reflexivity.
Qed.

Lemma block_comment_needs_brace (p : option ascii) (s : string) :
  True -> all_chars no_brace s = true ->
  rmatch block_comment_regex p [] s (fun acc s' => Some (acc, s')) = None.
Proof.
  intros _ Hs. unfold block_comment_regex. cbn [str chr rmatch].
  destruct s as [| a [| b [| c s]]]; cbn [all_chars] in Hs.
  - reflexivity.
  - destruct (Ascii.eqb "/" a), (Ascii.eqb "*" a); reflexivity.
  - apply andb_true_iff in Hs. destruct Hs as [_ Hs].
    apply andb_true_iff in Hs. destruct Hs as [Hb _].
    rewrite (no_brace_close b Hb).
    destruct (Ascii.eqb "/" a), (Ascii.eqb "*" a), (Ascii.eqb "*" b);
      reflexivity.
  - apply andb_true_iff in Hs. destruct Hs as [_ Hs].
    apply andb_true_iff in Hs. destruct Hs as [Hb Hs].
    apply andb_true_iff in Hs. destruct Hs as [Hc _].
    rewrite (no_brace_close b Hb), (no_brace_open c Hc).
    destruct (Ascii.eqb "/" a), (Ascii.eqb "*" a), (Ascii.eqb "*" b);
      reflexivity.
Qed.

Lemma replace_spacing (s : string) :
  forall (n : nat) (prev0 : option ascii),
    (String.length s < n)%nat ->
    replace_from n spacing_regex " " prev0 s = map_chars to_space s.
Proof.
  induction s as [| c s IH]; intros n prev0 Hn;
    (destruct n as [| n]; [cbn [String.length] in Hn; lia |]).
  - reflexivity.
  - cbn [String.length] in Hn. cbn [map_chars]. unfold to_space.
    destruct (is_spacing c) eqn:Ec.
    + cbn [replace_from search rmatch spacing_regex any_of].
      unfold is_spacing in Ec. rewrite Ec. cbn [string_of_rev append].
      rewrite IH by lia. reflexivity.
    + rewrite replace_from_skip.
      * rewrite IH by lia. reflexivity.
      * cbn [rmatch spacing_regex any_of]. unfold is_spacing in Ec.
        rewrite Ec. reflexivity.
Qed.

Lemma map_chars_length (f : ascii -> ascii) (s : string) :
  String.length (map_chars f s) = String.length s.
Proof.
  induction s as [| c s IH]; cbn [map_chars String.length];
    [reflexivity | rewrite IH; reflexivity].
Qed.

Lemma preprocessed_no_brace (s : string) :
  all_chars no_brace s = true ->
  preprocessed s = TrimSpace (map_chars to_space s).
Proof.
  intros Hs. unfold preprocessed, lexer_pre_table.
  cbn [fold_left pre_compiled replace]. unfold ReplaceAll.
  fold line_comment_regex. fold block_comment_regex. fold spacing_regex.
  rewrite (replace_from_none line_comment_regex " " _ no_brace
             (fun _ => True) (fun _ => I) line_comment_needs_brace s None I Hs).
  rewrite (replace_from_none block_comment_regex " " _ no_brace
             (fun _ => True) (fun _ => I) block_comment_needs_brace
             s None I Hs).
  rewrite replace_spacing by lia. reflexivity.
Qed.

(** ** Comments *)

(** X19.  Of a text without braces the pre-processing changes the tabs, carriage
    returns and line feeds into spaces and trims the ends, and nothing else:
    the two patterns for comments ask for a brace, so a line comment or a
    block comment stays in the text that is tokenised. *)
Theorem comments_are_kept (s : string) :
  all_chars no_brace s = true ->
  preprocessed s = TrimSpace (map_chars to_space s).
Proof.
  intros Hs. rewrite (preprocessed_no_brace s Hs). reflexivity.
Qed.

Lemma comments_are_kept_witness :
  all_chars no_brace commented = true
  /\ preprocessed commented = commented
  /\ exists e : string, lexer commented = Err e.
Proof.
  split; [reflexivity |]. split.
  - exact (eq_trans (comments_are_kept commented eq_refl) eq_refl).
  - eexists. vm_compute. reflexivity.
Defined.

(** The tokens on which the loop of [do_stmt_sublist] goes round without
    moving the cursor: a literal, and behind a first field any token that is
    not a comma, a value or one of the three clause keywords. *)
Definition stalls_field_list (t : lexer_token) : Prop :=
  (token t = sym_none /\ literal_tag (tag t) = true)
  \/ (token t <> sym_none /\ token t <> sym_comma /\ token t <> sym_matching
      /\ token t <> sym_since /\ token t <> sym_between).

(** FIND count(x) SINCE YESTERDAY *)
Definition find_count : string := "FIND count(x) SINCE YESTERDAY".

Definition find_count_tokens : list lexer_token :=
  [ mk_token "command" sym_find "FIND" 0;
    mk_token "ident" sym_none "count" 5;
    mk_token "lparen" sym_lparen "(" 10;
    mk_token "ident" sym_none "x" 11;
    mk_token "rparen" sym_rparen ")" 12;
    mk_token "temporal" sym_since "SINCE" 14;
    mk_token "relative" sym_yesterday "YESTERDAY" 20 ].

(** FIND ALL src_ip SINCE YESTERDAY *)
Definition find_all_field : string := "FIND ALL src_ip SINCE YESTERDAY".

Definition find_all_field_tokens : list lexer_token :=
  [ mk_token "command" sym_find "FIND" 0;
    mk_token "cmdspec" sym_all "ALL" 5;
    mk_token "ident" sym_none "src_ip" 9;
    mk_token "temporal" sym_since "SINCE" 16;
    mk_token "relative" sym_yesterday "YESTERDAY" 22 ].

(** ** A field list that does not end *)

(** A result of the loop does not change with more fuel. *)
Lemma sublist_loop_more_fuel (a : Z) (k : nat) :
  forall (fuel : nat) (p : Parser) (s : Z),
    sublist_loop a fuel p s <> OutOfFuel ->
    sublist_loop a (k + fuel) p s = sublist_loop a fuel p s.
Proof.
  induction fuel as [| fuel IH]; intros p s H.
  - cbn [sublist_loop] in H |- *.
    destruct (negb (token_index p <? num_tokens p)) eqn:E;
      [| exfalso; apply H; reflexivity].
    destruct (k + 0)%nat; cbn [sublist_loop]; rewrite E; reflexivity.
  - replace (k + S fuel)%nat with (S (k + fuel)) by lia.
    cbn [sublist_loop] in H |- *.
    destruct (negb (token_index p <? num_tokens p)); [reflexivity |].
    destruct (sublist_body a p s) as [[q s' | q s'] | e | w |];
      cbn [bind] in H |- *; try reflexivity.
    apply IH. exact H.
Qed.

Lemma sublist_body_other (a : Z) (p : Parser) (t : lexer_token) (s : Z) :
  tok_at p (token_index p) = Ok t ->
  token t <> sym_none -> token t <> sym_comma -> token t <> sym_matching ->
  token t <> sym_since -> token t <> sym_between ->
  1 <= s ->
  sublist_body a p s = Ok (Continue p s).
Proof.
  intros Ht N0 N1 N2 N3 N4 Hs. unfold sublist_body. rewrite Ht. cbn [bind].
  apply Z.eqb_neq in N0, N1, N2, N3, N4. rewrite N0, N1, N2, N3, N4.
  destruct (Z.ltb_spec s 1); [lia | reflexivity].
Qed.

Lemma sublist_loop_other (a : Z) (p : Parser) (t : lexer_token) (s : Z)
    (fuel : nat) :
  token_index p < num_tokens p ->
  tok_at p (token_index p) = Ok t ->
  token t <> sym_none -> token t <> sym_comma -> token t <> sym_matching ->
  token t <> sym_since -> token t <> sym_between ->
  1 <= s ->
  sublist_loop a fuel p s = OutOfFuel.
Proof.
  intros Hi Ht N0 N1 N2 N3 N4 Hs.
  induction fuel as [| fuel IH];
    cbn [sublist_loop]; apply Z.ltb_lt in Hi as Hb; rewrite Hb; cbn [negb].
  - reflexivity.
  - rewrite (sublist_body_other a p t s Ht N0 N1 N2 N3 N4 Hs). cbn [bind].
    exact IH.
Qed.

(** Behind the fields of a list, a token that stalls the loop. *)
Lemma sublist_loop_stalls (a : Z) (fuel : nat) (p : Parser)
    (pre : list lexer_token) (e : field_entry) (es : list field_entry)
    (term : lexer_token) (rest : list lexer_token) :
  fresh_symbol a ->
  Forall entry_ok (e :: es) -> comma_before e = None ->
  stalls_field_list term -> token term <> a ->
  tokens p = pre ++ field_list_tokens (e :: es) ++ term :: rest ->
  num_tokens p = llen (tokens p) ->
  token_index p = llen pre ->
  llen (e :: es) <= int64_max ->
  sublist_loop a fuel p 0 = OutOfFuel.
Proof.
  intros Hf Hes Hc Hterm Hna Htok Hnum Hidx Hmax.
  destruct (sublist_loop a fuel p 0) as [r | err | w |] eqn:E;
    try reflexivity; exfalso;
    (assert (Hne : sublist_loop a fuel p 0 <> OutOfFuel)
       by (rewrite E; discriminate));
    pose proof (sublist_loop_more_fuel a
                  (List.length (field_list_tokens (e :: es))) fuel p 0 Hne)
      as Hm;
    rewrite (sublist_loop_prefix a term rest Hf Hna (e :: es) fuel p 0 pre)
      in Hm; try assumption; try lia;
    try (cbn [starts_with_field]; left; exact Hc);
    destruct (after_field_list p pre (e :: es) term rest
                (fields p ++ field_names (e :: es))
                (field_aliases p ++ field_names (e :: es))
                Htok Hnum Hidx) as [Ht Hlt];
    (assert (Hone : 1 <= 0 + llen (e :: es))
       by (rewrite llen_cons; pose proof (llen_nonneg es); lia));
    (destruct Hterm as [[T0 Tl] | [N0 [N1 [N2 [N3 N4]]]]];
     [ rewrite (sublist_loop_literal a _ term fuel _ Hlt Ht T0 Tl) in Hm
     | rewrite (sublist_loop_other a _ term _ fuel Hlt Ht N0 N1 N2 N3 N4 Hone)
         in Hm ]);
    rewrite E in Hm; discriminate Hm.
Qed.

(** X20.  The parser does not return from a FIND whose field list is followed by
    a literal, or by a token that is neither a comma, an identifier nor
    MATCHING, SINCE or BETWEEN (a parenthesis, an operator, another
    keyword): the loop of [do_stmt_sublist] has no case that moves the
    cursor past it, so no amount of fuel brings a result. *)
Theorem field_list_never_ends (clock : nat -> Z) (zone sym_as : Z)
    (fuel : nat) (p : Parser) (f : lexer_token) (e : field_entry)
    (es : list field_entry) (term : lexer_token) (rest : list lexer_token)
    (r : list lexer_token * list lexer_token) :
  fresh_symbol sym_as ->
  token f = sym_find ->
  Forall entry_ok (e :: es) -> comma_before e = None ->
  stalls_field_list term -> token term <> sym_as ->
  tokens p = f :: field_list_tokens (e :: es) ++ term :: rest ->
  sub_commands (tokens p) = Ok r ->
  llen (e :: es) <= int64_max ->
  parser clock zone sym_as fuel p = OutOfFuel.
Proof.
  intros Hf Ff Hes Hc Hterm Hna Htok Hsub Hmax.
  unfold parser. rewrite Hsub. cbn [bind].
  set (p0 := set_token_index (set_num_tokens p (llen (tokens p))) 0).
  assert (H0 : tok_at p0 (token_index p0) = Ok f).
  { unfold tok_at, p0.
    cbn [tokens set_token_index set_num_tokens token_index].
    rewrite Htok. reflexivity. }
  inversion Hes as [| e' es' [E1 [E2 E3]] Hes']; subst e' es'.
  assert (H1 : tok_at (advance p0 1) (token_index (advance p0 1))
               = Ok (field_token e)).
  { unfold tok_at, p0.
    cbn [tokens set_token_index set_num_tokens token_index advance].
    rewrite Htok. cbn [field_list_tokens flat_map]. unfold entry_tokens.
    rewrite Hc. reflexivity. }
  assert (Hl : sublist_loop sym_as fuel (advance p0 1) 0 = OutOfFuel).
  { apply (sublist_loop_stalls sym_as fuel (advance p0 1) [f] e es term rest);
      try assumption; unfold p0;
      cbn [tokens set_token_index set_num_tokens token_index advance
           num_tokens];
      try reflexivity; exact Htok. }
  unfold do_syntax. rewrite H0. cbn [bind]. rewrite Ff.
  cbn [Z.eqb sym_find Pos.eqb].
  unfold do_stmt, trace. rewrite H0. cbn [bind]. rewrite Ff.
  cbn [Z.eqb sym_find Pos.eqb].
  unfold do_stmt_list, trace. rewrite H1. cbn [bind]. rewrite E1.
  cbn [Z.eqb sym_none sym_all].
  unfold do_stmt_sublist, trace. rewrite H1. cbn [bind].
  rewrite Hl. reflexivity.
Qed.

Lemma field_list_never_ends_witness :
  lexer find_count = Ok find_count_tokens
  /\ parse sample_clock 0 (-1) 1000 find_count = OutOfFuel.
Proof.
  assert (L : lexer find_count = Ok find_count_tokens)
    by (vm_compute; reflexivity).
  split; [exact L |].
  unfold parse. rewrite L. cbn [bind].
  apply (field_list_never_ends sample_clock 0 (-1) 1000
           (new_Parser find_count find_count_tokens)
           (mk_token "command" sym_find "FIND" 0)
           {| comma_before := None;
              field_token := mk_token "ident" sym_none "count" 5 |}
           []
           (mk_token "lparen" sym_lparen "(" 10)
           [ mk_token "ident" sym_none "x" 11;
             mk_token "rparen" sym_rparen ")" 12;
             mk_token "temporal" sym_since "SINCE" 14;
             mk_token "relative" sym_yesterday "YESTERDAY" 20 ]
           (find_count_tokens, [])).
  - left. reflexivity.
  - reflexivity.
  - repeat constructor.
  - reflexivity.
  - right. cbn. repeat split; discriminate.
  - cbn. discriminate.
  - reflexivity.
  - reflexivity.
  - vm_compute. discriminate.
Defined.

(** ** FIND ALL *)

(** X21.  ALL takes no field list: where ALL is followed by a token other than
    MATCHING, SINCE or BETWEEN, the parser reports the missing temporal
    clause at that token. *)
Theorem all_takes_no_fields (clock : nat -> Z) (zone sym_as : Z)
    (fuel : nat) (p : Parser) (f a t : lexer_token)
    (rest : list lexer_token)
    (r : list lexer_token * list lexer_token) (s : string) :
  tokens p = f :: a :: t :: rest ->
  token f = sym_find -> token a = sym_all ->
  token t <> sym_matching -> token t <> sym_since ->
  token t <> sym_between ->
  sub_commands (tokens p) = Ok r ->
  slice_from (query p) (stmt_pos t) = Ok s ->
  parser clock zone sym_as fuel p
  = Err ("syntax error: expected temporal clause (SINCE or BETWEEN) at '"
         ++ s ++ "'")%string.
Proof.
  intros Htok Ff Fa Nm Ns Nb Hsub Hs.
  unfold parser. rewrite Hsub. cbn [bind].
  set (p0 := set_token_index (set_num_tokens p (llen (tokens p))) 0).
  assert (H0 : tok_at p0 (token_index p0) = Ok f).
  { unfold tok_at, p0.
    cbn [tokens set_token_index set_num_tokens token_index].
    rewrite Htok. reflexivity. }
  assert (H1 : tok_at (advance p0 1) (token_index (advance p0 1)) = Ok a).
  { unfold tok_at, p0.
    cbn [tokens set_token_index set_num_tokens token_index advance].
    rewrite Htok. reflexivity. }
  set (p2 := set_find_flags (advance (advance p0 1) 1)
               (Z.lor (find_flags (advance (advance p0 1) 1)) find_flags_all)).
  assert (H2 : tok_at p2 (token_index p2) = Ok t).
  { unfold tok_at, p2, p0.
    cbn [tokens set_token_index set_num_tokens token_index advance
         set_find_flags].
    rewrite Htok. reflexivity. }
  unfold do_syntax. rewrite H0. cbn [bind]. rewrite Ff.
  cbn [Z.eqb sym_find Pos.eqb].
  unfold do_stmt, trace. rewrite H0. cbn [bind]. rewrite Ff.
  cbn [Z.eqb sym_find Pos.eqb].
  unfold do_stmt_list, trace. rewrite H1. cbn [bind]. rewrite Fa.
  cbn [Z.eqb sym_all Pos.eqb]. fold p2. cbn [bind].
  rewrite H2. cbn [bind].
  apply Z.eqb_neq in Nm, Ns, Nb. rewrite Nm. cbn [bind].
  rewrite H2. cbn [bind]. rewrite Ns, Nb.
  unfold errorf_at. rewrite H2. cbn [bind].
  replace (query p2) with (query p) by reflexivity.
  rewrite Hs. reflexivity.
Qed.

Lemma all_takes_no_fields_witness :
  lexer find_all_field = Ok find_all_field_tokens
  /\ parse sample_clock 0 (-1) 1000 find_all_field
     = Err "syntax error: expected temporal clause (SINCE or BETWEEN) at 'src_ip SINCE YESTERDAY'".
Proof.
  assert (L : lexer find_all_field = Ok find_all_field_tokens)
    by (vm_compute; reflexivity).
  split; [exact L |].
  unfold parse. rewrite L. cbn [bind].
  change (Err (A := Parser)
            "syntax error: expected temporal clause (SINCE or BETWEEN) at 'src_ip SINCE YESTERDAY'")
    with (Err (A := Parser)
            ("syntax error: expected temporal clause (SINCE or BETWEEN) at '"
             ++ "src_ip SINCE YESTERDAY" ++ "'")%string).
  apply (all_takes_no_fields sample_clock 0 (-1) 1000
           (new_Parser find_all_field find_all_field_tokens)
           (mk_token "command" sym_find "FIND" 0)
           (mk_token "cmdspec" sym_all "ALL" 5)
           (mk_token "ident" sym_none "src_ip" 9)
           [ mk_token "temporal" sym_since "SINCE" 16;
             mk_token "relative" sym_yesterday "YESTERDAY" 22 ]
           (find_all_field_tokens, [])).
  - reflexivity.
  - reflexivity.
  - reflexivity.
  - cbn. discriminate.
  - cbn. discriminate.
  - cbn. discriminate.
  - reflexivity.
  - reflexivity.
Defined.

Lemma rmatch_Alt (a b : regex) (prev0 : option ascii) (acc : list ascii)
    (s : string) (k : list ascii -> string -> mresult) :
  rmatch (Alt a b) prev0 acc s k
  = match rmatch a prev0 acc s k with
    | Some x => Some x
    | None => rmatch b prev0 acc s k
    end.
Proof. reflexivity. Qed.

Lemma rmatch_Class (f : ascii -> bool) (prev0 : option ascii)
    (acc : list ascii) (x : ascii) (s : string)
    (k : list ascii -> string -> mresult) :
  rmatch (Class f) prev0 acc (String x s) k
  = if f x then k (x :: acc) s else None.
Proof. reflexivity. Qed.

Lemma ident_char_no_bracket (c : ascii) :
  ident_char c = true -> is_bracket c = false.
Proof.
  intros H. unfold is_bracket. cbn [existsb].
  destruct (Ascii.eqb_spec c "["); [subst; discriminate H |].
  destruct (Ascii.eqb_spec c "]"); [subst; discriminate H |].
  reflexivity.
Qed.

Lemma ident_start_is_ident_char (c : ascii) :
  ident_start_char c = true -> ident_char c = true.
Proof.
  unfold ident_start_char, ident_char. cbn [existsb].
  destruct (is_upper c), (is_lower c), (Ascii.eqb c "_"); cbn;
    intros H; try reflexivity; discriminate H.
Qed.

(** The match of the rule for identifiers at an identifier in brackets. *)
Lemma bracketed_match (c : ascii) (body rest : string) :
  ident_start_char c = true ->
  all_chars ident_char body = true ->
  head_match ident_regex (bracketed c body rest)
  = Some ("]"%char :: rev_chars body [c; "["%char], rest).
Proof.
  intros Hc Hb. unfold head_match, ident_regex, bracketed.
  rewrite rmatch_Alt.
  replace (rmatch (Seq Bol ident_body) None []
             (String "[" (String c (body ++ String "]" rest)))
             (fun acc s' => Some (acc, s')))
    with (@None (list ascii * string)) by reflexivity.
  rewrite !rmatch_Seq, rmatch_chr. unfold ident_body.
  rewrite rmatch_Seq. unfold ident_start. rewrite rmatch_Class.
  fold (ident_start_char c). rewrite Hc.
  unfold ident_more. rewrite rmatch_star.
  apply star_class_run.
  - reflexivity.
  - exact Hb.
  - rewrite length_append. lia.
  - rewrite rmatch_chr. reflexivity.
Qed.

Lemma search_head (r : regex) (prev0 : option ascii) (s : string)
    (acc : list ascii) (rest : string) :
  rmatch r prev0 [] s (fun acc s' => Some (acc, s')) = Some (acc, rest) ->
  search r prev0 s = Some (EmptyString, string_of_rev acc EmptyString, rest).
Proof. intros H. destruct s; cbn [search]; rewrite H; reflexivity. Qed.

Lemma bracket_passes_rules (rest : string) :
  Forall (fun r => FindString (compiled r) (String "[" rest) = EmptyString)
         (firstn 16 lexer_regex_table).
Proof.
  unfold lexer_regex_table; cbn [firstn];
    repeat (constructor; [anchored_find |]); constructor.
Qed.

Lemma bracketed_first_match (c : ascii) (body rest : string) :
  ident_start_char c = true ->
  all_chars ident_char body = true ->
  first_match lexer_regex_table (bracketed c body rest)
  = Some (ident_rule, bracketed c body EmptyString).
Proof.
  intros Hc Hb.
  change lexer_regex_table
    with (firstn 16 lexer_regex_table ++ skipn 16 lexer_regex_table).
  rewrite first_match_app by apply bracket_passes_rules.
  unfold lexer_regex_table. cbn [skipn].
  fold ident_regex. fold ident_rule.
  apply first_match_hit. cbn [compiled ident_rule].
  unfold FindString.
  rewrite (search_head _ _ _ _ _ (bracketed_match c body rest Hc Hb)).
  cbn [string_of_rev]. rewrite string_of_rev_chars. reflexivity.
Qed.

Lemma trim_right_last (f : ascii -> bool) (x : ascii) (s : string) :
  f x = true -> all_chars (fun c => negb (f c)) s = true ->
  trim_right f (s ++ String x EmptyString) = s.
Proof.
  intros Hx. induction s as [| c s IH]; intros Hs;
    cbn [append trim_right all_chars] in *.
  - rewrite Hx. reflexivity.
  - apply andb_true_iff in Hs. destruct Hs as [Hc Hs].
    rewrite (IH Hs). apply negb_true_iff in Hc.
    destruct s; [rewrite Hc |]; reflexivity.
Qed.

Lemma Trim_bracketed (c : ascii) (body : string) :
  ident_start_char c = true ->
  all_chars ident_char body = true ->
  Trim (bracketed c body EmptyString) ["["; "]"]%char = String c body.
Proof.
  intros Hc Hb. unfold Trim, bracketed. fold is_bracket.
  pose proof (ident_char_no_bracket c (ident_start_is_ident_char c Hc)) as Nc.
  cbn [trim_left]. rewrite Nc.
  change (is_bracket "[") with true. cbn iota.
  change (String c (body ++ String "]" EmptyString))
    with (String c body ++ String "]" EmptyString)%string.
  apply trim_right_last; [reflexivity |].
  cbn [all_chars]. rewrite Nc. cbn [negb andb].
  clear Hc Nc. induction body as [| x body IH]; cbn [all_chars] in *;
    [reflexivity |].
  apply andb_true_iff in Hb. destruct Hb as [Hx Hb].
  rewrite (ident_char_no_bracket x Hx), (IH Hb). reflexivity.
Qed.

(** Behind the start of the text the rule for identifiers needs an opening
    bracket. *)
Lemma ident_needs_bracket (p : option ascii) (s : string) :
  p <> None -> all_chars no_open_bracket s = true ->
  rmatch ident_regex p [] s (fun acc s' => Some (acc, s')) = None.
Proof.
  intros Hp Hs. destruct p as [x |]; [| contradiction Hp; reflexivity].
  unfold ident_regex. rewrite rmatch_Alt.
  replace (rmatch (Seq Bol ident_body) (Some x) [] s
             (fun acc s' => Some (acc, s')))
    with (@None (list ascii * string)) by reflexivity.
  rewrite !rmatch_Seq. destruct s as [| c s]; [reflexivity |].
  cbn [all_chars] in Hs. apply andb_true_iff in Hs. destruct Hs as [Hc _].
  apply rmatch_chr_miss. unfold no_open_bracket in Hc.
  rewrite Ascii.eqb_sym. apply negb_true_iff. exact Hc.
Qed.

Lemma ReplaceAll_bracketed (c : ascii) (body rest : string) :
  ident_start_char c = true ->
  all_chars ident_char body = true ->
  all_chars no_open_bracket rest = true ->
  ReplaceAll ident_regex (bracketed c body rest) EmptyString = rest.
Proof.
  intros Hc Hb Hr. unfold ReplaceAll.
  cbn [replace_from].
  rewrite (search_head _ _ _ _ _ (bracketed_match c body rest Hc Hb)).
  cbn [append string_of_rev last_of]. unfold bracketed.
  cbn [String.length].
  apply (replace_from_none ident_regex EmptyString _ no_open_bracket
           (fun p => p <> None)).
  - discriminate.
  - apply ident_needs_bracket.
  - destruct (string_of_rev_nonempty (rev_chars body [c; "["%char]) "]"%char
                EmptyString) as [x [u E]].
    cbn [string_of_rev] in E. rewrite E. cbn [last_of].
    destruct (last_of_some u x) as [z Ez]. rewrite Ez. discriminate.
  - exact Hr.
Qed.

(** ** An identifier in brackets *)

(** X22.  An identifier in square brackets becomes one token tagged ident whose
    value is the identifier without the brackets; where no other opening
    bracket follows, the text behind the closing bracket is left, trimmed. *)
Theorem bracketed_identifier (c : ascii) (body rest : string) (pos : Z) :
  ident_start_char c = true ->
  all_chars ident_char body = true ->
  all_chars no_open_bracket rest = true ->
  lexer_step (bracketed c body rest) pos
  = Ok (mk_token "ident" sym_none (String c body) pos, TrimSpace rest).
Proof.
  intros Hc Hb Hr. unfold lexer_step.
  rewrite (bracketed_first_match c body rest Hc Hb).
  cbn [rtag ident_rule compiled]. cbn [String.eqb Ascii.eqb Bool.eqb].
  cbn [bind].
  rewrite (Trim_bracketed c body Hc Hb).
  rewrite (ReplaceAll_bracketed c body rest Hc Hb Hr).
  reflexivity.
Qed.

Lemma bracketed_identifier_witness :
  bracketed "d" "est_ip" " , src_ip" = bracketed_query
  /\ lexer_step bracketed_query 0
     = Ok (mk_token "ident" sym_none "dest_ip" 0, ", src_ip"%string).
Proof.
  split; [reflexivity |].
  exact (bracketed_identifier "d" "est_ip" " , src_ip" 0
           eq_refl eq_refl eq_refl).
Defined.

Lemma index_out_of_range {A : Type} (l : list A) (i : Z) :
  llen l <= i -> index l i = Panic "index out of range".
Proof.
  unfold index, llen. intros H.
  destruct (Z.ltb_spec i 0); [reflexivity |].
  destruct (nth_error l (Z.to_nat i)) eqn:E; [| reflexivity].
  assert (Hn : nth_error l (Z.to_nat i) <> None) by congruence.
  apply nth_error_Some in Hn. lia.
Qed.

Lemma reltime_switch_no_unit (zone tok times : Z) (cur : GoTime.Time) :
  tok < sym_second \/ sym_december < tok ->
  reltime_switch zone tok times cur = None.
Proof.
  intros H. unfold reltime_switch.
  repeat match goal with
         | |- context [tok =? ?s] =>
             replace (tok =? s) with false
               by (symmetry; apply Z.eqb_neq;
                   unfold sym_second, sym_december in H; cbv; lia)
         end.
  reflexivity.
Qed.

(** ** A count without AGO, LAST without a unit *)

(** X23.  A count other than zero that is followed by one last token, so
    by no AGO, is taken without an error: whatever that token is, the
    reference resolves to the reading of the clock, and the cursor moves
    past the count only. *)
Theorem count_without_ago (clock : nat -> Z) (zone : Z) (p : Parser)
    (t u : lexer_token) (n : Z) (e : bool) :
  tok_at p (token_index p) = Ok t ->
  token t = sym_none -> tag t = "int"%string ->
  Atoi (val t) = Some n -> n <> 0 ->
  tok_at p (token_index p + 1) = Ok u ->
  num_tokens p <= token_index p + 2 ->
  do_temp_ref clock zone p e
  = Ok (wrap64 (clock (S (ticks p))), tick (advance (tick p) 1)).
Proof.
  intros Ht T0 Tt Hn Nn Hu Hnum.
  unfold do_temp_ref, trace. rewrite Ht. cbn [bind time_Now].
  replace (tok_at (tick p) (token_index (tick p))) with (Ok t) by (symmetry; exact Ht).
  cbn [bind]. rewrite T0. cbn [Z.eqb sym_none sym_day sym_yesterday sym_last].
  rewrite Tt. cbn [String.eqb Ascii.eqb Bool.eqb].
  unfold do_int_literal, trace.
  replace (tok_at (tick p) (token_index (tick p))) with (Ok t) by (symmetry; exact Ht).
  cbn [bind]. rewrite Hn. cbn [bind].
  unfold do_reltime_ref, trace.
  replace (tok_at (advance (tick p) 1) (token_index (advance (tick p) 1)))
    with (Ok u) by (symmetry; exact Hu).
  cbn [bind time_Now]. unfold reltime_shape.
  cbn [token_index num_tokens tick advance set_token_index].
  replace (token_index p + 1 + 1 <? num_tokens p) with false
    by (symmetry; apply Z.ltb_ge; lia).
  replace (token_index p + 1 + 2 <? num_tokens p) with false
    by (symmetry; apply Z.ltb_ge; lia).
  cbn [andalso bind]. rewrite reltime_switch_none.
  apply Z.eqb_neq in Nn. rewrite Nn. reflexivity.
Qed.

Lemma count_without_ago_witness :
  parser sample_clock 0 sample_as 10 since_3_days
  = Ok (set_time_to
          (set_time_from
             (set_fields (tick (tick (tick (advance since_3_days 4))))
                ["src_ip"%string] ["src_ip"%string])
             (sample_clock 1))
          (sample_clock 2))
  /\ do_temp_ref sample_clock 0 (set_token_index since_3_days 3) false
     = Ok (sample_clock 1,
           tick (advance (tick (set_token_index since_3_days 3)) 1)).
Proof.
  split; [vm_compute; reflexivity |].
  exact (count_without_ago sample_clock 0 (set_token_index since_3_days 3)
           (mk_token "int" sym_none "3" 18)
           (mk_token "calendars" sym_day "DAYS" 20) 3 false
           eq_refl eq_refl eq_refl eq_refl
           ltac:(discriminate) eq_refl ltac:(vm_compute; discriminate)).
Defined.

(** X24.  LAST before a token that is no unit: the error is reported at the
    token after that one, and where the statement ends there, the report
    indexes past the tokens and the parser panics. *)
Theorem last_needs_unit (clock : nat -> Z) (zone : Z) (p : Parser)
    (l u : lexer_token) (e : bool) :
  tok_at p (token_index p) = Ok l -> token l = sym_last ->
  tok_at p (token_index p + 1) = Ok u -> no_unit u ->
  token_index p + 1 < num_tokens p ->
  (llen (tokens p) <= token_index p + 2 ->
   do_temp_ref clock zone p e = Panic "index out of range")
  /\ (forall (v : lexer_token) (s : string),
         tok_at p (token_index p + 2) = Ok v ->
         slice_from (query p) (stmt_pos v) = Ok s ->
         do_temp_ref clock zone p e
         = Err ("unexpected symbol at '" ++ s ++ "'")%string).
Proof.
  intros Hl Tl Hu Nu Hnum.
  assert (E : do_temp_ref clock zone p e
              = errorf_at "unexpected symbol at" p (token_index p + 2)).
  { unfold do_temp_ref, trace. rewrite Hl. cbn [bind time_Now].
    replace (tok_at (tick p) (token_index (tick p))) with (Ok l)
      by (symmetry; exact Hl).
    cbn [bind]. rewrite Tl.
    cbn [Z.eqb sym_none sym_day sym_yesterday sym_last Pos.eqb].
    unfold do_reltime_ref, trace.
    replace (tok_at (tick p) (token_index (tick p))) with (Ok l)
      by (symmetry; exact Hl).
    cbn [bind time_Now]. unfold reltime_shape, token_is.
    cbn [token_index num_tokens tick advance set_token_index].
    replace (token_index p + 1 <? num_tokens p) with true
      by (symmetry; apply Z.ltb_lt; lia).
    cbn [andalso].
    replace (tok_at (tick (tick p)) (token_index p)) with (Ok l)
      by (symmetry; exact Hl).
    cbn [bind]. rewrite Tl. cbn [Z.eqb sym_last Pos.eqb].
    replace (tok_at (tick (tick p)) (token_index p + 1)) with (Ok u)
      by (symmetry; exact Hu).
    cbn [bind].
    rewrite (reltime_switch_no_unit zone (token u) 1 _ Nu).
    cbn [Z.eqb]. reflexivity. }
  rewrite E. unfold errorf_at, tok_at. split.
  - intros Hend. rewrite (index_out_of_range _ _ Hend). reflexivity.
  - intros v s Hv Hs. unfold tok_at in Hv. rewrite Hv. cbn [bind].
    rewrite Hs. reflexivity.
Qed.

Lemma last_needs_unit_witness :
  do_temp_ref sample_clock 0 (set_token_index since_last_ident 3) false
  = Panic "index out of range"
  /\ do_temp_ref sample_clock 0 (set_token_index since_last_ident_more 3) false
     = Err "unexpected symbol at 'now'".
Proof.
  split.
  - apply (proj1 (last_needs_unit sample_clock 0
                    (set_token_index since_last_ident 3)
                    (mk_token "relative" sym_last "LAST" 18)
                    (mk_token "ident" sym_none "src_ip" 23) false
                    eq_refl eq_refl eq_refl
                    ltac:(left; reflexivity) ltac:(reflexivity))).
    vm_compute. discriminate.
  - apply (proj2 (last_needs_unit sample_clock 0
                    (set_token_index since_last_ident_more 3)
                    (mk_token "relative" sym_last "LAST" 18)
                    (mk_token "ident" sym_none "src_ip" 23) false
                    eq_refl eq_refl eq_refl
                    ltac:(left; reflexivity) ltac:(reflexivity))
                 (mk_token "ident" sym_none "now" 30) "now"%string
                 eq_refl eq_refl).
Defined.

Lemma string_append_empty (s : string) : (s ++ EmptyString)%string = s.
Proof.
  induction s as [| c s IH]; cbn [append]; [| rewrite IH]; reflexivity.
Qed.

Lemma is_digit_cases (c : ascii) :
  is_digit c = true ->
  In c ["0"; "1"; "2"; "3"; "4"; "5"; "6"; "7"; "8"; "9"]%char.
Proof.
  intros H. destruct c as [b0 b1 b2 b3 b4 b5 b6 b7].
  destruct b0, b1, b2, b3, b4, b5, b6, b7; try discriminate H;
    cbn [In]; repeat (first [left; reflexivity | right]).
Qed.

Lemma digit_no_bracket (c : ascii) :
  is_digit c = true -> no_open_bracket c = true.
Proof.
  intros H. unfold no_open_bracket.
  destruct (Ascii.eqb_spec c "["); [subst; discriminate H | reflexivity].
Qed.

Lemma digit_passes_rules (c : ascii) (rest : string) :
  is_digit c = true ->
  Forall (fun r => FindString (compiled r) (String c rest) = EmptyString)
         (firstn 16 lexer_regex_table).
Proof.
  intros H. apply is_digit_cases in H. cbn [In] in H.
  repeat (destruct H as [H | H]; [subst c |]); try contradiction;
    unfold lexer_regex_table; cbn [firstn];
    repeat (constructor; [anchored_find |]); constructor.
Qed.

(** An expression that matches at no position is not found. *)
Lemma search_none (r : regex) (P : ascii -> bool)
    (ok : option ascii -> Prop) :
  (forall c : ascii, ok (Some c)) ->
  (forall (p : option ascii) (s : string),
      ok p -> all_chars P s = true ->
      rmatch r p [] s (fun acc s' => Some (acc, s')) = None) ->
  forall (s : string) (prev0 : option ascii),
    ok prev0 -> all_chars P s = true ->
    search r prev0 s = None.
Proof.
  intros Hok Hr. induction s as [| c s IH]; intros prev0 Hp Hs;
    cbn [search]; rewrite Hr by assumption; [reflexivity |].
  cbn [all_chars] in Hs. apply andb_true_iff in Hs.
  rewrite IH; [reflexivity | apply Hok | apply Hs].
Qed.

(** The rule for identifiers finds nothing in a text that starts with a
    digit and holds no opening bracket. *)
Lemma digit_passes_ident (c : ascii) (rest : string) :
  is_digit c = true -> all_chars no_open_bracket rest = true ->
  FindString ident_regex (String c rest) = EmptyString.
Proof.
  intros Hc Hr. unfold FindString. cbn [search].
  assert (H0 : rmatch ident_regex None [] (String c rest)
                 (fun acc s' => Some (acc, s')) = None).
  { apply is_digit_cases in Hc. cbn [In] in Hc.
    repeat (destruct Hc as [Hc | Hc]; [subst c; reflexivity |]).
    contradiction. }
  rewrite H0.
  rewrite (search_none ident_regex no_open_bracket (fun p => p <> None));
    [reflexivity | discriminate | apply ident_needs_bracket | discriminate
    | exact Hr].
Qed.

(** The match of the rule for ints at a run of digits. *)
Lemma int_head_match (c : ascii) (ds tail : string) :
  is_digit c = true -> all_chars is_digit ds = true -> ends_digits tail ->
  head_match int_regex (String c (ds ++ tail))
  = Some (rev_chars ds [c], tail).
Proof.
  intros Hc Hd Ht. unfold head_match, int_regex, plus, digit.
  rewrite rmatch_Seq, rmatch_Bol, !rmatch_Seq, rmatch_Class, Hc.
  rewrite rmatch_star. apply star_class_run.
  - destruct tail as [| x tail]; [exact I | apply Ht].
  - exact Hd.
  - rewrite length_append. lia.
  - unfold opt. rewrite rmatch_Alt.
    unfold lazy_plus, any_of. rewrite !rmatch_Seq.
    destruct tail as [| x tail]; [reflexivity |].
    rewrite rmatch_Class. destruct Ht as [_ [He HE]].
    cbn [existsb]. rewrite He, HE. reflexivity.
Qed.

Lemma int_first_match (c : ascii) (ds tail : string) :
  is_digit c = true -> all_chars is_digit ds = true -> ends_digits tail ->
  all_chars no_open_bracket tail = true ->
  first_match lexer_regex_table (String c (ds ++ tail))
  = Some (int_rule, String c ds).
Proof.
  intros Hc Hd Ht Hb.
  change lexer_regex_table
    with (firstn 16 lexer_regex_table ++ skipn 16 lexer_regex_table).
  rewrite first_match_app by (apply digit_passes_rules; exact Hc).
  unfold lexer_regex_table. cbn [skipn].
  fold ident_regex. fold int_regex. fold int_rule.
  rewrite first_match_skip.
  - apply first_match_hit. cbn [compiled int_rule]. unfold int_regex.
    rewrite FindString_anchored. fold int_regex.
    rewrite (int_head_match c ds tail Hc Hd Ht).
    rewrite string_of_rev_chars. cbn [string_of_rev].
    rewrite string_append_empty. reflexivity.
  - cbn [compiled]. apply digit_passes_ident; [exact Hc |].
    clear Hc Ht. induction ds as [| d ds IH]; cbn [append all_chars] in *;
      [exact Hb |].
    apply andb_true_iff in Hd. destruct Hd as [Hd Hds].
    rewrite (digit_no_bracket d Hd), (IH Hds). reflexivity.
Qed.

Lemma rev_chars_nonempty (s : string) (x : ascii) (l : list ascii) :
  rev_chars s (x :: l) <> [].
Proof.
  revert x l. induction s as [| c s IH]; intros x l; cbn [rev_chars];
    [discriminate | apply IH].
Qed.

(** ** Numbers *)

(** X25.  A run of digits at the head of the text becomes a token tagged
    int, whatever follows it other than a digit or an exponent, and the
    text behind the digits is left: a number with a decimal point is split
    at the point, so the rule for floats does not get to see it whole.
    (No opening bracket in the text behind, which the rule for identifiers
    would find first.) *)
Theorem digits_are_an_int (c : ascii) (ds tail : string) (pos : Z) :
  is_digit c = true -> all_chars is_digit ds = true -> ends_digits tail ->
  all_chars no_open_bracket tail = true ->
  lexer_step (String c (ds ++ tail)) pos
  = Ok (mk_token "int" sym_none (String c ds) pos, TrimSpace tail).
Proof.
  intros Hc Hd Ht Hb. unfold lexer_step.
  rewrite (int_first_match c ds tail Hc Hd Ht Hb).
  cbn [rtag int_rule compiled]. cbn [String.eqb Ascii.eqb Bool.eqb].
  cbn [bind].
  pose proof (int_head_match c ds tail Hc Hd Ht) as Hm.
  destruct (rev_chars ds [c]) as [| a acc] eqn:E;
    [exfalso; exact (rev_chars_nonempty ds c [] E) |].
  unfold int_regex in Hm |- *.
  rewrite (ReplaceAll_anchored _ _ a acc tail Hm). reflexivity.
Qed.

Lemma digits_are_an_int_witness :
  lexer_step "3.14 AND" 0
  = Ok (mk_token "int" sym_none "3" 0, ".14 AND"%string)
  /\ lexer_step "192.168.0.1" 7
     = Ok (mk_token "int" sym_none "192" 7, ".168.0.1"%string).
Proof.
  split.
  - exact (digits_are_an_int "3" "" ".14 AND" 0 eq_refl eq_refl
             (conj eq_refl (conj eq_refl eq_refl)) eq_refl).
  - exact (digits_are_an_int "1" "92" ".168.0.1" 7 eq_refl eq_refl
             (conj eq_refl (conj eq_refl eq_refl)) eq_refl).
Defined.

Lemma all_chars_append (f : ascii -> bool) (a b : string) :
  all_chars f (a ++ b) = all_chars f a && all_chars f b.
Proof.
  induction a as [| c a IH]; cbn [append all_chars]; [reflexivity |].
  rewrite IH, andb_assoc. reflexivity.
Qed.

Lemma map_chars_append (f : ascii -> ascii) (a b : string) :
  map_chars f (a ++ b) = (map_chars f a ++ map_chars f b)%string.
Proof.
  induction a as [| c a IH]; cbn [append map_chars]; [reflexivity |].
  rewrite IH. reflexivity.
Qed.

Lemma space_no_brace (c : ascii) : is_space c = true -> no_brace c = true.
Proof.
  intros H. unfold no_brace.
  destruct (Ascii.eqb_spec c "{"); [subst; discriminate H |].
  destruct (Ascii.eqb_spec c "}"); [subst; discriminate H |].
  reflexivity.
Qed.

Lemma to_space_is_space (c : ascii) :
  is_space c = true -> is_space (to_space c) = true.
Proof.
  intros H. unfold to_space. destruct (is_spacing c); [reflexivity | exact H].
Qed.

Lemma trim_left_spaces (w s : string) :
  all_space w = true ->
  trim_left is_space (w ++ s) = trim_left is_space s.
Proof.
  induction w as [| c w IH]; cbn [append all_space]; [reflexivity |].
  intros H. apply andb_true_iff in H. destruct H as [Hc Hw].
  cbn [trim_left]. rewrite Hc. apply IH. exact Hw.
Qed.

Lemma preprocessed_leading_space (ws q : string) :
  all_space ws = true -> all_chars no_brace q = true ->
  preprocessed (ws ++ q) = preprocessed q.
Proof.
  intros Hw Hq.
  assert (Hb : all_chars no_brace ws = true).
  { clear Hq. induction ws as [| c ws IH]; [reflexivity |].
    cbn [all_space all_chars] in *. apply andb_true_iff in Hw.
    destruct Hw as [Hc Hw]. rewrite (space_no_brace c Hc), (IH Hw).
    reflexivity. }
  assert (Hm : all_space (map_chars to_space ws) = true).
  { clear Hb Hq. induction ws as [| c ws IH]; [reflexivity |].
    cbn [all_space map_chars] in *. apply andb_true_iff in Hw.
    destruct Hw as [Hc Hw]. rewrite (to_space_is_space c Hc), (IH Hw).
    reflexivity. }
  rewrite (preprocessed_no_brace (ws ++ q))
    by (rewrite all_chars_append, Hb, Hq; reflexivity).
  rewrite (preprocessed_no_brace q Hq).
  rewrite map_chars_append. unfold TrimSpace.
  rewrite (trim_left_spaces _ _ Hm). reflexivity.
Qed.

(** ** Positions and leading white space *)

(** X26.  White space before a query (without braces) changes nothing in
    what the lexer returns, the positions included: they are counted in the
    trimmed text, not in the query, so for such a query every position is
    short by the length of the white space. *)
Theorem leading_space_is_not_counted (ws q : string) :
  all_space ws = true -> all_chars no_brace q = true ->
  lexer (ws ++ q) = lexer q.
Proof.
  intros Hw Hq. rewrite !lexer_unfold.
  rewrite (preprocessed_leading_space ws q Hw Hq). reflexivity.
Qed.

Lemma leading_space_is_not_counted_witness :
  lexer indented_sort
  = Ok [ mk_token "command2" sym_sort "SORT" 0;
         mk_token "ident" sym_none "x" 5 ]
  /\ slice_from indented_sort 5 = Ok "T x"%string.
Proof.
  split; [| reflexivity].
  exact (eq_trans
           (leading_space_is_not_counted "  " "SORT x" eq_refl eq_refl)
           eq_refl).
Defined.
